(** * Shape-DNA operator assembly and solver entry points (fs_shapeDNA.py),
      MGH/LTA readers (fsqc/fsqcUtils.py): a shallow embedding.

    The numeric code of [computeABtria] and [computeABtetra] is written once,
    over an abstract scalar type, the way the numpy code is written: whole
    columns (one value per cell) are combined element by element, stacked
    and flattened, and handed to the coordinate-format constructor of the
    sparse matrix.  Two instances are provided: the real numbers (exact
    arithmetic, used by the algebraic theorems) and binary64 floats (used to
    run the code on concrete meshes). *)

From Stdlib Require Import String Ascii.
From Stdlib Require Import List ZArith Bool Arith Lia Permutation Sorted DecimalString.
From Stdlib Require Import Reals Lra.
From Stdlib Require PrimFloat Uint63.
Import ListNotations.

Set Implicit Arguments.

(* ------------------------------------------------------------------ *)
(** ** Exceptions and results *)

(** The Python exceptions the modelled code can end with.  [LibraryError]
    stands for whatever an external library call (scikit-sparse, scipy,
    nibabel) raises; its argument is the library's own description. *)
Inductive exn : Type :=
| IndexError
| ValueError
| KeyError (key : string)
| AttributeError
| UnboundLocalError
| FileNotFoundError
| StructError
| PyException (msg : string)
| LibraryError (descr : string).

Inductive result (A : Type) : Type :=
| Ok (a : A)
| Err (e : exn).
Arguments Ok {A} a.
Arguments Err {A} e.

Definition bind {A B} (r : result A) (k : A -> result B) : result B :=
  match r with
  | Ok a => k a
  | Err e => Err e
  end.

Declare Scope result_scope.
Delimit Scope result_scope with result.
Notation "x <- e ;; k" := (bind e (fun x => k))
  (at level 61, e at next level, right associativity) : result_scope.
Notation "' p <- e ;; k" := (bind e (fun p => k))
  (at level 61, p pattern, e at next level, right associativity) : result_scope.

Fixpoint mapM {A B} (f : A -> result B) (l : list A) : result (list B) :=
  match l with
  | [] => Ok []
  | x :: xs =>
      match f x with
      | Ok y => match mapM f xs with
                | Ok ys => Ok (y :: ys)
                | Err e => Err e
                end
      | Err e => Err e
      end
  end.

(* ------------------------------------------------------------------ *)
(** ** Scalars *)

(** The arithmetic the assembly code uses.  [of_Z] embeds the integer
    literals of the source; decimal literals are quotients of two of them. *)
Class Scalar (T : Type) : Type := {
  of_Z : Z -> T;
  add : T -> T -> T;
  sub : T -> T -> T;
  mul : T -> T -> T;
  div : T -> T -> T;
  neg : T -> T;
  root : T -> T;
  absv : T -> T;
  ltb : T -> T -> bool;
  eqb : T -> T -> bool
}.

Declare Scope num_scope.
Delimit Scope num_scope with num.
Infix "+" := add : num_scope.
Infix "-" := sub : num_scope.
Infix "*" := mul : num_scope.
Infix "/" := div : num_scope.
Notation "- x" := (neg x) : num_scope.
Infix "<?" := ltb : num_scope.
Infix "=?" := eqb : num_scope.

(** Exact arithmetic.  The quotient of the reals is total ([x / 0] is the
    product of [x] with an unspecified real) where numpy gives inf or nan:
    what is proved here about the value of a quotient holds of the code
    where the divisor is not zero, which the theorems concerned assume. *)
#[export] Instance R_scalar : Scalar R := {
  of_Z := IZR;
  add := Rplus;
  sub := Rminus;
  mul := Rmult;
  div := Rdiv;
  neg := Ropp;
  root := R_sqrt.sqrt;
  absv := Rabs;
  ltb := fun x y => if Rlt_dec x y then true else false;
  eqb := fun x y => if Req_dec_T x y then true else false
}.

Definition float_of_Z (z : Z) : PrimFloat.float :=
  match z with
  | Zneg p => PrimFloat.opp (PrimFloat.of_uint63 (Uint63.of_Z (Zpos p)))
  | _ => PrimFloat.of_uint63 (Uint63.of_Z z)
  end.

#[export] Instance float_scalar : Scalar PrimFloat.float := {
  of_Z := float_of_Z;
  add := PrimFloat.add;
  sub := PrimFloat.sub;
  mul := PrimFloat.mul;
  div := PrimFloat.div;
  neg := PrimFloat.opp;
  root := PrimFloat.sqrt;
  absv := PrimFloat.abs;
  ltb := PrimFloat.ltb;
  eqb := PrimFloat.eqb
}.

(** A float is finite when it is neither an infinity nor a NaN. *)
Definition is_finite (x : PrimFloat.float) : bool :=
  negb (PrimFloat.is_nan x) && negb (PrimFloat.is_infinity x).

(* ------------------------------------------------------------------ *)
(** ** Arrays *)

(** One-dimensional numpy arrays are lists; an (M x 3) array is a list of
    rows.  Element-wise binary operations pair the two arrays position by
    position. *)
Fixpoint zip_with {A B C} (f : A -> B -> C) (l : list A) (l' : list B) : list C :=
  match l, l' with
  | x :: xs, y :: ys => f x y :: zip_with f xs ys
  | _, _ => []
  end.

(** [numpy.column_stack]: the given columns become the columns of a
    two-dimensional array, kept here as the list of its rows. *)
Fixpoint column_stack {A} (cols : list (list A)) : list (list A) :=
  match cols with
  | [] => []
  | c :: cs =>
      match cs with
      | [] => map (fun x => [x]) c
      | _ :: _ => zip_with cons c (column_stack cs)
      end
  end.

(** [ndarray.flatten] of a two-dimensional array: row after row. *)
Definition flatten {A} (rows : list (list A)) : list A := List.concat rows.

(** Cells: a triangle is a triple of vertex indices, a tetrahedron a
    quadruple.  [t[:, k]] fails with [IndexError] on an empty cell list,
    which numpy turns into a one-dimensional array. *)
Definition tria : Type := nat * nat * nat.
Definition tetra : Type := nat * nat * nat * nat.

Definition column {C} (f : C -> nat) (t : list C) : result (list nat) :=
  match t with
  | [] => Err IndexError
  | _ :: _ => Ok (map f t)
  end.

Definition tria0 (c : tria) : nat := let '(a, _, _) := c in a.
Definition tria1 (c : tria) : nat := let '(_, b, _) := c in b.
Definition tria2 (c : tria) : nat := let '(_, _, d) := c in d.

Definition tetra0 (c : tetra) : nat := let '(a, _, _, _) := c in a.
Definition tetra1 (c : tetra) : nat := let '(_, b, _, _) := c in b.
Definition tetra2 (c : tetra) : nat := let '(_, _, d, _) := c in d.
Definition tetra3 (c : tetra) : nat := let '(_, _, _, e) := c in e.

(** [v[idx, :]]: the rows of [v] at the given indices; an index outside
    the array is an [IndexError]. *)
Definition take {A} (v : list A) (idx : list nat) : result (list A) :=
  mapM (fun i => match nth_error v i with
                 | Some x => Ok x
                 | None => Err IndexError
                 end) idx.

(* ------------------------------------------------------------------ *)
(** ** Sparse matrices in coordinate format *)

Section Sparse.
Context {T : Type} {num : Scalar T}.
Local Open Scope num_scope.

(** What [sparse.csc_matrix((data, (I, J)))] holds: the shape, taken from
    the largest row and column index, and the coordinate triples.  Triples
    at the same position add up. *)
Record matrix : Type := Matrix {
  shape : nat * nat;
  triples : list (nat * nat * T)
}.

Definition csc_matrix (data : list T) (I J : list nat) : result matrix :=
  if negb ((length I =? length data)%nat && (length J =? length data)%nat)
  then Err ValueError
  else match I with
       | [] => Err ValueError
       | _ :: _ =>
           Ok {| shape := (S (list_max I), S (list_max J));
                 triples := combine (combine I J) data |}
       end.

Definition total (l : list T) : T := fold_right add (of_Z 0) l.

(** The value a triple contributes to position (i, j). *)
Definition at_pos (i j : nat) (e : nat * nat * T) : T :=
  let '(r, c, x) := e in
  if ((r =? i)%nat && (c =? j)%nat)%bool then x else of_Z 0.

(** [A[i, j]]: the sum of the triples stored at (i, j). *)
Definition entry (A : matrix) (i j : nat) : T :=
  total (map (at_pos i j) (triples A)).

(** The sum of row [i] over all the columns of the matrix. *)
Definition row_sum (A : matrix) (i : nat) : T :=
  total (map (entry A i) (seq 0 (snd (shape A)))).

(** [A - sigma * M] on sparse matrices of equal shape. *)
Definition scale (s : T) (A : matrix) : matrix :=
  {| shape := shape A;
     triples := map (fun '(r, c, x) => (r, c, s * x)) (triples A) |}.

Definition msub (A B : matrix) : result matrix :=
  if ((fst (shape A) =? fst (shape B))%nat && (snd (shape A) =? snd (shape B))%nat)%bool
  then Ok {| shape := shape A;
             triples := triples A ++ map (fun '(r, c, x) => (r, c, - x)) (triples B) |}
  else Err ValueError.

(** [A @ x] for a vector of the matrix's column count. *)
Definition matvec (A : matrix) (x : list T) : list T :=
  map (fun i =>
         total (map (fun '(r, c, a) =>
                       if (r =? i)%nat then a * nth c x (of_Z 0) else of_Z 0)
                    (triples A)))
      (seq 0 (fst (shape A))).
End Sparse.

Arguments matrix T : clear implicits.
Arguments total : simpl never.

(** What a triple contributes to the sum of row [i] over the first [n]
    columns. *)
Definition in_row (i n : nat) (e : nat * nat * R) : R :=
  let '(r, c, x) := e in if ((r =? i)%nat && (c <? n)%nat)%bool then x else 0%R.

(** A list of triples is symmetric when it gives (i, j) and (j, i) the
    same sum. *)
Definition symmetric_triples (l : list (nat * nat * R)) : Prop :=
  forall i j, total (map (at_pos i j) l) = total (map (at_pos j i) l).

(** A matrix is symmetric when it is square and [A[i, j] = A[j, i]]. *)
Definition symmetric (A : matrix R) : Prop :=
  fst (shape A) = snd (shape A) /\ forall i j, entry A i j = entry A j i.

(* ------------------------------------------------------------------ *)
(** ** Operator assembly *)

Section Assembly.
Context {T : Type} {num : Scalar T}.
Local Open Scope num_scope.
Local Open Scope result_scope.

Definition vec3 : Type := T * T * T.

Definition vsub (a b : vec3) : vec3 :=
  let '(a0, a1, a2) := a in let '(b0, b1, b2) := b in (a0 - b0, a1 - b1, a2 - b2).
Definition vmul (a b : vec3) : vec3 :=
  let '(a0, a1, a2) := a in let '(b0, b1, b2) := b in (a0 * b0, a1 * b1, a2 * b2).
(** [numpy.cross] on one pair of rows. *)
Definition cross3 (a b : vec3) : vec3 :=
  let '(a0, a1, a2) := a in let '(b0, b1, b2) := b in
  (a1 * b2 - a2 * b1, a2 * b0 - a0 * b2, a0 * b1 - a1 * b0).
(** [numpy.sum(_, axis=1)] on one row. *)
Definition sum3 (a : vec3) : T := let '(a0, a1, a2) := a in (a0 + a1) + a2.

Definition arr_sub := zip_with vsub.
Definition arr_mul := zip_with vmul.
Definition cross := zip_with cross3.
Definition sum_axis1 := map sum3.

(** [numpy.mean] of a one-dimensional array: the sum, taken from left to
    right, over the length. *)
Definition np_sum (l : list T) : T := fold_left add l (of_Z 0).
Definition mean (l : list T) : T := np_sum l / of_Z (Z.of_nat (length l)).

(** [sys.float_info.epsilon], 2^-52. *)
Definition epsilon : T := of_Z 1 / of_Z (2 ^ 52).

Infix ".+" := (zip_with add) (at level 50, left associativity).
Infix ".-" := (zip_with sub) (at level 50, left associativity).
Infix ".*" := (zip_with mul) (at level 40, left associativity).
Infix "./" := (zip_with div) (at level 40, left associativity).
Notation ".~ a" := (map neg a) (at level 35, right associativity).
Notation "a ./. c" := (map (fun x => x / c) a) (at level 40, left associativity).

Definition computeABtria (v : list vec3) (t : list tria) (lump : bool)
  : result (matrix T * matrix T) :=
  (* Compute vertex coordinates and a difference vector for each triangle *)
  t1 <- column tria0 t ;;
  t2 <- column tria1 t ;;
  t3 <- column tria2 t ;;
  v1 <- take v t1 ;;
  v2 <- take v t2 ;;
  v3 <- take v t3 ;;
  let v2mv1 := arr_sub v2 v1 in
  let v3mv2 := arr_sub v3 v2 in
  let v1mv3 := arr_sub v1 v3 in
  (* Compute cross product and 4*vol for each triangle *)
  let cr := cross v3mv2 v1mv3 in
  let vol := map (fun s => of_Z 2 * root s) (sum_axis1 (arr_mul cr cr)) in
  (* zero vol will cause division by zero below, so set to small value *)
  let vol_mean := (of_Z 1 / of_Z 10000) * mean vol in
  let vol := map (fun x => if x <? epsilon then vol_mean else x) vol in
  (* compute cotangents for A *)
  let A12 := sum_axis1 (arr_mul v3mv2 v1mv3) ./ vol in
  let A23 := sum_axis1 (arr_mul v1mv3 v2mv1) ./ vol in
  let A31 := sum_axis1 (arr_mul v2mv1 v3mv2) ./ vol in
  (* compute diagonals (from row sum = 0) *)
  let A11 := .~ A12 .- A31 in
  let A22 := .~ A12 .- A23 in
  let A33 := .~ A31 .- A23 in
  (* stack columns to assemble data *)
  let localA := column_stack [A12; A12; A23; A23; A31; A31; A11; A22; A33] in
  let I := column_stack [t1; t2; t2; t3; t3; t1; t1; t2; t3] in
  let J := column_stack [t2; t1; t3; t2; t1; t3; t1; t2; t3] in
  let I := flatten I in
  let J := flatten J in
  let localA := flatten localA in
  A <- csc_matrix localA I J ;;
  if negb lump then
    (* create b matrix data (account for that vol is 4 times area) *)
    let Bii := vol ./. of_Z 24 in
    let Bij := vol ./. of_Z 48 in
    let localB := column_stack [Bij; Bij; Bij; Bij; Bij; Bij; Bii; Bii; Bii] in
    let localB := flatten localB in
    B <- csc_matrix localB I J ;;
    Ok (A, B)
  else
    (* when lumping put all onto diagonal (area/3 for each vertex) *)
    let Bii := vol ./. of_Z 12 in
    let localB := column_stack [Bii; Bii; Bii] in
    let I := column_stack [t1; t2; t3] in
    let I := flatten I in
    let localB := flatten localB in
    B <- csc_matrix localB I I ;;
    Ok (A, B).

Definition computeABtetra (v : list vec3) (t : list tetra) (lump : bool)
  : result (matrix T * matrix T) :=
  t1 <- column tetra0 t ;;
  t2 <- column tetra1 t ;;
  t3 <- column tetra2 t ;;
  t4 <- column tetra3 t ;;
  v1 <- take v t1 ;;
  v2 <- take v t2 ;;
  v3 <- take v t3 ;;
  v4 <- take v t4 ;;
  let e1 := arr_sub v2 v1 in
  let e2 := arr_sub v3 v2 in
  let e3 := arr_sub v1 v3 in
  let e4 := arr_sub v4 v1 in
  let e5 := arr_sub v4 v2 in
  let e6 := arr_sub v4 v3 in
  (* Compute cross product and 6 * vol for each tetrahedron *)
  let cr := cross e1 e3 in
  let vol := map absv (sum_axis1 (arr_mul e4 cr)) in
  (* zero vol will cause division by zero below, so set to small value *)
  let vol_mean := (of_Z 1 / of_Z 10000) * mean vol in
  let vol := map (fun x => if x =? of_Z 0 then vol_mean else x) vol in
  (* compute dot products of edge vectors *)
  let e11 := sum_axis1 (arr_mul e1 e1) in
  let e22 := sum_axis1 (arr_mul e2 e2) in
  let e33 := sum_axis1 (arr_mul e3 e3) in
  let e44 := sum_axis1 (arr_mul e4 e4) in
  let e55 := sum_axis1 (arr_mul e5 e5) in
  let e66 := sum_axis1 (arr_mul e6 e6) in
  let e12 := sum_axis1 (arr_mul e1 e2) in
  let e13 := sum_axis1 (arr_mul e1 e3) in
  let e14 := sum_axis1 (arr_mul e1 e4) in
  let e15 := sum_axis1 (arr_mul e1 e5) in
  let e23 := sum_axis1 (arr_mul e2 e3) in
  let e25 := sum_axis1 (arr_mul e2 e5) in
  let e26 := sum_axis1 (arr_mul e2 e6) in
  let e34 := sum_axis1 (arr_mul e3 e4) in
  let e36 := sum_axis1 (arr_mul e3 e6) in
  (* compute entries for A *)
  let A12 := (.~ e36 .* e26 .+ e23 .* e66) ./ vol in
  let A13 := (.~ e15 .* e25 .+ e12 .* e55) ./ vol in
  let A14 := (e23 .* e26 .- e36 .* e22) ./ vol in
  let A23 := (.~ e14 .* e34 .+ e13 .* e44) ./ vol in
  let A24 := (e13 .* e34 .- e14 .* e33) ./ vol in
  let A34 := (.~ e14 .* e13 .+ e11 .* e34) ./ vol in
  (* compute diagonals (from row sum = 0) *)
  let A11 := .~ A12 .- A13 .- A14 in
  let A22 := .~ A12 .- A23 .- A24 in
  let A33 := .~ A13 .- A23 .- A34 in
  let A44 := .~ A14 .- A24 .- A34 in
  (* stack columns to assemble data *)
  let localA := column_stack [A12; A12; A23; A23; A13; A13; A14; A14;
                              A24; A24; A34; A34; A11; A22; A33; A44] in
  let I := column_stack [t1; t2; t2; t3; t3; t1; t1; t4; t2; t4; t3; t4; t1; t2; t3; t4] in
  let J := column_stack [t2; t1; t3; t2; t1; t3; t4; t1; t4; t2; t4; t3; t1; t2; t3; t4] in
  let I := flatten I in
  let J := flatten J in
  let localA := flatten localA ./. of_Z 6 in
  A <- csc_matrix localA I J ;;
  if negb lump then
    (* create b matrix data (account for that vol is 6 times tet volume) *)
    let Bii := vol ./. of_Z 60 in
    let Bij := vol ./. of_Z 120 in
    let localB := column_stack [Bij; Bij; Bij; Bij; Bij; Bij; Bij; Bij;
                                Bij; Bij; Bij; Bij; Bii; Bii; Bii; Bii] in
    let localB := flatten localB in
    B <- csc_matrix localB I J ;;
    Ok (A, B)
  else
    (* when lumping put all onto diagonal (volume/4 for each vertex) *)
    let Bii := vol ./. of_Z 24 in
    let localB := column_stack [Bii; Bii; Bii; Bii] in
    let I := column_stack [t1; t2; t3; t4] in
    let I := flatten I in
    let localB := flatten localB in
    B <- csc_matrix localB I I ;;
    Ok (A, B).
End Assembly.

(* ------------------------------------------------------------------ *)
(** ** The assembly, cell by cell *)

(** Every column the assembly builds holds one value per cell, and that
    value depends on the cell alone (and on [vol_mean], the one quantity
    taken over the whole mesh).  The definitions below name these per-cell
    values; [computeABtria_cells] and [computeABtetra_cells] show that the
    column code above computes exactly them. *)

Section Cells.
Context {T : Type} {num : Scalar T}.
Local Open Scope num_scope.

Definition zero3 : @vec3 T := (of_Z 0, of_Z 0, of_Z 0).
Definition corner (v : list (@vec3 T)) (i : nat) : @vec3 T := nth i v zero3.

Definition tria_in_bounds (n : nat) (c : tria) : bool :=
  ((tria0 c <? n)%nat && (tria1 c <? n)%nat && (tria2 c <? n)%nat)%bool.
Definition tetra_in_bounds (n : nat) (c : tetra) : bool :=
  ((tetra0 c <? n)%nat && (tetra1 c <? n)%nat
   && (tetra2 c <? n)%nat && (tetra3 c <? n)%nat)%bool.

(** *** Triangles *)

(** The three difference vectors of a triangle. *)
Definition tria_v2mv1 v (c : tria) := vsub (corner v (tria1 c)) (corner v (tria0 c)).
Definition tria_v3mv2 v (c : tria) := vsub (corner v (tria2 c)) (corner v (tria1 c)).
Definition tria_v1mv3 v (c : tria) := vsub (corner v (tria0 c)) (corner v (tria2 c)).

(** [vol] before the guard: twice the length of the cross product, that
    is four times the area. *)
Definition tria_vol_raw v (c : tria) : T :=
  of_Z 2 * root (sum3 (vmul (cross3 (tria_v3mv2 v c) (tria_v1mv3 v c))
                            (cross3 (tria_v3mv2 v c) (tria_v1mv3 v c)))).

Definition tria_vol_mean v (t : list tria) : T :=
  (of_Z 1 / of_Z 10000) * mean (map (tria_vol_raw v) t).

(** [vol] after the guard, the divisor of the stiffness entries. *)
Definition tria_vol v (vm : T) (c : tria) : T :=
  if tria_vol_raw v c <? epsilon then vm else tria_vol_raw v c.

Definition tria_A12 v vm c := sum3 (vmul (tria_v3mv2 v c) (tria_v1mv3 v c)) / tria_vol v vm c.
Definition tria_A23 v vm c := sum3 (vmul (tria_v1mv3 v c) (tria_v2mv1 v c)) / tria_vol v vm c.
Definition tria_A31 v vm c := sum3 (vmul (tria_v2mv1 v c) (tria_v3mv2 v c)) / tria_vol v vm c.
Definition tria_A11 v vm c := - tria_A12 v vm c - tria_A31 v vm c.
Definition tria_A22 v vm c := - tria_A12 v vm c - tria_A23 v vm c.
Definition tria_A33 v vm c := - tria_A31 v vm c - tria_A23 v vm c.

(** The nine triples one triangle adds to A. *)
Definition tria_localA v vm (c : tria) : list (nat * nat * T) :=
  let '(t1, t2, t3) := c in
  [ (t1, t2, tria_A12 v vm c); (t2, t1, tria_A12 v vm c);
    (t2, t3, tria_A23 v vm c); (t3, t2, tria_A23 v vm c);
    (t3, t1, tria_A31 v vm c); (t1, t3, tria_A31 v vm c);
    (t1, t1, tria_A11 v vm c); (t2, t2, tria_A22 v vm c);
    (t3, t3, tria_A33 v vm c) ].

(** The triples one triangle adds to B, in either mode. *)
Definition tria_localB (lump : bool) v vm (c : tria) : list (nat * nat * T) :=
  let '(t1, t2, t3) := c in
  if negb lump then
    [ (t1, t2, tria_vol v vm c / of_Z 48); (t2, t1, tria_vol v vm c / of_Z 48);
      (t2, t3, tria_vol v vm c / of_Z 48); (t3, t2, tria_vol v vm c / of_Z 48);
      (t3, t1, tria_vol v vm c / of_Z 48); (t1, t3, tria_vol v vm c / of_Z 48);
      (t1, t1, tria_vol v vm c / of_Z 24); (t2, t2, tria_vol v vm c / of_Z 24);
      (t3, t3, tria_vol v vm c / of_Z 24) ]
  else
    [ (t1, t1, tria_vol v vm c / of_Z 12); (t2, t2, tria_vol v vm c / of_Z 12);
      (t3, t3, tria_vol v vm c / of_Z 12) ].

(** *** Tetrahedra *)

(** The six edge vectors of a tetrahedron. *)
Definition tetra_e1 v (c : tetra) := vsub (corner v (tetra1 c)) (corner v (tetra0 c)).
Definition tetra_e2 v (c : tetra) := vsub (corner v (tetra2 c)) (corner v (tetra1 c)).
Definition tetra_e3 v (c : tetra) := vsub (corner v (tetra0 c)) (corner v (tetra2 c)).
Definition tetra_e4 v (c : tetra) := vsub (corner v (tetra3 c)) (corner v (tetra0 c)).
Definition tetra_e5 v (c : tetra) := vsub (corner v (tetra3 c)) (corner v (tetra1 c)).
Definition tetra_e6 v (c : tetra) := vsub (corner v (tetra3 c)) (corner v (tetra2 c)).

(** [vol] before the guard: the absolute triple product, six times the
    volume. *)
Definition tetra_vol_raw v (c : tetra) : T :=
  absv (sum3 (vmul (tetra_e4 v c) (cross3 (tetra_e1 v c) (tetra_e3 v c)))).

Definition tetra_vol_mean v (t : list tetra) : T :=
  (of_Z 1 / of_Z 10000) * mean (map (tetra_vol_raw v) t).

(** [vol] after the guard. *)
Definition tetra_vol v (vm : T) (c : tetra) : T :=
  if tetra_vol_raw v c =? of_Z 0 then vm else tetra_vol_raw v c.

(** Dot product of two edge vectors, [np.sum(a*b, axis=1)] on one row. *)
Definition dot3 (a b : @vec3 T) : T := sum3 (vmul a b).

Definition tetra_A12 v vm c :=
  (- dot3 (tetra_e3 v c) (tetra_e6 v c) * dot3 (tetra_e2 v c) (tetra_e6 v c)
   + dot3 (tetra_e2 v c) (tetra_e3 v c) * dot3 (tetra_e6 v c) (tetra_e6 v c))
  / tetra_vol v vm c.
Definition tetra_A13 v vm c :=
  (- dot3 (tetra_e1 v c) (tetra_e5 v c) * dot3 (tetra_e2 v c) (tetra_e5 v c)
   + dot3 (tetra_e1 v c) (tetra_e2 v c) * dot3 (tetra_e5 v c) (tetra_e5 v c))
  / tetra_vol v vm c.
Definition tetra_A14 v vm c :=
  (dot3 (tetra_e2 v c) (tetra_e3 v c) * dot3 (tetra_e2 v c) (tetra_e6 v c)
   - dot3 (tetra_e3 v c) (tetra_e6 v c) * dot3 (tetra_e2 v c) (tetra_e2 v c))
  / tetra_vol v vm c.
Definition tetra_A23 v vm c :=
  (- dot3 (tetra_e1 v c) (tetra_e4 v c) * dot3 (tetra_e3 v c) (tetra_e4 v c)
   + dot3 (tetra_e1 v c) (tetra_e3 v c) * dot3 (tetra_e4 v c) (tetra_e4 v c))
  / tetra_vol v vm c.
Definition tetra_A24 v vm c :=
  (dot3 (tetra_e1 v c) (tetra_e3 v c) * dot3 (tetra_e3 v c) (tetra_e4 v c)
   - dot3 (tetra_e1 v c) (tetra_e4 v c) * dot3 (tetra_e3 v c) (tetra_e3 v c))
  / tetra_vol v vm c.
Definition tetra_A34 v vm c :=
  (- dot3 (tetra_e1 v c) (tetra_e4 v c) * dot3 (tetra_e1 v c) (tetra_e3 v c)
   + dot3 (tetra_e1 v c) (tetra_e1 v c) * dot3 (tetra_e3 v c) (tetra_e4 v c))
  / tetra_vol v vm c.
Definition tetra_A11 v vm c := - tetra_A12 v vm c - tetra_A13 v vm c - tetra_A14 v vm c.
Definition tetra_A22 v vm c := - tetra_A12 v vm c - tetra_A23 v vm c - tetra_A24 v vm c.
Definition tetra_A33 v vm c := - tetra_A13 v vm c - tetra_A23 v vm c - tetra_A34 v vm c.
Definition tetra_A44 v vm c := - tetra_A14 v vm c - tetra_A24 v vm c - tetra_A34 v vm c.

(** The sixteen triples one tetrahedron adds to A (after the division of
    the flattened data by 6). *)
Definition tetra_localA v vm (c : tetra) : list (nat * nat * T) :=
  let '(t1, t2, t3, t4) := c in
  [ (t1, t2, tetra_A12 v vm c / of_Z 6); (t2, t1, tetra_A12 v vm c / of_Z 6);
    (t2, t3, tetra_A23 v vm c / of_Z 6); (t3, t2, tetra_A23 v vm c / of_Z 6);
    (t3, t1, tetra_A13 v vm c / of_Z 6); (t1, t3, tetra_A13 v vm c / of_Z 6);
    (t1, t4, tetra_A14 v vm c / of_Z 6); (t4, t1, tetra_A14 v vm c / of_Z 6);
    (t2, t4, tetra_A24 v vm c / of_Z 6); (t4, t2, tetra_A24 v vm c / of_Z 6);
    (t3, t4, tetra_A34 v vm c / of_Z 6); (t4, t3, tetra_A34 v vm c / of_Z 6);
    (t1, t1, tetra_A11 v vm c / of_Z 6); (t2, t2, tetra_A22 v vm c / of_Z 6);
    (t3, t3, tetra_A33 v vm c / of_Z 6); (t4, t4, tetra_A44 v vm c / of_Z 6) ].

(** The triples one tetrahedron adds to B, in either mode. *)
Definition tetra_localB (lump : bool) v vm (c : tetra) : list (nat * nat * T) :=
  let '(t1, t2, t3, t4) := c in
  if negb lump then
    [ (t1, t2, tetra_vol v vm c / of_Z 120); (t2, t1, tetra_vol v vm c / of_Z 120);
      (t2, t3, tetra_vol v vm c / of_Z 120); (t3, t2, tetra_vol v vm c / of_Z 120);
      (t3, t1, tetra_vol v vm c / of_Z 120); (t1, t3, tetra_vol v vm c / of_Z 120);
      (t1, t4, tetra_vol v vm c / of_Z 120); (t4, t1, tetra_vol v vm c / of_Z 120);
      (t2, t4, tetra_vol v vm c / of_Z 120); (t4, t2, tetra_vol v vm c / of_Z 120);
      (t3, t4, tetra_vol v vm c / of_Z 120); (t4, t3, tetra_vol v vm c / of_Z 120);
      (t1, t1, tetra_vol v vm c / of_Z 60); (t2, t2, tetra_vol v vm c / of_Z 60);
      (t3, t3, tetra_vol v vm c / of_Z 60); (t4, t4, tetra_vol v vm c / of_Z 60) ]
  else
    [ (t1, t1, tetra_vol v vm c / of_Z 24); (t2, t2, tetra_vol v vm c / of_Z 24);
      (t3, t3, tetra_vol v vm c / of_Z 24); (t4, t4, tetra_vol v vm c / of_Z 24) ].

(** The largest vertex index a mesh refers to. *)
Definition tria_max (t : list tria) : nat :=
  list_max (flat_map (fun c => [tria0 c; tria1 c; tria2 c]) t).
Definition tetra_max (t : list tetra) : nat :=
  list_max (flat_map (fun c => [tetra0 c; tetra1 c; tetra2 c; tetra3 c]) t).
End Cells.

(* ------------------------------------------------------------------ *)
(** ** Example meshes *)

(** The corners of the unit tetrahedron, over the reals. *)
Definition unit_corners : list (@vec3 R) :=
  [ (0, 0, 0); (1, 0, 0); (0, 1, 0); (0, 0, 1) ]%R.

(** Two of its faces as a small open triangle mesh. *)
Definition two_faces : list tria := [ (0, 1, 2); (0, 2, 3) ]%nat.

(** The unit tetrahedron itself, first three vertices counter-clockwise seen
    from inside. *)
Definition unit_tetra : list tetra := [ (0, 1, 2, 3) ]%nat.

(* ------------------------------------------------------------------ *)
(** ** The documented element matrices *)

(** The area of a triangle: half the length of the cross product of the two
    edges that leave its first corner. *)
Definition tria_area (v : list (@vec3 R)) (c : tria) : R :=
  let u := vsub (corner v (tria1 c)) (corner v (tria0 c)) in
  let w := vsub (corner v (tria2 c)) (corner v (tria0 c)) in
  (sqrt (sum3 (vmul (cross3 u w) (cross3 u w))) / 2)%R.

(** Six times the volume of a tetrahedron: the absolute triple product of
    the three edges that leave its first corner. *)
Definition tetra_six_volume (v : list (@vec3 R)) (c : tetra) : R :=
  let a := vsub (corner v (tetra1 c)) (corner v (tetra0 c)) in
  let b := vsub (corner v (tetra2 c)) (corner v (tetra0 c)) in
  let d := vsub (corner v (tetra3 c)) (corner v (tetra0 c)) in
  Rabs (sum3 (vmul a (cross3 b d))).

(** The documented scheme for the stiffness entry of an edge (x, y): with
    [ek] the opposing edge from [p] to [q], and [el], [em] the edges from
    [p] to [x] and to [y], the value (el.ek)(em.ek) - (el.em)(ek.ek). *)
Definition opposing_edge_term (p q x y : @vec3 R) : R :=
  let ek := vsub q p in
  let el := vsub x p in
  let em := vsub y p in
  (dot3 el ek * dot3 em ek - dot3 el em * dot3 ek ek)%R.

(** The sixteen triples of a tetrahedron as documented: every edge entry is
    the scheme over 6 times the volume proxy [w], every diagonal entry the
    negated sum of the three edge entries of its row. *)
Definition tetra_stiffness_documented (v : list (@vec3 R)) (w : R) (c : tetra)
  : list (nat * nat * R) :=
  let '(t1, t2, t3, t4) := c in
  let p1 := corner v t1 in
  let p2 := corner v t2 in
  let p3 := corner v t3 in
  let p4 := corner v t4 in
  let o12 := (opposing_edge_term p3 p4 p1 p2 / (6 * w))%R in
  let o13 := (opposing_edge_term p2 p4 p1 p3 / (6 * w))%R in
  let o14 := (opposing_edge_term p2 p3 p1 p4 / (6 * w))%R in
  let o23 := (opposing_edge_term p1 p4 p2 p3 / (6 * w))%R in
  let o24 := (opposing_edge_term p1 p3 p2 p4 / (6 * w))%R in
  let o34 := (opposing_edge_term p1 p2 p3 p4 / (6 * w))%R in
  [ (t1, t2, o12); (t2, t1, o12); (t2, t3, o23); (t3, t2, o23);
    (t3, t1, o13); (t1, t3, o13); (t1, t4, o14); (t4, t1, o14);
    (t2, t4, o24); (t4, t2, o24); (t3, t4, o34); (t4, t3, o34);
    (t1, t1, (- (o12 + o13 + o14))%R); (t2, t2, (- (o12 + o23 + o24))%R);
    (t3, t3, (- (o13 + o23 + o34))%R); (t4, t4, (- (o14 + o24 + o34))%R) ].

(** The mass triples of a triangle as documented, for the quantity [q]
    (four times the area): consistent mode and lumped mode. *)
Definition tria_mass_consistent (q : R) (c : tria) : list (nat * nat * R) :=
  let '(t1, t2, t3) := c in
  [ (t1, t2, q / 48); (t2, t1, q / 48); (t2, t3, q / 48); (t3, t2, q / 48);
    (t3, t1, q / 48); (t1, t3, q / 48);
    (t1, t1, q / 24); (t2, t2, q / 24); (t3, t3, q / 24) ]%R.

Definition tria_mass_lumped (q : R) (c : tria) : list (nat * nat * R) :=
  let '(t1, t2, t3) := c in
  [ (t1, t1, q / 12); (t2, t2, q / 12); (t3, t3, q / 12) ]%R.

(** A triple lies on the diagonal. *)
Definition on_diagonal (e : nat * nat * R) : Prop := fst (fst e) = snd (fst e).

(** The mass matrix of a triangle mesh is assembled as documented: with q
    the code's [vol] of a triangle (four times its area, replaced by
    [vol_mean] where that is below machine epsilon), non-lumped mode stores
    [tria_mass_consistent q] and lumped mode [tria_mass_lumped q] for every
    triangle, the latter on the diagonal only. *)
Definition tria_mass_as_documented (v : list (@vec3 R)) (t : list tria) : Prop :=
  let vm := tria_vol_mean v t in
  let q := fun c =>
    if Rlt_dec (4 * tria_area v c) epsilon then vm else (4 * tria_area v c)%R in
  (exists A B, computeABtria v t false = Ok (A, B)
               /\ triples B = flat_map (fun c => tria_mass_consistent (q c) c) t)
  /\ (exists A B, computeABtria v t true = Ok (A, B)
                  /\ triples B = flat_map (fun c => tria_mass_lumped (q c) c) t
                  /\ Forall on_diagonal (triples B)).

(** The stiffness matrix of a tetrahedral mesh is assembled as documented:
    with w the code's [vol] of a tetrahedron (six times its volume, replaced
    by [vol_mean] where that is zero), A stores
    [tetra_stiffness_documented w] for every tetrahedron. *)
Definition tetra_stiffness_as_documented (v : list (@vec3 R)) (t : list tetra)
  (lump : bool) : Prop :=
  let vm := tetra_vol_mean v t in
  let w := fun c =>
    if Req_dec_T (tetra_six_volume v c) 0 then vm else tetra_six_volume v c in
  exists A B, computeABtetra v t lump = Ok (A, B)
              /\ triples A = flat_map (fun c => tetra_stiffness_documented v (w c) c) t.

(** Three collinear points: a triangle of area zero. *)
Definition collinear_corners {T : Type} {num : Scalar T} : list (@vec3 T) :=
  [ (of_Z 0, of_Z 0, of_Z 0); (of_Z 1, of_Z 0, of_Z 0); (of_Z 2, of_Z 0, of_Z 0) ].

Definition one_triangle : list tria := [ (0, 1, 2) ]%nat.

(** A right triangle with legs of length one. *)
Definition right_corners {T : Type} {num : Scalar T} : list (@vec3 T) :=
  [ (of_Z 0, of_Z 0, of_Z 0); (of_Z 1, of_Z 0, of_Z 0); (of_Z 0, of_Z 1, of_Z 0) ].

(** All stored values of a float matrix are finite. *)
Definition all_finite (A : matrix PrimFloat.float) : bool :=
  forallb (fun e => is_finite (snd e)) (triples A).

(* ------------------------------------------------------------------ *)
(** ** Solver entry points *)

(** What the entry points do besides computing: they print, and they call
    the factorization and the eigensolver of the numerical libraries. *)
Inductive backend : Type := Cholesky | LU.

Section Solver.
Context {T : Type} {num : Scalar T}.
Local Open Scope num_scope.

Inductive event : Type :=
| Printed (msg : string)
| Factorized (b : backend) (shifted : matrix T)
| Eigsh (A : matrix T) (k : Z) (M : matrix T) (sigma : T).

(** A computation that appends to the log of events and may raise. *)
Definition run (A : Type) : Type := list event -> result A * list event.

Definition ret {A} (a : A) : run A := fun log => (Ok a, log).
Definition lift {A} (r : result A) : run A := fun log => (r, log).
Definition emit (e : event) : run unit := fun log => (Ok tt, log ++ [e]).
Definition rbind {A B} (m : run A) (k : A -> run B) : run B :=
  fun log =>
    match m log with
    | (Ok a, log') => k a log'
    | (Err e, log') => (Err e, log')
    end.

(** [scipy.sparse.linalg.LinearOperator(matvec=..., shape=..., dtype=...)]. *)
Record LinearOperator : Type := {
  lo_matvec : list T -> list T;
  lo_shape : nat * nat
}.

(** The library calls.  [cholesky] is [sksparse.cholmod.cholesky], whose
    result is applied to a right-hand side; [splu] is
    [scipy.sparse.linalg.splu], whose result has a [solve] method; [eigsh]
    is [scipy.sparse.linalg.eigsh], returning eigenvalues and eigenvectors.
    The import of [sksparse.cholmod] succeeds or not with the installation:
    [have_cholmod]. *)
Record libraries : Type := {
  have_cholmod : bool;
  cholesky : matrix T -> result (list T -> list T);
  splu : matrix T -> result (list T -> list T);
  eigsh : matrix T -> Z -> matrix T -> T -> LinearOperator
          -> result (list T * list (list T))
}.

Variable lib : libraries.

Declare Scope run_scope.
Delimit Scope run_scope with run.
Notation "x <- e ;; k" := (rbind e (fun x => k))
  (at level 61, e at next level, right associativity) : run_scope.
Notation "e ;;; k" := (rbind e (fun _ => k))
  (at level 61, right associativity) : run_scope.
Local Open Scope run_scope.

Definition print (msg : string) : run unit := emit (Printed msg).

Definition call_cholesky (S : matrix T) : run (list T -> list T) :=
  emit (Factorized Cholesky S) ;;; lift (cholesky lib S).
Definition call_splu (S : matrix T) : run (list T -> list T) :=
  emit (Factorized LU S) ;;; lift (splu lib S).
Definition call_eigsh (A : matrix T) (k : Z) (M : matrix T) (sigma : T)
  (OPinv : LinearOperator) : run (list T * list (list T)) :=
  emit (Eigsh A k M sigma) ;;; lift (eigsh lib A k M sigma OPinv).

(** The body shared by [laplaceTria] and [laplaceTetra], which differ in the
    assembly function alone. *)
Definition laplace (computeAB : bool -> result (matrix T * matrix T))
  (k : Z) (lump : bool) : run (list T * list (list T)) :=
  let useCholmod := have_cholmod lib in
  (if useCholmod then
     print "Solver: cholesky decomp - performance optimal ..."
   else
     print "Package scikit-sparse not found (Cholesky decomp)" ;;;
     print "Solver: spsolve (LU decomp) - performance not optimal ...") ;;;
  AM <- lift (computeAB lump) ;;
  let '(A, M) := AM in
  (* turns out it is much faster to use cholesky and pass operator *)
  let sigma := - (of_Z 1 / of_Z 100) in
  OPinv <- (if useCholmod then
              S <- lift (msub A (scale sigma M)) ;;
              chol <- call_cholesky S ;;
              ret {| lo_matvec := chol; lo_shape := shape A |}
            else
              S <- lift (msub A (scale sigma M)) ;;
              lu <- call_splu S ;;
              ret {| lo_matvec := lu; lo_shape := shape A |}) ;;
  call_eigsh A k M sigma OPinv.

Definition laplaceTria (v : list (@vec3 T)) (t : list tria) (k : Z) (lump : bool)
  : run (list T * list (list T)) :=
  laplace (computeABtria v t) k lump.

Definition laplaceTetra (v : list (@vec3 T)) (t : list tetra) (k : Z) (lump : bool)
  : run (list T * list (list T)) :=
  laplace (computeABtetra v t) k lump.

(** The messages printed for the chosen backend. *)
Definition solver_messages : list event :=
  if have_cholmod lib then
    [ Printed "Solver: cholesky decomp - performance optimal ..." ]
  else
    [ Printed "Package scikit-sparse not found (Cholesky decomp)";
      Printed "Solver: spsolve (LU decomp) - performance not optimal ..." ].

Definition chosen_backend : backend := if have_cholmod lib then Cholesky else LU.
Definition chosen_factorization : matrix T -> result (list T -> list T) :=
  if have_cholmod lib then cholesky lib else splu lib.

Definition is_factorization (e : event) : bool :=
  match e with
  | Factorized _ _ => true
  | _ => false
  end.
End Solver.

(** The fixed shift of the entry points, [sigma = -0.01]. *)
Definition sigma_shift {T : Type} {num : Scalar T} : T := (- (of_Z 1 / of_Z 100))%num.

(** What a run of an entry point amounts to when the assembly [computeAB]
    succeeds: whatever [k] is, the shifted matrix [A - sigma*M] is handed to
    the factorization of the chosen backend first, and [k] reaches the
    eigensolver unchanged afterwards, if the factorization succeeded. *)
Definition factorizes_then_solves {T : Type} {num : Scalar T} (lib : libraries)
  (computeAB : result (matrix T * matrix T))
  (outcome : result (list T * list (list T)) * list event) (k : Z) : Prop :=
  exists A M S,
    computeAB = Ok (A, M) /\ msub A (scale sigma_shift M) = Ok S /\
    outcome =
      match chosen_factorization lib S with
      | Ok f =>
          (eigsh lib A k M sigma_shift {| lo_matvec := f; lo_shape := shape A |},
           solver_messages lib
             ++ [ Factorized (chosen_backend lib) S; Eigsh A k M sigma_shift ])
      | Err e =>
          (Err e, solver_messages lib ++ [ Factorized (chosen_backend lib) S ])
      end.

(** The specification's reading of the parameter check: a [k] of at least
    the number of vertices makes [laplaceTria] fail without any
    factorization having been attempted. *)
Definition rejects_large_k_before_factorizing {T : Type} {num : Scalar T}
  (lib : libraries) : Prop :=
  forall (v : list (@vec3 T)) (t : list tria) (k : Z) (lump : bool),
    (Z.of_nat (length v) <= k)%Z ->
    (exists e, fst (laplaceTria lib v t k lump []) = Err e)
    /\ existsb (@is_factorization T) (snd (laplaceTria lib v t k lump [])) = false.

(** Stand-ins for the libraries, on floats: factorizations that succeed and
    an eigensolver that refuses a [k] of at least the matrix size. *)
Definition standin_libraries : @libraries PrimFloat.float :=
  {| have_cholmod := true;
     cholesky := fun _ => Ok (fun b => b);
     splu := fun _ => Ok (fun b => b);
     eigsh := fun A k _ _ _ =>
       if (Z.of_nat (fst (shape A)) <=? k)%Z
       then Err (LibraryError "eigsh: k >= N")
       else Ok ([], []) |}.

(** The same libraries with or without scikit-sparse installed. *)
Definition with_cholmod {T : Type} (b : bool) (lib : @libraries T) : @libraries T :=
  {| have_cholmod := b;
     cholesky := cholesky lib;
     splu := splu lib;
     eigsh := eigsh lib |}.

(** [f] applies the inverse of [S]: it undoes [S @ x] and solves
    [S @ y = b], on vectors of the matrix's size. *)
Definition inverse_of (S : matrix R) (f : list R -> list R) : Prop :=
  (forall x, length x = snd (shape S) -> f (matvec S x) = x)
  /\ (forall b, length b = fst (shape S) ->
                length (f b) = snd (shape S) /\ matvec S (f b) = b).

(** Both factorizations succeed on the shifted matrix of the mesh and each
    returns its inverse. *)
Definition exact_factorizations (lib : @libraries R)
  (computeAB : result (matrix R * matrix R)) : Prop :=
  forall A M S,
    computeAB = Ok (A, M) -> msub A (scale sigma_shift M) = Ok S ->
    exists fc fl,
      cholesky lib S = Ok fc /\ splu lib S = Ok fl
      /\ inverse_of S fc /\ inverse_of S fl.

(** The eigensolver uses [OPinv] only by applying it to vectors of the
    operator's size. *)
Definition opinv_extensional (lib : @libraries R) : Prop :=
  forall A k M sigma f g sh,
    (forall b, length b = fst sh -> f b = g b) ->
    eigsh lib A k M sigma {| lo_matvec := f; lo_shape := sh |}
    = eigsh lib A k M sigma {| lo_matvec := g; lo_shape := sh |}.

(** The two backends on the same input: each factorizes the same shifted
    matrix [A - sigma*M], hands the factor to [eigsh] as [OPinv] together
    with the same [A], [k], [M] and [sigma], and the two runs return the
    same result. *)
Definition backends_agree (lib : @libraries R)
  (computeAB : result (matrix R * matrix R)) (k : Z)
  (outcome : bool -> result (list R * list (list R)) * list event) : Prop :=
  exists A M S fc fl,
    computeAB = Ok (A, M) /\ msub A (scale sigma_shift M) = Ok S
    /\ cholesky lib S = Ok fc /\ splu lib S = Ok fl
    /\ outcome true
       = (eigsh lib A k M sigma_shift {| lo_matvec := fc; lo_shape := shape A |},
          solver_messages (with_cholmod true lib)
            ++ [ Factorized Cholesky S; Eigsh A k M sigma_shift ])
    /\ outcome false
       = (eigsh lib A k M sigma_shift {| lo_matvec := fl; lo_shape := shape A |},
          solver_messages (with_cholmod false lib)
            ++ [ Factorized LU S; Eigsh A k M sigma_shift ])
    /\ fst (outcome true) = fst (outcome false).

(** The matrices of the right triangle in lumped mode, and its shifted
    matrix [A + 0.01 M]. *)
Definition right_A : matrix R :=
  {| shape := (3, 3)%nat;
     triples := [ (0%nat, 1%nat, (-(1/2))%R); (1%nat, 0%nat, (-(1/2))%R);
                  (1%nat, 2%nat, 0%R); (2%nat, 1%nat, 0%R);
                  (2%nat, 0%nat, (-(1/2))%R); (0%nat, 2%nat, (-(1/2))%R);
                  (0%nat, 0%nat, 1%R); (1%nat, 1%nat, (1/2)%R);
                  (2%nat, 2%nat, (1/2)%R) ] |}.

Definition right_M : matrix R :=
  {| shape := (3, 3)%nat;
     triples := [ (0%nat, 0%nat, (1/6)%R); (1%nat, 1%nat, (1/6)%R);
                  (2%nat, 2%nat, (1/6)%R) ] |}.

Definition right_S : matrix R :=
  {| shape := (3, 3)%nat;
     triples := triples right_A
                ++ [ (0%nat, 0%nat, (- (- (1/100) * (1/6)))%R);
                     (1%nat, 1%nat, (- (- (1/100) * (1/6)))%R);
                     (2%nat, 2%nat, (- (- (1/100) * (1/6)))%R) ] |}.

(** The inverse of [right_S], by elimination: its rows are
    (601/600, -1/2, -1/2), (-1/2, 301/600, 0) and (-1/2, 0, 301/600). *)
Definition right_solve (b : list R) : list R :=
  let b0 := nth 0 b 0%R in
  let b1 := nth 1 b 0%R in
  let b2 := nth 2 b 0%R in
  let x0 := ((b0 + (1/2) * (b1 + b2) / (301/600))
             / (601/600 - 2 * (1/2) * (1/2) / (301/600)))%R in
  [ x0; ((b1 + (1/2) * x0) / (301/600))%R; ((b2 + (1/2) * x0) / (301/600))%R ].

(** Libraries that are exact on the right triangle: both factorizations
    return [right_solve]; the eigensolver stand-in applies [OPinv] once, to
    the vector of ones. *)
Definition exact_libraries : @libraries R :=
  {| have_cholmod := true;
     cholesky := fun _ => Ok right_solve;
     splu := fun _ => Ok right_solve;
     eigsh := fun _ _ _ _ OPinv =>
       Ok ([], [ lo_matvec OPinv (repeat 1%R (fst (lo_shape OPinv))) ]) |}.

(* ------------------------------------------------------------------ *)
(** ** Reading MGH volumes (fsqcUtils.importMGH) *)

(** The file system, as far as reading goes: the bytes of the files that
    exist. *)
Definition filesystem : Type := string -> option (list Byte.byte).

(** What [importMGH] returns: [numpy.nan], or an array given by its shape
    (after [squeeze]) and its float32 elements in column-major order, each
    kept as the 32 bits read big-endian from the file. *)
Inductive mgh_value : Type :=
| NaN
| Volume (dims : list Z) (voxels : list Z).

(** Reading from an open binary file: the state is what is left to read. *)
Definition reader (A : Type) : Type := list Byte.byte -> result A * list Byte.byte.

Definition rd_ret {A} (a : A) : reader A := fun s => (Ok a, s).
Definition rd_fail {A} (e : exn) : reader A := fun s => (Err e, s).
Definition rd_bind {A B} (m : reader A) (k : A -> reader B) : reader B :=
  fun s =>
    match m s with
    | (Ok a, s') => k a s'
    | (Err e, s') => (Err e, s')
    end.

Declare Scope reader_scope.
Delimit Scope reader_scope with reader.
Notation "x <- e ;; k" := (rd_bind e (fun x => k))
  (at level 61, e at next level, right associativity) : reader_scope.

(** [fp.read(n)]: at most [n] bytes; everything left when [n] is -1, and
    [ValueError] for a length below -1.  Memory has no bound here: a length
    is served whatever its size, where the interpreter raises
    [OverflowError] or [MemoryError] for a buffer it cannot allocate. *)
Definition fp_read (n : Z) : reader (list Byte.byte) :=
  fun s =>
    if (n <? -1)%Z then (Err ValueError, s)
    else if (n =? -1)%Z then (Ok s, [])
    else (Ok (firstn (Z.to_nat n) s), skipn (Z.to_nat n) s).

(** The unsigned big-endian value of a byte string. *)
Definition be_unsigned (bs : list Byte.byte) : Z :=
  fold_left (fun acc b => (acc * 256 + Z.of_N (Byte.to_N b))%Z) bs 0%Z.

(** Two's complement on [w] bits. *)
Definition signed (w : Z) (z : Z) : Z :=
  if (z <? 2 ^ (w - 1))%Z then z else (z - 2 ^ w)%Z.

(** [struct.unpack(">i", bs)[0]], [">h"] and [">b"]: [struct.error] unless
    the byte string has exactly the size of the format. *)
Definition unpack_int (size : nat) (bs : list Byte.byte) : result Z :=
  if (length bs =? size)%nat
  then Ok (signed (8 * Z.of_nat size) (be_unsigned bs))
  else Err StructError.

(** [struct.unpack(">fff", bs)] and the like, whose values are not used. *)
Definition unpack_floats (count : nat) (bs : list Byte.byte) : result unit :=
  if (length bs =? 4 * count)%nat then Ok tt else Err StructError.

Definition read_int (size : nat) : reader Z :=
  (bs <- fp_read (Z.of_nat size) ;; fun s => (unpack_int size bs, s))%reader.

Definition read_floats (count : nat) : reader unit :=
  (bs <- fp_read (Z.of_nat (4 * count)) ;; fun s => (unpack_floats count bs, s))%reader.

(** [for i in range(n): struct.unpack(">b", fp.read(charsize))]. *)
Fixpoint skip_chars (n : nat) : reader unit :=
  match n with
  | O => rd_ret tt
  | S n' => (_ <- read_int 1 ;; skip_chars n')%reader
  end.

(** The elements of [numpy.frombuffer(bs, dtype=float32).byteswap()]:
    [ValueError] unless the size is a multiple of the element size. *)
Fixpoint quads (fuel : nat) (bs : list Byte.byte) : result (list Z) :=
  match fuel, bs with
  | _, [] => Ok []
  | S fuel', a :: b :: c :: d :: rest =>
      match quads fuel' rest with
      | Ok l => Ok (be_unsigned [a; b; c; d] :: l)
      | Err e => Err e
      end
  | _, _ => Err ValueError
  end.

Definition frombuffer_float32 (bs : list Byte.byte) : result (list Z) :=
  quads (length bs) bs.

Definition product (dims : list Z) : Z := fold_right Z.mul 1%Z dims.

(** [numpy.reshape(vol, dims, order="F")]: the sizes must agree; a single
    dimension of -1 is inferred from the others. *)
Definition reshape (voxels : list Z) (dims : list Z) : result (list Z) :=
  let size := Z.of_nat (length voxels) in
  if forallb (fun d => (0 <=? d)%Z) dims then
    if (product dims =? size)%Z then Ok dims else Err ValueError
  else
    let known := filter (fun d => negb (d =? -1)%Z) dims in
    if ((length known + 1 =? length dims)%nat
        && forallb (fun d => (0 <=? d)%Z) known
        && negb (product known =? 0)%Z
        && (size mod product known =? 0)%Z)%bool
    then Ok (map (fun d => if (d =? -1)%Z then (size / product known)%Z else d) dims)
    else Err ValueError.

(** [numpy.squeeze]: the axes of length one are dropped. *)
Definition squeeze (dims : list Z) : list Z :=
  filter (fun d => negb (d =? 1)%Z) dims.

Definition UNUSED_SPACE_SIZE : Z := 256.
Definition USED_SPACE_SIZE : Z := 3 * 4 + 4 * 3 * 4.

(** The part of [importMGH] that reads the open file. *)
Definition read_mgh : reader mgh_value :=
  (v <- read_int 4 ;;
   ndim1 <- read_int 4 ;;
   ndim2 <- read_int 4 ;;
   ndim3 <- read_int 4 ;;
   nframes <- read_int 4 ;;
   vtype <- read_int 4 ;;
   dof <- read_int 4 ;;
   let unused_space_size := (UNUSED_SPACE_SIZE - 2)%Z in
   ras_good_flag <- read_int 2 ;;
   _ <- (if (ras_good_flag =? 0)%Z then rd_ret tt
         else (_ <- read_floats 3 ;; _ <- read_floats 9 ;; read_floats 3)) ;;
   let unused_space_size := (unused_space_size - USED_SPACE_SIZE)%Z in
   _ <- skip_chars (Z.to_nat unused_space_size) ;;
   let nv := (ndim1 * ndim2 * ndim3 * nframes)%Z in
   bs <- fp_read (4 * nv) ;;
   match frombuffer_float32 bs with
   | Err e => rd_fail e
   | Ok vol =>
       match reshape vol [ndim1; ndim2; ndim3; nframes] with
       | Err e => rd_fail e
       | Ok dims => rd_ret (Volume (squeeze dims) vol)
       end
   end)%reader.

(** [importMGH(filename)]: the value returned or the exception raised, and
    the warnings issued. *)
Definition importMGH (fs : filesystem) (filename : string)
  : result mgh_value * list string :=
  match fs filename with
  | None =>
      (* if not os.path.exists(filename): warnings.warn(...); return numpy.nan *)
      (Ok NaN, [ ("WARNING: could not find " ++ filename ++ ", returning NaNs")%string ])
  | Some content => (fst (read_mgh content), [])
  end.

(** A file system without any file. *)
Definition empty_filesystem : filesystem := fun _ => None.

(* ------------------------------------------------------------------ *)
(** ** Regular expressions and string helpers (re, str) *)

(** Regular expressions over character classes, matched by derivatives. *)
Inductive regex : Type :=
| Never
| Eps
| Class (p : ascii -> bool)
| Seq (r1 r2 : regex)
| Alt (r1 r2 : regex)
| Star (r : regex).

Fixpoint nullable (r : regex) : bool :=
  match r with
  | Never => false
  | Eps => true
  | Class _ => false
  | Seq r1 r2 => nullable r1 && nullable r2
  | Alt r1 r2 => nullable r1 || nullable r2
  | Star _ => true
  end.

Fixpoint deriv (a : ascii) (r : regex) : regex :=
  match r with
  | Never => Never
  | Eps => Never
  | Class p => if p a then Eps else Never
  | Seq r1 r2 =>
      if nullable r1
      then Alt (Seq (deriv a r1) r2) (deriv a r2)
      else Seq (deriv a r1) r2
  | Alt r1 r2 => Alt (deriv a r1) (deriv a r2)
  | Star r1 => Seq (deriv a r1) (Star r1)
  end.

(** [re.match(r, s) is not None]: some prefix of [s] matches [r]. *)
Fixpoint re_match (r : regex) (s : string) : bool :=
  nullable r
  || match s with
     | EmptyString => false
     | String a s' => re_match (deriv a r) s'
     end.

Definition Plus (r : regex) : regex := Seq r (Star r).
Definition Chr (c : ascii) : regex := Class (Ascii.eqb c).

(** A pattern that is a plain word. *)
Fixpoint Lit (w : string) : regex :=
  match w with
  | EmptyString => Eps
  | String a w' => Seq (Chr a) (Lit w')
  end.

Definition is_digit (a : ascii) : bool :=
  let n := nat_of_ascii a in ((48 <=? n) && (n <=? 57))%nat.
Definition is_lower (a : ascii) : bool :=
  let n := nat_of_ascii a in ((97 <=? n) && (n <=? 122))%nat.
Definition is_upper (a : ascii) : bool :=
  let n := nat_of_ascii a in ((65 <=? n) && (n <=? 90))%nat.
(** [\s] and what [str.strip] removes, on ASCII. *)
Definition is_space (a : ascii) : bool :=
  let n := nat_of_ascii a in
  ((n =? 32) || ((9 <=? n) && (n <=? 13)) || ((28 <=? n) && (n <=? 31)))%nat.
(** [\w] on ASCII. *)
Definition is_word (a : ascii) : bool :=
  is_digit a || is_lower a || is_upper a || Ascii.eqb a "_".

Definition newline : ascii := "010".

(** The pattern of one row of the 4 x 4 block,
    [-*[0-9]\.\S+\W+] four times. *)
Definition number_field : regex :=
  Seq (Star (Chr "-"))
    (Seq (Class is_digit)
       (Seq (Chr ".")
          (Seq (Plus (Class (fun a => negb (is_space a))))
             (Plus (Class (fun a => negb (is_word a))))))).

Definition matrix_row : regex :=
  Seq number_field (Seq number_field (Seq number_field number_field)).

(** [re.sub("#.*", "", s)]: from every first [#] of a line up to the end of
    that line. *)
Fixpoint drop_comments (in_comment : bool) (s : string) : string :=
  match s with
  | EmptyString => EmptyString
  | String a s' =>
      if Ascii.eqb a newline then String a (drop_comments false s')
      else if in_comment then drop_comments true s'
      else if Ascii.eqb a "#" then drop_comments true s'
      else String a (drop_comments false s')
  end.

(** Removing every character of a class: [re.sub("[a-z]+", "", s)] and
    [re.sub("=", "", s)]. *)
Fixpoint remove (p : ascii -> bool) (s : string) : string :=
  match s with
  | EmptyString => EmptyString
  | String a s' => if p a then remove p s' else String a (remove p s')
  end.

(** [re.sub(".*=", "", s)]: on every line, everything up to its last [=]. *)
Fixpoint after_last_eq (s : string) : string * bool :=
  match s with
  | EmptyString => (EmptyString, false)
  | String a s' =>
      let '(rest, seen) := after_last_eq s' in
      if Ascii.eqb a newline then (String a rest, false)
      else if seen then (rest, true)
      else if Ascii.eqb a "=" then (rest, true)
      else (String a rest, false)
  end.
Definition drop_to_last_eq (s : string) : string := fst (after_last_eq s).

(** [str.strip()]. *)
Fixpoint lstrip (s : string) : string :=
  match s with
  | EmptyString => EmptyString
  | String a s' => if is_space a then lstrip s' else s
  end.
Fixpoint rstrip (s : string) : string :=
  match s with
  | EmptyString => EmptyString
  | String a s' =>
      match rstrip s' with
      | EmptyString => if is_space a then EmptyString else String a EmptyString
      | r => String a r
      end
  end.
Definition strip (s : string) : string := rstrip (lstrip s).

(** [re.split(" +", s)]: the fields between runs of blanks. *)
Fixpoint split_blanks (after_blank : bool) (cur : string) (s : string) : list string :=
  match s with
  | EmptyString => [cur]
  | String a s' =>
      if Ascii.eqb a " " then
        if after_blank then split_blanks true cur s'
        else cur :: split_blanks true EmptyString s'
      else split_blanks false (cur ++ String a EmptyString)%string s'
  end.
Definition re_split_blanks (s : string) : list string :=
  split_blanks false EmptyString s.

(** [int(s)] on a stripped string: an optional sign and decimal digits,
    which single underscores may separate; [ValueError] otherwise. *)
Fixpoint digits_value (acc : Z) (prev_digit : bool) (s : string) : option Z :=
  match s with
  | EmptyString => if prev_digit then Some acc else None
  | String a s' =>
      if is_digit a
      then digits_value (acc * 10 + Z.of_nat (nat_of_ascii a - 48)) true s'
      else if (Ascii.eqb a "_" && prev_digit)%bool then
        match s' with
        | String b _ => if is_digit b then digits_value acc false s' else None
        | EmptyString => None
        end
      else None
  end.

Definition py_int (s : string) : result Z :=
  let s := strip s in
  let parsed :=
    match s with
    | String "-" s' => option_map Z.opp (digits_value 0 false s')
    | String "+" s' => digits_value 0 false s'
    | _ => digits_value 0 false s
    end in
  match parsed with
  | Some z => Ok z
  | None => Err ValueError
  end.

(** Reading in text mode turns the line ends [\r\n] and [\r] into [\n]. *)
Fixpoint universal_newlines (s : string) : string :=
  match s with
  | EmptyString => EmptyString
  | String a s' =>
      if Ascii.eqb a "013" then
        match s' with
        | String b s'' =>
            if Ascii.eqb b newline
            then String newline (universal_newlines s'')
            else String newline (universal_newlines s')
        | EmptyString => String newline EmptyString
        end
      else String a (universal_newlines s')
  end.

(** [f.readlines()]: the lines of a text, each with its newline. *)
Fixpoint readlines_from (cur : string) (s : string) : list string :=
  match s with
  | EmptyString => match cur with EmptyString => [] | _ => [cur] end
  | String a s' =>
      if Ascii.eqb a newline
      then (cur ++ String a EmptyString)%string :: readlines_from EmptyString s'
      else readlines_from (cur ++ String a EmptyString)%string s'
  end.
Definition readlines (s : string) : list string := readlines_from EmptyString s.

(** [os.path.splitext(path)[1]]: the extension of the last component, whose
    leading dots do not count. *)
Fixpoint last_component (cur : string) (s : string) : string :=
  match s with
  | EmptyString => cur
  | String a s' =>
      if Ascii.eqb a "/" then last_component EmptyString s'
      else last_component (cur ++ String a EmptyString)%string s'
  end.
Fixpoint skip_dots (s : string) : string :=
  match s with
  | String "." s' => skip_dots s'
  | _ => s
  end.
Fixpoint extension (s : string) : string :=
  match s with
  | EmptyString => EmptyString
  | String a s' =>
      match extension s' with
      | EmptyString => if Ascii.eqb a "." then s else EmptyString
      | e => e
      end
  end.
Definition splitext_ext (path : string) : string :=
  extension (skip_dots (last_component EmptyString path)).

(* ------------------------------------------------------------------ *)
(** ** Reading and applying LTA transforms (fsqcUtils.readLTA, applyTransform) *)

Section Transforms.
Context {T : Type} {num : Scalar T}.
Local Open Scope string_scope.
Local Open Scope result_scope.

(** The built-in [float(s)], [ValueError] where it does not parse. *)
Variable py_float : string -> result T.

(** The values the dictionary of [readLTA] holds. *)
Inductive lta_value : Type :=
| VInt (z : Z)
| VFloat (x : T)
| VInts (l : list Z)
| VFloats (l : list T)
| VStrs (l : list string)
| VArray (rows : list (list T)).

(** A Python dict with string keys, in insertion order. *)
Definition dict : Type := list (string * lta_value).

Fixpoint dict_set (d : dict) (key : string) (v : lta_value) : dict :=
  match d with
  | [] => [(key, v)]
  | (k, w) :: d' => if String.eqb k key then (k, v) :: d' else (k, w) :: dict_set d' key v
  end.

Fixpoint dict_get (d : dict) (key : string) : result lta_value :=
  match d with
  | [] => Err (KeyError key)
  | (k, w) :: d' => if String.eqb k key then Ok w else dict_get d' key
  end.

(** [lta[i]]. *)
Definition line_at (lta : list string) (i : nat) : result string :=
  match nth_error lta i with
  | Some l => Ok l
  | None => Err IndexError
  end.

(** [re.sub("=", "", re.sub("[a-z]+", "", re.sub("#.*", "", l))).strip()]. *)
Definition field_text (l : string) : string :=
  strip (remove (Ascii.eqb "=") (remove is_lower (drop_comments false l))).

(** [re.sub(".*=", "", re.sub("#.*", "", l)).strip()]. *)
Definition value_text (l : string) : string :=
  strip (drop_to_last_eq (drop_comments false l)).

Definition floats_of (s : string) : result (list T) := mapM py_float (re_split_blanks s).
Definition ints_of (s : string) : result (list Z) := mapM py_int (re_split_blanks s).

(** One row of the 4 x 4 block: [re.match(row, lta[i]).string.strip()],
    split at blanks and converted. *)
Definition row_values (lta : list string) (i : nat) : result (list T) :=
  l <- line_at lta i ;;
  if re_match matrix_row l then floats_of (strip l) else Err AttributeError.

(** One line inside a [src volume info] or [dst volume info] block. *)
Definition info_line (pre : string) (l : string) (d : dict) : result dict :=
  if re_match (Lit "valid") l then
    v <- py_int (value_text l) ;; Ok (dict_set d (pre ++ "_valid") (VInt v))
  else if re_match (Lit "filename") l then
    Ok (dict_set d (pre ++ "_filename") (VStrs (re_split_blanks (value_text l))))
  else if re_match (Lit "volume") l then
    v <- ints_of (value_text l) ;; Ok (dict_set d (pre ++ "_volume") (VInts v))
  else if re_match (Lit "voxelsize") l then
    v <- floats_of (value_text l) ;; Ok (dict_set d (pre ++ "_voxelsize") (VFloats v))
  else if re_match (Lit "xras") l then
    v <- floats_of (value_text l) ;; Ok (dict_set d (pre ++ "_xras") (VFloats v))
  else if re_match (Lit "yras") l then
    v <- floats_of (value_text l) ;; Ok (dict_set d (pre ++ "_yras") (VFloats v))
  else if re_match (Lit "zras") l then
    v <- floats_of (value_text l) ;; Ok (dict_set d (pre ++ "_zras") (VFloats v))
  else if re_match (Lit "cras") l then
    v <- floats_of (value_text l) ;; Ok (dict_set d (pre ++ "_cras") (VFloats v))
  else Ok d.

(** The inner loop of a block, over the lines from index [i] on:
    [while i < len(lta) and re.match(stop, lta[i]) is None]. *)
Fixpoint info_block (pre stop : string) (rest : list string) (i : nat) (d : dict)
  : result (nat * dict) :=
  match rest with
  | [] => Ok (i, d)
  | l :: rest' =>
      if re_match (Lit stop) l then Ok (i, d)
      else d' <- info_line pre l d ;; info_block pre stop rest' (S i) d'
  end.

(** [np.array(rows)] on a list of rows of numbers: the rows must have one
    length (numpy 1.24 and later raise [ValueError] otherwise). *)
Definition np_array (rows : list (list T)) : result (list (list T)) :=
  match rows with
  | [] => Ok []
  | r :: rows' =>
      if forallb (fun r' => (length r' =? length r)%nat) rows'
      then Ok rows else Err ValueError
  end.

(** The main loop, [while i < len(lta)].  Every round moves [i] forward, so
    [length lta] rounds are enough ([lta_loop_fuel]). *)
Fixpoint lta_loop (fuel : nat) (lta : list string) (i : nat) (d : dict) : result dict :=
  match fuel with
  | O => Ok d
  | S fuel' =>
      match nth_error lta i with
      | None => Ok d
      | Some l =>
          if re_match (Lit "type") l then
            v <- py_int (field_text l) ;;
            lta_loop fuel' lta (i + 1) (dict_set d "type" (VInt v))
          else if re_match (Lit "nxforms") l then
            v <- py_int (field_text l) ;;
            lta_loop fuel' lta (i + 1) (dict_set d "nxforms" (VInt v))
          else if re_match (Lit "mean") l then
            v <- floats_of (field_text l) ;;
            lta_loop fuel' lta (i + 1) (dict_set d "mean" (VFloats v))
          else if re_match (Lit "sigma") l then
            v <- py_float (field_text l) ;;
            lta_loop fuel' lta (i + 1) (dict_set d "sigma" (VFloat v))
          else if re_match matrix_row l then
            r0 <- row_values lta i ;;
            r1 <- row_values lta (i + 1) ;;
            r2 <- row_values lta (i + 2) ;;
            r3 <- row_values lta (i + 3) ;;
            rows <- np_array [r0; r1; r2; r3] ;;
            lta_loop fuel' lta (i + 4) (dict_set d "lta" (VArray rows))
          else if re_match (Lit "src volume info") l then
            '(i', d') <- info_block "src" "dst volume info" (skipn i lta) i d ;;
            lta_loop fuel' lta i' d'
          else if re_match (Lit "dst volume info") l then
            '(i', d') <- info_block "dst" "src volume info" (skipn i lta) i d ;;
            lta_loop fuel' lta i' d'
          else lta_loop fuel' lta (i + 1) d
      end
  end.

Definition get_floats (d : dict) (key : string) : result (list T) :=
  v <- dict_get d key ;;
  match v with
  | VFloats l => Ok l
  | _ => Err ValueError
  end.

(** The columns [x], [y], [z], [c] side by side ([np.c_] and
    [np.concatenate(..., axis=1)]): they must have one length. *)
Fixpoint side_by_side (x y z c : list T) : result (list (list T)) :=
  match x, y, z, c with
  | [], [], [], [] => Ok []
  | a :: x', b :: y', e :: z', f :: c' =>
      rows <- side_by_side x' y' z' c' ;; Ok ([a; b; e; f] :: rows)
  | _, _, _, _ => Err ValueError
  end.

(** The full transformation matrix of a volume, with the row [0 0 0 1]
    below. *)
Definition full_matrix (d : dict) (pre : string) : result lta_value :=
  x <- get_floats d (pre ++ "_xras") ;;
  y <- get_floats d (pre ++ "_yras") ;;
  z <- get_floats d (pre ++ "_zras") ;;
  c <- get_floats d (pre ++ "_cras") ;;
  rows <- side_by_side x y z c ;;
  Ok (VArray (rows ++ [[of_Z 0; of_Z 0; of_Z 0; of_Z 1]])).

Definition readLTA (fs : filesystem) (file : string) : result dict :=
  match fs file with
  | None => Err FileNotFoundError
  | Some content =>
      let lta := readlines (universal_newlines (string_of_list_byte content)) in
      d <- lta_loop (length lta) lta 0 [] ;;
      (* create full transformation matrices *)
      src <- full_matrix d "src" ;;
      let d := dict_set d "src" src in
      dst <- full_matrix d "dst" ;;
      let d := dict_set d "dst" dst in
      Ok d
  end.

(** The imaging libraries [applyTransform] calls: nibabel loads and saves
    images, numpy inverts the matrix, scipy resamples. *)
Record imaging : Type := {
  image : Type;
  nb_load : string -> result image;
  linalg_inv : lta_value -> result lta_value;
  affine_transform : image -> lta_value -> nat -> result image
}.

Variable lib : imaging.

(** [nb.save(img, out_file)] is the one effect on the outside. *)
Inductive saved : Type := Saved (img : image lib) (out_file : string).

Definition applyTransform (fs : filesystem) (img_file out_file mat_file interp : string)
  : result unit * list saved :=
  let outcome : result (image lib) :=
    (* get image *)
    img <- nb_load lib img_file ;;
    let mat_file_ext := splitext_ext mat_file in
    (* get matrix; [None] is a name that was never bound *)
    m <- (if String.eqb mat_file_ext ".xfm" then
            Err (PyException
                   "ERROR: xfm matrices not (yet) supported. Please convert to lta format")
          else if String.eqb mat_file_ext ".lta" then
            lta <- readLTA fs mat_file ;;
            ty <- dict_get lta "type" ;;
            match ty with
            | VInt 1 => Err (PyException "ERROR: lta type 1 (ras2ras) not supported yet")
            | VInt 0 => v <- dict_get lta "lta" ;; Ok (Some v)
            | _ => Ok None
            end
          else Err (PyException "ERROR: matrices must be either xfm or lta format")) ;;
    (* apply transform *)
    if String.eqb interp "nearest" then
      match m with
      | None => Err UnboundLocalError
      | Some m => inv <- linalg_inv lib m ;; affine_transform lib img inv 0
      end
    else if String.eqb interp "cubic" then
      match m with
      | None => Err UnboundLocalError
      | Some m => inv <- linalg_inv lib m ;; affine_transform lib img inv 3
      end
    else Err (PyException "ERROR: interpolation must be either nearest or cubic") in
  (* write image *)
  match outcome with
  | Ok img_interp => (Ok tt, [Saved img_interp out_file])
  | Err e => (Err e, [])
  end.

(** The type field of the transform a file holds. *)
Definition lta_type (fs : filesystem) (mat_file : string) : result lta_value :=
  lta <- readLTA fs mat_file ;; dict_get lta "type".
End Transforms.

(* ------------------------------------------------------------------ *)
(** ** Example files *)

(** A stand-in for [float()] on binary64 floats that reads integer
    literals. *)
Definition int_float (s : string) : result PrimFloat.float :=
  match py_int s with
  | Ok z => Ok (float_of_Z z)
  | Err e => Err e
  end.

Definition text_of_lines (ls : list string) : string :=
  fold_right (fun l acc => (l ++ String newline acc)%string) EmptyString ls.

(** A transform file of type 1 (RAS to RAS). *)
Definition ras2ras_lta : string :=
  text_of_lines
    [ "type      = 1 # LINEAR_RAS_TO_RAS";
      "nxforms   = 1";
      "mean      = 0 0 0";
      "sigma     = 1";
      "1 4 4";
      "src volume info";
      "valid = 1  # volume info valid";
      "filename = orig.mgz";
      "volume = 256 256 256";
      "voxelsize = 1 1 1";
      "xras   = -1 0 0";
      "yras   = 0 0 -1";
      "zras   = 0 1 0";
      "cras   = 0 0 0";
      "dst volume info";
      "valid = 1  # volume info valid";
      "filename = upright.mgz";
      "volume = 256 256 256";
      "voxelsize = 1 1 1";
      "xras   = -1 0 0";
      "yras   = 0 0 -1";
      "zras   = 0 1 0";
      "cras   = 0 0 0" ]%string.

Definition lta_files : filesystem :=
  fun name =>
    if String.eqb name "make_upright.lta"
    then Some (list_byte_of_string ras2ras_lta)
    else None.

(** Stand-ins for the imaging libraries: every image loads, inversion and
    resampling succeed. *)
Definition standin_imaging : @imaging PrimFloat.float :=
  {| image := unit;
     nb_load := fun _ => Ok tt;
     linalg_inv := fun m => Ok m;
     affine_transform := fun img _ _ => Ok img |}.

(** A small MGH file: version 1, dimensions 2 x 1 x 1, one frame, type 3,
    no RAS block, the padding the reader skips, and the two floats 1.0 and
    2.0. *)
Definition byte_of (n : Z) : Byte.byte :=
  match Byte.of_N (Z.to_N (n mod 256)) with
  | Some b => b
  | None => Byte.x00
  end.

Definition int_bytes (size : nat) (z : Z) : list Byte.byte :=
  map (fun k => byte_of (z / 256 ^ Z.of_nat k)) (rev (seq 0 size)).

Definition small_mgh : list Byte.byte :=
  int_bytes 4 1 ++ int_bytes 4 2 ++ int_bytes 4 1 ++ int_bytes 4 1 ++ int_bytes 4 1
  ++ int_bytes 4 3 ++ int_bytes 4 0 ++ int_bytes 2 0
  ++ repeat Byte.x00 194
  ++ int_bytes 4 1065353216 ++ int_bytes 4 1073741824.

Definition mgh_files : filesystem :=
  fun name => if String.eqb name "small.mgh" then Some small_mgh else None.

(* ------------------------------------------------------------------ *)
(** ** Quadratic forms and sums over a whole matrix *)

(** The sum of [w i j * A[i, j]] over all positions of the matrix. *)
Definition weighted_sum (w : nat -> nat -> R) (A : matrix R) : R :=
  total (map (fun i =>
                total (map (fun j => (w i j * entry A i j)%R) (seq 0 (snd (shape A)))))
             (seq 0 (fst (shape A)))).

(** [x^T A x], with [x] a vector of the matrix's size. *)
Definition quad (A : matrix R) (x : list R) : R :=
  weighted_sum (fun i j => (nth i x 0 * nth j x 0)%R) A.

(** The sum of all entries of a matrix. *)
Definition sum_entries (A : matrix R) : R := weighted_sum (fun _ _ => 1%R) A.

(** All triples of a matrix lie inside its shape. *)
Definition within_shape (A : matrix R) : Prop :=
  Forall (fun e => (fst (fst e) < fst (shape A))%nat /\ (snd (fst e) < snd (shape A))%nat)
         (triples A).

(** A vertex index is referenced by some cell. *)
Definition tria_uses (t : list tria) (i : nat) : Prop :=
  exists c, In c t /\ (tria0 c = i \/ tria1 c = i \/ tria2 c = i).
Definition tetra_uses (t : list tetra) (i : nat) : Prop :=
  exists c, In c t /\ (tetra0 c = i \/ tetra1 c = i \/ tetra2 c = i \/ tetra3 c = i).

(** Moving every vertex by the same vector. *)
Definition vadd (d a : @vec3 R) : @vec3 R :=
  let '(d0, d1, d2) := d in let '(a0, a1, a2) := a in ((a0 + d0)%R, (a1 + d1)%R, (a2 + d2)%R).
Definition translate (d : @vec3 R) (v : list (@vec3 R)) : list (@vec3 R) := map (vadd d) v.

(* ------------------------------------------------------------------ *)
(** ** Regular expressions that match nothing *)

(** A syntactic check that no string matches [r]. *)
Fixpoint dead (r : regex) : bool :=
  match r with
  | Never => true
  | Seq r1 r2 => dead r1 || dead r2
  | Alt r1 r2 => dead r1 && dead r2
  | _ => false
  end.

(* ------------------------------------------------------------------ *)
(** ** More example transform files *)

(** A stand-in for [float()] that reads the whole part of a decimal
    literal. *)
Fixpoint before_point (s : string) : string :=
  match s with
  | EmptyString => EmptyString
  | String a s' => if Ascii.eqb a "." then EmptyString else String a (before_point s')
  end.

Definition whole_float (s : string) : result PrimFloat.float := int_float (before_point s).

(** The two volume blocks of a transform file. *)
Definition volume_blocks : list string :=
  [ "src volume info";
    "valid = 1  # volume info valid";
    "filename = orig.mgz";
    "volume = 256 256 256";
    "voxelsize = 1 1 1";
    "xras   = -1 0 0";
    "yras   = 0 0 -1";
    "zras   = 0 1 0";
    "cras   = 0 0 0";
    "dst volume info";
    "valid = 1  # volume info valid";
    "filename = upright.mgz";
    "volume = 256 256 256";
    "voxelsize = 1 1 1";
    "xras   = -1 0 0";
    "yras   = 0 0 -1";
    "zras   = 0 1 0";
    "cras   = 0 0 0" ]%string.

(** A transform file of type 0 (voxel to voxel) with the identity. *)
Definition vox2vox_lta : string :=
  text_of_lines
    ([ "type      = 0 # LINEAR_VOX_TO_VOX";
       "nxforms   = 1";
       "mean      = 0 0 0";
       "sigma     = 1";
       "1 4 4";
       "1.0 0.0 0.0 0.0 ";
       "0.0 1.0 0.0 0.0 ";
       "0.0 0.0 1.0 0.0 ";
       "0.0 0.0 0.0 1.0 " ]%string ++ volume_blocks).

(** A transform file of a type that is neither 0 nor 1. *)
Definition register_dat_lta : string :=
  text_of_lines ("type      = 14 # REGISTER_DAT"%string :: volume_blocks).

Definition more_lta_files : filesystem :=
  fun name =>
    if String.eqb name "vox2vox.lta" then Some (list_byte_of_string vox2vox_lta)
    else if String.eqb name "register.lta" then Some (list_byte_of_string register_dat_lta)
    else None.

(* ------------------------------------------------------------------ *)
(** ** Level sets on a triangle mesh (fsqcUtils.levelsetsTria) *)

Section Levelsets.
Context {T : Type} {num : Scalar T}.
Local Open Scope num_scope.
Local Open Scope result_scope.

(** The argument [levelsets]: one number, a flat list, or a list of rows. *)
Inductive levels : Type :=
| Level (x : T)
| Levels1 (l : list T)
| Levels2 (rows : list (list T)).

(** [np.array(levelsets, ndmin=2)]: a number becomes one row of one entry,
    a flat list ONE row, a list of rows (of one length, which numpy 1.24 and
    later insists on) stays as it is. *)
Definition array_2d (ls : levels) : result (list (list T)) :=
  match ls with
  | Level x => Ok [[x]]
  | Levels1 l => Ok [l]
  | Levels2 [] => Ok [[]]
  | Levels2 (r :: rows) =>
      if forallb (fun r' => (length r' =? length r)%nat) rows
      then Ok (r :: rows) else Err ValueError
  end.

(** [a[i]] on an array or list. *)
Definition item_at {A} (l : list A) (i : nat) : result A :=
  match nth_error l i with
  | Some x => Ok x
  | None => Err IndexError
  end.

(** [t[i, k]]. *)
Definition tria_vertex (c : tria) (k : nat) : result nat :=
  match k with
  | 0%nat => Ok (tria0 c)
  | 1%nat => Ok (tria1 c)
  | 2%nat => Ok (tria2 c)
  | _ => Err IndexError
  end.

(** Broadcasting a row [lvl] of length 1 or 3 against the three columns
    of [p[t]]. *)
Definition broadcasts (lvl : list T) : bool :=
  ((length lvl =? 1) || (length lvl =? 3))%nat.
Definition bcast (lvl : list T) (k : nat) : T :=
  match lvl with
  | [x] => x
  | _ => nth k lvl (of_Z 0)
  end.

(** One row of [p[t]], and of [nlvl = p[t] > lvl]. *)
Definition p_at (p : list T) (c : tria) : result (T * T * T) :=
  p0 <- item_at p (tria0 c) ;;
  p1 <- item_at p (tria1 c) ;;
  p2 <- item_at p (tria2 c) ;;
  Ok (p0, p1, p2).

Definition above (lvl : list T) (pt : T * T * T) : list bool :=
  let '(p0, p1, p2) := pt in
  [ bcast lvl 0 <? p0; bcast lvl 1 <? p1; bcast lvl 2 <? p2 ].

Definition count_true (r : list bool) : nat := length (filter (fun b => b) r).

(** [np.where(np.logical_or(np.sum(nlvl, axis=1) == 1,
    np.sum(nlvl, axis=1) == 2))[0]]. *)
Definition where_cut (nlvl : list (list bool)) : list nat :=
  map fst
    (filter (fun ir => ((count_true (snd ir) =? 1) || (count_true (snd ir) =? 2))%nat)
            (combine (seq 0 (length nlvl)) nlvl)).

(** [np.where(row)[0]] and [np.setdiff1d((0, 1, 2), oi)]. *)
Definition positions (r : list bool) : list nat :=
  map fst (filter (fun ib => snd ib) (combine (seq 0 (length r)) r)).
Definition setdiff012 (oi : list nat) : list nat :=
  filter (fun k => negb (existsb (Nat.eqb k) oi)) [0; 1; 2]%nat.

(** [oi.item()]: the one element of an array of size one. *)
Definition the_item (oi : list nat) : result nat :=
  match oi with
  | [k] => Ok k
  | _ => Err ValueError
  end.

(** The state of the loop over the cut triangles: the matrix [A] of the
    point numbers already given to an edge (0 where none), and the points
    [vi] interpolated so far. *)
Record cut_state : Type := {
  seen : nat -> nat -> nat;
  vi : list (@vec3 T)
}.

Definition set_seen (A : nat -> nat -> nat) (a b : nat) (x : nat) : nat -> nat -> nat :=
  fun i j => if ((i =? a) && (j =? b))%nat then x else A i j.

(** The point where the edge from vertex [a] to vertex [b] meets the
    level: [s * d + v[a]] with [d = v[b] - v[a]] and
    [s = (lvl - p[a]) / (p[b] - p[a])]. *)
Definition interpolate (v : list (@vec3 T)) (p : list T) (lvl : list T) (a b : nat)
  : result (@vec3 T) :=
  vb <- item_at v b ;;
  va <- item_at v a ;;
  let '(d0, d1, d2) := vsub vb va in
  pa <- item_at p a ;;
  pb <- item_at p b ;;
  let s := fun k => (bcast lvl k - pa) / (pb - pa) in
  let '(a0, a1, a2) := va in
  Ok (s 0%nat * d0 + a0, s 1%nat * d1 + a1, s 2%nat * d2 + a2).

(** One of the two edges of a cut triangle that leave its odd vertex [a]:
    the number of its point, a new point unless [A[a, b]] is set. *)
Definition cut_edge (v : list (@vec3 T)) (p : list T) (lvl : list T) (a b : nat)
  (st : cut_state) : result (nat * cut_state) :=
  if negb ((a <? length v) && (b <? length v))%nat then Err IndexError
  else if (seen st a b =? 0)%nat then
    v10 <- interpolate v p lvl a b ;;
    let vi' := vi st ++ [v10] in
    let ti10 := length vi' in
    Ok (ti10, {| seen := set_seen (set_seen (seen st) a b ti10) b a ti10; vi := vi' |})
  else Ok (seen st a b, st).

(** The body of the loop for the triangle of index [i]. *)
Definition cut_tria (v : list (@vec3 T)) (t : list tria) (p : list T) (lvl : list T)
  (nlvl : list (list bool)) (i : nat) (acc : cut_state * list (nat * nat))
  : result (cut_state * list (nat * nat)) :=
  let '(st, ti) := acc in
  row <- item_at nlvl i ;;
  let oi := positions row in
  let oi := if (length oi =? 2)%nat then setdiff012 oi else oi in
  let oix := setdiff012 oi in
  c <- item_at t i ;;
  o <- the_item oi ;;
  a <- tria_vertex c o ;;
  x0 <- item_at oix 0 ;;
  b0 <- tria_vertex c x0 ;;
  '(ti10, st) <- cut_edge v p lvl a b0 st ;;
  x1 <- item_at oix 1 ;;
  b1 <- tria_vertex c x1 ;;
  '(ti20, st) <- cut_edge v p lvl a b1 st ;;
  Ok (st, ti ++ [(ti10, ti20)]).

Fixpoint cut_all (v : list (@vec3 T)) (t : list tria) (p : list T) (lvl : list T)
  (nlvl : list (list bool)) (n : list nat) (acc : cut_state * list (nat * nat))
  : result (cut_state * list (nat * nat)) :=
  match n with
  | [] => Ok acc
  | i :: n' =>
      acc' <- cut_tria v t p lvl nlvl i acc ;;
      cut_all v t p lvl nlvl n' acc'
  end.

(** One round of the outer loop: the points, the segments and the cut
    triangles of one level. *)
Definition cut_level (v : list (@vec3 T)) (t : list tria) (p : list T) (lvl : list T)
  : result (list (@vec3 T) * list (nat * nat) * list nat) :=
  pt <- mapM (p_at p) t ;;
  if negb (broadcasts lvl) then Err ValueError
  else
    let nlvl := map (above lvl) pt in
    let n := where_cut nlvl in
    '(st, ti) <- cut_all v t p lvl nlvl n ({| seen := fun _ _ => 0%nat; vi := [] |}, []) ;;
    Ok (vi st, ti, n).

(** [levelsetsTria(v, t, p, levelsets)]: [vLVL], [lLVL] and [iLVL]. *)
Definition levelsetsTria (v : list (@vec3 T)) (t : list tria) (p : list T) (levelsets : levels)
  : result (list (list (@vec3 T)) * list (list (nat * nat)) * list (list nat)) :=
  rows <- array_2d levelsets ;;
  out <- mapM (cut_level v t p) rows ;;
  Ok (map (fun r => fst (fst r)) out, map (fun r => snd (fst r)) out, map snd out).
End Levelsets.

(** A square of two triangles with a function that rises along x. *)
Definition square_corners : list (@vec3 R) :=
  [ (0, 0, 0); (1, 0, 0); (1, 1, 0); (0, 1, 0) ]%R.
Definition square_trias : list tria := [ (0, 1, 2); (0, 2, 3) ]%nat.
Definition square_function : list R := [ 0; 1; 1; 0 ]%R.

(** The numbers in [A] and in the segments are numbers of points. *)
Definition numbers_valid {T : Type} (st : @cut_state T) (ti : list (nat * nat)) : Prop :=
  (forall i j, (seen st i j <= length (vi st))%nat)
  /\ forall k1 k2, In (k1, k2) ti ->
       (1 <= k1 <= length (vi st))%nat /\ (1 <= k2 <= length (vi st))%nat.

(** The square mesh on floats, and the level 1/2. *)
Definition square_corners_f : list (@vec3 PrimFloat.float) :=
  [ (of_Z 0, of_Z 0, of_Z 0); (of_Z 1, of_Z 0, of_Z 0);
    (of_Z 1, of_Z 1, of_Z 0); (of_Z 0, of_Z 1, of_Z 0) ].
Definition square_function_f : list PrimFloat.float := [ of_Z 0; of_Z 1; of_Z 1; of_Z 0 ].
Definition half_f : PrimFloat.float := (of_Z 1 / of_Z 2)%num.

(** The result of [levelsetsTria], or empty lists where it raises. *)
Definition level_sets {T : Type}
  (r : result (list (list (@vec3 T)) * list (list (nat * nat)) * list (list nat)))
  : list (list (@vec3 T)) * list (list (nat * nat)) * list (list nat) :=
  match r with
  | Ok out => out
  | Err _ => ([], [], [])
  end.

(** A point [pt] lies where the level [x] of the function [p], taken as
    linear along the edges, meets an edge of the mesh: on the edge between
    two vertices [a] and [b] of one triangle, with different values
    [p[a]] and [p[b]], at the parameter [s] in [0, 1] at which the value
    is [x]. *)
Definition cuts_edge (v : list (@vec3 R)) (t : list tria) (p : list R) (x : R)
  (pt : @vec3 R) : Prop :=
  exists c a b a0 a1 a2 b0 b1 b2 pa pb s,
    In c t
    /\ (a = tria0 c \/ a = tria1 c \/ a = tria2 c)
    /\ (b = tria0 c \/ b = tria1 c \/ b = tria2 c)
    /\ nth_error v a = Some (a0, a1, a2) /\ nth_error v b = Some (b0, b1, b2)
    /\ nth_error p a = Some pa /\ nth_error p b = Some pb
    /\ pa <> pb /\ (0 <= s <= 1)%R /\ (pa + s * (pb - pa))%R = x
    /\ pt = (s * (b0 - a0) + a0, s * (b1 - a1) + a1, s * (b2 - a2) + a2)%R.

(* ------------------------------------------------------------------ *)
(** ** Cells with their vertices in another order *)

(** The same cell with its vertices listed in any order. *)
Definition tria_reordered (c c' : tria) : Prop :=
  Permutation [tria0 c; tria1 c; tria2 c] [tria0 c'; tria1 c'; tria2 c'].
Definition tetra_reordered (c c' : tetra) : Prop :=
  Permutation [tetra0 c; tetra1 c; tetra2 c; tetra3 c]
              [tetra0 c'; tetra1 c'; tetra2 c'; tetra3 c'].

(** Reorderings built from exchanges of neighbours. *)
Inductive tria_swaps : tria -> tria -> Prop :=
| tria_swap12 a b d : tria_swaps (a, b, d) (b, a, d)
| tria_swap23 a b d : tria_swaps (a, b, d) (a, d, b)
| tria_swaps_refl c : tria_swaps c c
| tria_swaps_trans c1 c2 c3 : tria_swaps c1 c2 -> tria_swaps c2 c3 -> tria_swaps c1 c3.

Inductive tetra_swaps : tetra -> tetra -> Prop :=
| tetra_swap12 a b d e : tetra_swaps (a, b, d, e) (b, a, d, e)
| tetra_swap23 a b d e : tetra_swaps (a, b, d, e) (a, d, b, e)
| tetra_swap34 a b d e : tetra_swaps (a, b, d, e) (a, b, e, d)
| tetra_swaps_refl c : tetra_swaps c c
| tetra_swaps_trans c1 c2 c3 : tetra_swaps c1 c2 -> tetra_swaps c2 c3 -> tetra_swaps c1 c3.

(** Two results of an assembly that agree: the same error, or matrices of
    one shape with the same entries. *)
Definition same_matrices (r r' : result (matrix R * matrix R)) : Prop :=
  match r, r' with
  | Ok (A, B), Ok (A', B') =>
      shape A = shape A' /\ shape B = shape B'
      /\ forall i j, entry A i j = entry A' i j /\ entry B i j = entry B' i j
  | Err e, Err e' => e = e'
  | _, _ => False
  end.

(** Scaling every vertex by the same factor. *)
Definition vscale (s : R) (a : @vec3 R) : @vec3 R :=
  let '(a0, a1, a2) := a in ((s * a0)%R, (s * a1)%R, (s * a2)%R).
Definition scaled (s : R) (v : list (@vec3 R)) : list (@vec3 R) := map (vscale s) v.

(* ------------------------------------------------------------------ *)
(** ** Finding and running programs (fs_shapeDNA.which, run_cmd) *)

(** What the script can end with besides the exceptions of the numeric
    code: [sys.exit], a [TypeError] (a path joined to [None]), a missing
    environment variable, a failed program, a module that is not there. *)
Inductive script_exn : Type :=
| SystemExit (code : Z)
| TypeError
| EnvKeyError (name : string)
| CalledProcessError
| ModuleNotFoundError (name : string)
| Raised (e : exn).

Inductive outcome (A : Type) : Type :=
| Done (a : A)
| Failed (e : script_exn).
Arguments Done {A} a.
Arguments Failed {A} e.

(** [os.path.split(p)[0]] is not empty exactly when [p] holds a slash. *)
Fixpoint has_slash (s : string) : bool :=
  match s with
  | EmptyString => false
  | String a s' => Ascii.eqb a "/" || has_slash s'
  end.

Definition starts_with_slash (s : string) : bool :=
  match s with
  | String a _ => Ascii.eqb a "/"
  | EmptyString => false
  end.
Fixpoint ends_with_slash (s : string) : bool :=
  match s with
  | EmptyString => false
  | String a EmptyString => Ascii.eqb a "/"
  | String _ s' => ends_with_slash s'
  end.

(** [os.path.join(a, b)] of posixpath. *)
Definition path_join (a b : string) : string :=
  if starts_with_slash b then b
  else if (String.eqb a EmptyString || ends_with_slash a)%bool then (a ++ b)%string
  else (a ++ "/" ++ b)%string.

(** [s.strip(q)] with [q] the double quote, character 34. *)
Fixpoint lstrip_quotes (s : string) : string :=
  match s with
  | String a s' => if Ascii.eqb a "034" then lstrip_quotes s' else s
  | EmptyString => EmptyString
  end.
Fixpoint rstrip_quotes (s : string) : string :=
  match s with
  | EmptyString => EmptyString
  | String a s' =>
      match rstrip_quotes s' with
      | EmptyString => if Ascii.eqb a "034" then EmptyString else String a EmptyString
      | r => String a r
      end
  end.
Definition strip_quotes (s : string) : string := rstrip_quotes (lstrip_quotes s).

(** [s.split(sep)] with a separator of one character. *)
Fixpoint split_on (sep : ascii) (cur : string) (s : string) : list string :=
  match s with
  | EmptyString => [cur]
  | String a s' =>
      if Ascii.eqb a sep then cur :: split_on sep EmptyString s'
      else split_on sep (cur ++ String a EmptyString)%string s'
  end.

(** The operating system as the script sees it: which files are
    executable ([os.path.isfile(f) and os.access(f, os.X_OK)]), the
    environment, [shlex.split], and [subprocess.check_call], which returns
    or raises. *)
Record system : Type := {
  is_exe : string -> bool;
  environ : string -> option string;
  shlex_split : string -> result (list string);
  check_call : list string -> option script_exn
}.

(** [which(program)]: the full path of an executable, or [None]. *)
Definition which (sys : system) (program : string) : outcome (option string) :=
  if has_slash program then
    if is_exe sys program then Done (Some program) else Done None
  else
    match environ sys "PATH" with
    | None => Failed (EnvKeyError "PATH")
    | Some p =>
        match find (fun path => is_exe sys (path_join (strip_quotes path) program))
                   (split_on ":" EmptyString p) with
        | Some path => Done (Some (path_join (strip_quotes path) program))
        | None =>
            match environ sys "SHAPEDNA_HOME" with
            | None => Failed TypeError
            | Some home =>
                if is_exe sys (path_join home program)
                then Done (Some (path_join home program))
                else if is_exe sys (path_join "." program)
                     then Done (Some (path_join "." program))
                     else Done None
            end
        end
    end.

(** A system with one executable and no [SHAPEDNA_HOME]. *)
Definition small_system : system :=
  {| is_exe := fun f => String.eqb f "/usr/bin/gmsh";
     environ := fun name => if String.eqb name "PATH" then Some "/bin:/usr/bin"%string else None;
     shlex_split := fun _ => Ok [];
     check_call := fun _ => None |}.

(** [s.split()]: the words between runs of white space. *)
Fixpoint words (cur : string) (s : string) : list string :=
  match s with
  | EmptyString => match cur with EmptyString => [] | _ => [cur] end
  | String a s' =>
      if is_space a then
        match cur with
        | EmptyString => words EmptyString s'
        | _ => cur :: words EmptyString s'
        end
      else words (cur ++ String a EmptyString)%string s'
  end.
Definition py_split (s : string) : list string := words EmptyString s.

(** [str(n)] for an integer. *)
Definition str_int (n : Z) : string := NilZero.string_of_int (Z.to_int n).

(** The options of the script that the two drivers read, as the option
    parser types them. *)
Record options : Type := {
  opt_python : bool;
  opt_num : Z;
  opt_degree : Z;
  opt_bcond : Z;
  opt_evec : bool;
  opt_ignorelq : bool;
  opt_refmin : Z;
  opt_tsmooth : Z;
  opt_gsmooth : Z;
  opt_param2d : option string
}.

Section Script.
Context {T : Type} {num : Scalar T}.
Local Open Scope string_scope.

(** The dictionary handed to [exportEV]. *)
Record ev_dict : Type := {
  Refine : Z;
  Degree : Z;
  Dimension : Z;
  Elements : nat;
  DoF : nat;
  NumEW : Z;
  Eigenvalues : list T;
  Eigenvectors : list (list T)
}.

(** What a driver does to the outside, in order. *)
Inductive script_event : Type :=
| Say (msg : string)
| Exec (args : list string)
| Solve (e : @event T)
| ExportEV (d : ev_dict) (outev : string)
| ExportVTK (v : list (@vec3 T)) (t : list tria) (outsurf : string).

Definition script (A : Type) : Type :=
  list script_event -> outcome A * list script_event.

Definition sret {A} (a : A) : script A := fun log => (Done a, log).
Definition sfail {A} (e : script_exn) : script A := fun log => (Failed e, log).
Definition slift {A} (o : outcome A) : script A := fun log => (o, log).
Definition semit (e : script_event) : script unit :=
  fun log => (Done tt, (log ++ [e])%list).
Definition sbind {A B} (m : script A) (k : A -> script B) : script B :=
  fun log =>
    match m log with
    | (Done a, log') => k a log'
    | (Failed e, log') => (Failed e, log')
    end.

Declare Scope script_scope.
Delimit Scope script_scope with script.
Notation "x <- e ;; k" := (sbind e (fun x => k))
  (at level 61, e at next level, right associativity) : script_scope.
Notation "' p <- e ;; k" := (sbind e (fun p => k))
  (at level 61, p pattern, e at next level, right associativity) : script_scope.
Notation "e ;;; k" := (sbind e (fun _ => k))
  (at level 61, right associativity) : script_scope.
Local Open Scope script_scope.

(** The modules the Python mode imports, none of which is part of the
    repository: what [from module import name] raises, if anything, and
    the functions the imports bind. *)
Record modules : Type := {
  import_from : string -> string -> option script_exn;
  importVTK : string -> result (list (@vec3 T) * list tria);
  exportEV : ev_dict -> string -> option exn;
  exportVTK : list (@vec3 T) -> list tria -> string -> option exn
}.

Variable sys : system.
Variable mods : modules.
Variable lib : @libraries T.

(** [my_print(message)]. *)
Definition my_print (message : string) : script unit := semit (Say message).

(** [os.path.join(os.getenv(name), file)]: a [TypeError] when the variable
    is not set. *)
Definition join_env (name file : string) : script string :=
  match environ sys name with
  | Some dir => sret (path_join dir file)
  | None => sfail TypeError
  end.

(** [from modname import name]. *)
Definition py_import (modname name : string) : script unit :=
  match import_from mods modname name with
  | None => sret tt
  | Some e => sfail e
  end.

Definition run_cmd (cmd err_msg : string) : script unit :=
  let clist := py_split cmd in
  match clist with
  | [] => sfail (Raised IndexError)
  | prog :: rest =>
      progname <- slift (which sys prog) ;;
      match progname with
      | None =>
          my_print ("ERROR: " ++ prog ++ " not found in path!") ;;;
          sfail (SystemExit 1)
      | Some progname =>
          let cmd := String.concat " " (progname :: rest) in
          my_print ("#@# Command: " ++ cmd ++ String newline EmptyString) ;;;
          match shlex_split sys cmd with
          | Err e => sfail (Raised e)
          | Ok args =>
              semit (Exec args) ;;;
              match check_call sys args with
              | Some CalledProcessError =>
                  my_print ("ERROR: " ++ err_msg) ;;;
                  sfail CalledProcessError
              | Some e => sfail e
              | None => my_print (String newline EmptyString)
              end
          end
      end
  end.

(** [run_shapeDNAtetra(tetmesh, outev, options)]. *)
Definition run_shapeDNAtetra (tetmesh outev : string) (opts : options) : script unit :=
  if negb (opt_python opts) then
    sdna <- join_env "SHAPEDNA_HOME" "shapeDNA-tetra" ;;
    let dirichlet := if (opt_bcond opts =? 0)%Z then " --dirichlet" else EmptyString in
    let cmd := sdna ++ " --mesh " ++ tetmesh ++ " --num " ++ str_int (opt_num opts)
               ++ " --outfile " ++ outev ++ " --degree " ++ str_int (opt_degree opts)
               ++ dirichlet in
    let cmd := if opt_evec opts then cmd ++ " --evec" else cmd in
    run_cmd cmd "shapeDNA-tetra failed?"
  else
    py_import "importVTKtetra" "importVTKtetra" ;;;
    py_import "exportVTKtetra" "exportVTKtetra" ;;;
    py_import "exportEV" "exportEV" ;;;
    my_print "Tet option is currently not supported for python script" ;;;
    sfail (SystemExit 1).

(** A run of the numeric code inside a driver. *)
Definition solve {A} (r : @run T A) : script A :=
  fun log =>
    match r [] with
    | (Ok a, events) => (Done a, (log ++ map Solve events)%list)
    | (Err e, events) => (Failed (Raised e), (log ++ map Solve events)%list)
    end.

Definition call_export (e : script_event) (raised : option exn) : script unit :=
  semit e ;;;
  match raised with
  | None => sret tt
  | Some x => sfail (Raised x)
  end.

(** [run_shapeDNAtria(surf, outev, outsurf, options)]. *)
Definition run_shapeDNAtria (surf outev outsurf : string) (opts : options) : script unit :=
  if negb (opt_python opts) then
    sdna <- join_env "SHAPEDNA_HOME" "shapeDNA-tria" ;;
    let dirichlet := if (opt_bcond opts =? 0)%Z then " --dirichlet" else EmptyString in
    let cmd := sdna ++ " --mesh " ++ surf ++ " --num " ++ str_int (opt_num opts)
               ++ " --outfile " ++ outev ++ " --degree " ++ str_int (opt_degree opts)
               ++ dirichlet in
    let cmd := if opt_evec opts then cmd ++ " --evec" else cmd in
    let cmd := if opt_ignorelq opts then cmd ++ " --ignorelq" else cmd in
    let cmd := if (0 <? opt_refmin opts)%Z
               then cmd ++ " --refmin " ++ str_int (opt_refmin opts) else cmd in
    let cmd := if (0 <? opt_tsmooth opts)%Z
               then cmd ++ " --tsmooth " ++ str_int (opt_tsmooth opts) else cmd in
    let cmd := if (0 <? opt_gsmooth opts)%Z
               then cmd ++ " --gsmooth " ++ str_int (opt_gsmooth opts) else cmd in
    let cmd := match opt_param2d opts with
               | Some p => cmd ++ " " ++ p
               | None => cmd
               end in
    let cmd := if negb (String.eqb outsurf EmptyString)
               then cmd ++ " --outmesh " ++ outsurf else cmd in
    run_cmd cmd "shapeDNA-tria failed?"
  else
    py_import "importVTK" "importVTK" ;;;
    py_import "exportVTK" "exportVTK" ;;;
    py_import "exportEV" "exportEV" ;;;
    match importVTK mods surf with
    | Err e => sfail (Raised e)
    | Ok (v, t) =>
        '(ev, evec) <- solve (laplaceTria lib v t (opt_num opts) false) ;;
        let d := {| Refine := 0; Degree := 1; Dimension := 2;
                    Elements := length t; DoF := length v; NumEW := opt_num opts;
                    Eigenvalues := ev; Eigenvectors := evec |} in
        call_export (ExportEV d outev) (exportEV mods d outev) ;;;
        call_export (ExportVTK v t outsurf) (exportVTK mods v t outsurf)
    end.

(** The events that reach the outside world: programs run and files
    written. *)
Definition is_output (e : script_event) : bool :=
  match e with
  | Exec _ | ExportEV _ _ | ExportVTK _ _ _ => true
  | _ => false
  end.
End Script.

(** Default options, in Python mode. *)
Definition python_options : options :=
  {| opt_python := true; opt_num := 50; opt_degree := 1; opt_bcond := 1;
     opt_evec := false; opt_ignorelq := false; opt_refmin := 0;
     opt_tsmooth := 0; opt_gsmooth := 0; opt_param2d := None |}.

(** Modules that import, and whose reader returns a mesh with a triangle
    that refers to a vertex the mesh does not have. *)
Definition broken_mesh_modules : @modules PrimFloat.float :=
  {| import_from := fun _ _ => None;
     importVTK := fun _ => Ok ([ (of_Z 0, of_Z 0, of_Z 0); (of_Z 1, of_Z 0, of_Z 0) ],
                               [ (0, 1, 2)%nat ]);
     exportEV := fun _ _ => None;
     exportVTK := fun _ _ _ => None |}.

(** The repository on its own: none of the modules is there. *)
Definition absent_modules : @modules PrimFloat.float :=
  {| import_from := fun modname _ => Some (ModuleNotFoundError modname);
     importVTK := fun _ => Err FileNotFoundError;
     exportEV := fun _ _ => None;
     exportVTK := fun _ _ _ => None |}.

(** The first of the imports [from m import m] that raises. *)
Fixpoint first_import_error {T : Type} (mods : @modules T) (names : list string)
  : option script_exn :=
  match names with
  | [] => None
  | m :: names' =>
      match import_from mods m m with
      | Some e => Some e
      | None => first_import_error mods names'
      end
  end.

(** A word that [shlex.split] returns as it is: not empty, and without
    white space, quote or backslash. *)
Definition shell_special (a : ascii) : bool :=
  is_space a || Ascii.eqb a "034" || Ascii.eqb a "039" || Ascii.eqb a "092".
Definition shell_plain (w : string) : bool :=
  negb (String.eqb w EmptyString)
  && forallb (fun a => negb (shell_special a)) (list_ascii_of_string w).

(** [shlex.split] gives back words that are plain. *)
Definition splits_plain_words (sys : system) : Prop :=
  forall ws, forallb shell_plain ws = true ->
             shlex_split sys (String.concat " " ws) = Ok ws.

(** A system with one executable, in which [shlex.split] splits at white
    space only. *)
Definition plain_system : system :=
  {| is_exe := fun f => String.eqb f "/usr/bin/gmsh";
     environ := fun name => if String.eqb name "PATH" then Some "/bin:/usr/bin"%string else None;
     shlex_split := fun s => Ok (py_split s);
     check_call := fun _ => None |}.

(** A numbering of the cut edges by the points [1 .. npts]: the two
    directions of an edge have one number, different edges have different
    numbers, and every point is the number of an edge.  0 stands for no
    point. *)
Definition edge_numbering (number : nat -> nat -> nat) (npts : nat) : Prop :=
  (forall a b, number a b = number b a)
  /\ (forall a b, (number a b <= npts)%nat)
  /\ (forall a b c d, number a b <> 0%nat -> number a b = number c d ->
        (a = c /\ b = d) \/ (a = d /\ b = c))
  /\ (forall j, (1 <= j <= npts)%nat -> exists a b, number a b = j).

(** The segment [seg] of the cut triangle [t[i]] joins the points of two
    of its edges, which leave one vertex [a]. *)
Definition joins_edges (t : list tria) (number : nat -> nat -> nat)
  (i : nat) (seg : nat * nat) : Prop :=
  exists c a b0 b1,
    nth_error t i = Some c
    /\ In (a, b0, b1) [ (tria0 c, tria1 c, tria2 c); (tria1 c, tria0 c, tria2 c);
                        (tria2 c, tria0 c, tria1 c) ]
    /\ number a b0 <> 0%nat /\ number a b1 <> 0%nat
    /\ seg = (number a b0, number a b1).

(* ================================================================== *)
(** * Properties *)

(* ------------------------------------------------------------------ *)
(** ** Lemmas on arrays *)

Lemma zip_with_map_map {X A B C} (f : A -> B -> C) (g : X -> A) (h : X -> B) (l : list X) :
  zip_with f (map g l) (map h l) = map (fun x => f (g x) (h x)) l.
Proof.
  induction l as [|x l IH]; simpl; [reflexivity|].
  now rewrite IH.
Qed.

Lemma take_map {X A} (v : list A) (d : A) (f : X -> nat) (l : list X) :
  (forall x, In x l -> (f x < length v)%nat) ->
  take v (map f l) = Ok (map (fun x => nth (f x) v d) l).
Proof.
  unfold take.
  induction l as [|x l IH]; simpl; intros Hb; [reflexivity|].
  destruct (nth_error v (f x)) as [a|] eqn:E.
  - rewrite IH by (intros; apply Hb; now right).
    now rewrite (nth_error_nth _ _ d E).
  - apply nth_error_None in E. specialize (Hb x (or_introl eq_refl)). lia.
Qed.

Lemma length_flatten_map {X A} (f : X -> list A) (n : nat) (l : list X) :
  (forall x, length (f x) = n) -> length (flatten (map f l)) = (n * length l)%nat.
Proof.
  intros Hf. unfold flatten.
  induction l as [|x l IH]; simpl; [lia|].
  rewrite length_app, IH, Hf. lia.
Qed.

Lemma combine_flatten_map {X A B} (f : X -> list A) (g : X -> list B) (l : list X) :
  (forall x, length (f x) = length (g x)) ->
  combine (flatten (map f l)) (flatten (map g l))
  = flatten (map (fun x => combine (f x) (g x)) l).
Proof.
  intros Hfg. unfold flatten.
  induction l as [|x l IH]; simpl; [reflexivity|].
  rewrite <- IH.
  generalize (concat (map f l)) (concat (map g l)). intros r s.
  specialize (Hfg x). revert Hfg. generalize (g x). 
  induction (f x) as [|a fa IHa]; intros [|b gb]; simpl; try discriminate; intros E.
  - reflexivity.
  - f_equal. apply IHa. congruence.
Qed.

Lemma flatten_map_flat_map {X A} (f : X -> list A) (l : list X) :
  flatten (map f l) = flat_map f l.
Proof. unfold flatten. symmetry. apply flat_map_concat_map. Qed.

Lemma map_flatten_map {X A B} (g : A -> B) (f : X -> list A) (l : list X) :
  map g (flatten (map f l)) = flatten (map (fun x => map g (f x)) l).
Proof. unfold flatten. now rewrite concat_map, map_map. Qed.

Lemma list_max_incl (l l' : list nat) : incl l l' -> (list_max l <= list_max l')%nat.
Proof.
  intros H. apply list_max_le, Forall_forall. intros k Hk.
  pose proof (proj1 (list_max_le l' (list_max l')) (Nat.le_refl _)) as Hl.
  rewrite Forall_forall in Hl. apply Hl, H, Hk.
Qed.

Lemma list_max_same (l l' : list nat) : incl l l' -> incl l' l -> list_max l = list_max l'.
Proof. intros H H'. apply Nat.le_antisymm; now apply list_max_incl. Qed.

Lemma list_max_flat_map_ext {X} (f g : X -> list nat) (l : list X) :
  (forall x, list_max (f x) = list_max (g x)) ->
  list_max (flat_map f l) = list_max (flat_map g l).
Proof.
  intros H. induction l as [|x l IH]; simpl; [reflexivity|].
  now rewrite !list_max_app, H, IH.
Qed.

Section CellsProofs.
Context {T : Type} {num : Scalar T}.

Lemma csc_matrix_cells {C} (FA : C -> list T) (FI FJ : C -> list nat) (n : nat) (t : list C) :
  t <> [] -> n <> 0%nat ->
  (forall c, length (FA c) = n) -> (forall c, length (FI c) = n) ->
  (forall c, length (FJ c) = n) ->
  csc_matrix (flatten (map FA t)) (flatten (map FI t)) (flatten (map FJ t))
  = Ok {| shape := (S (list_max (flat_map FI t)), S (list_max (flat_map FJ t)));
          triples := flat_map (fun c => combine (combine (FI c) (FJ c)) (FA c)) t |}.
Proof.
  intros Ht Hn HA HI HJ. unfold csc_matrix.
  rewrite (length_flatten_map FA t HA), (length_flatten_map FI t HI),
    (length_flatten_map FJ t HJ), !Nat.eqb_refl. simpl.
  destruct (flatten (map FI t)) as [|i0 I'] eqn:EI.
  - apply (f_equal (@length _)) in EI. rewrite (length_flatten_map FI t HI) in EI.
    destruct t; [congruence|]. simpl in EI. destruct n; [congruence|]. simpl in EI. lia.
  - rewrite <- EI.
    rewrite (combine_flatten_map FI FJ) by (intros; rewrite HI, HJ; reflexivity).
    rewrite (combine_flatten_map (fun x => combine (FI x) (FJ x)) FA).
    + now rewrite !flatten_map_flat_map.
    + intros x. rewrite length_combine, HI, HJ, HA. lia.
Qed.

Lemma tria_bounds (v : list (@vec3 T)) (t : list tria) :
  forallb (tria_in_bounds (length v)) t = true ->
  forall c, In c t ->
    (tria0 c < length v)%nat /\ (tria1 c < length v)%nat /\ (tria2 c < length v)%nat.
Proof.
  intros Hb c Hc. rewrite forallb_forall in Hb. specialize (Hb c Hc).
  unfold tria_in_bounds in Hb. rewrite !andb_true_iff, !Nat.ltb_lt in Hb. tauto.
Qed.

Lemma tetra_bounds (v : list (@vec3 T)) (t : list tetra) :
  forallb (tetra_in_bounds (length v)) t = true ->
  forall c, In c t ->
    (tetra0 c < length v)%nat /\ (tetra1 c < length v)%nat
    /\ (tetra2 c < length v)%nat /\ (tetra3 c < length v)%nat.
Proof.
  intros Hb c Hc. rewrite forallb_forall in Hb. specialize (Hb c Hc).
  unfold tetra_in_bounds in Hb. rewrite !andb_true_iff, !Nat.ltb_lt in Hb. tauto.
Qed.

Lemma assembled_eq (a b c d m : nat) (X X' Y Y' : list (nat * nat * T)) :
  a = m -> b = m -> c = m -> d = m -> X = X' -> Y = Y' ->
  Ok ({| shape := (S a, S b); triples := X |}, {| shape := (S c, S d); triples := Y |})
  = Ok ({| shape := (S m, S m); triples := X' |}, {| shape := (S m, S m); triples := Y' |}).
Proof. intros; subst; reflexivity. Qed.

Lemma column_cons {C} (f : C -> nat) (t : list C) :
  t <> [] -> column f t = Ok (map f t).
Proof. destruct t; [congruence | reflexivity]. Qed.

Lemma bind_Ok {A B} (a : A) (k : A -> result B) : bind (Ok a) k = k a.
Proof. reflexivity. Qed.

Ltac collapse_columns :=
  unfold arr_sub, arr_mul, cross, sum_axis1; cbn [column_stack];
  repeat (rewrite zip_with_map_map || rewrite map_flatten_map || rewrite map_map).

(** The code binds one column after the other.  [column_is X] proves that
    the column bound next is [X], a [map] of a per-cell value over the
    cells, and continues with the rest of the code. *)
Ltac column_is X :=
  lazymatch goal with
  | |- (let x := ?e in @?b x) = ?R =>
      let E := fresh "E" in
      assert (E : e = X) by (collapse_columns; reflexivity);
      let g := eval cbv beta in (b e) in
      change (g = R); rewrite E; clear E
  end.

Ltac indexed_by v f t H0 :=
  rewrite (take_map v zero3 f t) by (intros; now apply H0);
  rewrite bind_Ok; cbv beta.

Ltac same_indices :=
  let k := fresh "k" in let Hk := fresh "Hk" in
  intros k Hk; simpl in Hk |- *;
  repeat (destruct Hk as [Hk|Hk]; [subst k; auto 20|]); contradiction.

Ltac tria_cells_done :=
  rewrite bind_Ok; cbv beta; apply assembled_eq;
  try (apply list_max_flat_map_ext; intros [[? ?] ?]; apply list_max_same; same_indices);
  apply flat_map_ext; intros [[? ?] ?]; reflexivity.

Ltac tetra_cells_done :=
  rewrite bind_Ok; cbv beta; apply assembled_eq;
  try (apply list_max_flat_map_ext; intros [[[? ?] ?] ?]; apply list_max_same; same_indices);
  apply flat_map_ext; intros [[[? ?] ?] ?]; reflexivity.

(** On a non-empty mesh with indices in bounds the column code of
    [computeABtria] returns the matrices whose triples are, cell after
    cell, the per-cell values. *)
Lemma computeABtria_cells (v : list (@vec3 T)) (t : list tria) (lump : bool) :
  forallb (tria_in_bounds (length v)) t = true -> t <> [] ->
  computeABtria v t lump
  = Ok ({| shape := (S (tria_max t), S (tria_max t));
           triples := flat_map (tria_localA v (tria_vol_mean v t)) t |},
        {| shape := (S (tria_max t), S (tria_max t));
           triples := flat_map (tria_localB lump v (tria_vol_mean v t)) t |}).
Proof.
  intros Hb Ht. pose proof (tria_bounds v t Hb) as H0.
  cbv beta delta [computeABtria].
  rewrite (column_cons _ Ht), bind_Ok; cbv beta.
  rewrite (column_cons _ Ht), bind_Ok; cbv beta.
  rewrite (column_cons _ Ht), bind_Ok; cbv beta.
  indexed_by v tria0 t H0. indexed_by v tria1 t H0. indexed_by v tria2 t H0.
  set (vm := tria_vol_mean v t).
  column_is (map (tria_v2mv1 v) t).
  column_is (map (tria_v3mv2 v) t).
  column_is (map (tria_v1mv3 v) t).
  column_is (map (fun c => cross3 (tria_v3mv2 v c) (tria_v1mv3 v c)) t).
  column_is (map (tria_vol_raw v) t).
  column_is vm.
  column_is (map (tria_vol v vm) t).
  column_is (map (tria_A12 v vm) t).
  column_is (map (tria_A23 v vm) t).
  column_is (map (tria_A31 v vm) t).
  column_is (map (tria_A11 v vm) t).
  column_is (map (tria_A22 v vm) t).
  column_is (map (tria_A33 v vm) t).
  cbv zeta. collapse_columns.
  erewrite (@csc_matrix_cells tria _ _ _ 9%nat t); try (intros; reflexivity); try congruence.
  rewrite bind_Ok; cbv beta. destruct lump; cbn [negb].
  - erewrite (@csc_matrix_cells tria _ _ _ 3%nat t); try (intros; reflexivity); try congruence.
    tria_cells_done.
  - erewrite (@csc_matrix_cells tria _ _ _ 9%nat t); try (intros; reflexivity); try congruence.
    tria_cells_done.
Qed.
Lemma computeABtetra_cells (v : list (@vec3 T)) (t : list tetra) (lump : bool) :
  forallb (tetra_in_bounds (length v)) t = true -> t <> [] ->
  computeABtetra v t lump
  = Ok ({| shape := (S (tetra_max t), S (tetra_max t));
           triples := flat_map (tetra_localA v (tetra_vol_mean v t)) t |},
        {| shape := (S (tetra_max t), S (tetra_max t));
           triples := flat_map (tetra_localB lump v (tetra_vol_mean v t)) t |}).
Proof.
  intros Hb Ht. pose proof (tetra_bounds v t Hb) as H0.
  cbv beta delta [computeABtetra].
  rewrite (column_cons _ Ht), bind_Ok; cbv beta.
  rewrite (column_cons _ Ht), bind_Ok; cbv beta.
  rewrite (column_cons _ Ht), bind_Ok; cbv beta.
  rewrite (column_cons _ Ht), bind_Ok; cbv beta.
  indexed_by v tetra0 t H0. indexed_by v tetra1 t H0.
  indexed_by v tetra2 t H0. indexed_by v tetra3 t H0.
  set (vm := tetra_vol_mean v t).
  column_is (map (tetra_e1 v) t).
  column_is (map (tetra_e2 v) t).
  column_is (map (tetra_e3 v) t).
  column_is (map (tetra_e4 v) t).
  column_is (map (tetra_e5 v) t).
  column_is (map (tetra_e6 v) t).
  column_is (map (fun c => cross3 (tetra_e1 v c) (tetra_e3 v c)) t).
  column_is (map (tetra_vol_raw v) t).
  column_is vm.
  column_is (map (tetra_vol v vm) t).
  column_is (map (fun c => dot3 (tetra_e1 v c) (tetra_e1 v c)) t).
  column_is (map (fun c => dot3 (tetra_e2 v c) (tetra_e2 v c)) t).
  column_is (map (fun c => dot3 (tetra_e3 v c) (tetra_e3 v c)) t).
  column_is (map (fun c => dot3 (tetra_e4 v c) (tetra_e4 v c)) t).
  column_is (map (fun c => dot3 (tetra_e5 v c) (tetra_e5 v c)) t).
  column_is (map (fun c => dot3 (tetra_e6 v c) (tetra_e6 v c)) t).
  column_is (map (fun c => dot3 (tetra_e1 v c) (tetra_e2 v c)) t).
  column_is (map (fun c => dot3 (tetra_e1 v c) (tetra_e3 v c)) t).
  column_is (map (fun c => dot3 (tetra_e1 v c) (tetra_e4 v c)) t).
  column_is (map (fun c => dot3 (tetra_e1 v c) (tetra_e5 v c)) t).
  column_is (map (fun c => dot3 (tetra_e2 v c) (tetra_e3 v c)) t).
  column_is (map (fun c => dot3 (tetra_e2 v c) (tetra_e5 v c)) t).
  column_is (map (fun c => dot3 (tetra_e2 v c) (tetra_e6 v c)) t).
  column_is (map (fun c => dot3 (tetra_e3 v c) (tetra_e4 v c)) t).
  column_is (map (fun c => dot3 (tetra_e3 v c) (tetra_e6 v c)) t).
  column_is (map (tetra_A12 v vm) t).
  column_is (map (tetra_A13 v vm) t).
  column_is (map (tetra_A14 v vm) t).
  column_is (map (tetra_A23 v vm) t).
  column_is (map (tetra_A24 v vm) t).
  column_is (map (tetra_A34 v vm) t).
  column_is (map (tetra_A11 v vm) t).
  column_is (map (tetra_A22 v vm) t).
  column_is (map (tetra_A33 v vm) t).
  column_is (map (tetra_A44 v vm) t).
  cbv zeta. collapse_columns.
  erewrite (@csc_matrix_cells tetra _ _ _ 16%nat t); try (intros; reflexivity); try congruence.
  rewrite bind_Ok; cbv beta. destruct lump; cbn [negb].
  - erewrite (@csc_matrix_cells tetra _ _ _ 4%nat t); try (intros; reflexivity); try congruence.
    tetra_cells_done.
  - erewrite (@csc_matrix_cells tetra _ _ _ 16%nat t); try (intros; reflexivity); try congruence.
    tetra_cells_done.
Qed.
End CellsProofs.

(* ------------------------------------------------------------------ *)
(** ** Sums of triples, over the reals *)

(** Over the reals the operations of [Scalar] are the usual ones. *)
Ltac real_ops :=
  change (@of_Z R R_scalar) with IZR in *;
  change (@add R R_scalar) with Rplus in *;
  change (@sub R R_scalar) with Rminus in *;
  change (@mul R R_scalar) with Rmult in *;
  change (@div R R_scalar) with Rdiv in *;
  change (@neg R R_scalar) with Ropp in *;
  change (@root R R_scalar) with R_sqrt.sqrt in *;
  change (@absv R R_scalar) with Rabs in *.

Section RealSums.
Local Open Scope R_scope.


Lemma total_nil : total (T:=R) [] = 0.
Proof. reflexivity. Qed.

Lemma total_cons (x : R) (l : list R) : total (x :: l) = x + total l.
Proof. reflexivity. Qed.

Lemma total_app (l l' : list R) : total (l ++ l') = total l + total l'.
Proof.
  induction l as [|x l IH]; simpl.
  - rewrite total_nil. now rewrite Rplus_0_l.
  - rewrite !total_cons, IH. apply eq_sym, Rplus_assoc.
Qed.

Lemma total_flat_map {X} (f : X -> list (nat * nat * R)) (g : nat * nat * R -> R) (l : list X) :
  total (map g (flat_map f l)) = total (map (fun x => total (map g (f x))) l).
Proof.
  induction l as [|x l IH]; simpl; [reflexivity|].
  now rewrite map_app, total_app, total_cons, IH.
Qed.

Lemma total_zero {X} (f : X -> R) (l : list X) :
  (forall x, In x l -> f x = 0) -> total (map f l) = 0.
Proof.
  induction l as [|x l IH]; simpl; intros H; [reflexivity|].
  rewrite total_cons, (H x) by now left. rewrite IH; [apply Rplus_0_l|].
  intros; apply H; now right.
Qed.

Lemma total_ext {X} (f g : X -> R) (l : list X) :
  (forall x, In x l -> f x = g x) -> total (map f l) = total (map g l).
Proof.
  induction l as [|x l IH]; simpl; intros H; [reflexivity|].
  rewrite !total_cons, (H x) by now left. rewrite IH; [reflexivity|].
  intros; apply H; now right.
Qed.

Lemma total_plus {X} (f g : X -> R) (l : list X) :
  total (map (fun x => f x + g x) l) = total (map f l) + total (map g l).
Proof.
  induction l as [|x l IH]; simpl; [rewrite !total_nil; now rewrite Rplus_0_l|].
  rewrite !total_cons, IH. ring.
Qed.

Lemma total_at_pos_seq (i n : nat) (e : nat * nat * R) (s : nat) :
  total (map (fun j => at_pos i j e) (seq s n))
  = let '(r, c, x) := e in
    if ((r =? i)%nat && ((s <=? c)%nat && (c <? s + n)%nat))%bool then x else 0.
Proof.
  destruct e as [[r c] x]. revert s.
  induction n as [|n IH]; intros s; cbn [seq map].
  - rewrite total_nil.
    destruct (r =? i)%nat; cbn [andb]; [|reflexivity].
    destruct (Nat.leb_spec s c), (Nat.ltb_spec c (s + 0)); cbn [andb]; try reflexivity; lia.
  - rewrite total_cons, IH. unfold at_pos.
    destruct (r =? i)%nat; cbn [andb]; [|apply Rplus_0_l].
    destruct (Nat.eqb_spec c s), (Nat.leb_spec (S s) c), (Nat.ltb_spec c (S s + n)),
      (Nat.leb_spec s c), (Nat.ltb_spec c (s + S n)); cbn [andb]; try lia;
      real_ops; ring.
Qed.

(** The row sum of a matrix, triple by triple. *)
Lemma row_sum_triples (A : matrix R) (i : nat) :
  row_sum A i = total (map (in_row i (snd (shape A))) (triples A)).
Proof.
  unfold row_sum, entry. generalize (snd (shape A)) as n. intros n.
  induction (triples A) as [|e l IH]; simpl.
  - apply total_zero. reflexivity.
  - rewrite total_cons.
    rewrite (total_ext _ (fun j => at_pos i j e + total (map (at_pos i j) l)))
      by (intros; apply total_cons).
    rewrite (total_plus (fun j => at_pos i j e) (fun j => total (map (at_pos i j) l))).
    rewrite IH. f_equal.
    rewrite (total_at_pos_seq i n e 0).
    destruct e as [[r c] x]. unfold in_row. simpl. reflexivity.
Qed.

Lemma symmetric_pair (a b : nat) (x : R) : symmetric_triples [(a, b, x); (b, a, x)].
Proof.
  intros i j. simpl. rewrite !total_cons, !total_nil.
  destruct (a =? i)%nat, (b =? j)%nat, (b =? i)%nat, (a =? j)%nat; simpl; real_ops; ring.
Qed.

Lemma symmetric_diag (a : nat) (x : R) : symmetric_triples [(a, a, x)].
Proof.
  intros i j. simpl. rewrite !total_cons, !total_nil.
  destruct (a =? i)%nat, (a =? j)%nat; simpl; real_ops; ring.
Qed.

Lemma symmetric_app (l l' : list (nat * nat * R)) :
  symmetric_triples l -> symmetric_triples l' -> symmetric_triples (l ++ l').
Proof.
  intros H H' i j. rewrite !map_app, !total_app. now rewrite (H i j), (H' i j).
Qed.

Lemma symmetric_nil : symmetric_triples [].
Proof. intros i j. reflexivity. Qed.

Lemma symmetric_flat_map {X} (f : X -> list (nat * nat * R)) (l : list X) :
  (forall x, symmetric_triples (f x)) -> symmetric_triples (flat_map f l).
Proof.
  intros H. induction l as [|x l IH]; simpl.
  - apply symmetric_nil.
  - now apply symmetric_app.
Qed.
End RealSums.

(* ------------------------------------------------------------------ *)
(** ** The assembled matrices, over the reals *)

Section RealAssembly.
Local Open Scope R_scope.

Lemma in_flat_map_max {X} (f : X -> list nat) (l : list X) (x : X) (k : nat) :
  In x l -> In k (f x) -> (k <= list_max (flat_map f l))%nat.
Proof.
  intros Hx Hk.
  pose proof (proj1 (list_max_le (flat_map f l) _) (Nat.le_refl _)) as H.
  rewrite Forall_forall in H. apply H, in_flat_map. now exists x.
Qed.

Lemma tria_max_ge (t : list tria) (a b d : nat) :
  In (a, b, d) t ->
  (a <? S (tria_max t))%nat = true /\ (b <? S (tria_max t))%nat = true
  /\ (d <? S (tria_max t))%nat = true.
Proof.
  intros H. unfold tria_max. rewrite !Nat.ltb_lt.
  repeat split; apply Nat.lt_succ_r;
    apply (@in_flat_map_max _ (fun c => [tria0 c; tria1 c; tria2 c]) t (a, b, d) _ H);
    simpl; auto.
Qed.

Lemma tetra_max_ge (t : list tetra) (a b d e : nat) :
  In (a, b, d, e) t ->
  (a <? S (tetra_max t))%nat = true /\ (b <? S (tetra_max t))%nat = true
  /\ (d <? S (tetra_max t))%nat = true /\ (e <? S (tetra_max t))%nat = true.
Proof.
  intros H. unfold tetra_max. rewrite !Nat.ltb_lt.
  repeat split; apply Nat.lt_succ_r;
    apply (@in_flat_map_max _ (fun c => [tetra0 c; tetra1 c; tetra2 c; tetra3 c]) t
             (a, b, d, e) _ H);
    simpl; auto.
Qed.





End RealAssembly.

Section RealSymmetry.
Local Open Scope R_scope.

Ltac symmetric_cell :=
  repeat match goal with
    | |- symmetric_triples [] => apply symmetric_nil
    | |- symmetric_triples ((?a, ?b, ?x) :: (?b, ?a, ?x) :: ?r) =>
        apply (@symmetric_app [(a, b, x); (b, a, x)] r); [apply symmetric_pair|]
    | |- symmetric_triples ((?a, ?a, ?x) :: ?r) =>
        apply (@symmetric_app [(a, a, x)] r); [apply symmetric_diag|]
    end.

Lemma tria_localA_symmetric (v : list (@vec3 R)) vm c :
  symmetric_triples (tria_localA v vm c).
Proof. destruct c as [[a b] d]. unfold tria_localA. symmetric_cell. Qed.

Lemma tria_localB_symmetric lump (v : list (@vec3 R)) vm c :
  symmetric_triples (tria_localB lump v vm c).
Proof.
  destruct c as [[a b] d]. unfold tria_localB. destruct lump; cbn [negb]; symmetric_cell.
Qed.

Lemma tetra_localA_symmetric (v : list (@vec3 R)) vm c :
  symmetric_triples (tetra_localA v vm c).
Proof. destruct c as [[[a b] d] e]. unfold tetra_localA. symmetric_cell. Qed.

Lemma tetra_localB_symmetric lump (v : list (@vec3 R)) vm c :
  symmetric_triples (tetra_localB lump v vm c).
Proof.
  destruct c as [[[a b] d] e]. unfold tetra_localB.
  destruct lump; cbn [negb]; symmetric_cell.
Qed.

Lemma symmetric_cells {X} (f : X -> list (nat * nat * R)) (l : list X) (m : nat) :
  (forall x, symmetric_triples (f x)) ->
  symmetric {| shape := (m, m); triples := flat_map f l |}.
Proof.
  intros H. split; [reflexivity|]. intros i j. unfold entry. cbn [triples].
  now apply symmetric_flat_map.
Qed.

(** C2.  On every triangle mesh and every tetrahedral mesh with at least
    one cell and all vertex indices in bounds, in lumped and in non-lumped
    mode, the matrices A and B returned by [computeABtria] and
    [computeABtetra] are square and symmetric: [A[i,j] = A[j,i]] and
    [B[i,j] = B[j,i]] for all i and j. *)
Theorem assembled_matrices_symmetric :
  (forall (v : list (@vec3 R)) (t : list tria) (lump : bool),
      forallb (tria_in_bounds (length v)) t = true -> t <> [] ->
      exists A B, computeABtria v t lump = Ok (A, B) /\ symmetric A /\ symmetric B)
  /\
  (forall (v : list (@vec3 R)) (t : list tetra) (lump : bool),
      forallb (tetra_in_bounds (length v)) t = true -> t <> [] ->
      exists A B, computeABtetra v t lump = Ok (A, B) /\ symmetric A /\ symmetric B).
Proof.
  split; intros v t lump Hb Ht.
  - rewrite (computeABtria_cells v lump Hb Ht).
    eexists; eexists; split; [reflexivity|]. split; apply symmetric_cells; intros c.
    + apply tria_localA_symmetric.
    + apply tria_localB_symmetric.
  - rewrite (computeABtetra_cells v lump Hb Ht).
    eexists; eexists; split; [reflexivity|]. split; apply symmetric_cells; intros c.
    + apply tetra_localA_symmetric.
    + apply tetra_localB_symmetric.
Qed.
End RealSymmetry.

Lemma assembled_matrices_symmetric_witness :
  (exists A B, computeABtria unit_corners two_faces true = Ok (A, B)
               /\ symmetric A /\ symmetric B)
  /\ (exists A B, computeABtetra unit_corners unit_tetra false = Ok (A, B)
                  /\ symmetric A /\ symmetric B).
Proof.
  split.
  - apply (proj1 assembled_matrices_symmetric unit_corners two_faces true);
      [reflexivity | discriminate].
  - apply (proj2 assembled_matrices_symmetric unit_corners unit_tetra false);
      [reflexivity | discriminate].
Defined.

(* ------------------------------------------------------------------ *)
(** ** Mass matrices *)

Section RealMass.
Local Open Scope R_scope.

Ltac split_corners v :=
  repeat match goal with
    | |- context [corner v ?a] =>
        let x := fresh "x" in let y := fresh "y" in let z := fresh "z" in
        destruct (corner v a) as [[x y] z]
    end.

(** [vol] before the guard is four times the area of the triangle. *)
Lemma tria_vol_raw_area (v : list (@vec3 R)) (c : tria) :
  tria_vol_raw v c = 4 * tria_area v c.
Proof.
  unfold tria_vol_raw, tria_area, tria_v3mv2, tria_v1mv3.
  destruct c as [[a b] d]. cbn [tria0 tria1 tria2]. cbv zeta.
  split_corners v. cbn [vsub cross3 vmul sum3]. real_ops.
  match goal with
  | |- 2 * sqrt ?s = 4 * (sqrt ?s' / 2) => replace s with s' by ring
  end.
  field.
Qed.

(** One triangle gives every vertex the same mass in both modes. *)
Lemma tria_localB_row (v : list (@vec3 R)) (vm : R) (c : tria) (i n : nat) :
  (tria0 c <? n)%nat = true -> (tria1 c <? n)%nat = true -> (tria2 c <? n)%nat = true ->
  total (map (in_row i n) (tria_localB false v vm c))
  = total (map (at_pos i i) (tria_localB true v vm c)).
Proof.
  destruct c as [[a b] d]. cbn [tria0 tria1 tria2]. intros Ha Hb Hd.
  unfold tria_localB. cbn [negb map]. rewrite !total_cons, !total_nil.
  unfold in_row, at_pos. rewrite Ha, Hb, Hd, !andb_true_r. real_ops.
  destruct (a =? i)%nat, (b =? i)%nat, (d =? i)%nat; cbn [andb]; lra.
Qed.

Lemma tetra_localB_row (v : list (@vec3 R)) (vm : R) (c : tetra) (i n : nat) :
  (tetra0 c <? n)%nat = true -> (tetra1 c <? n)%nat = true ->
  (tetra2 c <? n)%nat = true -> (tetra3 c <? n)%nat = true ->
  total (map (in_row i n) (tetra_localB false v vm c))
  = total (map (at_pos i i) (tetra_localB true v vm c)).
Proof.
  destruct c as [[[a b] d] e]. cbn [tetra0 tetra1 tetra2 tetra3]. intros Ha Hb Hd He.
  unfold tetra_localB. cbn [negb map]. rewrite !total_cons, !total_nil.
  unfold in_row, at_pos. rewrite Ha, Hb, Hd, He, !andb_true_r. real_ops.
  destruct (a =? i)%nat, (b =? i)%nat, (d =? i)%nat, (e =? i)%nat; cbn [andb]; lra.
Qed.

(** C10.  On every triangle mesh and every tetrahedral mesh with at least
    one cell and all vertex indices in bounds, each row sum of the
    non-lumped mass matrix equals the diagonal entry of the lumped mass
    matrix of the same mesh at that row: both modes give every vertex the
    same total mass. *)
Theorem lumped_mass_is_row_sum :
  (forall (v : list (@vec3 R)) (t : list tria),
      forallb (tria_in_bounds (length v)) t = true -> t <> [] ->
      exists A B A' B',
        computeABtria v t false = Ok (A, B) /\ computeABtria v t true = Ok (A', B')
        /\ forall i, row_sum B i = entry B' i i)
  /\
  (forall (v : list (@vec3 R)) (t : list tetra),
      forallb (tetra_in_bounds (length v)) t = true -> t <> [] ->
      exists A B A' B',
        computeABtetra v t false = Ok (A, B) /\ computeABtetra v t true = Ok (A', B')
        /\ forall i, row_sum B i = entry B' i i).
Proof.
  split; intros v t Hb Ht.
  - rewrite !(computeABtria_cells v _ Hb Ht).
    do 4 eexists. split; [reflexivity|]. split; [reflexivity|]. intros i.
    rewrite row_sum_triples. unfold entry. cbn [shape triples snd].
    rewrite !total_flat_map. apply total_ext. intros [[a b] d] Hc.
    destruct (tria_max_ge t a b d Hc) as (Ha & Hb' & Hd).
    now apply tria_localB_row.
  - rewrite !(computeABtetra_cells v _ Hb Ht).
    do 4 eexists. split; [reflexivity|]. split; [reflexivity|]. intros i.
    rewrite row_sum_triples. unfold entry. cbn [shape triples snd].
    rewrite !total_flat_map. apply total_ext. intros [[[a b] d] e] Hc.
    destruct (tetra_max_ge t a b d e Hc) as (Ha & Hb' & Hd & He).
    now apply tetra_localB_row.
Qed.

(** C6.  On every triangle mesh with at least one cell and all indices in
    bounds, with q the code's [vol] of a triangle (four times its area,
    replaced by [vol_mean] where that is below machine epsilon): in
    non-lumped mode B is assembled from q/48 at the six off-diagonal
    positions and q/24 at the three diagonal positions of each triangle; in
    lumped mode from one q/12 per vertex per triangle, all on the
    diagonal. *)
Theorem tria_mass_contributions (v : list (@vec3 R)) (t : list tria) :
  forallb (tria_in_bounds (length v)) t = true -> t <> [] ->
  tria_mass_as_documented v t.
Proof.
  intros Hb Ht. unfold tria_mass_as_documented.
  set (vm := tria_vol_mean v t).
  set (q := fun c =>
    if Rlt_dec (4 * tria_area v c) epsilon then vm else 4 * tria_area v c).
  assert (Hq : forall c, tria_vol v vm c = q c).
  { intros c. unfold tria_vol, q. rewrite tria_vol_raw_area. cbn [ltb R_scalar].
    destruct (Rlt_dec (4 * tria_area v c) epsilon); reflexivity. }
  rewrite !(computeABtria_cells v _ Hb Ht). fold vm. split.
  - do 2 eexists. split; [reflexivity|]. cbn [triples].
    apply flat_map_ext. intros [[a b] d]. unfold tria_localB, tria_mass_consistent.
    cbn [negb]. rewrite Hq. reflexivity.
  - do 2 eexists. split; [reflexivity|]. cbn [triples].
    assert (E : flat_map (tria_localB true v vm) t
                = flat_map (fun c => tria_mass_lumped (q c) c) t).
    { apply flat_map_ext. intros [[a b] d]. unfold tria_localB, tria_mass_lumped.
      cbn [negb]. rewrite Hq. reflexivity. }
    split; [exact E|]. rewrite E. apply Forall_flat_map, Forall_forall.
    intros [[a b] d] _. unfold tria_mass_lumped.
    repeat constructor.
Qed.
End RealMass.

Lemma lumped_mass_is_row_sum_witness :
  (exists A B A' B',
      computeABtria unit_corners two_faces false = Ok (A, B)
      /\ computeABtria unit_corners two_faces true = Ok (A', B')
      /\ forall i, row_sum B i = entry B' i i)
  /\ (exists A B A' B',
         computeABtetra unit_corners unit_tetra false = Ok (A, B)
         /\ computeABtetra unit_corners unit_tetra true = Ok (A', B')
         /\ forall i, row_sum B i = entry B' i i).
Proof.
  split.
  - apply (proj1 lumped_mass_is_row_sum unit_corners two_faces);
      [reflexivity | discriminate].
  - apply (proj2 lumped_mass_is_row_sum unit_corners unit_tetra);
      [reflexivity | discriminate].
Defined.

Lemma tria_mass_contributions_witness : tria_mass_as_documented unit_corners two_faces.
Proof.
  apply (@tria_mass_contributions unit_corners two_faces); [reflexivity | discriminate].
Defined.

(* ------------------------------------------------------------------ *)
(** ** Tetrahedral stiffness entries *)

Section RealTetra.
Local Open Scope R_scope.

Ltac split_corners v :=
  repeat match goal with
    | |- context [corner v ?a] =>
        let x := fresh "x" in let y := fresh "y" in let z := fresh "z" in
        destruct (corner v a) as [[x y] z]
    end.

(** The scheme does not depend on which end of the opposing edge is taken
    as its start. *)
Lemma opposing_edge_term_start (p q x y : @vec3 R) :
  opposing_edge_term p q x y = opposing_edge_term q p x y.
Proof.
  unfold opposing_edge_term, dot3.
  destruct p as [[p0 p1] p2], q as [[q0 q1] q2], x as [[x0 x1] x2], y as [[y0 y1] y2].
  cbn [vsub vmul sum3]. real_ops. ring.
Qed.

(** [vol] before the guard is six times the volume of the tetrahedron. *)
Lemma tetra_vol_raw_volume (v : list (@vec3 R)) (c : tetra) :
  tetra_vol_raw v c = tetra_six_volume v c.
Proof.
  unfold tetra_vol_raw, tetra_six_volume, tetra_e1, tetra_e3, tetra_e4.
  destruct c as [[[a b] d] e]. cbn [tetra0 tetra1 tetra2 tetra3]. cbv zeta.
  split_corners v. cbn [vsub cross3 vmul sum3]. real_ops.
  rewrite <- Rabs_Ropp. f_equal. ring.
Qed.

Ltac edge_entry v vm c :=
  unfold tetra_A12, tetra_A13, tetra_A14, tetra_A23, tetra_A24, tetra_A34,
    opposing_edge_term, dot3,
    tetra_e1, tetra_e2, tetra_e3, tetra_e4, tetra_e5, tetra_e6;
  cbn [tetra0 tetra1 tetra2 tetra3]; cbv zeta;
  generalize (tetra_vol v vm c); intros w;
  split_corners v; cbn [vsub vmul sum3]; real_ops;
  unfold Rdiv; rewrite Rinv_mult; ring.

Lemma tetra_A12_documented (v : list (@vec3 R)) vm a b d e :
  tetra_A12 v vm (a, b, d, e) / 6
  = opposing_edge_term (corner v d) (corner v e) (corner v a) (corner v b)
    / (6 * tetra_vol v vm (a, b, d, e)).
Proof. edge_entry v vm (a, b, d, e). Qed.

Lemma tetra_A13_documented (v : list (@vec3 R)) vm a b d e :
  tetra_A13 v vm (a, b, d, e) / 6
  = opposing_edge_term (corner v b) (corner v e) (corner v a) (corner v d)
    / (6 * tetra_vol v vm (a, b, d, e)).
Proof. edge_entry v vm (a, b, d, e). Qed.

Lemma tetra_A14_documented (v : list (@vec3 R)) vm a b d e :
  tetra_A14 v vm (a, b, d, e) / 6
  = opposing_edge_term (corner v b) (corner v d) (corner v a) (corner v e)
    / (6 * tetra_vol v vm (a, b, d, e)).
Proof. edge_entry v vm (a, b, d, e). Qed.

Lemma tetra_A23_documented (v : list (@vec3 R)) vm a b d e :
  tetra_A23 v vm (a, b, d, e) / 6
  = opposing_edge_term (corner v a) (corner v e) (corner v b) (corner v d)
    / (6 * tetra_vol v vm (a, b, d, e)).
Proof. edge_entry v vm (a, b, d, e). Qed.

Lemma tetra_A24_documented (v : list (@vec3 R)) vm a b d e :
  tetra_A24 v vm (a, b, d, e) / 6
  = opposing_edge_term (corner v a) (corner v d) (corner v b) (corner v e)
    / (6 * tetra_vol v vm (a, b, d, e)).
Proof. edge_entry v vm (a, b, d, e). Qed.

Lemma tetra_A34_documented (v : list (@vec3 R)) vm a b d e :
  tetra_A34 v vm (a, b, d, e) / 6
  = opposing_edge_term (corner v a) (corner v b) (corner v d) (corner v e)
    / (6 * tetra_vol v vm (a, b, d, e)).
Proof. edge_entry v vm (a, b, d, e). Qed.

Lemma tetra_localA_documented (v : list (@vec3 R)) vm c :
  tetra_localA v vm c = tetra_stiffness_documented v (tetra_vol v vm c) c.
Proof.
  destruct c as [[[a b] d] e]. unfold tetra_localA, tetra_stiffness_documented.
  cbv zeta.
  rewrite <- tetra_A12_documented, <- tetra_A13_documented, <- tetra_A14_documented,
    <- tetra_A23_documented, <- tetra_A24_documented, <- tetra_A34_documented.
  unfold tetra_A11, tetra_A22, tetra_A33, tetra_A44. real_ops.
  repeat (f_equal; try lra).
Qed.

(** C5.  On every tetrahedral mesh with at least one cell and all indices in
    bounds, each of the six off-diagonal local stiffness entries of a
    tetrahedron is the documented scheme ((el.ek)(em.ek) - (el.em)(ek.ek))
    over 6 times the volume proxy, which for a non-degenerate tetrahedron is
    six times its volume, and each local diagonal entry is the negated sum
    of the three off-diagonal entries of its row. *)
Theorem tetra_stiffness_entries (v : list (@vec3 R)) (t : list tetra) (lump : bool) :
  forallb (tetra_in_bounds (length v)) t = true -> t <> [] ->
  tetra_stiffness_as_documented v t lump.
Proof.
  intros Hb Ht. unfold tetra_stiffness_as_documented.
  rewrite (computeABtetra_cells v lump Hb Ht).
  do 2 eexists. split; [reflexivity|]. cbn [triples].
  apply flat_map_ext. intros c. rewrite tetra_localA_documented. f_equal.
  unfold tetra_vol. rewrite tetra_vol_raw_volume. cbn [eqb R_scalar]. real_ops.
  destruct (Req_dec_T (tetra_six_volume v c) 0); reflexivity.
Qed.
End RealTetra.

Lemma tetra_stiffness_entries_witness :
  tetra_stiffness_as_documented unit_corners unit_tetra false.
Proof.
  apply (@tetra_stiffness_entries unit_corners unit_tetra false);
    [reflexivity | discriminate].
Defined.

(* ------------------------------------------------------------------ *)
(** ** Degenerate triangles *)

(** C4.  On the mesh made of one triangle with three collinear corners,
    [computeABtria] on floats returns matrices, and the stiffness matrix
    holds values that are not finite: the replacement value, the mean of
    [vol] times 1e-4, is itself zero. *)
Theorem collinear_triangle_not_finite :
  match computeABtria (T:=PrimFloat.float) collinear_corners one_triangle false with
  | Ok (A, B) => all_finite A
  | Err _ => true
  end = false.
Proof. vm_compute. reflexivity. Qed.

Section RealGuard.
Local Open Scope R_scope.

Lemma epsilon_positive : 0 < epsilon (T:=R).
Proof.
  unfold epsilon. real_ops. apply Rdiv_lt_0_compat; [lra|].
  apply IZR_lt. reflexivity.
Qed.

(** Where the mean of [vol] is positive the guard does what it is meant to:
    every divisor is positive. *)
Lemma tria_vol_positive (v : list (@vec3 R)) (vm : R) (c : tria) :
  0 < vm -> 0 < tria_vol v vm c.
Proof.
  intros Hvm. unfold tria_vol. cbn [ltb R_scalar].
  destruct (Rlt_dec (tria_vol_raw v c) epsilon) as [H|H]; [exact Hvm|].
  pose proof epsilon_positive. lra.
Qed.

(** Over the reals the divisor of the collinear triangle is zero. *)
Lemma collinear_triangle_divides_by_zero :
  tria_vol collinear_corners (tria_vol_mean collinear_corners one_triangle) (0, 1, 2)%nat = 0.
Proof.
  assert (E : tria_vol_raw (T:=R) collinear_corners (0, 1, 2)%nat = 0).
  { unfold tria_vol_raw, tria_v3mv2, tria_v1mv3, corner, collinear_corners.
    cbn [tria0 tria1 tria2 nth vsub cross3 vmul sum3]. real_ops.
    match goal with |- 2 * sqrt ?s = 0 => replace s with 0 by ring end.
    rewrite sqrt_0. ring. }
  unfold tria_vol, tria_vol_mean, one_triangle, mean, np_sum. cbn [map length fold_left].
  rewrite E. cbn [ltb R_scalar].
  destruct (Rlt_dec 0 epsilon); real_ops; cbn [Z.of_nat]; [|reflexivity].
  unfold Rdiv. ring.
Qed.
End RealGuard.

(* ------------------------------------------------------------------ *)
(** ** Solver entry points *)

Section SolverRuns.
Context {T : Type} {num : Scalar T}.
Variable lib : @libraries T.

Lemma laplace_run (computeAB : bool -> result (matrix T * matrix T))
  (k : Z) (lump : bool) (m : nat) (X Y : list (nat * nat * T)) :
  computeAB lump = Ok ({| shape := (S m, S m); triples := X |},
                       {| shape := (S m, S m); triples := Y |}) ->
  factorizes_then_solves lib (computeAB lump) (laplace lib computeAB k lump []) k.
Proof.
  intros E. unfold factorizes_then_solves. rewrite E.
  do 3 eexists. split; [reflexivity|].
  split; [unfold msub; cbn [shape scale fst snd]; rewrite !Nat.eqb_refl; reflexivity|].
  unfold laplace, chosen_factorization, chosen_backend, solver_messages,
    call_cholesky, call_splu, call_eigsh, print, emit, lift, ret, rbind.
  rewrite E. unfold msub. cbn [shape scale fst snd]. rewrite !Nat.eqb_refl.
  cbn [andb]. fold (@sigma_shift T num).
  destruct (have_cholmod lib); cbn [app].
  - destruct (cholesky lib _); reflexivity.
  - destruct (splu lib _); reflexivity.
Qed.

(** C3, as the code has it.  The entry points do not look at [k]: on every
    mesh with at least one cell and all indices in bounds, for every [k],
    [laplaceTria] and [laplaceTetra] first hand the shifted matrix
    [A - sigma*M] to the factorization, and pass [k] unchanged to the
    eigensolver afterwards; an error for a large [k] can only be the
    eigensolver's, after the factorization. *)
Theorem laplace_factorizes_whatever_k :
  (forall (v : list (@vec3 T)) (t : list tria) (k : Z) (lump : bool),
      forallb (tria_in_bounds (length v)) t = true -> t <> [] ->
      factorizes_then_solves lib (computeABtria v t lump)
        (laplaceTria lib v t k lump []) k)
  /\
  (forall (v : list (@vec3 T)) (t : list tetra) (k : Z) (lump : bool),
      forallb (tetra_in_bounds (length v)) t = true -> t <> [] ->
      factorizes_then_solves lib (computeABtetra v t lump)
        (laplaceTetra lib v t k lump []) k).
Proof.
  split; intros v t k lump Hb Ht.
  - apply (@laplace_run (computeABtria v t) k lump _ _ _
             (computeABtria_cells v lump Hb Ht)).
  - apply (@laplace_run (computeABtetra v t) k lump _ _ _
             (computeABtetra_cells v lump Hb Ht)).
Qed.
End SolverRuns.

(** C3, as stated, fails: with [k] equal to the number of vertices the
    shifted matrix has been factorized by the time the eigensolver refuses
    [k]. *)
Lemma large_k_is_factorized_first : ~ rejects_large_k_before_factorizing standin_libraries.
Proof.
  intros H.
  destruct (H right_corners one_triangle 3%Z false) as [_ Hlog].
  - vm_compute. discriminate.
  - vm_compute in Hlog. discriminate.
Qed.

Lemma laplace_factorizes_whatever_k_witness :
  factorizes_then_solves standin_libraries
    (computeABtria right_corners one_triangle false)
    (laplaceTria standin_libraries right_corners one_triangle 3%Z false []) 3%Z
  /\ factorizes_then_solves standin_libraries
       (computeABtetra (T:=PrimFloat.float)
          [ (of_Z 0, of_Z 0, of_Z 0); (of_Z 1, of_Z 0, of_Z 0);
            (of_Z 0, of_Z 1, of_Z 0); (of_Z 0, of_Z 0, of_Z 1) ] unit_tetra true)
       (laplaceTetra standin_libraries
          [ (of_Z 0, of_Z 0, of_Z 0); (of_Z 1, of_Z 0, of_Z 0);
            (of_Z 0, of_Z 1, of_Z 0); (of_Z 0, of_Z 0, of_Z 1) ] unit_tetra 4%Z true []) 4%Z.
Proof.
  split.
  - apply (proj1 (laplace_factorizes_whatever_k standin_libraries));
      [reflexivity | discriminate].
  - apply (proj2 (laplace_factorizes_whatever_k standin_libraries));
      [reflexivity | discriminate].
Defined.

Section Backends.
Local Open Scope R_scope.
Variable lib : @libraries R.

(** Two inverses of one matrix agree on every right-hand side. *)
Lemma inverses_agree (S : matrix R) (f g : list R -> list R) :
  inverse_of S f -> inverse_of S g ->
  forall b, length b = fst (shape S) -> f b = g b.
Proof.
  intros [_ Hf] [Hg _] b Hb.
  destruct (Hf b Hb) as [Hlen Hsolve].
  rewrite <- Hsolve at 2. symmetry. apply Hg. exact Hlen.
Qed.

Lemma laplace_backends (computeAB : bool -> result (matrix R * matrix R))
  (k : Z) (lump : bool) (m : nat) (X Y : list (nat * nat * R)) :
  opinv_extensional lib ->
  computeAB lump = Ok ({| shape := (S m, S m); triples := X |},
                       {| shape := (S m, S m); triples := Y |}) ->
  exact_factorizations lib (computeAB lump) ->
  backends_agree lib (computeAB lump) k
    (fun b => laplace (with_cholmod b lib) computeAB k lump []).
Proof.
  intros Hext E Hexact. unfold backends_agree.
  set (A0 := {| shape := (S m, S m); triples := X |}) in *.
  set (M0 := {| shape := (S m, S m); triples := Y |}) in *.
  destruct (msub A0 (scale sigma_shift M0)) as [S0|e] eqn:HS.
  2:{ unfold msub in HS. cbn [A0 M0 shape scale fst snd] in HS.
      rewrite !Nat.eqb_refl in HS. discriminate. }
  assert (Hn : fst (shape A0) = fst (shape S0)).
  { unfold msub in HS. cbn [A0 M0 shape scale fst snd] in HS.
    rewrite !Nat.eqb_refl in HS. cbn [andb] in HS. injection HS as <-. reflexivity. }
  destruct (Hexact _ _ _ E HS) as (fc & fl & Hc & Hl & Hfc & Hfl).
  rewrite E. exists A0, M0, S0, fc, fl.
  split; [reflexivity|]. split; [exact HS|]. split; [exact Hc|]. split; [exact Hl|].
  assert (Ht : laplace (with_cholmod true lib) computeAB k lump []
               = (eigsh lib A0 k M0 sigma_shift {| lo_matvec := fc; lo_shape := shape A0 |},
                  solver_messages (with_cholmod true lib)
                  ++ [Factorized Cholesky S0; Eigsh A0 k M0 sigma_shift])).
  { unfold laplace, call_cholesky, call_eigsh, print, emit, lift, ret, rbind.
    cbn [have_cholmod with_cholmod cholesky eigsh]. rewrite E.
    fold (@sigma_shift R R_scalar). rewrite HS, Hc. reflexivity. }
  assert (Hf : laplace (with_cholmod false lib) computeAB k lump []
               = (eigsh lib A0 k M0 sigma_shift {| lo_matvec := fl; lo_shape := shape A0 |},
                  solver_messages (with_cholmod false lib)
                  ++ [Factorized LU S0; Eigsh A0 k M0 sigma_shift])).
  { unfold laplace, call_splu, call_eigsh, print, emit, lift, ret, rbind.
    cbn [have_cholmod with_cholmod splu eigsh]. rewrite E.
    fold (@sigma_shift R R_scalar). rewrite HS, Hl. reflexivity. }
  split; [exact Ht|]. split; [exact Hf|].
  rewrite Ht, Hf. cbn [fst]. apply Hext.
  intros b Hb. apply (inverses_agree Hfc Hfl). now rewrite <- Hn.
Qed.

(** C7.  With libraries whose two factorizations return the inverse of the
    matrix they are given, and an eigensolver that uses [OPinv] only by
    applying it: on every mesh with at least one cell and all indices in
    bounds, the Cholesky run and the LU run of [laplaceTria] and of
    [laplaceTetra] factorize the same shifted matrix [A - sigma*M] with
    [sigma = -0.01], pass the factor to [eigsh] as [OPinv], and return
    equal eigenvalues and eigenvectors. *)
Theorem backend_choice_is_transparent :
  opinv_extensional lib ->
  (forall (v : list (@vec3 R)) (t : list tria) (k : Z) (lump : bool),
      forallb (tria_in_bounds (length v)) t = true -> t <> [] ->
      exact_factorizations lib (computeABtria v t lump) ->
      backends_agree lib (computeABtria v t lump) k
        (fun b => laplaceTria (with_cholmod b lib) v t k lump []))
  /\
  (forall (v : list (@vec3 R)) (t : list tetra) (k : Z) (lump : bool),
      forallb (tetra_in_bounds (length v)) t = true -> t <> [] ->
      exact_factorizations lib (computeABtetra v t lump) ->
      backends_agree lib (computeABtetra v t lump) k
        (fun b => laplaceTetra (with_cholmod b lib) v t k lump [])).
Proof.
  intros Hext. split; intros v t k lump Hb Ht Hexact.
  - apply (@laplace_backends (computeABtria v t) k lump _ _ _ Hext
             (computeABtria_cells v lump Hb Ht) Hexact).
  - apply (@laplace_backends (computeABtetra v t) k lump _ _ _ Hext
             (computeABtetra_cells v lump Hb Ht) Hexact).
Qed.
End Backends.

Section RightTriangle.
Local Open Scope R_scope.

Lemma epsilon_below_one : epsilon (T:=R) < 1.
Proof.
  unfold epsilon. real_ops.
  change (2 ^ 52)%Z with 4503599627370496%Z. lra.
Qed.

Lemma right_triangle_vol (vm : R) :
  tria_vol right_corners vm (0, 1, 2)%nat = 2.
Proof.
  assert (E : tria_vol_raw (T:=R) right_corners (0, 1, 2)%nat = 2).
  { unfold tria_vol_raw, tria_v3mv2, tria_v1mv3, corner, right_corners.
    cbn [tria0 tria1 tria2 nth vsub cross3 vmul sum3]. real_ops.
    match goal with |- 2 * sqrt ?s = 2 => replace s with 1 by ring end.
    rewrite sqrt_1. ring. }
  unfold tria_vol. rewrite E. cbn [ltb R_scalar].
  pose proof epsilon_below_one.
  destruct (Rlt_dec 2 epsilon); [lra | reflexivity].
Qed.

Lemma right_triangle_assembled :
  computeABtria right_corners one_triangle true = Ok (right_A, right_M).
Proof.
  rewrite (@computeABtria_cells R R_scalar right_corners one_triangle true eq_refl)
    by discriminate.
  unfold right_A, right_M, one_triangle, tria_localA, tria_localB.
  cbn [flat_map app negb].
  unfold tria_A11, tria_A22, tria_A33, tria_A12, tria_A23, tria_A31.
  rewrite !right_triangle_vol.
  unfold tria_v2mv1, tria_v3mv2, tria_v1mv3, corner, right_corners.
  cbn [tria0 tria1 tria2 nth vsub vmul sum3]. real_ops.
  repeat (f_equal; try lra).
Qed.

Lemma right_triangle_shifted :
  msub right_A (scale sigma_shift right_M) = Ok right_S.
Proof.
  unfold msub, scale, right_S, right_A, right_M, sigma_shift.
  cbn [shape triples fst snd Nat.eqb andb map]. real_ops. reflexivity.
Qed.

Lemma right_solve_inverse : inverse_of right_S right_solve.
Proof.
  split.
  - intros x Hx. cbn [right_S shape snd] in Hx.
    destruct x as [|x0 [|x1 [|x2 [|? ?]]]]; try discriminate.
    unfold matvec, right_S, right_A.
    cbn [shape triples fst seq map app Nat.eqb nth].
    rewrite !total_cons, !total_nil. real_ops.
    unfold right_solve. cbn [nth]. repeat (f_equal; try field).
  - intros b Hb. cbn [right_S shape fst] in Hb. split; [reflexivity|].
    destruct b as [|b0 [|b1 [|b2 [|? ?]]]]; try discriminate.
    unfold matvec, right_S, right_A, right_solve.
    cbn [shape triples fst seq map app Nat.eqb nth].
    rewrite !total_cons, !total_nil. real_ops.
    repeat (f_equal; try field).
Qed.
End RightTriangle.

Lemma backend_choice_is_transparent_witness :
  backends_agree exact_libraries (computeABtria right_corners one_triangle true) 1%Z
    (fun b => laplaceTria (with_cholmod b exact_libraries)
                right_corners one_triangle 1%Z true []).
Proof.
  apply (proj1 (@backend_choice_is_transparent exact_libraries
                  (fun A k M sigma f g sh H =>
                     f_equal (fun y => Ok ([], [y]))
                       (H (repeat 1%R (fst sh)) (repeat_length 1%R (fst sh)))))
           right_corners one_triangle 1%Z true).
  - reflexivity.
  - discriminate.
  - intros A M S HA HS. rewrite right_triangle_assembled in HA.
    injection HA as <- <-. rewrite right_triangle_shifted in HS. injection HS as <-.
    exists right_solve, right_solve.
    split; [reflexivity|]. split; [reflexivity|].
    split; apply right_solve_inverse.
Defined.

(* ------------------------------------------------------------------ *)
(** ** Missing MGH files *)

(** C8.  For every file name that does not exist on the file system,
    [importMGH] issues one warning and returns NaN; it raises nothing. *)
Theorem importMGH_missing_file (fs : filesystem) (filename : string) :
  fs filename = None ->
  importMGH fs filename
  = (Ok NaN, [ ("WARNING: could not find " ++ filename ++ ", returning NaNs")%string ]).
Proof. intros H. unfold importMGH. rewrite H. reflexivity. Qed.

Lemma importMGH_missing_file_witness :
  importMGH empty_filesystem "lh.thickness.mgh"
  = (Ok NaN, [ "WARNING: could not find lh.thickness.mgh, returning NaNs"%string ]).
Proof. apply (@importMGH_missing_file empty_filesystem "lh.thickness.mgh"). reflexivity. Defined.

(* ------------------------------------------------------------------ *)
(** ** Transforms of type 1 *)

Section TransformProofs.
Context {T : Type} {num : Scalar T}.
Variable py_float : string -> result T.
Variable lib : @imaging T.
Local Open Scope string_scope.

Lemma re_match_never (r : regex) (s : string) : re_match (Seq Never r) s = false.
Proof. induction s as [|a s IH]; simpl; [reflexivity | exact IH]. Qed.

(** A line that starts a [dst] block does not start a [src] block, and the
    other way round. *)
Lemma src_dst_disjoint (l : string) :
  re_match (Lit "src volume info") l = true ->
  re_match (Lit "dst volume info") l = false.
Proof.
  destruct l as [|a l]; [discriminate|].
  cbn [re_match Lit nullable deriv Chr andb orb].
  destruct (Ascii.eqb "s" a) eqn:E.
  - apply Ascii.eqb_eq in E. subst a. intros _.
    cbn [Ascii.eqb Bool.eqb]. apply re_match_never.
  - rewrite re_match_never. discriminate.
Qed.

Lemma dst_src_disjoint (l : string) :
  re_match (Lit "dst volume info") l = true ->
  re_match (Lit "src volume info") l = false.
Proof.
  destruct l as [|a l]; [discriminate|].
  cbn [re_match Lit nullable deriv Chr andb orb].
  destruct (Ascii.eqb "d" a) eqn:E.
  - apply Ascii.eqb_eq in E. subst a. intros _.
    cbn [Ascii.eqb Bool.eqb]. apply re_match_never.
  - rewrite re_match_never. discriminate.
Qed.

Lemma info_block_index (pre stop : string) (rest : list string) (i : nat) (d : dict)
  (i' : nat) (d' : dict) :
  info_block py_float pre stop rest i d = Ok (i', d') -> (i <= i')%nat.
Proof.
  revert i d. induction rest as [|l rest IH]; intros i d; cbn [info_block].
  - intros H. injection H as <- _. lia.
  - destruct (re_match (Lit stop) l).
    + intros H. injection H as <- _. lia.
    + destruct (info_line py_float pre l d) as [d1|e]; cbn [bind]; [|discriminate].
      intros H. apply IH in H. lia.
Qed.

(** A block whose first line is not its end moves the index forward. *)
Lemma info_block_progress (pre stop : string) (lta : list string) (i : nat) (l : string)
  (d : dict) (i' : nat) (d' : dict) :
  nth_error lta i = Some l -> re_match (Lit stop) l = false ->
  info_block py_float pre stop (skipn i lta) i d = Ok (i', d') -> (i < i')%nat.
Proof.
  intros Hl Hstop.
  assert (E : exists rest, skipn i lta = l :: rest).
  { revert lta Hl. induction i as [|i IH]; intros [|x lta] Hl; try discriminate.
    - injection Hl as ->. now exists lta.
    - apply IH. exact Hl. }
  destruct E as [rest ->]. cbn [info_block]. rewrite Hstop.
  destruct (info_line py_float pre l d) as [d1|e]; cbn [bind]; [|discriminate].
  intros H. apply info_block_index in H. lia.
Qed.

(** The main loop does not depend on its fuel once that covers the lines
    left: [readLTA] never stops for lack of it. *)
Lemma lta_loop_fuel (lta : list string) (fuel fuel' : nat) (i : nat) (d : dict) :
  (length lta - i <= fuel)%nat -> (length lta - i <= fuel')%nat ->
  lta_loop py_float fuel lta i d = lta_loop py_float fuel' lta i d.
Proof.
  revert fuel' i d. induction fuel as [|fuel IH]; intros fuel' i d H H'.
  - assert (Hn : nth_error lta i = None) by (apply nth_error_None; lia).
    destruct fuel'; cbn [lta_loop]; [reflexivity | now rewrite Hn].
  - destruct fuel' as [|fuel'].
    + assert (Hn : nth_error lta i = None) by (apply nth_error_None; lia).
      cbn [lta_loop]. now rewrite Hn.
    + cbn [lta_loop]. destruct (nth_error lta i) as [l|] eqn:Hl; [|reflexivity].
      assert (Hi : (i < length lta)%nat) by (apply nth_error_Some; congruence).
      repeat match goal with
        | |- (if ?c then _ else _) = (if ?c then _ else _) =>
            let E := fresh "E" in destruct c eqn:E
        | |- bind ?r _ = bind ?r _ =>
            let x := fresh "x" in destruct r as [x|] eqn:?; cbn [bind]; [|reflexivity]
        end;
        try (apply IH; lia).
      * destruct x as [i' d']. apply IH;
          apply info_block_progress with (l := l) in Heqr; auto using src_dst_disjoint; lia.
      * destruct x as [i' d']. apply IH;
          apply info_block_progress with (l := l) in Heqr; auto using dst_src_disjoint; lia.
Qed.

(** C9.  For a matrix file with the extension [.lta] whose parsed [type]
    field is 1, [applyTransform] on an image that loads raises the explicit
    error "lta type 1 (ras2ras) not supported yet" and saves nothing; with
    any [type] other than 0 it ends in an error and saves nothing. *)
Theorem ras2ras_transform_rejected (fs : filesystem)
  (img_file out_file mat_file interp : string) (ty : lta_value) :
  splitext_ext mat_file = ".lta" ->
  lta_type py_float fs mat_file = Ok ty ->
  (ty = VInt 1 ->
   forall img, nb_load lib img_file = Ok img ->
     applyTransform py_float lib fs img_file out_file mat_file interp
     = (Err (PyException "ERROR: lta type 1 (ras2ras) not supported yet"), []))
  /\ (ty <> VInt 0 ->
      exists e, applyTransform py_float lib fs img_file out_file mat_file interp
                = (Err e, [])).
Proof.
  intros Hext Hty. unfold lta_type in Hty. unfold applyTransform. rewrite Hext.
  cbn [String.eqb Ascii.eqb Bool.eqb].
  destruct (readLTA py_float fs mat_file) as [lta|e]; cbn [bind] in *; [|discriminate].
  rewrite Hty. cbn [bind]. split.
  - intros -> img Himg. rewrite Himg. reflexivity.
  - intros Hne. destruct (nb_load lib img_file) as [img|e]; cbn [bind];
      [|eexists; reflexivity].
    destruct ty as [z| | | | |]; try (destruct (String.eqb interp "nearest"),
      (String.eqb interp "cubic"); eexists; reflexivity).
    destruct z as [|p|p]; [congruence| |].
    + destruct p; destruct (String.eqb interp "nearest"),
        (String.eqb interp "cubic"); eexists; reflexivity.
    + destruct (String.eqb interp "nearest"), (String.eqb interp "cubic");
        eexists; reflexivity.
Qed.
End TransformProofs.

Lemma ras2ras_transform_rejected_witness :
  (VInt (T:=PrimFloat.float) 1 = VInt 1 ->
   forall img, nb_load standin_imaging "orig.nii" = Ok img ->
     applyTransform int_float standin_imaging lta_files
       "orig.nii" "upright.nii" "make_upright.lta" "cubic"
     = (Err (PyException "ERROR: lta type 1 (ras2ras) not supported yet"), []))
  /\ (VInt (T:=PrimFloat.float) 1 <> VInt 0 ->
      exists e, applyTransform int_float standin_imaging lta_files
                  "orig.nii" "upright.nii" "make_upright.lta" "cubic"
                = (Err e, [])).
Proof.
  apply (@ras2ras_transform_rejected PrimFloat.float float_scalar int_float standin_imaging
           lta_files "orig.nii" "upright.nii" "make_upright.lta" "cubic" (VInt 1)).
  - reflexivity.
  - vm_compute. reflexivity.
Defined.

(* ------------------------------------------------------------------ *)
(** ** The readers on the example files *)

(** On a file that exists [importMGH] reads the header, skips the padding
    and returns the squeezed volume, without a warning. *)
Lemma importMGH_small_volume :
  importMGH mgh_files "small.mgh" = (Ok (Volume [2%Z] [1065353216%Z; 1073741824%Z]), []).
Proof. vm_compute. reflexivity. Qed.

(** A truncated file ends in [struct.error]. *)
Lemma importMGH_truncated :
  importMGH (fun _ => Some (firstn 40 small_mgh)) "cut.mgh" = (Err StructError, []).
Proof. vm_compute. reflexivity. Qed.

(** [readLTA] on the example transform finds type 1 and builds both full
    matrices. *)
Lemma readLTA_example_type :
  lta_type int_float lta_files "make_upright.lta" = Ok (VInt 1).
Proof. vm_compute. reflexivity. Qed.

Lemma tria_vol_positive_witness :
  (0 < tria_vol unit_corners 1 (0, 1, 2)%nat)%R.
Proof. apply (@tria_vol_positive unit_corners 1%R (0, 1, 2)%nat). lra. Defined.

Lemma lta_loop_fuel_witness :
  lta_loop int_float 23 (readlines ras2ras_lta) 0 []
  = lta_loop int_float 100 (readlines ras2ras_lta) 0 [].
Proof.
  apply (@lta_loop_fuel PrimFloat.float int_float (readlines ras2ras_lta) 23 100 0 []);
    vm_compute; lia.
Defined.

(* ================================================================== *)
(** * Further properties of the operator assembly *)

Section AssemblyErrors.
Context {T : Type} {num : Scalar T}.

Lemma take_outcome {A} (v : list A) (idx : list nat) :
  (exists l, take v idx = Ok l /\ forall i, In i idx -> (i < length v)%nat)
  \/ take v idx = Err IndexError.
Proof.
  unfold take. induction idx as [|i idx IH]; cbn [mapM].
  - left. exists []. split; [reflexivity | intros i []].
  - destruct (nth_error v i) as [a|] eqn:E; [|now right].
    destruct IH as [(l & Hl' & Hl)|Hl']; rewrite Hl'; [|now right].
    left. exists (a :: l). split; [reflexivity|].
    intros j [<-|Hj]; [|now apply Hl].
    apply nth_error_Some. congruence.
Qed.

Ltac take_or_fail v f t H :=
  let E := fresh "E" in
  destruct (take_outcome v (map f t)) as [(? & E & H)|E]; rewrite E;
  [rewrite bind_Ok; cbv beta | reflexivity].

Lemma computeABtria_index_error (v : list (@vec3 T)) (t : list tria) (lump : bool) :
  t = [] \/ forallb (tria_in_bounds (length v)) t = false ->
  computeABtria v t lump = Err IndexError.
Proof.
  intros [->|Hb]; [reflexivity|].
  destruct t as [|c0 t']; [discriminate|].
  assert (Ht : c0 :: t' <> []) by discriminate.
  set (t := c0 :: t') in *.
  cbv beta delta [computeABtria].
  rewrite (column_cons _ Ht), bind_Ok; cbv beta.
  rewrite (column_cons _ Ht), bind_Ok; cbv beta.
  rewrite (column_cons _ Ht), bind_Ok; cbv beta.
  take_or_fail v tria0 t H0. take_or_fail v tria1 t H1. take_or_fail v tria2 t H2.
  exfalso. enough (forallb (tria_in_bounds (length v)) t = true) by congruence.
  apply forallb_forall. intros c Hc. unfold tria_in_bounds.
  rewrite !andb_true_iff, !Nat.ltb_lt.
  repeat split; [apply H0 | apply H1 | apply H2]; now apply in_map.
Qed.

Lemma computeABtetra_index_error (v : list (@vec3 T)) (t : list tetra) (lump : bool) :
  t = [] \/ forallb (tetra_in_bounds (length v)) t = false ->
  computeABtetra v t lump = Err IndexError.
Proof.
  intros [->|Hb]; [reflexivity|].
  destruct t as [|c0 t']; [discriminate|].
  assert (Ht : c0 :: t' <> []) by discriminate.
  set (t := c0 :: t') in *.
  cbv beta delta [computeABtetra].
  rewrite (column_cons _ Ht), bind_Ok; cbv beta.
  rewrite (column_cons _ Ht), bind_Ok; cbv beta.
  rewrite (column_cons _ Ht), bind_Ok; cbv beta.
  rewrite (column_cons _ Ht), bind_Ok; cbv beta.
  take_or_fail v tetra0 t H0. take_or_fail v tetra1 t H1.
  take_or_fail v tetra2 t H2. take_or_fail v tetra3 t H3.
  exfalso. enough (forallb (tetra_in_bounds (length v)) t = true) by congruence.
  apply forallb_forall. intros c Hc. unfold tetra_in_bounds.
  rewrite !andb_true_iff, !Nat.ltb_lt.
  repeat split; [apply H0 | apply H1 | apply H2 | apply H3]; now apply in_map.
Qed.

(** X5.  [computeABtria] and [computeABtetra] return matrices exactly on the
    meshes with at least one cell and all vertex indices in bounds; on an
    empty cell list and on any index outside the vertex array they end in
    [IndexError], in either mass mode and for every scalar type. *)
Theorem assembly_succeeds_iff_well_formed :
  (forall (v : list (@vec3 T)) (t : list tria) (lump : bool),
      (exists A B, computeABtria v t lump = Ok (A, B))
      <-> (t <> [] /\ forallb (tria_in_bounds (length v)) t = true))
  /\ (forall (v : list (@vec3 T)) (t : list tria) (lump : bool),
         (forall A B, computeABtria v t lump <> Ok (A, B))
         -> computeABtria v t lump = Err IndexError)
  /\ (forall (v : list (@vec3 T)) (t : list tetra) (lump : bool),
         (exists A B, computeABtetra v t lump = Ok (A, B))
         <-> (t <> [] /\ forallb (tetra_in_bounds (length v)) t = true))
  /\ (forall (v : list (@vec3 T)) (t : list tetra) (lump : bool),
         (forall A B, computeABtetra v t lump <> Ok (A, B))
         -> computeABtetra v t lump = Err IndexError).
Proof.
  split; [|split; [|split]].
  - intros v t lump. split.
    + intros (A & B & E).
      destruct t as [|c0 t']; [discriminate|]. split; [discriminate|].
      destruct (forallb (tria_in_bounds (length v)) (c0 :: t')) eqn:Hb; [reflexivity|].
      rewrite computeABtria_index_error in E by now right. discriminate.
    + intros [Ht Hb]. rewrite (computeABtria_cells v lump Hb Ht). eauto.
  - intros v t lump H. destruct t as [|c0 t']; [reflexivity|].
    destruct (forallb (tria_in_bounds (length v)) (c0 :: t')) eqn:Hb.
    + exfalso. eapply H. apply (computeABtria_cells v lump Hb). discriminate.
    + apply computeABtria_index_error. now right.
  - intros v t lump. split.
    + intros (A & B & E).
      destruct t as [|c0 t']; [discriminate|]. split; [discriminate|].
      destruct (forallb (tetra_in_bounds (length v)) (c0 :: t')) eqn:Hb; [reflexivity|].
      rewrite computeABtetra_index_error in E by now right. discriminate.
    + intros [Ht Hb]. rewrite (computeABtetra_cells v lump Hb Ht). eauto.
  - intros v t lump H. destruct t as [|c0 t']; [reflexivity|].
    destruct (forallb (tetra_in_bounds (length v)) (c0 :: t')) eqn:Hb.
    + exfalso. eapply H. apply (computeABtetra_cells v lump Hb). discriminate.
    + apply computeABtetra_index_error. now right.
Qed.
End AssemblyErrors.

Lemma assembly_succeeds_iff_well_formed_witness :
  computeABtria (T:=PrimFloat.float) collinear_corners [ (0, 1, 5)%nat ] false
  = Err IndexError.
Proof.
  apply (proj1 (proj2 (@assembly_succeeds_iff_well_formed PrimFloat.float float_scalar))).
  intros A B. vm_compute. discriminate.
Defined.

Section AssemblyShape.
Context {T : Type} {num : Scalar T}.

Lemma list_max_in (l : list nat) : l <> [] -> In (list_max l) l.
Proof.
  induction l as [|a l IH]; [congruence|]. intros _. cbn [list_max fold_right].
  destruct l as [|b l'].
  - left. cbn. lia.
  - destruct (Nat.max_spec a (list_max (b :: l'))) as [[_ E]|[_ E]];
      change (fold_right Nat.max 0%nat (b :: l')) with (list_max (b :: l')); rewrite E.
    + right. apply IH. discriminate.
    + now left.
Qed.

Lemma tria_max_used (t : list tria) : t <> [] -> tria_uses t (tria_max t).
Proof.
  intros Ht. unfold tria_max.
  assert (H : In (list_max (flat_map (fun c => [tria0 c; tria1 c; tria2 c]) t))
                (flat_map (fun c => [tria0 c; tria1 c; tria2 c]) t)).
  { apply list_max_in. destruct t; [congruence | discriminate]. }
  apply in_flat_map in H. destruct H as (c & Hc & Hin). exists c. split; [exact Hc|].
  cbn in Hin. intuition.
Qed.

Lemma tetra_max_used (t : list tetra) : t <> [] -> tetra_uses t (tetra_max t).
Proof.
  intros Ht. unfold tetra_max.
  assert (H : In (list_max (flat_map (fun c => [tetra0 c; tetra1 c; tetra2 c; tetra3 c]) t))
                (flat_map (fun c => [tetra0 c; tetra1 c; tetra2 c; tetra3 c]) t)).
  { apply list_max_in. destruct t; [congruence | discriminate]. }
  apply in_flat_map in H. destruct H as (c & Hc & Hin). exists c. split; [exact Hc|].
  cbn in Hin. intuition.
Qed.

Lemma tria_uses_le (t : list tria) (i : nat) : tria_uses t i -> (i <= tria_max t)%nat.
Proof.
  intros (c & Hc & H). unfold tria_max.
  apply (@in_flat_map_max _ (fun c => [tria0 c; tria1 c; tria2 c]) t c _ Hc).
  cbn. intuition.
Qed.

Lemma tetra_uses_le (t : list tetra) (i : nat) : tetra_uses t i -> (i <= tetra_max t)%nat.
Proof.
  intros (c & Hc & H). unfold tetra_max.
  apply (@in_flat_map_max _ (fun c => [tetra0 c; tetra1 c; tetra2 c; tetra3 c]) t c _ Hc).
  cbn. intuition.
Qed.

(** X6.  The matrices returned by [computeABtria] and [computeABtetra] are
    square of size (largest vertex index used) + 1, which is at most the
    number of vertices and equals it exactly when the last vertex is
    referenced by some cell: vertices after the last referenced one get no
    row. *)
Theorem assembled_shape_is_largest_index :
  (forall (v : list (@vec3 T)) (t : list tria) (lump : bool),
      forallb (tria_in_bounds (length v)) t = true -> t <> [] ->
      exists A B n,
        computeABtria v t lump = Ok (A, B)
        /\ shape A = (n, n) /\ shape B = (n, n)
        /\ tria_uses t (n - 1) /\ (forall i, tria_uses t i -> (i < n)%nat)
        /\ (n <= length v)%nat
        /\ (n = length v <-> tria_uses t (length v - 1)))
  /\
  (forall (v : list (@vec3 T)) (t : list tetra) (lump : bool),
      forallb (tetra_in_bounds (length v)) t = true -> t <> [] ->
      exists A B n,
        computeABtetra v t lump = Ok (A, B)
        /\ shape A = (n, n) /\ shape B = (n, n)
        /\ tetra_uses t (n - 1) /\ (forall i, tetra_uses t i -> (i < n)%nat)
        /\ (n <= length v)%nat
        /\ (n = length v <-> tetra_uses t (length v - 1))).
Proof.
  split; intros v t lump Hb Ht.
  - rewrite (computeABtria_cells v lump Hb Ht).
    do 2 eexists. exists (S (tria_max t)).
    split; [reflexivity|]. split; [reflexivity|]. split; [reflexivity|].
    pose proof (tria_max_used Ht) as Hu.
    assert (Hlt : (tria_max t < length v)%nat).
    { destruct Hu as (c & Hc & H). pose proof (tria_bounds v t Hb c Hc). lia. }
    split; [now rewrite Nat.sub_1_r|].
    split; [intros i Hi; apply tria_uses_le in Hi; lia|].
    split; [lia|]. split.
    + intros <-. now rewrite Nat.sub_1_r.
    + intros H. apply tria_uses_le in H. lia.
  - rewrite (computeABtetra_cells v lump Hb Ht).
    do 2 eexists. exists (S (tetra_max t)).
    split; [reflexivity|]. split; [reflexivity|]. split; [reflexivity|].
    pose proof (tetra_max_used Ht) as Hu.
    assert (Hlt : (tetra_max t < length v)%nat).
    { destruct Hu as (c & Hc & H). pose proof (tetra_bounds v t Hb c Hc). lia. }
    split; [now rewrite Nat.sub_1_r|].
    split; [intros i Hi; apply tetra_uses_le in Hi; lia|].
    split; [lia|]. split.
    + intros <-. now rewrite Nat.sub_1_r.
    + intros H. apply tetra_uses_le in H. lia.
Qed.
End AssemblyShape.

Lemma assembled_shape_is_largest_index_witness :
  exists A B n,
    computeABtria unit_corners one_triangle true = Ok (A, B)
    /\ shape A = (n, n) /\ shape B = (n, n)
    /\ tria_uses one_triangle (n - 1) /\ (forall i, tria_uses one_triangle i -> (i < n)%nat)
    /\ (n <= length unit_corners)%nat
    /\ (n = length unit_corners <-> tria_uses one_triangle (length unit_corners - 1)).
Proof.
  apply (proj1 (@assembled_shape_is_largest_index R R_scalar) unit_corners one_triangle true);
    [reflexivity | discriminate].
Defined.

Section WeightedSums.
Local Open Scope R_scope.

Lemma delta_sum (g : nat -> R) (c s n : nat) :
  total (map (fun j => if (c =? j)%nat then g j else 0) (seq s n))
  = if ((s <=? c)%nat && (c <? s + n)%nat)%bool then g c else 0.
Proof.
  revert s. induction n as [|n IH]; intros s; cbn [seq map].
  - rewrite total_nil.
    destruct (Nat.leb_spec s c), (Nat.ltb_spec c (s + 0)); cbn [andb]; try reflexivity; lia.
  - rewrite total_cons, IH.
    destruct (Nat.eqb_spec c s), (Nat.leb_spec (S s) c), (Nat.ltb_spec c (S s + n)),
      (Nat.leb_spec s c), (Nat.ltb_spec c (s + S n)); cbn [andb]; subst; try lia; ring.
Qed.

Lemma total_scale {X} (k : R) (f : X -> R) (l : list X) :
  total (map (fun x => k * f x) l) = k * total (map f l).
Proof.
  induction l as [|x l IH]; cbn [map].
  - rewrite !total_nil. ring.
  - rewrite !total_cons, IH. ring.
Qed.

Lemma weighted_triple (w : nat -> nat -> R) (n m : nat) (r c : nat) (a : R) :
  (r < n)%nat -> (c < m)%nat ->
  total (map (fun i => total (map (fun j => w i j * at_pos i j (r, c, a)) (seq 0 m)))
             (seq 0 n))
  = w r c * a.
Proof.
  intros Hr Hc.
  rewrite (total_ext _ (fun i => if (r =? i)%nat then w i c * a else 0)).
  - rewrite delta_sum. destruct (Nat.leb_spec 0 r), (Nat.ltb_spec r (0 + n));
      cbn [andb]; try lia. reflexivity.
  - intros i _.
    rewrite (total_ext _ (fun j => if (c =? j)%nat
                                   then (if (r =? i)%nat then w i j * a else 0) else 0)).
    + rewrite delta_sum. destruct (Nat.leb_spec 0 c), (Nat.ltb_spec c (0 + m));
        cbn [andb]; try lia. reflexivity.
    + intros j _. unfold at_pos. real_ops.
      destruct (r =? i)%nat, (c =? j)%nat; cbn [andb]; ring.
Qed.

(** A weighted sum over all positions is the sum over the stored triples. *)
Lemma weighted_sum_triples (w : nat -> nat -> R) (A : matrix R) :
  within_shape A ->
  weighted_sum w A = total (map (fun e => w (fst (fst e)) (snd (fst e)) * snd e) (triples A)).
Proof.
  unfold weighted_sum, within_shape, entry.
  generalize (fst (shape A)) (snd (shape A)). intros n m.
  induction (triples A) as [|[[r c] a] l IH]; intros H.
  - cbn [map]. rewrite total_nil. apply total_zero. intros i _.
    apply total_zero. intros j _. ring.
  - inversion H as [|? ? [Hr Hc] Hl]; subst. cbn [fst snd] in Hr, Hc.
    cbn [map fst snd]. rewrite total_cons, <- (IH Hl), <- (@weighted_triple w n m r c a Hr Hc).
    rewrite <- total_plus. apply total_ext. intros i _.
    rewrite <- total_plus. apply total_ext. intros j _.
    rewrite total_cons. real_ops. ring.
Qed.

Lemma within_shape_cells {X} (f : X -> list (nat * nat * R)) (l : list X) (n : nat) :
  (forall x, In x l -> Forall (fun e => (fst (fst e) < n)%nat /\ (snd (fst e) < n)%nat) (f x)) ->
  within_shape {| shape := (n, n); triples := flat_map f l |}.
Proof.
  intros H. unfold within_shape. cbn [shape triples fst snd].
  apply Forall_flat_map, Forall_forall. exact H.
Qed.

Lemma weighted_sum_cells {X} (w : nat -> nat -> R) (f : X -> list (nat * nat * R))
  (l : list X) (n : nat) :
  (forall x, In x l -> Forall (fun e => (fst (fst e) < n)%nat /\ (snd (fst e) < n)%nat) (f x)) ->
  weighted_sum w {| shape := (n, n); triples := flat_map f l |}
  = total (map (fun x =>
                  total (map (fun e => w (fst (fst e)) (snd (fst e)) * snd e) (f x))) l).
Proof.
  intros H. rewrite weighted_sum_triples by now apply within_shape_cells.
  cbn [triples]. apply total_flat_map.
Qed.

Lemma total_nonneg {X} (f : X -> R) (l : list X) :
  (forall x, In x l -> 0 <= f x) -> 0 <= total (map f l).
Proof.
  induction l as [|x l IH]; cbn [map]; intros H.
  - rewrite total_nil. lra.
  - rewrite total_cons.
    assert (0 <= f x) by (apply H; now left).
    assert (0 <= total (map f l)) by (apply IH; intros; apply H; now right). lra.
Qed.

Lemma total_nonneg_zero {X} (f : X -> R) (l : list X) :
  (forall x, In x l -> 0 <= f x) -> total (map f l) = 0 ->
  forall x, In x l -> f x = 0.
Proof.
  induction l as [|y l IH]; cbn [map]; intros H E x Hx; [destruct Hx|].
  rewrite total_cons in E.
  assert (0 <= f y) by (apply H; now left).
  assert (0 <= total (map f l)) by (apply total_nonneg; intros; apply H; now right).
  destruct Hx as [Hx|Hx]; [subst x; lra|].
  apply IH; [intros; apply H; now right | lra | exact Hx].
Qed.
End WeightedSums.

Section Definiteness.
Local Open Scope R_scope.

Ltac split_corners v :=
  repeat match goal with
    | |- context [corner v ?a] =>
        let x := fresh "x" in let y := fresh "y" in let z := fresh "z" in
        destruct (corner v a) as [[x y] z]
    end.

Ltac all_within :=
  repeat (constructor; [cbn [fst snd]; split; assumption|]); constructor.

Lemma tria_local_within (v : list (@vec3 R)) vm lump (t : list tria) (c : tria) :
  In c t ->
  Forall (fun e => (fst (fst e) < S (tria_max t))%nat /\ (snd (fst e) < S (tria_max t))%nat)
         (tria_localA v vm c)
  /\ Forall (fun e => (fst (fst e) < S (tria_max t))%nat /\ (snd (fst e) < S (tria_max t))%nat)
            (tria_localB lump v vm c).
Proof.
  destruct c as [[a b] d]. intros Hc.
  destruct (tria_max_ge t a b d Hc) as (Ha & Hb & Hd).
  apply Nat.ltb_lt in Ha, Hb, Hd.
  unfold tria_localA, tria_localB. split; [|destruct lump; cbn [negb]]; all_within.
Qed.

Lemma tetra_local_within (v : list (@vec3 R)) vm lump (t : list tetra) (c : tetra) :
  In c t ->
  Forall (fun e => (fst (fst e) < S (tetra_max t))%nat /\ (snd (fst e) < S (tetra_max t))%nat)
         (tetra_localA v vm c)
  /\ Forall (fun e => (fst (fst e) < S (tetra_max t))%nat /\ (snd (fst e) < S (tetra_max t))%nat)
            (tetra_localB lump v vm c).
Proof.
  destruct c as [[[a b] d] e]. intros Hc.
  destruct (tetra_max_ge t a b d e Hc) as (Ha & Hb & Hd & He).
  apply Nat.ltb_lt in Ha, Hb, Hd, He.
  unfold tetra_localA, tetra_localB. split; [|destruct lump; cbn [negb]]; all_within.
Qed.

Lemma guarded_tria_vol_positive (v : list (@vec3 R)) (vm : R) (c : tria) :
  0 < vm -> 0 < tria_vol v vm c.
Proof.
  intros Hvm. unfold tria_vol. cbn [ltb R_scalar].
  destruct (Rlt_dec (tria_vol_raw v c) epsilon) as [H|H]; [exact Hvm|].
  pose proof epsilon_positive. lra.
Qed.

(** The local stiffness form of a triangle is a sum of squares over its
    [vol]: with a, b, c the edges opposite the three corners,
    |x1 a + x2 b + x3 c|^2 / vol. *)
Lemma tria_localA_quad (v : list (@vec3 R)) (vm : R) (c : tria) (x : list R) :
  0 < tria_vol v vm c ->
  0 <= total (map (fun e => nth (fst (fst e)) x 0 * nth (snd (fst e)) x 0 * snd e)
                  (tria_localA v vm c)).
Proof.
  intros Hq. destruct c as [[i1 i2] i3]. unfold tria_localA. cbn [map fst snd].
  rewrite !total_cons, total_nil.
  unfold tria_A11, tria_A22, tria_A33, tria_A12, tria_A23, tria_A31.
  revert Hq. generalize (tria_vol v vm (i1, i2, i3)). intros q Hq.
  unfold tria_v2mv1, tria_v3mv2, tria_v1mv3. cbn [tria0 tria1 tria2].
  generalize (nth i1 x 0) (nth i2 x 0) (nth i3 x 0). intros u1 u2 u3.
  unfold corner.
  destruct (nth i1 v zero3) as [[p1x p1y] p1z].
  destruct (nth i2 v zero3) as [[p2x p2y] p2z].
  destruct (nth i3 v zero3) as [[p3x p3y] p3z].
  cbn [vsub vmul sum3]. real_ops.
  match goal with
  | |- 0 <= ?e =>
      replace e with
        (((u1 * (p3x - p2x) + u2 * (p1x - p3x) + u3 * (p2x - p1x)) ^ 2
          + (u1 * (p3y - p2y) + u2 * (p1y - p3y) + u3 * (p2y - p1y)) ^ 2
          + (u1 * (p3z - p2z) + u2 * (p1z - p3z) + u3 * (p2z - p1z)) ^ 2) * / q)
  end.
  - apply Rmult_le_pos; [|left; now apply Rinv_0_lt_compat].
    repeat apply Rplus_le_le_0_compat; apply pow2_ge_0.
  - unfold Rdiv. ring.
Qed.
End Definiteness.

Section DefinitenessTetra.
Local Open Scope R_scope.

Lemma guarded_tetra_vol_positive (v : list (@vec3 R)) (vm : R) (c : tetra) :
  0 < vm -> 0 < tetra_vol v vm c.
Proof.
  intros Hvm. unfold tetra_vol, tetra_vol_raw. cbn [eqb R_scalar]. real_ops.
  match goal with |- context [Req_dec_T ?a 0] => destruct (Req_dec_T a 0) as [E|E] end;
    [exact Hvm|].
  match goal with |- 0 < Rabs ?a => pose proof (Rabs_pos a); pose proof (Rabs_no_R0 a) end.
  match type of E with Rabs ?a <> 0 => assert (Rabs a <> 0) by exact E end. lra.
Qed.

(** The local stiffness form of a tetrahedron is a sum of squares over 6
    times its [vol]: with N1 .. N4 the normals of the faces opposite the
    four corners (cross products of face edges, adding up to zero),
    |x1 N1 + x2 N2 + x3 N3 + x4 N4|^2 / (6 vol). *)
Lemma tetra_localA_quad (v : list (@vec3 R)) (vm : R) (c : tetra) (x : list R) :
  0 < tetra_vol v vm c ->
  0 <= total (map (fun e => nth (fst (fst e)) x 0 * nth (snd (fst e)) x 0 * snd e)
                  (tetra_localA v vm c)).
Proof.
  intros Hq. destruct c as [[[i1 i2] i3] i4]. unfold tetra_localA. cbn [map fst snd].
  rewrite !total_cons, total_nil.
  unfold tetra_A11, tetra_A22, tetra_A33, tetra_A44,
    tetra_A12, tetra_A13, tetra_A14, tetra_A23, tetra_A24, tetra_A34, dot3.
  revert Hq. generalize (tetra_vol v vm (i1, i2, i3, i4)). intros q Hq.
  unfold tetra_e1, tetra_e2, tetra_e3, tetra_e4, tetra_e5, tetra_e6.
  cbn [tetra0 tetra1 tetra2 tetra3].
  generalize (nth i1 x 0) (nth i2 x 0) (nth i3 x 0) (nth i4 x 0). intros u1 u2 u3 u4.
  unfold corner.
  destruct (nth i1 v zero3) as [[p1x p1y] p1z].
  destruct (nth i2 v zero3) as [[p2x p2y] p2z].
  destruct (nth i3 v zero3) as [[p3x p3y] p3z].
  destruct (nth i4 v zero3) as [[p4x p4y] p4z].
  cbn [vsub vmul sum3]. real_ops.
  set (e1x := p2x - p1x). set (e1y := p2y - p1y). set (e1z := p2z - p1z).
  set (e2x := p3x - p2x). set (e2y := p3y - p2y). set (e2z := p3z - p2z).
  set (e3x := p1x - p3x). set (e3y := p1y - p3y). set (e3z := p1z - p3z).
  set (e4x := p4x - p1x). set (e4y := p4y - p1y). set (e4z := p4z - p1z).
  set (e5x := p4x - p2x). set (e5y := p4y - p2y). set (e5z := p4z - p2z).
  match goal with
  | |- 0 <= ?e =>
      replace e with
        (((u1 * (e2y * e5z - e2z * e5y) + u2 * (e3y * e4z - e3z * e4y)
           + u3 * (e1y * e4z - e1z * e4y) + u4 * (e1y * e3z - e1z * e3y)) ^ 2
          + (u1 * (e2z * e5x - e2x * e5z) + u2 * (e3z * e4x - e3x * e4z)
             + u3 * (e1z * e4x - e1x * e4z) + u4 * (e1z * e3x - e1x * e3z)) ^ 2
          + (u1 * (e2x * e5y - e2y * e5x) + u2 * (e3x * e4y - e3y * e4x)
             + u3 * (e1x * e4y - e1y * e4x) + u4 * (e1x * e3y - e1y * e3x)) ^ 2)
         * / q * / 6)
  end.
  - apply Rmult_le_pos; [apply Rmult_le_pos|lra];
      [|left; now apply Rinv_0_lt_compat].
    repeat apply Rplus_le_le_0_compat; apply pow2_ge_0.
  - unfold e1x, e1y, e1z, e2x, e2y, e2z, e3x, e3y, e3z, e4x, e4y, e4z, e5x, e5y, e5z.
    unfold Rdiv. ring.
Qed.
End DefinitenessTetra.

Section GlobalForms.
Local Open Scope R_scope.

Lemma quad_cells {X} (f : X -> list (nat * nat * R)) (l : list X) (n : nat) (x : list R) :
  (forall c, In c l -> Forall (fun e => (fst (fst e) < n)%nat /\ (snd (fst e) < n)%nat) (f c)) ->
  quad {| shape := (n, n); triples := flat_map f l |} x
  = total (map (fun c =>
                  total (map (fun e => nth (fst (fst e)) x 0 * nth (snd (fst e)) x 0 * snd e)
                             (f c))) l).
Proof. intros H. unfold quad. now rewrite weighted_sum_cells. Qed.

(** X7.  The stiffness matrix is positive semidefinite, as the docstrings
    say: on every mesh with at least one cell, all indices in bounds and a
    positive mean of [vol] (so that no divisor is zero), [x^T A x >= 0] for
    every vector x, for triangles and for tetrahedra, whatever the shape
    of the cells. *)
Theorem stiffness_positive_semidefinite :
  (forall (v : list (@vec3 R)) (t : list tria) (lump : bool),
      forallb (tria_in_bounds (length v)) t = true -> t <> [] ->
      0 < tria_vol_mean v t ->
      exists A B, computeABtria v t lump = Ok (A, B) /\ forall x, 0 <= quad A x)
  /\
  (forall (v : list (@vec3 R)) (t : list tetra) (lump : bool),
      forallb (tetra_in_bounds (length v)) t = true -> t <> [] ->
      0 < tetra_vol_mean v t ->
      exists A B, computeABtetra v t lump = Ok (A, B) /\ forall x, 0 <= quad A x).
Proof.
  split; intros v t lump Hb Ht Hvm.
  - rewrite (computeABtria_cells v lump Hb Ht).
    do 2 eexists. split; [reflexivity|]. intros x.
    rewrite quad_cells by (intros c Hc; apply (tria_local_within v _ lump t c Hc)).
    apply total_nonneg. intros c _.
    apply tria_localA_quad. now apply guarded_tria_vol_positive.
  - rewrite (computeABtetra_cells v lump Hb Ht).
    do 2 eexists. split; [reflexivity|]. intros x.
    rewrite quad_cells by (intros c Hc; apply (tetra_local_within v _ lump t c Hc)).
    apply total_nonneg. intros c _.
    apply tetra_localA_quad. now apply guarded_tetra_vol_positive.
Qed.

Lemma right_triangle_vol_mean : tria_vol_mean right_corners one_triangle = 1 / 10000 * (2 / 1).
Proof.
  assert (E : tria_vol_raw (T:=R) right_corners (0, 1, 2)%nat = 2).
  { unfold tria_vol_raw, tria_v3mv2, tria_v1mv3, corner, right_corners.
    cbn [tria0 tria1 tria2 nth vsub cross3 vmul sum3]. real_ops.
    match goal with |- 2 * sqrt ?s = 2 => replace s with 1 by ring end.
    rewrite sqrt_1. ring. }
  unfold tria_vol_mean, one_triangle, mean, np_sum. cbn [map length fold_left].
  rewrite E. real_ops. cbn [Z.of_nat Pos.of_succ_nat]. f_equal. f_equal. ring.
Qed.

Lemma unit_tetra_vol_mean : tetra_vol_mean unit_corners unit_tetra = 1 / 10000 * (1 / 1).
Proof.
  assert (E : tetra_vol_raw unit_corners (0, 1, 2, 3)%nat = 1).
  { unfold tetra_vol_raw, tetra_e1, tetra_e3, tetra_e4, corner, unit_corners.
    cbn [tetra0 tetra1 tetra2 tetra3 nth vsub cross3 vmul sum3]. real_ops.
    match goal with |- Rabs ?s = 1 => replace s with (- (1)) by ring end.
    rewrite Rabs_Ropp. apply Rabs_R1. }
  unfold tetra_vol_mean, unit_tetra, mean, np_sum. cbn [map length fold_left].
  rewrite E. real_ops. cbn [Z.of_nat Pos.of_succ_nat]. f_equal. f_equal. ring.
Qed.
End GlobalForms.

Lemma stiffness_positive_semidefinite_witness :
  (exists A B, computeABtria right_corners one_triangle false = Ok (A, B)
               /\ forall x, (0 <= quad A x)%R)
  /\ (exists A B, computeABtetra unit_corners unit_tetra false = Ok (A, B)
                  /\ forall x, (0 <= quad A x)%R).
Proof.
  split.
  - apply (proj1 stiffness_positive_semidefinite right_corners one_triangle false);
      [reflexivity | discriminate | rewrite right_triangle_vol_mean; lra].
  - apply (proj2 stiffness_positive_semidefinite unit_corners unit_tetra false);
      [reflexivity | discriminate | rewrite unit_tetra_vol_mean; lra].
Defined.

(* ------------------------------------------------------------------ *)
(** ** Row sums of the stiffness matrix *)

Section RowSums.
Local Open Scope R_scope.

End RowSums.



Section MassForms.
Local Open Scope R_scope.

Lemma squares_vanish3 (a b c s : R) :
  a ^ 2 + b ^ 2 + c ^ 2 + s ^ 2 = 0 -> a = 0 /\ b = 0 /\ c = 0.
Proof.
  intros E.
  pose proof (pow2_ge_0 a). pose proof (pow2_ge_0 b).
  pose proof (pow2_ge_0 c). pose proof (pow2_ge_0 s).
  repeat split; apply Rsqr_0_uniq; unfold Rsqr; lra.
Qed.

Lemma squares_vanish4 (a b c d s : R) :
  a ^ 2 + b ^ 2 + c ^ 2 + d ^ 2 + s ^ 2 = 0 -> a = 0 /\ b = 0 /\ c = 0 /\ d = 0.
Proof.
  intros E.
  pose proof (pow2_ge_0 a). pose proof (pow2_ge_0 b).
  pose proof (pow2_ge_0 c). pose proof (pow2_ge_0 d). pose proof (pow2_ge_0 s).
  repeat split; apply Rsqr_0_uniq; unfold Rsqr; lra.
Qed.

(** The local mass form of a triangle: vol/48 ((x1 + x2 + x3)^2 + x1^2 +
    x2^2 + x3^2) when consistent, vol/12 (x1^2 + x2^2 + x3^2) when
    lumped. *)
Lemma tria_localB_quad (lump : bool) (v : list (@vec3 R)) (vm : R) (c : tria) (x : list R) :
  0 < tria_vol v vm c ->
  0 <= total (map (fun e => nth (fst (fst e)) x 0 * nth (snd (fst e)) x 0 * snd e)
                  (tria_localB lump v vm c))
  /\ (total (map (fun e => nth (fst (fst e)) x 0 * nth (snd (fst e)) x 0 * snd e)
                 (tria_localB lump v vm c)) = 0 ->
      nth (tria0 c) x 0 = 0 /\ nth (tria1 c) x 0 = 0 /\ nth (tria2 c) x 0 = 0).
Proof.
  intros Hq. destruct c as [[i1 i2] i3]. unfold tria_localB. cbn [tria0 tria1 tria2].
  revert Hq. generalize (tria_vol v vm (i1, i2, i3)). intros q Hq.
  destruct lump; cbn [negb map fst snd]; rewrite !total_cons, total_nil; real_ops;
    generalize (nth i1 x 0) (nth i2 x 0) (nth i3 x 0); intros u1 u2 u3.
  - match goal with
    | |- 0 <= ?e /\ _ =>
        replace e with ((u1 ^ 2 + u2 ^ 2 + u3 ^ 2 + 0 ^ 2) * (q / 12))
          by field
    end.
    split.
    + apply Rmult_le_pos; [|lra]. repeat apply Rplus_le_le_0_compat; apply pow2_ge_0.
    + intros E. apply Rmult_integral in E. destruct E as [E|E]; [|lra].
      exact (squares_vanish3 E).
  - match goal with
    | |- 0 <= ?e /\ _ =>
        replace e with ((u1 ^ 2 + u2 ^ 2 + u3 ^ 2 + (u1 + u2 + u3) ^ 2) * (q / 48))
          by field
    end.
    split.
    + apply Rmult_le_pos; [|lra]. repeat apply Rplus_le_le_0_compat; apply pow2_ge_0.
    + intros E. apply Rmult_integral in E. destruct E as [E|E]; [|lra].
      exact (squares_vanish3 E).
Qed.

(** The local mass form of a tetrahedron: vol/120 ((x1 + .. + x4)^2 + x1^2
    + .. + x4^2) when consistent, vol/24 (x1^2 + .. + x4^2) when lumped. *)
Lemma tetra_localB_quad (lump : bool) (v : list (@vec3 R)) (vm : R) (c : tetra) (x : list R) :
  0 < tetra_vol v vm c ->
  0 <= total (map (fun e => nth (fst (fst e)) x 0 * nth (snd (fst e)) x 0 * snd e)
                  (tetra_localB lump v vm c))
  /\ (total (map (fun e => nth (fst (fst e)) x 0 * nth (snd (fst e)) x 0 * snd e)
                 (tetra_localB lump v vm c)) = 0 ->
      nth (tetra0 c) x 0 = 0 /\ nth (tetra1 c) x 0 = 0
      /\ nth (tetra2 c) x 0 = 0 /\ nth (tetra3 c) x 0 = 0).
Proof.
  intros Hq. destruct c as [[[i1 i2] i3] i4]. unfold tetra_localB.
  cbn [tetra0 tetra1 tetra2 tetra3].
  revert Hq. generalize (tetra_vol v vm (i1, i2, i3, i4)). intros q Hq.
  destruct lump; cbn [negb map fst snd]; rewrite !total_cons, total_nil; real_ops;
    generalize (nth i1 x 0) (nth i2 x 0) (nth i3 x 0) (nth i4 x 0); intros u1 u2 u3 u4.
  - match goal with
    | |- 0 <= ?e /\ _ =>
        replace e with ((u1 ^ 2 + u2 ^ 2 + u3 ^ 2 + u4 ^ 2 + 0 ^ 2) * (q / 24))
          by field
    end.
    split.
    + apply Rmult_le_pos; [|lra]. repeat apply Rplus_le_le_0_compat; apply pow2_ge_0.
    + intros E. apply Rmult_integral in E. destruct E as [E|E]; [|lra].
      exact (squares_vanish4 E).
  - match goal with
    | |- 0 <= ?e /\ _ =>
        replace e with
          ((u1 ^ 2 + u2 ^ 2 + u3 ^ 2 + u4 ^ 2 + (u1 + u2 + u3 + u4) ^ 2) * (q / 120))
          by field
    end.
    split.
    + apply Rmult_le_pos; [|lra]. repeat apply Rplus_le_le_0_compat; apply pow2_ge_0.
    + intros E. apply Rmult_integral in E. destruct E as [E|E]; [|lra].
      exact (squares_vanish4 E).
Qed.

(** X8.  The mass matrix is positive semidefinite, and definite on the
    vertices the mesh refers to: on every mesh with at least one cell, all
    indices in bounds and a positive mean of [vol], [x^T B x >= 0] for every
    x, and [x^T B x = 0] only if x vanishes at every vertex some cell
    uses.  This holds for triangles and tetrahedra, lumped or not. *)
Theorem mass_positive_definite_on_used_vertices :
  (forall (v : list (@vec3 R)) (t : list tria) (lump : bool),
      forallb (tria_in_bounds (length v)) t = true -> t <> [] ->
      0 < tria_vol_mean v t ->
      exists A B, computeABtria v t lump = Ok (A, B)
        /\ (forall x, 0 <= quad B x)
        /\ (forall x, quad B x = 0 -> forall i, tria_uses t i -> nth i x 0 = 0))
  /\
  (forall (v : list (@vec3 R)) (t : list tetra) (lump : bool),
      forallb (tetra_in_bounds (length v)) t = true -> t <> [] ->
      0 < tetra_vol_mean v t ->
      exists A B, computeABtetra v t lump = Ok (A, B)
        /\ (forall x, 0 <= quad B x)
        /\ (forall x, quad B x = 0 -> forall i, tetra_uses t i -> nth i x 0 = 0)).
Proof.
  split; intros v t lump Hb Ht Hvm.
  - rewrite (computeABtria_cells v lump Hb Ht).
    do 2 eexists. split; [reflexivity|].
    assert (Hloc : forall x c, In c t ->
              0 <= total (map (fun e => nth (fst (fst e)) x 0 * nth (snd (fst e)) x 0 * snd e)
                              (tria_localB lump v (tria_vol_mean v t) c))).
    { intros x c _. apply tria_localB_quad. now apply guarded_tria_vol_positive. }
    split; intros x.
    + rewrite quad_cells by (intros c Hc; apply (tria_local_within v _ lump t c Hc)).
      apply total_nonneg. apply Hloc.
    + rewrite quad_cells by (intros c Hc; apply (tria_local_within v _ lump t c Hc)).
      intros E i (c & Hc & Hi).
      pose proof (total_nonneg_zero _ t (Hloc x) E c Hc) as E0. cbv beta in E0.
      apply tria_localB_quad in E0; [|now apply guarded_tria_vol_positive].
      destruct E0 as (E1 & E2 & E3). destruct Hi as [Hi|[Hi|Hi]]; now subst i.
  - rewrite (computeABtetra_cells v lump Hb Ht).
    do 2 eexists. split; [reflexivity|].
    assert (Hloc : forall x c, In c t ->
              0 <= total (map (fun e => nth (fst (fst e)) x 0 * nth (snd (fst e)) x 0 * snd e)
                              (tetra_localB lump v (tetra_vol_mean v t) c))).
    { intros x c _. apply tetra_localB_quad. now apply guarded_tetra_vol_positive. }
    split; intros x.
    + rewrite quad_cells by (intros c Hc; apply (tetra_local_within v _ lump t c Hc)).
      apply total_nonneg. apply Hloc.
    + rewrite quad_cells by (intros c Hc; apply (tetra_local_within v _ lump t c Hc)).
      intros E i (c & Hc & Hi).
      pose proof (total_nonneg_zero _ t (Hloc x) E c Hc) as E0. cbv beta in E0.
      apply tetra_localB_quad in E0; [|now apply guarded_tetra_vol_positive].
      destruct E0 as (E1 & E2 & E3 & E4). destruct Hi as [Hi|[Hi|[Hi|Hi]]]; now subst i.
Qed.
End MassForms.

Lemma mass_positive_definite_on_used_vertices_witness :
  (exists A B, computeABtria right_corners one_triangle true = Ok (A, B)
     /\ (forall x, (0 <= quad B x)%R)
     /\ (forall x, quad B x = 0%R -> forall i, tria_uses one_triangle i -> nth i x 0%R = 0%R))
  /\ (exists A B, computeABtetra unit_corners unit_tetra false = Ok (A, B)
     /\ (forall x, (0 <= quad B x)%R)
     /\ (forall x, quad B x = 0%R -> forall i, tetra_uses unit_tetra i -> nth i x 0%R = 0%R)).
Proof.
  split.
  - apply (proj1 mass_positive_definite_on_used_vertices right_corners one_triangle true);
      [reflexivity | discriminate | rewrite right_triangle_vol_mean; lra].
  - apply (proj2 mass_positive_definite_on_used_vertices unit_corners unit_tetra false);
      [reflexivity | discriminate | rewrite unit_tetra_vol_mean; lra].
Defined.

Section TotalMass.
Local Open Scope R_scope.

Lemma sum_entries_cells {X} (f : X -> list (nat * nat * R)) (l : list X) (n : nat) :
  (forall c, In c l -> Forall (fun e => (fst (fst e) < n)%nat /\ (snd (fst e) < n)%nat) (f c)) ->
  sum_entries {| shape := (n, n); triples := flat_map f l |}
  = total (map (fun c => total (map (fun e => 1 * snd e) (f c))) l).
Proof. intros H. unfold sum_entries. now rewrite weighted_sum_cells. Qed.

(** One triangle adds a quarter of its [vol] to the sum of the entries of
    B, one tetrahedron a sixth, lumped or not. *)
Lemma tria_localB_sum (lump : bool) (v : list (@vec3 R)) (vm : R) (c : tria) :
  total (map (fun e => 1 * snd e) (tria_localB lump v vm c)) = tria_vol v vm c / 4.
Proof.
  destruct c as [[i1 i2] i3]. unfold tria_localB.
  generalize (tria_vol v vm (i1, i2, i3)). intros q.
  destruct lump; cbn [negb map fst snd]; rewrite !total_cons, total_nil; real_ops; field.
Qed.

Lemma tetra_localB_sum (lump : bool) (v : list (@vec3 R)) (vm : R) (c : tetra) :
  total (map (fun e => 1 * snd e) (tetra_localB lump v vm c)) = tetra_vol v vm c / 6.
Proof.
  destruct c as [[[i1 i2] i3] i4]. unfold tetra_localB.
  generalize (tetra_vol v vm (i1, i2, i3, i4)). intros q.
  destruct lump; cbn [negb map fst snd]; rewrite !total_cons, total_nil; real_ops; field.
Qed.

(** X9.  The entries of the mass matrix add up to the measure of the mesh:
    on a triangle mesh with at least one cell, all indices in bounds and no
    triangle so small that the guard replaces its [vol] (four times the
    area at least the machine epsilon), the sum of all entries of B is the
    total area; on a tetrahedron mesh with no flat cell it is the total
    volume.  Lumping does not change the sum. *)
Theorem mass_entries_sum_to_measure :
  (forall (v : list (@vec3 R)) (t : list tria) (lump : bool),
      forallb (tria_in_bounds (length v)) t = true -> t <> [] ->
      (forall c, In c t -> epsilon <= 4 * tria_area v c) ->
      exists A B, computeABtria v t lump = Ok (A, B)
        /\ sum_entries B = total (map (tria_area v) t))
  /\
  (forall (v : list (@vec3 R)) (t : list tetra) (lump : bool),
      forallb (tetra_in_bounds (length v)) t = true -> t <> [] ->
      (forall c, In c t -> tetra_six_volume v c <> 0) ->
      exists A B, computeABtetra v t lump = Ok (A, B)
        /\ sum_entries B = total (map (fun c => tetra_six_volume v c / 6) t)).
Proof.
  split; intros v t lump Hb Ht Hnd.
  - rewrite (computeABtria_cells v lump Hb Ht).
    do 2 eexists. split; [reflexivity|].
    rewrite sum_entries_cells by (intros c Hc; apply (tria_local_within v _ lump t c Hc)).
    apply total_ext. intros c Hc. rewrite tria_localB_sum.
    unfold tria_vol. cbn [ltb R_scalar].
    specialize (Hnd c Hc). rewrite <- tria_vol_raw_area in Hnd.
    destruct (Rlt_dec (tria_vol_raw v c) epsilon) as [H|H]; [lra|].
    rewrite tria_vol_raw_area. field.
  - rewrite (computeABtetra_cells v lump Hb Ht).
    do 2 eexists. split; [reflexivity|].
    rewrite sum_entries_cells by (intros c Hc; apply (tetra_local_within v _ lump t c Hc)).
    apply total_ext. intros c Hc. rewrite tetra_localB_sum.
    unfold tetra_vol. cbn [eqb R_scalar]. real_ops.
    specialize (Hnd c Hc). rewrite <- tetra_vol_raw_volume in Hnd.
    destruct (Req_dec_T (tetra_vol_raw v c) 0) as [H|H]; [contradiction|].
    now rewrite tetra_vol_raw_volume.
Qed.

Lemma right_triangle_vol_raw : tria_vol_raw (T:=R) right_corners (0, 1, 2)%nat = 2.
Proof.
  unfold tria_vol_raw, tria_v3mv2, tria_v1mv3, corner, right_corners.
  cbn [tria0 tria1 tria2 nth vsub cross3 vmul sum3]. real_ops.
  match goal with |- 2 * sqrt ?s = 2 => replace s with 1 by ring end.
  rewrite sqrt_1. ring.
Qed.

Lemma unit_tetra_vol_raw : tetra_vol_raw unit_corners (0, 1, 2, 3)%nat = 1.
Proof.
  unfold tetra_vol_raw, tetra_e1, tetra_e3, tetra_e4, corner, unit_corners.
  cbn [tetra0 tetra1 tetra2 tetra3 nth vsub cross3 vmul sum3]. real_ops.
  match goal with |- Rabs ?s = 1 => replace s with (- (1)) by ring end.
  rewrite Rabs_Ropp. apply Rabs_R1.
Qed.
End TotalMass.

Lemma mass_entries_sum_to_measure_witness :
  (exists A B, computeABtria right_corners one_triangle false = Ok (A, B)
     /\ sum_entries B = total (map (tria_area right_corners) one_triangle))
  /\ (exists A B, computeABtetra unit_corners unit_tetra true = Ok (A, B)
     /\ sum_entries B = total (map (fun c => (tetra_six_volume unit_corners c / 6)%R) unit_tetra)).
Proof.
  split.
  - apply (proj1 mass_entries_sum_to_measure right_corners one_triangle false);
      [reflexivity | discriminate |].
    intros c [<-|[]]. rewrite <- tria_vol_raw_area, right_triangle_vol_raw.
    pose proof epsilon_below_one. lra.
  - apply (proj2 mass_entries_sum_to_measure unit_corners unit_tetra true);
      [reflexivity | discriminate |].
    intros c [<-|[]]. rewrite <- tetra_vol_raw_volume, unit_tetra_vol_raw. lra.
Defined.

Section Translation.
Local Open Scope R_scope.
Variable d : @vec3 R.

Lemma vsub_vadd (a b : @vec3 R) : vsub (vadd d a) (vadd d b) = vsub a b.
Proof.
  destruct d as [[d0 d1] d2], a as [[a0 a1] a2], b as [[b0 b1] b2].
  cbn [vadd vsub]. real_ops.
  replace (a0 + d0 - (b0 + d0)) with (a0 - b0) by ring.
  replace (a1 + d1 - (b1 + d1)) with (a1 - b1) by ring.
  replace (a2 + d2 - (b2 + d2)) with (a2 - b2) by ring.
  reflexivity.
Qed.

Lemma corner_translate (v : list (@vec3 R)) (i : nat) :
  (i < length v)%nat -> corner (translate d v) i = vadd d (corner v i).
Proof.
  intros Hi. unfold corner, translate.
  rewrite (nth_indep _ zero3 (vadd d zero3)) by now rewrite length_map.
  apply map_nth.
Qed.

Lemma edge_translate (v : list (@vec3 R)) (i j : nat) :
  (i <? length v)%nat = true -> (j <? length v)%nat = true ->
  vsub (corner (translate d v) i) (corner (translate d v) j)
  = vsub (corner v i) (corner v j).
Proof.
  intros Hi Hj. apply Nat.ltb_lt in Hi, Hj.
  rewrite !corner_translate by assumption. apply vsub_vadd.
Qed.

Lemma flat_map_ext_in {X Y} (f g : X -> list Y) (l : list X) :
  (forall x, In x l -> f x = g x) -> flat_map f l = flat_map g l.
Proof.
  induction l as [|x l IH]; cbn [flat_map]; intros H; [reflexivity|].
  rewrite (H x) by now left. rewrite IH; [reflexivity|].
  intros; apply H; now right.
Qed.

Lemma tria_edges_translate (v : list (@vec3 R)) (c : tria) :
  tria_in_bounds (length v) c = true ->
  tria_v2mv1 (translate d v) c = tria_v2mv1 v c
  /\ tria_v3mv2 (translate d v) c = tria_v3mv2 v c
  /\ tria_v1mv3 (translate d v) c = tria_v1mv3 v c.
Proof.
  unfold tria_in_bounds. rewrite !andb_true_iff. intros [[H0 H1] H2].
  unfold tria_v2mv1, tria_v3mv2, tria_v1mv3.
  repeat split; now apply edge_translate.
Qed.

Lemma tria_vol_raw_translate (v : list (@vec3 R)) (c : tria) :
  tria_in_bounds (length v) c = true ->
  tria_vol_raw (translate d v) c = tria_vol_raw v c.
Proof.
  intros Hc. destruct (tria_edges_translate v c Hc) as (E1 & E2 & E3).
  unfold tria_vol_raw. now rewrite E2, E3.
Qed.

Lemma tria_local_translate (v : list (@vec3 R)) (vm : R) (lump : bool) (c : tria) :
  tria_in_bounds (length v) c = true ->
  tria_localA (translate d v) vm c = tria_localA v vm c
  /\ tria_localB lump (translate d v) vm c = tria_localB lump v vm c.
Proof.
  intros Hc. destruct (tria_edges_translate v c Hc) as (E1 & E2 & E3).
  pose proof (tria_vol_raw_translate v c Hc) as Er.
  assert (Ev : tria_vol (translate d v) vm c = tria_vol v vm c).
  { unfold tria_vol. now rewrite Er. }
  unfold tria_localA, tria_localB, tria_A11, tria_A22, tria_A33, tria_A12, tria_A23, tria_A31.
  now rewrite E1, E2, E3, Ev.
Qed.

Lemma tetra_edges_translate (v : list (@vec3 R)) (c : tetra) :
  tetra_in_bounds (length v) c = true ->
  tetra_e1 (translate d v) c = tetra_e1 v c
  /\ tetra_e2 (translate d v) c = tetra_e2 v c
  /\ tetra_e3 (translate d v) c = tetra_e3 v c
  /\ tetra_e4 (translate d v) c = tetra_e4 v c
  /\ tetra_e5 (translate d v) c = tetra_e5 v c
  /\ tetra_e6 (translate d v) c = tetra_e6 v c.
Proof.
  unfold tetra_in_bounds. rewrite !andb_true_iff. intros [[[H0 H1] H2] H3].
  unfold tetra_e1, tetra_e2, tetra_e3, tetra_e4, tetra_e5, tetra_e6.
  repeat split; now apply edge_translate.
Qed.

Lemma tetra_vol_raw_translate (v : list (@vec3 R)) (c : tetra) :
  tetra_in_bounds (length v) c = true ->
  tetra_vol_raw (translate d v) c = tetra_vol_raw v c.
Proof.
  intros Hc. destruct (tetra_edges_translate v c Hc) as (E1 & E2 & E3 & E4 & E5 & E6).
  unfold tetra_vol_raw. now rewrite E1, E3, E4.
Qed.

Lemma tetra_local_translate (v : list (@vec3 R)) (vm : R) (lump : bool) (c : tetra) :
  tetra_in_bounds (length v) c = true ->
  tetra_localA (translate d v) vm c = tetra_localA v vm c
  /\ tetra_localB lump (translate d v) vm c = tetra_localB lump v vm c.
Proof.
  intros Hc. destruct (tetra_edges_translate v c Hc) as (E1 & E2 & E3 & E4 & E5 & E6).
  pose proof (tetra_vol_raw_translate v c Hc) as Er.
  assert (Ev : tetra_vol (translate d v) vm c = tetra_vol v vm c).
  { unfold tetra_vol. now rewrite Er. }
  unfold tetra_localA, tetra_localB, tetra_A11, tetra_A22, tetra_A33, tetra_A44,
    tetra_A12, tetra_A13, tetra_A14, tetra_A23, tetra_A24, tetra_A34.
  now rewrite E1, E2, E3, E4, E5, E6, Ev.
Qed.

(** X10.  In exact arithmetic the matrices do not depend on where the mesh
    sits: moving every vertex by the same vector leaves the result of
    [computeABtria] and of [computeABtetra] unchanged, for every mesh (the
    malformed ones end in the same error), lumped or not. *)
Theorem assembly_translation_invariant :
  (forall (v : list (@vec3 R)) (t : list tria) (lump : bool),
      computeABtria (translate d v) t lump = computeABtria v t lump)
  /\ (forall (v : list (@vec3 R)) (t : list tetra) (lump : bool),
         computeABtetra (translate d v) t lump = computeABtetra v t lump).
Proof.
  split; intros v t lump.
  - destruct t as [|c0 t'];
      [now rewrite !computeABtria_index_error by now left|].
    assert (Ht : c0 :: t' <> []) by discriminate. set (t := c0 :: t') in *.
    assert (Hl : length (translate d v) = length v) by apply length_map.
    destruct (forallb (tria_in_bounds (length v)) t) eqn:Hb;
      [|now rewrite !computeABtria_index_error by (right; now rewrite ?Hl)].
    assert (Hb' : forallb (tria_in_bounds (length (translate d v))) t = true)
      by now rewrite Hl.
    rewrite (computeABtria_cells (translate d v) lump Hb' Ht),
      (computeABtria_cells v lump Hb Ht).
    assert (Hin : forall c, In c t -> tria_in_bounds (length v) c = true)
      by now apply forallb_forall.
    assert (Em : tria_vol_mean (translate d v) t = tria_vol_mean v t).
    { unfold tria_vol_mean. do 2 f_equal. apply map_ext_in.
      intros c Hc. apply tria_vol_raw_translate, Hin, Hc. }
    rewrite Em.
    rewrite (flat_map_ext_in (tria_localA (translate d v) (tria_vol_mean v t))
               (tria_localA v (tria_vol_mean v t)) t)
      by (intros c Hc; apply tria_local_translate; [exact lump | apply Hin, Hc]).
    rewrite (flat_map_ext_in (tria_localB lump (translate d v) (tria_vol_mean v t))
               (tria_localB lump v (tria_vol_mean v t)) t)
      by (intros c Hc; apply tria_local_translate, Hin, Hc).
    reflexivity.
  - destruct t as [|c0 t'];
      [now rewrite !computeABtetra_index_error by now left|].
    assert (Ht : c0 :: t' <> []) by discriminate. set (t := c0 :: t') in *.
    assert (Hl : length (translate d v) = length v) by apply length_map.
    destruct (forallb (tetra_in_bounds (length v)) t) eqn:Hb;
      [|now rewrite !computeABtetra_index_error by (right; now rewrite ?Hl)].
    assert (Hb' : forallb (tetra_in_bounds (length (translate d v))) t = true)
      by now rewrite Hl.
    rewrite (computeABtetra_cells (translate d v) lump Hb' Ht),
      (computeABtetra_cells v lump Hb Ht).
    assert (Hin : forall c, In c t -> tetra_in_bounds (length v) c = true)
      by now apply forallb_forall.
    assert (Em : tetra_vol_mean (translate d v) t = tetra_vol_mean v t).
    { unfold tetra_vol_mean. do 2 f_equal. apply map_ext_in.
      intros c Hc. apply tetra_vol_raw_translate, Hin, Hc. }
    rewrite Em.
    rewrite (flat_map_ext_in (tetra_localA (translate d v) (tetra_vol_mean v t))
               (tetra_localA v (tetra_vol_mean v t)) t)
      by (intros c Hc; apply tetra_local_translate; [exact lump | apply Hin, Hc]).
    rewrite (flat_map_ext_in (tetra_localB lump (translate d v) (tetra_vol_mean v t))
               (tetra_localB lump v (tetra_vol_mean v t)) t)
      by (intros c Hc; apply tetra_local_translate, Hin, Hc).
    reflexivity.
Qed.
End Translation.

Section MalformedMesh.
Context {T : Type} {num : Scalar T}.
Variable lib : @libraries T.

Lemma laplace_assembly_error (computeAB : bool -> result (matrix T * matrix T))
  (k : Z) (lump : bool) (e : exn) :
  computeAB lump = Err e ->
  laplace lib computeAB k lump [] = (Err e, solver_messages lib).
Proof.
  intros E. unfold laplace, solver_messages, print, emit, lift, rbind.
  rewrite E. destruct (have_cholmod lib); reflexivity.
Qed.

(** X11.  On a mesh without cells, or with a vertex index outside the
    vertex array, [laplaceTria] and [laplaceTetra] print the message(s) of
    the chosen solver and then end in the [IndexError] of the assembly:
    nothing is factorized and the eigensolver is not called, whatever [k]
    is. *)
Theorem laplace_malformed_mesh :
  (forall (v : list (@vec3 T)) (t : list tria) (k : Z) (lump : bool),
      t = [] \/ forallb (tria_in_bounds (length v)) t = false ->
      laplaceTria lib v t k lump [] = (Err IndexError, solver_messages lib))
  /\
  (forall (v : list (@vec3 T)) (t : list tetra) (k : Z) (lump : bool),
      t = [] \/ forallb (tetra_in_bounds (length v)) t = false ->
      laplaceTetra lib v t k lump [] = (Err IndexError, solver_messages lib)).
Proof.
  split; intros v t k lump H.
  - apply laplace_assembly_error. now apply computeABtria_index_error.
  - apply laplace_assembly_error. now apply computeABtetra_index_error.
Qed.
End MalformedMesh.

Lemma laplace_malformed_mesh_witness :
  laplaceTria standin_libraries [] [] 10%Z false []
  = (Err IndexError, solver_messages standin_libraries)
  /\ laplaceTetra standin_libraries
       [ (of_Z 0, of_Z 0, of_Z 0); (of_Z 1, of_Z 0, of_Z 0); (of_Z 0, of_Z 1, of_Z 0) ]
       unit_tetra 2%Z true []
     = (Err IndexError, solver_messages standin_libraries).
Proof.
  split.
  - apply (proj1 (laplace_malformed_mesh standin_libraries)). left. reflexivity.
  - apply (proj2 (laplace_malformed_mesh standin_libraries)). right. reflexivity.
Defined.

Section ShiftedMatrix.
Local Open Scope R_scope.

Lemma tria_stiffness_form (v : list (@vec3 R)) (t : list tria) (x : list R) :
  0 < tria_vol_mean v t ->
  0 <= quad {| shape := (S (tria_max t), S (tria_max t));
               triples := flat_map (tria_localA v (tria_vol_mean v t)) t |} x.
Proof.
  intros Hvm.
  rewrite quad_cells by (intros c Hc; apply (tria_local_within v _ false t c Hc)).
  apply total_nonneg. intros c _.
  apply tria_localA_quad. now apply guarded_tria_vol_positive.
Qed.

Lemma tetra_stiffness_form (v : list (@vec3 R)) (t : list tetra) (x : list R) :
  0 < tetra_vol_mean v t ->
  0 <= quad {| shape := (S (tetra_max t), S (tetra_max t));
               triples := flat_map (tetra_localA v (tetra_vol_mean v t)) t |} x.
Proof.
  intros Hvm.
  rewrite quad_cells by (intros c Hc; apply (tetra_local_within v _ false t c Hc)).
  apply total_nonneg. intros c _.
  apply tetra_localA_quad. now apply guarded_tetra_vol_positive.
Qed.

Lemma tria_mass_form (lump : bool) (v : list (@vec3 R)) (t : list tria) (x : list R) (i : nat) :
  0 < tria_vol_mean v t -> tria_uses t i -> nth i x 0 <> 0 ->
  0 < quad {| shape := (S (tria_max t), S (tria_max t));
              triples := flat_map (tria_localB lump v (tria_vol_mean v t)) t |} x.
Proof.
  intros Hvm (c & Hc & Hi) Hx.
  rewrite quad_cells by (intros c' Hc'; apply (tria_local_within v _ lump t c' Hc')).
  assert (Hloc : forall c, In c t ->
            0 <= total (map (fun e => nth (fst (fst e)) x 0 * nth (snd (fst e)) x 0 * snd e)
                            (tria_localB lump v (tria_vol_mean v t) c))).
  { intros c' _. apply tria_localB_quad. now apply guarded_tria_vol_positive. }
  pose proof (total_nonneg _ t Hloc) as H0.
  destruct H0 as [H0|H0]; [exact H0|exfalso].
  pose proof (total_nonneg_zero _ t Hloc (eq_sym H0) c Hc) as E0. cbv beta in E0.
  apply tria_localB_quad in E0; [|now apply guarded_tria_vol_positive].
  destruct E0 as (E1 & E2 & E3). destruct Hi as [Hi|[Hi|Hi]]; subst i; contradiction.
Qed.

Lemma tetra_mass_form (lump : bool) (v : list (@vec3 R)) (t : list tetra) (x : list R) (i : nat) :
  0 < tetra_vol_mean v t -> tetra_uses t i -> nth i x 0 <> 0 ->
  0 < quad {| shape := (S (tetra_max t), S (tetra_max t));
              triples := flat_map (tetra_localB lump v (tetra_vol_mean v t)) t |} x.
Proof.
  intros Hvm (c & Hc & Hi) Hx.
  rewrite quad_cells by (intros c' Hc'; apply (tetra_local_within v _ lump t c' Hc')).
  assert (Hloc : forall c, In c t ->
            0 <= total (map (fun e => nth (fst (fst e)) x 0 * nth (snd (fst e)) x 0 * snd e)
                            (tetra_localB lump v (tetra_vol_mean v t) c))).
  { intros c' _. apply tetra_localB_quad. now apply guarded_tetra_vol_positive. }
  pose proof (total_nonneg _ t Hloc) as H0.
  destruct H0 as [H0|H0]; [exact H0|exfalso].
  pose proof (total_nonneg_zero _ t Hloc (eq_sym H0) c Hc) as E0. cbv beta in E0.
  apply tetra_localB_quad in E0; [|now apply guarded_tetra_vol_positive].
  destruct E0 as (E1 & E2 & E3 & E4). destruct Hi as [Hi|[Hi|[Hi|Hi]]]; subst i; contradiction.
Qed.

(** The quadratic form of [A - s*M] is the form of A minus s times the
    form of M. *)
Lemma quad_shifted (A M : matrix R) (s : R) (x : list R) :
  shape A = shape M -> within_shape A -> within_shape M ->
  exists S, msub A (scale s M) = Ok S /\ quad S x = quad A x - s * quad M x.
Proof.
  intros Hs HA HM. unfold msub. cbn [shape scale]. rewrite Hs, !Nat.eqb_refl. cbn [andb].
  eexists. split; [reflexivity|].
  unfold quad. rewrite !weighted_sum_triples; try assumption.
  - cbn [triples scale]. rewrite map_app, total_app, !map_map. unfold Rminus. f_equal.
    transitivity
      ((- s) * total (map (fun e => nth (fst (fst e)) x 0 * nth (snd (fst e)) x 0 * snd e)
                          (triples M))); [|ring].
    rewrite <- total_scale. apply total_ext. intros [[r c] a] _. cbn [fst snd]. real_ops. ring.
  - unfold within_shape in *. cbn [shape triples scale].
    rewrite Hs in HA. apply Forall_app. split; [exact HA|].
    rewrite !Forall_map. revert HM. apply Forall_impl. intros [[r c] a]. cbn [fst snd]. tauto.
Qed.

Variable lib : @libraries R.

Lemma factorized_logged (computeAB : result (matrix R * matrix R))
  (outcome : result (list R * list (list R)) * list event) (k : Z) (A M S : matrix R) :
  factorizes_then_solves lib computeAB outcome k ->
  computeAB = Ok (A, M) -> msub A (scale sigma_shift M) = Ok S ->
  In (Factorized (chosen_backend lib) S) (snd outcome).
Proof.
  intros (A' & M' & S' & E1 & E2 & E3) HA HS.
  rewrite HA in E1. injection E1 as <- <-. rewrite HS in E2. injection E2 as <-.
  rewrite E3. destruct (chosen_factorization lib S); cbn [snd];
    apply in_or_app; right; now left.
Qed.

(** X12.  The matrix [laplaceTria] and [laplaceTetra] hand to the
    factorization, [A - sigma*M] with [sigma = -0.01], is positive definite
    on the vertices of the mesh: on every mesh with at least one cell, all
    indices in bounds and a positive mean of [vol], its quadratic form is
    positive on every vector that is not zero at some vertex a cell uses.
    So the Cholesky factorization is applied to a matrix it can factorize
    when every vertex below the matrix size belongs to a cell. *)
Theorem factorized_matrix_positive_definite :
  (forall (v : list (@vec3 R)) (t : list tria) (k : Z) (lump : bool),
      forallb (tria_in_bounds (length v)) t = true -> t <> [] ->
      0 < tria_vol_mean v t ->
      exists S,
        In (Factorized (chosen_backend lib) S) (snd (laplaceTria lib v t k lump []))
        /\ forall x, (exists i, tria_uses t i /\ nth i x 0 <> 0) -> 0 < quad S x)
  /\
  (forall (v : list (@vec3 R)) (t : list tetra) (k : Z) (lump : bool),
      forallb (tetra_in_bounds (length v)) t = true -> t <> [] ->
      0 < tetra_vol_mean v t ->
      exists S,
        In (Factorized (chosen_backend lib) S) (snd (laplaceTetra lib v t k lump []))
        /\ forall x, (exists i, tetra_uses t i /\ nth i x 0 <> 0) -> 0 < quad S x).
Proof.
  split; intros v t k lump Hb Ht Hvm.
  - pose proof (computeABtria_cells v lump Hb Ht) as E.
    pose proof (@laplace_run R _ lib (computeABtria v t) k lump _ _ _ E) as Hrun.
    set (A := {| shape := (S (tria_max t), S (tria_max t));
                 triples := flat_map (tria_localA v (tria_vol_mean v t)) t |}) in *.
    set (M := {| shape := (S (tria_max t), S (tria_max t));
                 triples := flat_map (tria_localB lump v (tria_vol_mean v t)) t |}) in *.
    assert (HA : within_shape A)
      by (apply within_shape_cells; intros c Hc; apply (tria_local_within v _ lump t c Hc)).
    assert (HM : within_shape M)
      by (apply within_shape_cells; intros c Hc; apply (tria_local_within v _ lump t c Hc)).
    destruct (@quad_shifted A M sigma_shift [] eq_refl HA HM) as (S0 & HS & _).
    exists S0. split; [exact (factorized_logged Hrun E HS)|].
    intros x (i & Hi & Hx).
    destruct (@quad_shifted A M sigma_shift x eq_refl HA HM) as (S1 & HS1 & Hq).
    rewrite HS in HS1. injection HS1 as <-. rewrite Hq.
    pose proof (@tria_stiffness_form v t x Hvm) as H1.
    pose proof (@tria_mass_form lump v t x i Hvm Hi Hx) as H2.
    fold A in H1. fold M in H2. unfold sigma_shift. real_ops. lra.
  - pose proof (computeABtetra_cells v lump Hb Ht) as E.
    pose proof (@laplace_run R _ lib (computeABtetra v t) k lump _ _ _ E) as Hrun.
    set (A := {| shape := (S (tetra_max t), S (tetra_max t));
                 triples := flat_map (tetra_localA v (tetra_vol_mean v t)) t |}) in *.
    set (M := {| shape := (S (tetra_max t), S (tetra_max t));
                 triples := flat_map (tetra_localB lump v (tetra_vol_mean v t)) t |}) in *.
    assert (HA : within_shape A)
      by (apply within_shape_cells; intros c Hc; apply (tetra_local_within v _ lump t c Hc)).
    assert (HM : within_shape M)
      by (apply within_shape_cells; intros c Hc; apply (tetra_local_within v _ lump t c Hc)).
    destruct (@quad_shifted A M sigma_shift [] eq_refl HA HM) as (S0 & HS & _).
    exists S0. split; [exact (factorized_logged Hrun E HS)|].
    intros x (i & Hi & Hx).
    destruct (@quad_shifted A M sigma_shift x eq_refl HA HM) as (S1 & HS1 & Hq).
    rewrite HS in HS1. injection HS1 as <-. rewrite Hq.
    pose proof (@tetra_stiffness_form v t x Hvm) as H1.
    pose proof (@tetra_mass_form lump v t x i Hvm Hi Hx) as H2.
    fold A in H1. fold M in H2. unfold sigma_shift. real_ops. lra.
Qed.
End ShiftedMatrix.

Lemma factorized_matrix_positive_definite_witness :
  (exists S,
      In (Factorized (chosen_backend exact_libraries) S)
         (snd (laplaceTria exact_libraries right_corners one_triangle 2%Z false []))
      /\ forall x, (exists i, tria_uses one_triangle i /\ nth i x 0%R <> 0%R) -> (0 < quad S x)%R)
  /\ (exists S,
      In (Factorized (chosen_backend exact_libraries) S)
         (snd (laplaceTetra exact_libraries unit_corners unit_tetra 2%Z true []))
      /\ forall x, (exists i, tetra_uses unit_tetra i /\ nth i x 0%R <> 0%R) -> (0 < quad S x)%R).
Proof.
  split.
  - apply (proj1 (factorized_matrix_positive_definite exact_libraries)
             right_corners one_triangle 2%Z false);
      [reflexivity | discriminate | rewrite right_triangle_vol_mean; lra].
  - apply (proj2 (factorized_matrix_positive_definite exact_libraries)
             unit_corners unit_tetra 2%Z true);
      [reflexivity | discriminate | rewrite unit_tetra_vol_mean; lra].
Defined.

Section MghFiles.
Local Open Scope Z_scope.

Lemma byte_of_value (n : Z) : Z.of_N (Byte.to_N (byte_of n)) = n mod 256.
Proof.
  unfold byte_of.
  assert (H : 0 <= n mod 256 < 256) by (apply Z.mod_pos_bound; lia).
  destruct (Byte.of_N (Z.to_N (n mod 256))) as [b|] eqn:E.
  - apply Byte.to_of_N in E. rewrite E. apply Z2N.id. lia.
  - apply Byte.of_N_None_iff in E. lia.
Qed.

Lemma int_bytes_succ (size : nat) (z : Z) :
  int_bytes (S size) z = byte_of (z / 256 ^ Z.of_nat size) :: int_bytes size z.
Proof.
  unfold int_bytes. rewrite seq_S, rev_app_distr. reflexivity.
Qed.

Lemma length_int_bytes (size : nat) (z : Z) : length (int_bytes size z) = size.
Proof. unfold int_bytes. now rewrite length_map, length_rev, length_seq. Qed.

Lemma be_unsigned_int_bytes (size : nat) (z : Z) :
  be_unsigned (int_bytes size z) = z mod 256 ^ Z.of_nat size.
Proof.
  unfold be_unsigned.
  enough (H : forall acc,
             fold_left (fun a b => a * 256 + Z.of_N (Byte.to_N b)) (int_bytes size z) acc
             = acc * 256 ^ Z.of_nat size + z mod 256 ^ Z.of_nat size)
    by (rewrite H, Z.mul_0_l; reflexivity).
  induction size as [|size IH]; intros acc.
  - change (int_bytes 0 z) with (@nil Byte.byte). cbn [fold_left].
    change (256 ^ Z.of_nat 0) with 1. rewrite Z.mod_1_r. lia.
  - rewrite int_bytes_succ. cbn [fold_left]. rewrite IH, byte_of_value.
    rewrite Nat2Z.inj_succ, Z.pow_succ_r by lia.
    rewrite (Z.mul_comm 256 (256 ^ Z.of_nat size)).
    rewrite (Z.rem_mul_r z (256 ^ Z.of_nat size) 256) by lia. ring.
Qed.

(** [struct.unpack] undoes [struct.pack] on the integers of the format's
    range. *)
Lemma unpack_int_bytes (size : nat) (z : Z) :
  (0 < size)%nat ->
  - 2 ^ (8 * Z.of_nat size - 1) <= z < 2 ^ (8 * Z.of_nat size - 1) ->
  unpack_int size (int_bytes size z) = Ok z.
Proof.
  intros Hs Hz. unfold unpack_int. rewrite length_int_bytes, Nat.eqb_refl.
  rewrite be_unsigned_int_bytes. f_equal. unfold signed.
  assert (E : 256 ^ Z.of_nat size = 2 ^ (8 * Z.of_nat size))
    by (change 256 with (2 ^ 8); rewrite <- Z.pow_mul_r by lia; reflexivity).
  rewrite E.
  assert (E2 : 2 ^ (8 * Z.of_nat size) = 2 * 2 ^ (8 * Z.of_nat size - 1))
    by (rewrite <- Z.pow_succ_r by lia; f_equal; lia).
  assert (Hp : 0 < 2 ^ (8 * Z.of_nat size - 1)) by (apply Z.pow_pos_nonneg; lia).
  destruct (Z.ltb_spec (z mod 2 ^ (8 * Z.of_nat size)) (2 ^ (8 * Z.of_nat size - 1))) as [H|H].
  - destruct (Z.neg_nonneg_cases z) as [Hn|Hn].
    + exfalso. rewrite <- (Z.mod_add z 1) in H by lia.
      rewrite Z.mod_small in H by lia. lia.
    + apply Z.mod_small. lia.
  - destruct (Z.neg_nonneg_cases z) as [Hn|Hn].
    + rewrite <- (Z.mod_add z 1) by lia. rewrite Z.mod_small by lia. lia.
    + exfalso. rewrite Z.mod_small in H by lia. lia.
Qed.

Lemma take_app_exact {A} (n : nat) (bs rest : list A) :
  length bs = n -> firstn n (bs ++ rest) = bs /\ skipn n (bs ++ rest) = rest.
Proof.
  intros <-. induction bs as [|b bs [IH1 IH2]]; cbn; [now split|].
  now rewrite IH1, IH2.
Qed.

Lemma fp_read_nonneg (n : Z) (s : list Byte.byte) :
  0 <= n -> fp_read n s = (Ok (firstn (Z.to_nat n) s), skipn (Z.to_nat n) s).
Proof.
  intros H. unfold fp_read.
  destruct (Z.ltb_spec n (-1)) as [H1|_]; [lia|].
  destruct (Z.eqb_spec n (-1)) as [H2|_]; [lia|reflexivity].
Qed.

Lemma fp_read_app (n : Z) (bs rest : list Byte.byte) :
  Z.of_nat (length bs) = n -> fp_read n (bs ++ rest) = (Ok bs, rest).
Proof.
  intros <-. rewrite fp_read_nonneg by lia.
  rewrite Nat2Z.id. now destruct (@take_app_exact _ (length bs) bs rest eq_refl) as [-> ->].
Qed.

Lemma read_int_app (size : nat) (bs rest : list Byte.byte) :
  length bs = size -> read_int size (bs ++ rest) = (unpack_int size bs, rest).
Proof.
  intros H. unfold read_int, rd_bind. now rewrite fp_read_app by lia.
Qed.

Lemma read_int_bytes (size : nat) (z : Z) (rest : list Byte.byte) :
  (0 < size)%nat ->
  - 2 ^ (8 * Z.of_nat size - 1) <= z < 2 ^ (8 * Z.of_nat size - 1) ->
  read_int size (int_bytes size z ++ rest) = (Ok z, rest).
Proof.
  intros Hs Hz. rewrite read_int_app by apply length_int_bytes.
  now rewrite unpack_int_bytes.
Qed.

Lemma read_floats_app (count : nat) (bs rest : list Byte.byte) :
  length bs = (4 * count)%nat -> read_floats count (bs ++ rest) = (Ok tt, rest).
Proof.
  intros H. unfold read_floats, rd_bind. rewrite fp_read_app by lia.
  unfold unpack_floats. now rewrite H, Nat.eqb_refl.
Qed.

Lemma skip_chars_app (pad rest : list Byte.byte) :
  skip_chars (length pad) (pad ++ rest) = (Ok tt, rest).
Proof.
  induction pad as [|b pad IH]; [reflexivity|].
  cbn [length skip_chars]. unfold rd_bind.
  change ((b :: pad) ++ rest) with ([b] ++ (pad ++ rest)).
  rewrite read_int_app by reflexivity.
  unfold unpack_int. cbn [length Nat.eqb]. exact IH.
Qed.

Lemma quads_voxels (voxels : list Z) (fuel : nat) :
  (length voxels <= fuel)%nat ->
  Forall (fun w => 0 <= w < 2 ^ 32) voxels ->
  quads fuel (flat_map (int_bytes 4) voxels) = Ok voxels.
Proof.
  revert fuel. induction voxels as [|w voxels IH]; intros fuel Hf Hv.
  - destruct fuel; reflexivity.
  - destruct fuel as [|fuel]; [cbn in Hf; lia|].
    inversion Hv as [|? ? Hw Hv']; subst.
    cbn [flat_map].
    pose proof (be_unsigned_int_bytes 4 w) as Eb.
    pose proof (length_int_bytes 4 w) as El.
    destruct (int_bytes 4 w) as [|a [|b [|c [|d [|? ?]]]]]; try discriminate El.
    cbn [app quads]. rewrite IH by (cbn in Hf; try lia; assumption).
    rewrite Eb. change (256 ^ Z.of_nat 4) with (2 ^ 32). now rewrite Z.mod_small.
Qed.

Lemma length_voxel_bytes (voxels : list Z) :
  length (flat_map (int_bytes 4) voxels) = (4 * length voxels)%nat.
Proof.
  induction voxels as [|w voxels IH]; [reflexivity|].
  cbn [flat_map length]. rewrite length_app, length_int_bytes, IH. lia.
Qed.

Lemma frombuffer_voxels (voxels : list Z) :
  Forall (fun w => 0 <= w < 2 ^ 32) voxels ->
  frombuffer_float32 (flat_map (int_bytes 4) voxels) = Ok voxels.
Proof.
  intros H. unfold frombuffer_float32. apply quads_voxels; [|exact H].
  rewrite length_voxel_bytes. lia.
Qed.

(** X13.  [importMGH] decodes a well-formed file: seven big-endian 32-bit
    header fields, the 16-bit RAS flag, the 60 bytes of the RAS block when
    the flag is not zero, 194 further bytes, and then the voxels as
    big-endian float32 in column-major order.  It returns the voxels with
    the shape (ndim1, ndim2, ndim3, nframes) squeezed, warns about
    nothing, ignores whatever follows the voxels, and does not look at the
    version, type and dof fields.  With the flag zero the voxels are taken
    from offset 30 + 194 = 224. *)
Theorem importMGH_reads_well_formed_file
  (fs : filesystem) (filename : string)
  (v ndim1 ndim2 ndim3 nframes vtype dof ras_good_flag : Z)
  (ras pad footer : list Byte.byte) (voxels : list Z) :
  fs filename
  = Some (int_bytes 4 v ++ int_bytes 4 ndim1 ++ int_bytes 4 ndim2 ++ int_bytes 4 ndim3
          ++ int_bytes 4 nframes ++ int_bytes 4 vtype ++ int_bytes 4 dof
          ++ int_bytes 2 ras_good_flag ++ ras ++ pad
          ++ flat_map (int_bytes 4) voxels ++ footer) ->
  0 <= ndim1 < 2 ^ 31 -> 0 <= ndim2 < 2 ^ 31 -> 0 <= ndim3 < 2 ^ 31 ->
  0 <= nframes < 2 ^ 31 ->
  - 2 ^ 15 <= ras_good_flag < 2 ^ 15 ->
  length ras = (if (ras_good_flag =? 0)%Z then 0 else 60)%nat ->
  length pad = 194%nat ->
  Forall (fun w => 0 <= w < 2 ^ 32) voxels ->
  Z.of_nat (length voxels) = ndim1 * ndim2 * ndim3 * nframes ->
  importMGH fs filename = (Ok (Volume (squeeze [ndim1; ndim2; ndim3; nframes]) voxels), []).
Proof.
  intros Hfile H1 H2 H3 H4 Hflag Hras Hpad Hvox Hlen.
  unfold importMGH. rewrite Hfile. f_equal.
  unfold read_mgh, rd_bind.
  rewrite read_int_app by apply length_int_bytes.
  unfold unpack_int at 1. rewrite length_int_bytes, Nat.eqb_refl.
  rewrite !read_int_bytes by (try apply Nat.lt_0_succ; cbn; lia).
  rewrite read_int_app by apply length_int_bytes.
  unfold unpack_int at 1. rewrite length_int_bytes, Nat.eqb_refl.
  rewrite read_int_app by apply length_int_bytes.
  unfold unpack_int at 1. rewrite length_int_bytes, Nat.eqb_refl.
  rewrite read_int_bytes by (try apply Nat.lt_0_succ; cbn; lia).
  assert (Eskip : Z.to_nat (UNUSED_SPACE_SIZE - 2 - USED_SPACE_SIZE) = length pad)
    by (rewrite Hpad; reflexivity).
  rewrite Eskip.
  assert (Eras : (if ras_good_flag =? 0 then rd_ret tt
                  else rd_bind (read_floats 3)
                         (fun _ => rd_bind (read_floats 9) (fun _ => read_floats 3)))
                   (ras ++ pad ++ flat_map (int_bytes 4) voxels ++ footer)
                 = (Ok tt, pad ++ flat_map (int_bytes 4) voxels ++ footer)).
  { destruct (ras_good_flag =? 0).
    - destruct ras; [reflexivity|discriminate].
    - unfold rd_bind.
      rewrite <- (firstn_skipn 12 ras), <- (firstn_skipn 36 (skipn 12 ras)), <- !app_assoc.
      rewrite read_floats_app by (rewrite length_firstn; lia).
      rewrite read_floats_app by (rewrite length_firstn, length_skipn; lia).
      rewrite read_floats_app by (rewrite !length_skipn; lia). reflexivity. }
  unfold rd_bind in Eras. rewrite Eras. rewrite skip_chars_app.
  rewrite fp_read_app by (rewrite length_voxel_bytes; lia).
  rewrite frombuffer_voxels by assumption.
  unfold reshape. cbn [forallb].
  repeat match goal with
         | |- context [(0 <=? ?d)] => destruct (Z.leb_spec 0 d); [|lia]
         end.
  cbn [andb product fold_right]. rewrite Z.mul_1_r.
  replace (ndim1 * (ndim2 * (ndim3 * nframes))) with (Z.of_nat (length voxels)) by lia.
  rewrite Z.eqb_refl. reflexivity.
Qed.
End MghFiles.
Section MghShortFiles.
Local Open Scope Z_scope.

Lemma rd_bind_read_int {B} (size : nat) (k : Z -> reader B) (s : list Byte.byte) :
  rd_bind (read_int size) k s
  = if (size <=? length s)%nat
    then k (signed (8 * Z.of_nat size) (be_unsigned (firstn size s))) (skipn size s)
    else (Err StructError, skipn size s).
Proof.
  unfold read_int, rd_bind. rewrite fp_read_nonneg by lia.
  rewrite Nat2Z.id. unfold unpack_int. rewrite length_firstn.
  destruct (Nat.leb_spec size (length s)) as [H|H].
  - rewrite Nat.min_l by lia. now rewrite Nat.eqb_refl.
  - rewrite Nat.min_r by lia.
    destruct (Nat.eqb_spec (length s) size); [lia|reflexivity].
Qed.

Lemma rd_bind_read_floats {B} (count : nat) (k : unit -> reader B) (s : list Byte.byte) :
  rd_bind (read_floats count) k s
  = if (4 * count <=? length s)%nat then k tt (skipn (4 * count) s)
    else (Err StructError, skipn (4 * count) s).
Proof.
  unfold read_floats, rd_bind. rewrite fp_read_nonneg by lia.
  rewrite Nat2Z.id. unfold unpack_floats. rewrite length_firstn.
  destruct (Nat.leb_spec (4 * count) (length s)) as [H|H].
  - rewrite Nat.min_l by lia. now rewrite Nat.eqb_refl.
  - rewrite Nat.min_r by lia.
    destruct (Nat.eqb_spec (length s) (4 * count)); [lia|reflexivity].
Qed.

Lemma read_floats_cases (count : nat) (s : list Byte.byte) :
  read_floats count s
  = if (4 * count <=? length s)%nat then (Ok tt, skipn (4 * count) s)
    else (Err StructError, skipn (4 * count) s).
Proof.
  unfold read_floats, rd_bind. rewrite fp_read_nonneg by lia.
  rewrite Nat2Z.id. unfold unpack_floats. rewrite length_firstn.
  destruct (Nat.leb_spec (4 * count) (length s)) as [H|H].
  - rewrite Nat.min_l by lia. now rewrite Nat.eqb_refl.
  - rewrite Nat.min_r by lia.
    destruct (Nat.eqb_spec (length s) (4 * count)); [lia|reflexivity].
Qed.

Lemma skip_chars_short (n : nat) (s : list Byte.byte) :
  (length s < n)%nat -> fst (skip_chars n s) = Err StructError.
Proof.
  revert s. induction n as [|n IH]; intros s H; [lia|].
  cbn [skip_chars]. rewrite rd_bind_read_int.
  destruct (Nat.leb_spec 1 (length s)) as [H1|H1]; [|reflexivity].
  apply IH. rewrite length_skipn. lia.
Qed.

Lemma rd_bind_fails {A B} (m : reader A) (k : A -> reader B) (s : list Byte.byte) (e : exn) :
  fst (m s) = Err e -> fst (rd_bind m k s) = Err e.
Proof. unfold rd_bind. destruct (m s) as [[a|e'] s']; cbn; congruence. Qed.

Lemma quads_outcome (fuel : nat) (bs : list Byte.byte) :
  (length bs <= fuel)%nat ->
  quads fuel bs = Err ValueError
  \/ exists l, quads fuel bs = Ok l /\ length bs = (4 * length l)%nat.
Proof.
  revert bs. induction fuel as [|fuel IH]; intros bs H.
  - destruct bs; [|cbn in H; lia]. right. now exists [].
  - destruct bs as [|a [|b [|c [|d rest]]]]; cbn [quads]; try (now left).
    + right. now exists [].
    + destruct (IH rest) as [E|(l & E & Hl)]; [cbn in H; lia| |]; rewrite E.
      * now left.
      * right. eexists. split; [reflexivity|]. cbn [length]. lia.
Qed.

(** X14.  [importMGH] never returns a volume for a file that is too
    short, and issues no warning.  A file that ends inside the header
    (shorter than 224 bytes when the RAS flag at offset 28 is zero, than
    284 bytes otherwise) makes it raise [struct.error].  A file whose
    header is complete and whose dimensions are not negative, but which
    holds fewer voxel bytes than four times the product of the
    dimensions, makes it raise too: [ValueError] from [numpy.frombuffer]
    or [numpy.reshape] once [fp.read] has returned what is left of the
    file, as here; an interpreter that cannot allocate a buffer of the
    length asked for raises in [fp.read], which is an exception as well. *)
Theorem importMGH_short_file :
  (forall (fs : filesystem) (filename : string) (content : list Byte.byte),
      fs filename = Some content ->
      (length content
       < (if (signed 16 (be_unsigned (firstn 2 (skipn 28 content))) =? 0)%Z
          then 224 else 284))%nat ->
      importMGH fs filename = (Err StructError, []))
  /\
  (forall (fs : filesystem) (filename : string)
          (v ndim1 ndim2 ndim3 nframes vtype dof ras_good_flag : Z)
          (ras pad data : list Byte.byte),
      fs filename
      = Some (int_bytes 4 v ++ int_bytes 4 ndim1 ++ int_bytes 4 ndim2 ++ int_bytes 4 ndim3
              ++ int_bytes 4 nframes ++ int_bytes 4 vtype ++ int_bytes 4 dof
              ++ int_bytes 2 ras_good_flag ++ ras ++ pad ++ data) ->
      0 <= ndim1 < 2 ^ 31 -> 0 <= ndim2 < 2 ^ 31 -> 0 <= ndim3 < 2 ^ 31 ->
      0 <= nframes < 2 ^ 31 ->
      - 2 ^ 15 <= ras_good_flag < 2 ^ 15 ->
      length ras = (if (ras_good_flag =? 0)%Z then 0 else 60)%nat ->
      length pad = 194%nat ->
      Z.of_nat (length data) < 4 * (ndim1 * ndim2 * ndim3 * nframes) ->
      exists e, importMGH fs filename = (Err e, [])).
Proof.
  split.
  - intros fs filename content Hfile Hshort.
    unfold importMGH. rewrite Hfile. f_equal.
    unfold read_mgh.
    do 7 (rewrite rd_bind_read_int;
          match goal with
          | |- context [(?a <=? ?b)%nat] => destruct (Nat.leb_spec a b); [|reflexivity]
          end).
    rewrite rd_bind_read_int.
    match goal with
    | |- context [(?a <=? ?b)%nat] => destruct (Nat.leb_spec a b); [|reflexivity]
    end.
    rewrite !skipn_skipn in *. cbn [Nat.add] in *.
    destruct (signed (8 * Z.of_nat 2) (be_unsigned (firstn 2 (skipn 28 content))) =? 0) eqn:Ef;
      change (8 * Z.of_nat 2) with 16 in Ef; rewrite Ef in Hshort.
    + unfold rd_bind at 1. unfold rd_ret at 1.
      apply rd_bind_fails, skip_chars_short.
      rewrite length_skipn. change (Z.to_nat (UNUSED_SPACE_SIZE - 2 - USED_SPACE_SIZE)) with 194%nat.
      lia.
    + unfold rd_bind at 1.
      rewrite rd_bind_read_floats.
      match goal with
      | |- context [(?a <=? ?b)%nat] => destruct (Nat.leb_spec a b); [|reflexivity]
      end.
      rewrite rd_bind_read_floats.
      match goal with
      | |- context [(?a <=? ?b)%nat] => destruct (Nat.leb_spec a b); [|reflexivity]
      end.
      rewrite read_floats_cases.
      match goal with
      | |- context [(?a <=? ?b)%nat] => destruct (Nat.leb_spec a b); [|reflexivity]
      end.
      rewrite !skipn_skipn.
      apply rd_bind_fails, skip_chars_short.
      rewrite !length_skipn in *.
      change (Z.to_nat (UNUSED_SPACE_SIZE - 2 - USED_SPACE_SIZE)) with 194%nat.
      lia.
  - intros fs filename v ndim1 ndim2 ndim3 nframes vtype dof ras_good_flag ras pad data
      Hfile H1 H2 H3 H4 Hflag Hras Hpad Hlen.
    exists ValueError.
    unfold importMGH. rewrite Hfile. f_equal.
    unfold read_mgh, rd_bind.
    rewrite read_int_app by apply length_int_bytes.
    unfold unpack_int at 1. rewrite length_int_bytes, Nat.eqb_refl.
    rewrite !read_int_bytes by (try apply Nat.lt_0_succ; cbn; lia).
    rewrite read_int_app by apply length_int_bytes.
    unfold unpack_int at 1. rewrite length_int_bytes, Nat.eqb_refl.
    rewrite read_int_app by apply length_int_bytes.
    unfold unpack_int at 1. rewrite length_int_bytes, Nat.eqb_refl.
    rewrite read_int_bytes by (try apply Nat.lt_0_succ; cbn; lia).
    assert (Eskip : Z.to_nat (UNUSED_SPACE_SIZE - 2 - USED_SPACE_SIZE) = length pad)
      by (rewrite Hpad; reflexivity).
    rewrite Eskip.
    assert (Eras : (if ras_good_flag =? 0 then rd_ret tt
                    else rd_bind (read_floats 3)
                           (fun _ => rd_bind (read_floats 9) (fun _ => read_floats 3)))
                     (ras ++ pad ++ data)
                   = (Ok tt, pad ++ data)).
    { destruct (ras_good_flag =? 0).
      - destruct ras; [reflexivity|discriminate].
      - unfold rd_bind.
        rewrite <- (firstn_skipn 12 ras), <- (firstn_skipn 36 (skipn 12 ras)), <- !app_assoc.
        rewrite read_floats_app by (rewrite length_firstn; lia).
        rewrite read_floats_app by (rewrite length_firstn, length_skipn; lia).
        rewrite read_floats_app by (rewrite !length_skipn; lia). reflexivity. }
    unfold rd_bind in Eras. rewrite Eras.
    rewrite skip_chars_app.
    rewrite fp_read_nonneg by lia.
    rewrite firstn_all2 by lia.
    unfold frombuffer_float32.
    destruct (@quads_outcome (length data) data (le_n _)) as [E|(l & E & Hl)]; rewrite E;
      [reflexivity|].
    unfold reshape. cbn [forallb].
    repeat match goal with
           | |- context [(0 <=? ?d)] => destruct (Z.leb_spec 0 d); [|lia]
           end.
    cbn [andb product fold_right]. rewrite Z.mul_1_r.
    destruct (Z.eqb_spec (ndim1 * (ndim2 * (ndim3 * nframes))) (Z.of_nat (length l)));
      [lia|reflexivity].
Qed.
End MghShortFiles.

Lemma importMGH_reads_well_formed_file_witness :
  importMGH
    (fun _ => Some (int_bytes 4 1 ++ int_bytes 4 2 ++ int_bytes 4 1 ++ int_bytes 4 1
                    ++ int_bytes 4 1 ++ int_bytes 4 3 ++ int_bytes 4 0
                    ++ int_bytes 2 1 ++ repeat Byte.x00 60 ++ repeat Byte.x00 194
                    ++ flat_map (int_bytes 4) [1065353216%Z; 1073741824%Z]
                    ++ [Byte.x00; Byte.x01]))
    "brain.mgh"
  = (Ok (Volume (squeeze [2; 1; 1; 1]%Z) [1065353216%Z; 1073741824%Z]), []).
Proof.
  apply (@importMGH_reads_well_formed_file _ "brain.mgh" 1 2 1 1 1 3 0 1
           (repeat Byte.x00 60) (repeat Byte.x00 194) [Byte.x00; Byte.x01]
           [1065353216%Z; 1073741824%Z]);
    try reflexivity; try lia.
  repeat constructor; lia.
Defined.

Lemma importMGH_short_file_witness :
  importMGH (fun _ => Some (firstn 40 small_mgh)) "cut.mgh" = (Err StructError, [])
  /\ exists e,
     importMGH
       (fun _ => Some (int_bytes 4 1 ++ int_bytes 4 2 ++ int_bytes 4 1 ++ int_bytes 4 1
                       ++ int_bytes 4 1 ++ int_bytes 4 3 ++ int_bytes 4 0
                       ++ int_bytes 2 1 ++ repeat Byte.x00 60 ++ repeat Byte.x00 194
                       ++ int_bytes 4 1065353216))
       "short.mgh"
     = (Err e, []).
Proof.
  split.
  - apply (proj1 importMGH_short_file _ "cut.mgh"%string (firstn 40 small_mgh));
      [reflexivity | vm_compute; lia].
  - apply (proj2 importMGH_short_file _ "short.mgh"%string 1 2 1 1 1 3 0 1
             (repeat Byte.x00 60) (repeat Byte.x00 194) (int_bytes 4 1065353216))%Z;
      try reflexivity; lia.
Defined.

Section LtaResult.
Context {T : Type} {num : Scalar T}.
Variable py_float : string -> result T.
Local Open Scope string_scope.

Lemma bind_inv {A B} (r : result A) (k : A -> result B) (b : B) :
  bind r k = Ok b -> exists a, r = Ok a /\ k a = Ok b.
Proof. destruct r as [a|e]; cbn [bind]; [eauto|discriminate]. Qed.

Lemma dict_get_set_same (d : @dict T) (key : string) (v : lta_value) :
  dict_get (dict_set d key v) key = Ok v.
Proof.
  induction d as [|[k w] d IH]; cbn [dict_set dict_get].
  - now rewrite String.eqb_refl.
  - destruct (String.eqb k key) eqn:E; cbn [dict_get]; rewrite E; [reflexivity|exact IH].
Qed.

Lemma dict_get_set_other (d : @dict T) (key key' : string) (v : lta_value) :
  key <> key' -> dict_get (dict_set d key v) key' = dict_get d key'.
Proof.
  intros Hk. induction d as [|[k w] d IH]; cbn [dict_set dict_get].
  - destruct (String.eqb_spec key key'); [contradiction|reflexivity].
  - destruct (String.eqb_spec k key) as [->|Hn]; cbn [dict_get].
    + destruct (String.eqb_spec key key'); [contradiction|reflexivity].
    + destruct (String.eqb k key'); [reflexivity|exact IH].
Qed.

Lemma side_by_side_rows (x y z c : list T) (rows : list (list T)) :
  side_by_side x y z c = Ok rows ->
  length rows = length x /\ length y = length x /\ length z = length x
  /\ length c = length x /\ Forall (fun r => length r = 4%nat) rows.
Proof.
  revert y z c rows. induction x as [|a x IH]; intros [|b y] [|e z] [|f c] rows;
    cbn [side_by_side]; try discriminate.
  - intros H. injection H as <-. repeat split. constructor.
  - intros H. apply bind_inv in H. destruct H as (rows' & H & E). injection E as <-.
    destruct (IH _ _ _ _ H) as (H1 & H2 & H3 & H4 & H5).
    cbn [length]. repeat split; try congruence. now constructor.
Qed.

Lemma full_matrix_rows (d : @dict T) (pre : string) (m : lta_value) :
  full_matrix d pre = Ok m ->
  exists x y z c rows,
    dict_get d (pre ++ "_xras") = Ok (VFloats x)
    /\ dict_get d (pre ++ "_yras") = Ok (VFloats y)
    /\ dict_get d (pre ++ "_zras") = Ok (VFloats z)
    /\ dict_get d (pre ++ "_cras") = Ok (VFloats c)
    /\ side_by_side x y z c = Ok rows
    /\ m = VArray (rows ++ [[of_Z 0; of_Z 0; of_Z 0; of_Z 1]]).
Proof.
  unfold full_matrix, get_floats. intros H.
  repeat match type of H with
         | bind (bind ?r ?k1) ?k2 = Ok _ =>
             let a := fresh "a" in let E := fresh "E" in
             apply bind_inv in H; destruct H as (? & E & H);
             apply bind_inv in E; destruct E as (a & E & ?);
             destruct a; try discriminate
         | bind ?r ?k = Ok _ => apply bind_inv in H; destruct H as (? & ? & H)
         end.
  repeat match goal with H : Ok _ = Ok _ |- _ => injection H as <- end.
  eauto 12.
Qed.

(** X15.  Whenever [readLTA] returns, the dictionary holds under ["src"]
    and ["dst"] the full matrices of the two volumes: the columns xras,
    yras, zras and cras read from the file side by side, all of one length
    and so in rows of four numbers, with the row [0 0 0 1] below. *)
Theorem readLTA_result_has_full_matrices (fs : filesystem) (file : string) (d : dict) :
  readLTA py_float fs file = Ok d ->
  forall pre, pre = "src" \/ pre = "dst" ->
    exists x y z c rows,
      dict_get d (pre ++ "_xras") = Ok (VFloats x)
      /\ dict_get d (pre ++ "_yras") = Ok (VFloats y)
      /\ dict_get d (pre ++ "_zras") = Ok (VFloats z)
      /\ dict_get d (pre ++ "_cras") = Ok (VFloats c)
      /\ side_by_side x y z c = Ok rows
      /\ Forall (fun r => length r = 4%nat) rows
      /\ length rows = length x
      /\ dict_get d pre = Ok (VArray (rows ++ [[of_Z 0; of_Z 0; of_Z 0; of_Z 1]])).
Proof.
  unfold readLTA. destruct (fs file) as [content|]; [|discriminate].
  intros H.
  apply bind_inv in H. destruct H as (d0 & _ & H).
  apply bind_inv in H. destruct H as (src & Hsrc & H).
  apply bind_inv in H. destruct H as (dst & Hdst & H).
  injection H as <-.
  assert (Hkeys : forall pre suffix,
            pre = "src" \/ pre = "dst" ->
            suffix = "_xras" \/ suffix = "_yras" \/ suffix = "_zras" \/ suffix = "_cras" ->
            dict_get (dict_set (dict_set d0 "src" src) "dst" dst) (pre ++ suffix)
            = dict_get d0 (pre ++ suffix)).
  { intros pre suffix [->| ->] [->|[->|[->| ->]]];
      rewrite !dict_get_set_other by discriminate; reflexivity. }
  intros pre [->| ->].
  - destruct (full_matrix_rows _ _ Hsrc) as (x & y & z & c & rows & Hx & Hy & Hz & Hc & Hr & ->).
    exists x, y, z, c, rows.
    rewrite !Hkeys by tauto.
    destruct (side_by_side_rows _ _ _ _ Hr) as (L1 & _ & _ & _ & L5).
    rewrite dict_get_set_other by discriminate. rewrite dict_get_set_same.
    repeat split; assumption.
  - destruct (full_matrix_rows _ _ Hdst) as (x & y & z & c & rows & Hx & Hy & Hz & Hc & Hr & ->).
    exists x, y, z, c, rows.
    rewrite !Hkeys by tauto.
    rewrite !dict_get_set_other in Hx, Hy, Hz, Hc by discriminate.
    destruct (side_by_side_rows _ _ _ _ Hr) as (L1 & _ & _ & _ & L5).
    rewrite dict_get_set_same.
    repeat split; assumption.
Qed.
End LtaResult.

Lemma readLTA_result_has_full_matrices_witness :
  exists x y z c rows,
    let d := match readLTA int_float lta_files "make_upright.lta" with
             | Ok d => d
             | Err _ => []
             end in
    dict_get d ("src" ++ "_xras") = Ok (VFloats x)
    /\ dict_get d ("src" ++ "_yras") = Ok (VFloats y)
    /\ dict_get d ("src" ++ "_zras") = Ok (VFloats z)
    /\ dict_get d ("src" ++ "_cras") = Ok (VFloats c)
    /\ side_by_side x y z c = Ok rows
    /\ Forall (fun r => length r = 4%nat) rows
    /\ length rows = length x
    /\ dict_get d "src" = Ok (VArray (rows ++ [[of_Z 0; of_Z 0; of_Z 0; of_Z 1]])).
Proof.
  apply (@readLTA_result_has_full_matrices _ _ int_float lta_files "make_upright.lta"
           (match readLTA int_float lta_files "make_upright.lta" with
            | Ok d => d
            | Err _ => []
            end));
    [vm_compute; reflexivity | left; reflexivity].
Defined.
Section LtaBlocks.
Context {T : Type} {num : Scalar T}.
Variable py_float : string -> result T.
Local Open Scope string_scope.

Lemma dict_set_absent (d : @dict T) (key k : string) (v : lta_value) :
  key <> k -> dict_get d k = Err (KeyError k) ->
  dict_get (dict_set d key v) k = Err (KeyError k).
Proof. intros Hk H. now rewrite dict_get_set_other. Qed.

Lemma info_line_absent (pre l k : string) (d d' : @dict T) :
  (forall suffix, pre ++ suffix <> k) ->
  info_line py_float pre l d = Ok d' ->
  dict_get d k = Err (KeyError k) -> dict_get d' k = Err (KeyError k).
Proof.
  intros Hk H Hd. unfold info_line in H.
  repeat match type of H with
         | (if ?b then _ else _) = Ok _ => destruct b
         end;
    try (apply bind_inv in H; destruct H as (? & _ & H));
    injection H as <-; try apply dict_set_absent; auto.
Qed.

Lemma info_block_absent (pre stop k : string) (rest : list string) (i i' : nat)
  (d d' : @dict T) :
  (forall suffix, pre ++ suffix <> k) ->
  info_block py_float pre stop rest i d = Ok (i', d') ->
  dict_get d k = Err (KeyError k) -> dict_get d' k = Err (KeyError k).
Proof.
  intros Hk. revert i d. induction rest as [|l rest IH]; intros i d; cbn [info_block].
  - intros H. now injection H as _ <-.
  - destruct (re_match (Lit stop) l); [intros H; now injection H as _ <-|].
    intros H Hd. apply bind_inv in H. destruct H as (d1 & H1 & H).
    apply (IH _ _ H). eapply info_line_absent; eassumption.
Qed.

(** A key of one volume's block stays unset as long as no line starts that
    block. *)
Lemma lta_loop_absent (k : string) (lta : list string) :
  k <> "type" -> k <> "nxforms" -> k <> "mean" -> k <> "sigma" -> k <> "lta" ->
  ((forall l, In l lta -> re_match (Lit "src volume info") l = false)
   \/ forall suffix, "src" ++ suffix <> k) ->
  ((forall l, In l lta -> re_match (Lit "dst volume info") l = false)
   \/ forall suffix, "dst" ++ suffix <> k) ->
  forall fuel i (d d' : @dict T),
    lta_loop py_float fuel lta i d = Ok d' ->
    dict_get d k = Err (KeyError k) -> dict_get d' k = Err (KeyError k).
Proof.
  intros K1 K2 K3 K4 K5 Hsrc Hdst.
  induction fuel as [|fuel IH]; intros i d d'; cbn [lta_loop].
  - intros H. now injection H as <-.
  - destruct (nth_error lta i) as [l|] eqn:Hl; [|intros H; now injection H as <-].
    apply nth_error_In in Hl.
    destruct (re_match (Lit "type") l).
    { intros H Hd. apply bind_inv in H. destruct H as (? & _ & H).
      apply (IH _ _ _ H). apply dict_set_absent; auto. }
    destruct (re_match (Lit "nxforms") l).
    { intros H Hd. apply bind_inv in H. destruct H as (? & _ & H).
      apply (IH _ _ _ H). apply dict_set_absent; auto. }
    destruct (re_match (Lit "mean") l).
    { intros H Hd. apply bind_inv in H. destruct H as (? & _ & H).
      apply (IH _ _ _ H). apply dict_set_absent; auto. }
    destruct (re_match (Lit "sigma") l).
    { intros H Hd. apply bind_inv in H. destruct H as (? & _ & H).
      apply (IH _ _ _ H). apply dict_set_absent; auto. }
    destruct (re_match matrix_row l).
    { intros H Hd.
      do 5 (apply bind_inv in H; destruct H as (? & _ & H)).
      apply (IH _ _ _ H). apply dict_set_absent; auto. }
    destruct (re_match (Lit "src volume info") l) eqn:Es.
    { destruct Hsrc as [Hsrc|Hsrc]; [rewrite (Hsrc l Hl) in Es; discriminate|].
      intros H Hd. apply bind_inv in H. destruct H as ([i1 d1] & H1 & H).
      apply (IH _ _ _ H). eapply info_block_absent; eassumption. }
    destruct (re_match (Lit "dst volume info") l) eqn:Ed.
    { destruct Hdst as [Hdst|Hdst]; [rewrite (Hdst l Hl) in Ed; discriminate|].
      intros H Hd. apply bind_inv in H. destruct H as ([i1 d1] & H1 & H).
      apply (IH _ _ _ H). eapply info_block_absent; eassumption. }
    apply IH.
Qed.

(** X16.  [readLTA] cannot read a file without both volume blocks: when no
    line starts with [src volume info], or none with [dst volume info], it
    raises; when the [src] line is missing and the rest of the file
    parses, the exception is [KeyError: 'src_xras']. *)
Theorem readLTA_needs_volume_blocks (fs : filesystem) (file : string)
  (content : list Byte.byte) :
  fs file = Some content ->
  let lta := readlines (universal_newlines (string_of_list_byte content)) in
  ((forall l, In l lta -> re_match (Lit "src volume info") l = false)
   \/ (forall l, In l lta -> re_match (Lit "dst volume info") l = false) ->
   exists e, readLTA py_float fs file = Err e)
  /\ ((forall l, In l lta -> re_match (Lit "src volume info") l = false) ->
      forall d, lta_loop py_float (length lta) lta 0 [] = Ok d ->
                readLTA py_float fs file = Err (KeyError "src_xras")).
Proof.
  intros Hfile lta.
  assert (Hsrc : (forall l, In l lta -> re_match (Lit "src volume info") l = false) ->
                 forall d, lta_loop py_float (length lta) lta 0 [] = Ok d ->
                           readLTA py_float fs file = Err (KeyError "src_xras")).
  { intros Hno d Hd. unfold readLTA. rewrite Hfile. fold lta. rewrite Hd. cbn [bind].
    unfold full_matrix, get_floats. change ("src" ++ "_xras") with "src_xras".
    rewrite (@lta_loop_absent "src_xras" lta) with (fuel := length lta) (i := 0%nat) (d := [])
                                                   (d' := d);
      try discriminate; try reflexivity; try assumption.
    - now left.
    - right. intros suffix. discriminate. }
  split; [|exact Hsrc].
  intros [Hno|Hno].
  - destruct (lta_loop py_float (length lta) lta 0 []) as [d|e] eqn:Hd.
    + exists (KeyError "src_xras"). now apply (Hsrc Hno d).
    + exists e. unfold readLTA. rewrite Hfile. fold lta. now rewrite Hd.
  - unfold readLTA. rewrite Hfile. fold lta.
    destruct (lta_loop py_float (length lta) lta 0 []) as [d|e] eqn:Hd; cbn [bind];
      [|eauto].
    destruct (full_matrix d "src") as [src|e] eqn:Hs; cbn [bind]; [|eauto].
    assert (Ha : dict_get (dict_set d "src" src) "dst_xras" = Err (KeyError "dst_xras")).
    { apply dict_set_absent; [discriminate|].
      apply (@lta_loop_absent "dst_xras" lta) with (fuel := length lta) (i := 0%nat) (d := []);
        try discriminate; try reflexivity; try assumption.
      - right. intros suffix. discriminate.
      - now left. }
    unfold full_matrix at 1. unfold get_floats at 1.
    change ("dst" ++ "_xras") with "dst_xras". rewrite Ha. cbn [bind]. eauto.
Qed.
End LtaBlocks.

Lemma readLTA_needs_volume_blocks_witness :
  readLTA int_float (fun _ => Some (list_byte_of_string (text_of_lines ["type      = 0"%string])))
    "empty.lta"
  = Err (KeyError "src_xras").
Proof.
  refine (proj2 (@readLTA_needs_volume_blocks _ _ int_float
                   (fun _ => Some (list_byte_of_string (text_of_lines ["type      = 0"%string])))
                   "empty.lta" _ eq_refl) _ [("type"%string, VInt 0)] _).
  - vm_compute. intros l [<-|[]]. reflexivity.
  - vm_compute. reflexivity.
Defined.
Section MatrixRows.
Context {T : Type} {num : Scalar T}.
Variable py_float : string -> result T.
Local Open Scope string_scope.

Lemma dead_not_nullable (r : regex) : dead r = true -> nullable r = false.
Proof.
  induction r; cbn [dead nullable]; try discriminate; try reflexivity.
  - rewrite orb_true_iff. intros [H|H]; [rewrite IHr1|rewrite IHr2]; auto using andb_false_r.
  - rewrite andb_true_iff. intros [H1 H2]. now rewrite IHr1, IHr2.
Qed.

Lemma dead_deriv (a : ascii) (r : regex) : dead r = true -> dead (deriv a r) = true.
Proof.
  induction r; cbn [dead deriv]; try discriminate; try reflexivity.
  - rewrite orb_true_iff. intros [H|H].
    + rewrite (dead_not_nullable _ H). cbn [dead]. now rewrite IHr1.
    + destruct (nullable r1); cbn [dead]; rewrite ?IHr2, ?H by assumption;
        now rewrite ?orb_true_r.
  - rewrite andb_true_iff. intros [H1 H2]. now rewrite IHr1, IHr2.
Qed.

Lemma re_match_dead (r : regex) (s : string) : dead r = true -> re_match r s = false.
Proof.
  revert r. induction s as [|a s IH]; intros r H; cbn [re_match];
    rewrite (dead_not_nullable _ H); [reflexivity|].
  apply IH. now apply dead_deriv.
Qed.

Lemma is_digit_cases (a : ascii) :
  is_digit a = true ->
  In a ["0"; "1"; "2"; "3"; "4"; "5"; "6"; "7"; "8"; "9"]%char.
Proof.
  destruct a as [[] [] [] [] [] [] [] []]; intros H; vm_compute in H; try discriminate H;
    cbn [In]; tauto.
Qed.

Ltac each_digit H :=
  apply is_digit_cases in H; cbn [In] in H;
  repeat (destruct H as [H|H]; [subst|]); [..|contradiction].

(** A line that starts with a digit starts with none of the keywords. *)
Lemma digit_no_keyword (a : ascii) (s kw : string) :
  is_digit a = true ->
  In kw ["type"; "nxforms"; "mean"; "sigma"; "src volume info"; "dst volume info"] ->
  re_match (Lit kw) (String a s) = false.
Proof.
  intros Ha Hk. cbn [In] in Hk.
  repeat (destruct Hk as [Hk|Hk]; [subst kw|]); [..|contradiction];
    cbn [re_match]; change (nullable (Lit _)) with false; cbn [orb];
    apply re_match_dead; each_digit Ha; reflexivity.
Qed.

(** The row pattern wants one digit before the point: two digits at the
    start of a line do not match. *)
Lemma two_digits_no_row (a b : ascii) (s : string) :
  is_digit a = true -> is_digit b = true ->
  re_match matrix_row (String a (String b s)) = false.
Proof.
  intros Ha Hb. cbn [re_match].
  assert (E : dead (deriv b (deriv a matrix_row)) = true)
    by (each_digit Ha; each_digit Hb; reflexivity).
  rewrite (@re_match_dead _ s E).
  replace (nullable (deriv a matrix_row)) with false
    by (each_digit Ha; reflexivity).
  reflexivity.
Qed.

(** X17.  [readLTA] takes a line for a row of the 4 x 4 matrix only if its
    first number has a single digit before the decimal point.  A line that
    starts with two digits is skipped without a word where the first row
    is expected, so that no ["lta"] entry is made from it; where it
    follows a first row that was read, [readLTA] raises
    [AttributeError]. *)
Theorem readLTA_two_digit_rows (a b : ascii) (s : string)
  (lta : list string) (fuel i : nat) (d : dict) :
  is_digit a = true -> is_digit b = true ->
  (nth_error lta i = Some (String a (String b s)) ->
   lta_loop py_float (S fuel) lta i d = lta_loop py_float fuel lta (i + 1) d)
  /\ (forall l r0,
         nth_error lta i = Some l ->
         re_match (Lit "type") l = false -> re_match (Lit "nxforms") l = false ->
         re_match (Lit "mean") l = false -> re_match (Lit "sigma") l = false ->
         re_match matrix_row l = true -> row_values py_float lta i = Ok r0 ->
         nth_error lta (i + 1) = Some (String a (String b s)) ->
         lta_loop py_float (S fuel) lta i d = Err AttributeError).
Proof.
  intros Ha Hb. split.
  - intros Hl. cbn [lta_loop]. rewrite Hl.
    rewrite !(@digit_no_keyword a (String b s) _ Ha) by (cbn [In]; tauto).
    now rewrite (@two_digits_no_row a b s Ha Hb).
  - intros l r0 Hl H1 H2 H3 H4 Hrow Hr0 Hnext.
    cbn [lta_loop]. rewrite Hl, H1, H2, H3, H4, Hrow, Hr0. cbn [bind].
    unfold row_values at 1, line_at. rewrite Hnext. cbn [bind].
    now rewrite (@two_digits_no_row a b s Ha Hb).
Qed.
End MatrixRows.

Lemma readLTA_two_digit_rows_witness :
  lta_loop int_float 2 ["12.5 0.0 0.0 0.0 "; "type = 0"]%string 0 []
  = lta_loop int_float 1 ["12.5 0.0 0.0 0.0 "; "type = 0"]%string (0 + 1) [].
Proof.
  apply (proj1 (@readLTA_two_digit_rows _ int_float "1"%char "2"%char ".5 0.0 0.0 0.0 "%string
                  ["12.5 0.0 0.0 0.0 "; "type = 0"]%string 1 0 [] eq_refl eq_refl)).
  reflexivity.
Defined.
Section ApplyOutcome.
Context {T : Type} {num : Scalar T}.
Variable py_float : string -> result T.
Variable lib : @imaging T.
Local Open Scope string_scope.

(** X18.  [applyTransform] writes the output image only when it returns,
    and it returns only for a matrix file with the extension [.lta] that
    [readLTA] can read and whose type is 0, with [interp] one of
    ["nearest"] and ["cubic"]: the image saved under [out_file] is then the
    loaded image resampled with the inverse of the file's ["lta"] matrix,
    with order 0 for ["nearest"] and order 3 for ["cubic"].  On every
    exception nothing has been saved. *)
Theorem applyTransform_saves_only_on_success (fs : filesystem)
  (img_file out_file mat_file interp : string) :
  (forall e, fst (applyTransform py_float lib fs img_file out_file mat_file interp) = Err e ->
             snd (applyTransform py_float lib fs img_file out_file mat_file interp) = [])
  /\ (fst (applyTransform py_float lib fs img_file out_file mat_file interp) = Ok tt ->
      splitext_ext mat_file = ".lta"
      /\ lta_type py_float fs mat_file = Ok (VInt 0)
      /\ (interp = "nearest" \/ interp = "cubic")
      /\ exists img lta m inv out,
           nb_load lib img_file = Ok img
           /\ readLTA py_float fs mat_file = Ok lta
           /\ dict_get lta "lta" = Ok m
           /\ linalg_inv lib m = Ok inv
           /\ affine_transform lib img inv (if String.eqb interp "nearest" then 0 else 3)
              = Ok out
           /\ snd (applyTransform py_float lib fs img_file out_file mat_file interp)
              = [Saved lib out out_file]).
Proof.
  unfold applyTransform, lta_type.
  destruct (nb_load lib img_file) as [img|e0]; cbn [bind];
    [|split; [reflexivity|discriminate]].
  destruct (String.eqb_spec (splitext_ext mat_file) ".xfm") as [Ex|Ex]; cbn [bind];
    [split; [reflexivity|discriminate]|].
  destruct (String.eqb_spec (splitext_ext mat_file) ".lta") as [El|El]; cbn [bind];
    [|split; [reflexivity|discriminate]].
  destruct (readLTA py_float fs mat_file) as [lta|e1]; cbn [bind];
    [|split; [reflexivity|discriminate]].
  destruct (dict_get lta "type") as [ty|e2] eqn:Ety; cbn [bind];
    [|split; [reflexivity|discriminate]].
  assert (Hnone :
            forall P : Prop,
              (forall e0, fst (match (if String.eqb interp "nearest"
                                       then Err UnboundLocalError
                                       else if String.eqb interp "cubic"
                                            then Err UnboundLocalError
                                            else Err (PyException
                                                        "ERROR: interpolation must be either nearest or cubic"))
                                     with
                               | Ok img_interp => (Ok tt, [Saved lib img_interp out_file])
                               | Err e => (Err e, [])
                               end) = Err e0 ->
                          snd (match (if String.eqb interp "nearest"
                                       then Err UnboundLocalError
                                       else if String.eqb interp "cubic"
                                            then Err UnboundLocalError
                                            else Err (PyException
                                                        "ERROR: interpolation must be either nearest or cubic"))
                                     with
                               | Ok img_interp => (Ok tt, [Saved lib img_interp out_file])
                               | Err e => (Err e, [])
                               end) = [])
              /\ (fst (match (if String.eqb interp "nearest"
                              then Err UnboundLocalError
                              else if String.eqb interp "cubic"
                                   then Err UnboundLocalError
                                   else Err (PyException
                                               "ERROR: interpolation must be either nearest or cubic"))
                            with
                      | Ok img_interp => (Ok tt, [Saved lib img_interp out_file])
                      | Err e => (Err e, [])
                      end) = Ok tt -> P)).
  { intros P. destruct (String.eqb interp "nearest"); [|destruct (String.eqb interp "cubic")];
      (split; [reflexivity|discriminate]). }
  destruct ty as [z| | | | |]; cbn [bind]; try exact (Hnone _).
  destruct z as [|p|p]; cbn [bind]; try exact (Hnone _).
  - destruct (dict_get lta "lta") as [m|e3] eqn:Em; cbn [bind];
      [|split; [reflexivity|discriminate]].
    destruct (String.eqb_spec interp "nearest") as [En|En].
    + destruct (linalg_inv lib m) as [inv|e4] eqn:Ei; cbn [bind];
        [|split; [reflexivity|discriminate]].
      destruct (affine_transform lib img inv 0) as [out|e5] eqn:Ea;
        [|split; [reflexivity|discriminate]].
      split; [discriminate|]. intros _.
      split; [assumption|]. split; [reflexivity|]. split; [now left|].
      exists img, lta, m, inv, out. repeat split; assumption || reflexivity.
    + destruct (String.eqb_spec interp "cubic") as [Ec|Ec];
        [|split; [reflexivity|discriminate]].
      destruct (linalg_inv lib m) as [inv|e4] eqn:Ei; cbn [bind];
        [|split; [reflexivity|discriminate]].
      destruct (affine_transform lib img inv 3) as [out|e5] eqn:Ea;
        [|split; [reflexivity|discriminate]].
      split; [discriminate|]. intros _.
      split; [assumption|]. split; [reflexivity|]. split; [now right|].
      exists img, lta, m, inv, out. repeat split; assumption || reflexivity.
  - destruct p; cbn [bind]; try exact (Hnone _).
    split; [reflexivity|discriminate].
Qed.

(** X19.  With a transform whose type is neither 0 nor 1 and a valid
    [interp], [applyTransform] fails on the matrix it never assigned: it
    raises [UnboundLocalError] after loading the image and reading the
    file, and saves nothing. *)
Theorem applyTransform_other_type_unbound (fs : filesystem)
  (img_file out_file mat_file interp : string) (z : Z) :
  splitext_ext mat_file = ".lta" ->
  lta_type py_float fs mat_file = Ok (VInt z) ->
  z <> 0%Z -> z <> 1%Z ->
  interp = "nearest" \/ interp = "cubic" ->
  forall img, nb_load lib img_file = Ok img ->
    applyTransform py_float lib fs img_file out_file mat_file interp
    = (Err UnboundLocalError, []).
Proof.
  intros Hext Hty H0 H1 Hint img Himg. unfold lta_type in Hty.
  unfold applyTransform. rewrite Himg, Hext. cbn [bind String.eqb Ascii.eqb Bool.eqb andb].
  destruct (readLTA py_float fs mat_file) as [lta|e]; [|discriminate].
  cbn [bind] in *. rewrite Hty. cbn [bind].
  assert (E : match z with
              | 0%Z => v <- dict_get lta "lta" ;; Ok (Some v)
              | 1%Z => Err (PyException "ERROR: lta type 1 (ras2ras) not supported yet")
              | _ => Ok None
              end%result = Ok None).
  { destruct z as [|p|p]; [contradiction| |reflexivity].
    destruct p; try reflexivity. contradiction. }
  rewrite E. cbn [bind].
  destruct Hint as [-> | ->]; reflexivity.
Qed.
End ApplyOutcome.

Lemma applyTransform_saves_only_on_success_witness :
  splitext_ext "vox2vox.lta" = ".lta"%string
  /\ lta_type whole_float more_lta_files "vox2vox.lta" = Ok (VInt 0)
  /\ ("cubic" = "nearest" \/ "cubic" = "cubic")%string
  /\ exists img lta m inv out,
       nb_load standin_imaging "orig.mgz" = Ok img
       /\ readLTA whole_float more_lta_files "vox2vox.lta" = Ok lta
       /\ dict_get lta "lta" = Ok m
       /\ linalg_inv standin_imaging m = Ok inv
       /\ affine_transform standin_imaging img inv
            (if String.eqb "cubic" "nearest" then 0 else 3) = Ok out
       /\ snd (applyTransform whole_float standin_imaging more_lta_files
                 "orig.mgz" "out.mgz" "vox2vox.lta" "cubic")
          = [Saved standin_imaging out "out.mgz"].
Proof.
  apply (proj2 (@applyTransform_saves_only_on_success _ _ whole_float standin_imaging
                  more_lta_files "orig.mgz" "out.mgz" "vox2vox.lta" "cubic")).
  vm_compute. reflexivity.
Defined.

Lemma applyTransform_other_type_unbound_witness :
  applyTransform whole_float standin_imaging more_lta_files
    "orig.mgz" "out.mgz" "register.lta" "nearest"
  = (Err UnboundLocalError, []).
Proof.
  refine (@applyTransform_other_type_unbound _ _ whole_float standin_imaging more_lta_files
            "orig.mgz" "out.mgz" "register.lta" "nearest" 14%Z _ _ _ _ _ tt _);
    try (vm_compute; reflexivity); try discriminate.
  now left.
Defined.

Section LevelsetIndices.
Context {T : Type} {num : Scalar T}.

Lemma mapM_Forall2 {A B} (f : A -> result B) (l : list A) (out : list B) :
  mapM f l = Ok out -> Forall2 (fun x y => f x = Ok y) l out.
Proof.
  revert out. induction l as [|x l IH]; intros out; cbn [mapM].
  - intros H. injection H as <-. constructor.
  - destruct (f x) as [y|e] eqn:Ex; [|discriminate].
    destruct (mapM f l) as [ys|e]; [|discriminate].
    intros H. injection H as <-. constructor; [exact Ex|now apply IH].
Qed.

Lemma where_cut_bound (nlvl : list (list bool)) (i : nat) :
  In i (where_cut nlvl) -> (i < length nlvl)%nat.
Proof.
  unfold where_cut. rewrite in_map_iff. intros ([j r] & <- & H).
  apply filter_In in H. destruct H as [H _]. apply in_combine_l in H.
  apply in_seq in H. cbn [fst]. lia.
Qed.

Lemma cut_edge_valid (v : list (@vec3 T)) (p lvl : list T) (a b : nat)
  (st st' : cut_state) (k : nat) :
  cut_edge v p lvl a b st = Ok (k, st') ->
  (forall i j, (seen st i j <= length (vi st))%nat) ->
  (forall i j, (seen st' i j <= length (vi st'))%nat)
  /\ (1 <= k <= length (vi st'))%nat
  /\ (length (vi st) <= length (vi st') <= S (length (vi st)))%nat.
Proof.
  unfold cut_edge. destruct (negb _); [discriminate|].
  destruct (Nat.eqb_spec (seen st a b) 0) as [E|E].
  - intros H. apply bind_inv in H. destruct H as (v10 & _ & H). injection H as <- <-.
    intros Hs. cbn [seen vi]. rewrite length_app. cbn [length].
    repeat split; try lia.
    intros i j. unfold set_seen.
    destruct ((i =? b) && (j =? a))%nat; [lia|].
    destruct ((i =? a) && (j =? b))%nat; [lia|].
    specialize (Hs i j). lia.
  - intros H. injection H as <- <-. intros Hs. pose proof (Hs a b).
    repeat split; try apply Hs; lia.
Qed.

Lemma cut_tria_valid (v : list (@vec3 T)) (t : list tria) (p lvl : list T)
  (nlvl : list (list bool)) (i : nat) (st st' : cut_state) (ti ti' : list (nat * nat)) :
  cut_tria v t p lvl nlvl i (st, ti) = Ok (st', ti') ->
  numbers_valid st ti ->
  numbers_valid st' ti'
  /\ length ti' = S (length ti)
  /\ (length (vi st) <= length (vi st') <= 2 + length (vi st))%nat.
Proof.
  unfold cut_tria. intros H [Hs Ht].
  do 6 (apply bind_inv in H; destruct H as (? & _ & H)).
  apply bind_inv in H. destruct H as ([k1 st1] & H1 & H).
  do 2 (apply bind_inv in H; destruct H as (? & _ & H)).
  apply bind_inv in H. destruct H as ([k2 st2] & H2 & H).
  injection H as <- <-.
  destruct (cut_edge_valid _ _ _ _ _ _ H1 Hs) as (Hs1 & Hk1 & Hl1).
  destruct (cut_edge_valid _ _ _ _ _ _ H2 Hs1) as (Hs2 & Hk2 & Hl2).
  split; [split; [exact Hs2|]|split; [rewrite length_app; cbn [length]; lia|lia]].
  intros j1 j2 Hin. apply in_app_or in Hin. destruct Hin as [Hin|[Hin|[]]].
  - specialize (Ht _ _ Hin). lia.
  - injection Hin as <- <-. lia.
Qed.

Lemma cut_all_valid (v : list (@vec3 T)) (t : list tria) (p lvl : list T)
  (nlvl : list (list bool)) (n : list nat) (st st' : cut_state) (ti ti' : list (nat * nat)) :
  cut_all v t p lvl nlvl n (st, ti) = Ok (st', ti') ->
  numbers_valid st ti ->
  numbers_valid st' ti'
  /\ length ti' = (length ti + length n)%nat
  /\ (length (vi st') <= length (vi st) + 2 * length n)%nat.
Proof.
  revert st ti. induction n as [|i n IH]; intros st ti; cbn [cut_all].
  - intros H. injection H as <- <-. intros Hv. split; [exact Hv|]. cbn [length]. lia.
  - intros H Hv. apply bind_inv in H. destruct H as ([st1 ti1] & H1 & H).
    destruct (cut_tria_valid _ _ _ _ _ _ H1 Hv) as (Hv1 & Hl1 & Hp1).
    destruct (IH _ _ H Hv1) as (Hv2 & Hl2 & Hp2).
    split; [exact Hv2|]. cbn [length]. lia.
Qed.

(** What one level's result satisfies. *)
Lemma cut_level_valid (v : list (@vec3 T)) (t : list tria) (p lvl : list T)
  (pts : list (@vec3 T)) (ti : list (nat * nat)) (n : list nat) :
  cut_level v t p lvl = Ok (pts, ti, n) ->
  broadcasts lvl = true
  /\ length ti = length n
  /\ (forall i, In i n -> (i < length t)%nat)
  /\ (forall k1 k2, In (k1, k2) ti ->
        (1 <= k1 <= length pts)%nat /\ (1 <= k2 <= length pts)%nat)
  /\ (length pts <= 2 * length n)%nat.
Proof.
  unfold cut_level. intros H.
  apply bind_inv in H. destruct H as (pt & Hpt & H).
  destruct (broadcasts lvl); cbn [negb] in H; [|discriminate].
  apply bind_inv in H. destruct H as ([st ti0] & Hall & H). injection H as <- <- <-.
  apply cut_all_valid in Hall;
    [|split; [intros; cbn; lia|intros ? ? []]].
  destruct Hall as ([_ Hti] & Hlen & Hpts). cbn [vi length] in *.
  split; [reflexivity|]. split; [lia|]. split; [|split; [exact Hti|lia]].
  intros i Hi. apply where_cut_bound in Hi. rewrite length_map in Hi.
  apply mapM_Forall2, Forall2_length in Hpt. lia.
Qed.

(** X20.  When [levelsetsTria] returns, its three lists have one entry for
    every row of [np.array(levelsets, ndmin=2)], which is a single row for
    a number and also for a flat list of levels, whose length must then be
    1 or 3.  In every entry there is one segment for each triangle listed
    in [iLVL], the listed triangles exist, both ends of every segment are
    numbers from 1 to the number of points of that level, and there are
    at most two points for each listed triangle. *)
Theorem levelsetsTria_segments_valid (v : list (@vec3 T)) (t : list tria) (p : list T)
  (levelsets : levels) (vLVL : list (list (@vec3 T))) (lLVL : list (list (nat * nat)))
  (iLVL : list (list nat)) :
  levelsetsTria v t p levelsets = Ok (vLVL, lLVL, iLVL) ->
  exists rows,
    array_2d levelsets = Ok rows
    /\ (forall x, levelsets = Level x -> rows = [[x]])
    /\ (forall l, levelsets = Levels1 l ->
                  rows = [l] /\ (length l = 1 \/ length l = 3)%nat)
    /\ length vLVL = length rows /\ length lLVL = length rows /\ length iLVL = length rows
    /\ forall k pts ti n,
         nth_error vLVL k = Some pts -> nth_error lLVL k = Some ti ->
         nth_error iLVL k = Some n ->
         length ti = length n
         /\ (forall i, In i n -> (i < length t)%nat)
         /\ (forall k1 k2, In (k1, k2) ti ->
               (1 <= k1 <= length pts)%nat /\ (1 <= k2 <= length pts)%nat)
         /\ (length pts <= 2 * length n)%nat.
Proof.
  unfold levelsetsTria. intros H.
  apply bind_inv in H. destruct H as (rows & Hrows & H).
  apply bind_inv in H. destruct H as (out & Hout & H). injection H as <- <- <-.
  apply mapM_Forall2 in Hout.
  exists rows. split; [exact Hrows|].
  split; [intros x ->; cbn in Hrows; now injection Hrows as <-|].
  split.
  { intros l ->. cbn in Hrows. injection Hrows as <-. split; [reflexivity|].
    inversion Hout as [|? r ? ? Hr _]; subst.
    destruct r as [[pts ti] n]. apply cut_level_valid in Hr.
    destruct Hr as (Hb & _). unfold broadcasts in Hb.
    apply orb_true_iff in Hb. rewrite !Nat.eqb_eq in Hb. exact Hb. }
  rewrite !length_map, <- (Forall2_length Hout).
  split; [reflexivity|]. split; [reflexivity|]. split; [reflexivity|].
  intros k pts ti n Hv Hl Hi.
  rewrite nth_error_map in Hv, Hl, Hi.
  destruct (nth_error out k) as [[[pts' ti'] n']|] eqn:Ek; [|discriminate].
  cbn in Hv, Hl, Hi. injection Hv as <-. injection Hl as <-. injection Hi as <-.
  assert (Hin : exists lvl, cut_level v t p lvl = Ok (pts', ti', n')).
  { clear -Hout Ek. revert k Ek. induction Hout as [|lvl r rows out Hr _ IH]; intros k Ek.
    - destruct k; discriminate.
    - destruct k as [|k]; [injection Ek as <-; eauto|]. exact (IH k Ek). }
  destruct Hin as (lvl & Hlvl). apply cut_level_valid in Hlvl. tauto.
Qed.
End LevelsetIndices.

Lemma levelsetsTria_segments_valid_witness :
  exists rows,
    array_2d (Level half_f) = Ok rows
    /\ (forall x, Level half_f = Level x -> rows = [[x]])
    /\ (forall l, Level half_f = Levels1 l ->
                  rows = [l] /\ (length l = 1 \/ length l = 3)%nat)
    /\ length (fst (fst (level_sets (levelsetsTria square_corners_f square_trias
                                       square_function_f (Level half_f)))))
       = length rows
    /\ length (snd (fst (level_sets (levelsetsTria square_corners_f square_trias
                                       square_function_f (Level half_f)))))
       = length rows
    /\ length (snd (level_sets (levelsetsTria square_corners_f square_trias
                                  square_function_f (Level half_f))))
       = length rows
    /\ forall k pts ti n,
         nth_error (fst (fst (level_sets (levelsetsTria square_corners_f square_trias
                                            square_function_f (Level half_f))))) k
         = Some pts ->
         nth_error (snd (fst (level_sets (levelsetsTria square_corners_f square_trias
                                            square_function_f (Level half_f))))) k
         = Some ti ->
         nth_error (snd (level_sets (levelsetsTria square_corners_f square_trias
                                       square_function_f (Level half_f)))) k
         = Some n ->
         length ti = length n
         /\ (forall i, In i n -> (i < length square_trias)%nat)
         /\ (forall k1 k2, In (k1, k2) ti ->
               (1 <= k1 <= length pts)%nat /\ (1 <= k2 <= length pts)%nat)
         /\ (length pts <= 2 * length n)%nat.
Proof.
  apply (@levelsetsTria_segments_valid _ _ square_corners_f square_trias square_function_f
           (Level half_f)).
  vm_compute. reflexivity.
Defined.
Section LevelsetPoints.
Local Open Scope R_scope.

Lemma item_at_Some {A} (l : list A) (i : nat) (x : A) :
  item_at l i = Ok x -> nth_error l i = Some x.
Proof. unfold item_at. destruct (nth_error l i); [congruence|discriminate]. Qed.

Lemma nlvl_rows (p lvl : list R) (t : list tria) (pt : list (R * R * R)) (i : nat)
  (row : list bool) (c : tria) :
  mapM (p_at p) t = Ok pt ->
  nth_error (map (above lvl) pt) i = Some row -> nth_error t i = Some c ->
  exists p0 p1 p2, p_at p c = Ok (p0, p1, p2) /\ row = above lvl (p0, p1, p2).
Proof.
  intros H. apply mapM_Forall2 in H. revert i.
  induction H as [|c' r t' pt' Hr _ IH]; intros i Hrow Hc.
  - destruct i; discriminate.
  - destruct i as [|i]; cbn in Hrow, Hc.
    + injection Hrow as <-. injection Hc as <-. destruct r as [[p0 p1] p2]. eauto.
    + exact (IH i Hrow Hc).
Qed.

Lemma interpolation_factor (x pa pb : R) :
  (x < pa /\ ~ x < pb) \/ (~ x < pa /\ x < pb) ->
  pa <> pb /\ 0 <= (x - pa) / (pb - pa) <= 1 /\ pa + (x - pa) / (pb - pa) * (pb - pa) = x.
Proof.
  intros H.
  assert (Hne : pb - pa <> 0) by (destruct H as [[H1 H2]|[H1 H2]]; lra).
  assert (Es : (x - pa) / (pb - pa) * (pb - pa) = x - pa) by (field; exact Hne).
  split; [lra|]. split; [|lra].
  set (s := (x - pa) / (pb - pa)) in *.
  destruct H as [[H1 H2]|[H1 H2]]; split; nra.
Qed.

Lemma cut_edge_on_level (v : list (@vec3 R)) (t : list tria) (p : list R) (x : R)
  (c : tria) (a b : nat) (pa pb : R) (st st' : cut_state) (k : nat) :
  In c t ->
  (a = tria0 c \/ a = tria1 c \/ a = tria2 c) ->
  (b = tria0 c \/ b = tria1 c \/ b = tria2 c) ->
  item_at p a = Ok pa -> item_at p b = Ok pb ->
  (x < pa /\ ~ x < pb) \/ (~ x < pa /\ x < pb) ->
  cut_edge v p [x] a b st = Ok (k, st') ->
  (forall pt, In pt (vi st) -> cuts_edge v t p x pt) ->
  forall pt, In pt (vi st') -> cuts_edge v t p x pt.
Proof.
  intros Hc Ha Hb Hpa Hpb Hx. unfold cut_edge.
  destruct (negb _); [discriminate|].
  destruct (seen st a b =? 0)%nat; [|intros H; now injection H as _ <-].
  intros H. apply bind_inv in H. destruct H as (v10 & Hi & H). injection H as _ <-.
  intros Hst pt Hin. cbn [vi] in Hin. apply in_app_or in Hin.
  destruct Hin as [Hin|[<-|[]]]; [now apply Hst|].
  unfold interpolate in Hi.
  apply bind_inv in Hi. destruct Hi as ([[b0 b1] b2] & Hvb & Hi).
  apply bind_inv in Hi. destruct Hi as ([[a0 a1] a2] & Hva & Hi).
  cbn [vsub] in Hi. rewrite Hpa, Hpb in Hi. cbn [bind bcast] in Hi.
  injection Hi as <-.
  destruct (interpolation_factor Hx) as (Hne & Hs & Hlvl).
  exists c, a, b, a0, a1, a2, b0, b1, b2, pa, pb, ((x - pa) / (pb - pa)).
  repeat split; try assumption; try (now apply item_at_Some); apply Hs.
Qed.

Lemma cut_tria_on_level (v : list (@vec3 R)) (t : list tria) (p : list R) (x : R)
  (nlvl : list (list bool)) (i : nat) (st st' : cut_state) (ti ti' : list (nat * nat)) :
  (forall row c, nth_error nlvl i = Some row -> nth_error t i = Some c ->
     exists p0 p1 p2, p_at p c = Ok (p0, p1, p2) /\ row = above [x] (p0, p1, p2)) ->
  cut_tria v t p [x] nlvl i (st, ti) = Ok (st', ti') ->
  (forall pt, In pt (vi st) -> cuts_edge v t p x pt) ->
  forall pt, In pt (vi st') -> cuts_edge v t p x pt.
Proof.
  intros Hrows H Hst. unfold cut_tria in H.
  apply bind_inv in H. destruct H as (row & Hrow & H).
  apply bind_inv in H. destruct H as (c & Hc & H).
  apply item_at_Some in Hrow, Hc.
  destruct (Hrows row c Hrow Hc) as (p0 & p1 & p2 & Hp & ->).
  assert (Hin : In c t) by (eapply nth_error_In; eassumption).
  unfold p_at in Hp.
  apply bind_inv in Hp. destruct Hp as (q0 & Hp0 & Hp).
  apply bind_inv in Hp. destruct Hp as (q1 & Hp1 & Hp).
  apply bind_inv in Hp. destruct Hp as (q2 & Hp2 & Hp).
  injection Hp as -> -> ->.
  unfold above in H. cbn [bcast ltb R_scalar] in H.
  destruct (Rlt_dec x p0) as [L0|L0], (Rlt_dec x p1) as [L1|L1], (Rlt_dec x p2) as [L2|L2];
    cbn in H; try discriminate H;
    (apply bind_inv in H; destruct H as ([k1 st1] & H1 & H);
     apply bind_inv in H; destruct H as ([k2 st2] & H2 & H);
     injection H as <- _;
     eapply cut_edge_on_level; [exact Hin| | | | | |exact H2|];
     [tauto|tauto|eassumption|eassumption|tauto|];
     eapply cut_edge_on_level; [exact Hin| | | | | |exact H1|exact Hst];
     [tauto|tauto|eassumption|eassumption|tauto]).
Qed.

Lemma cut_all_on_level (v : list (@vec3 R)) (t : list tria) (p : list R) (x : R)
  (nlvl : list (list bool)) (n : list nat) (st st' : cut_state) (ti ti' : list (nat * nat)) :
  (forall i row c, nth_error nlvl i = Some row -> nth_error t i = Some c ->
     exists p0 p1 p2, p_at p c = Ok (p0, p1, p2) /\ row = above [x] (p0, p1, p2)) ->
  cut_all v t p [x] nlvl n (st, ti) = Ok (st', ti') ->
  (forall pt, In pt (vi st) -> cuts_edge v t p x pt) ->
  forall pt, In pt (vi st') -> cuts_edge v t p x pt.
Proof.
  intros Hrows. revert st ti. induction n as [|i n IH]; intros st ti; cbn [cut_all].
  - intros H. now injection H as <- _.
  - intros H Hst. apply bind_inv in H. destruct H as ([st1 ti1] & H1 & H).
    apply (IH _ _ H). eapply cut_tria_on_level; [apply Hrows | exact H1 | exact Hst].
Qed.

(** X21.  The points [levelsetsTria] returns for a level [x] (a row of
    one number: a single level, a list of one level, or one row of a
    column of levels) all lie where that level meets an edge of the mesh:
    each is the point [v[a] + s (v[b] - v[a])] on an edge of a triangle,
    with [p[a]] and [p[b]] different, [s] between 0 and 1, and the value
    interpolated along the edge equal to [x] there.  The divisor
    [p[b] - p[a]] of the interpolation factor is never zero. *)
Theorem levelsetsTria_points_on_level (v : list (@vec3 R)) (t : list tria) (p : list R)
  (levelsets : levels) (vLVL : list (list (@vec3 R))) (lLVL : list (list (nat * nat)))
  (iLVL : list (list nat)) :
  levelsetsTria v t p levelsets = Ok (vLVL, lLVL, iLVL) ->
  exists rows,
    array_2d levelsets = Ok rows
    /\ forall k x pts,
         nth_error rows k = Some [x] -> nth_error vLVL k = Some pts ->
         forall pt, In pt pts -> cuts_edge v t p x pt.
Proof.
  unfold levelsetsTria. intros H.
  apply bind_inv in H. destruct H as (rows & Hrows & H).
  apply bind_inv in H. destruct H as (out & Hout & H). injection H as <- _ _.
  exists rows. split; [exact Hrows|].
  apply mapM_Forall2 in Hout. clear Hrows.
  induction Hout as [|lvl r rows out Hr _ IH]; intros k x pts Hk Hv.
  - destruct k; discriminate.
  - destruct k as [|k]; [|exact (IH k x pts Hk Hv)].
    cbn in Hk, Hv. injection Hk as ->. injection Hv as <-.
    unfold cut_level in Hr.
    apply bind_inv in Hr. destruct Hr as (pt & Hpt & Hr). cbn [broadcasts length Nat.eqb orb negb] in Hr.
    apply bind_inv in Hr. destruct Hr as ([st ti] & Hall & Hr). injection Hr as <-.
    cbn [fst]. eapply cut_all_on_level; [|exact Hall|intros ? []].
    intros i row c. now apply nlvl_rows.
Qed.
End LevelsetPoints.

Lemma square_level_half :
  exists out,
    levelsetsTria square_corners square_trias square_function (Level (1 / 2)%R) = Ok out.
Proof.
  unfold levelsetsTria, cut_level, square_corners, square_trias, square_function.
  cbn [array_2d bind mapM p_at item_at nth_error tria0 tria1 tria2 broadcasts length
       Nat.eqb orb negb map above bcast ltb R_scalar].
  repeat match goal with
         | |- context [Rlt_dec ?a ?b] => destruct (Rlt_dec a b); try lra
         end.
  cbn. eauto.
Qed.

Lemma levelsetsTria_points_on_level_witness :
  exists rows,
    array_2d (Level (1 / 2)%R) = Ok rows
    /\ forall k x pts,
         nth_error rows k = Some [x] ->
         nth_error (fst (fst (level_sets (levelsetsTria square_corners square_trias
                                            square_function (Level (1 / 2)%R))))) k
         = Some pts ->
         forall pt, In pt pts -> cuts_edge square_corners square_trias square_function x pt.
Proof.
  apply (@levelsetsTria_points_on_level square_corners square_trias square_function
           (Level (1 / 2)%R)
           (fst (fst (level_sets (levelsetsTria square_corners square_trias
                                    square_function (Level (1 / 2)%R)))))
           (snd (fst (level_sets (levelsetsTria square_corners square_trias
                                    square_function (Level (1 / 2)%R)))))
           (snd (level_sets (levelsetsTria square_corners square_trias
                               square_function (Level (1 / 2)%R))))).
  destruct square_level_half as ([[vL lL] iL] & E). rewrite E. reflexivity.
Defined.
Section LevelsetErrors.
Context {T : Type} {num : Scalar T}.

Lemma mapM_first_error {A B} (f : A -> result B) (l : list A) (E : exn) :
  (forall x e, In x l -> f x = Err e -> e = E) ->
  (exists x e, In x l /\ f x = Err e) ->
  mapM f l = Err E.
Proof.
  induction l as [|x l IH]; intros Hall (y & e & Hin & Hy); [destruct Hin|].
  cbn [mapM]. destruct (f x) as [z|e'] eqn:Ex.
  - rewrite IH; [reflexivity| |].
    + intros x' e' Hx'. apply Hall. now right.
    + destruct Hin as [->|Hin]; [congruence|eauto].
  - f_equal. apply (Hall x e'); [now left|exact Ex].
Qed.

Lemma mapM_all_ok {A B} (f : A -> result B) (l : list A) :
  (forall x, In x l -> exists y, f x = Ok y) -> exists out, mapM f l = Ok out.
Proof.
  induction l as [|x l IH]; intros Hall; [now exists []|].
  cbn [mapM]. destruct (Hall x (or_introl eq_refl)) as (y & ->).
  destruct IH as (out & ->); [intros; apply Hall; now right|]. eauto.
Qed.

Lemma forallb_false_exists {A} (f : A -> bool) (l : list A) :
  forallb f l = false -> exists x, In x l /\ f x = false.
Proof.
  induction l as [|x l IH]; cbn [forallb]; [discriminate|].
  destruct (f x) eqn:E; cbn [andb].
  - intros H. destruct (IH H) as (y & Hy & Ey). exists y. split; [now right|exact Ey].
  - intros _. exists x. split; [now left|exact E].
Qed.

Lemma item_at_outcome {A} (l : list A) (i : nat) :
  ((i < length l)%nat -> exists x, item_at l i = Ok x)
  /\ ((length l <= i)%nat -> item_at l i = Err IndexError).
Proof.
  unfold item_at. destruct (nth_error l i) as [x|] eqn:E; split; intros H; eauto.
  - apply nth_error_None in H. congruence.
  - apply nth_error_None in E. lia.
Qed.

Lemma p_at_outcome (p : list T) (c : tria) :
  (tria_in_bounds (length p) c = true -> exists r, p_at p c = Ok r)
  /\ (tria_in_bounds (length p) c = false -> p_at p c = Err IndexError)
  /\ (forall e, p_at p c = Err e -> e = IndexError).
Proof.
  unfold p_at, tria_in_bounds.
  destruct (Nat.ltb_spec (tria0 c) (length p)) as [H0|H0];
    [destruct (proj1 (item_at_outcome p (tria0 c)) H0) as (x0 & ->)
    |rewrite (proj2 (item_at_outcome p (tria0 c)) H0)]; cbn [bind andb];
    [|repeat split; congruence].
  destruct (Nat.ltb_spec (tria1 c) (length p)) as [H1|H1];
    [destruct (proj1 (item_at_outcome p (tria1 c)) H1) as (x1 & ->)
    |rewrite (proj2 (item_at_outcome p (tria1 c)) H1)]; cbn [bind andb];
    [|repeat split; congruence].
  destruct (Nat.ltb_spec (tria2 c) (length p)) as [H2|H2];
    [destruct (proj1 (item_at_outcome p (tria2 c)) H2) as (x2 & ->)
    |rewrite (proj2 (item_at_outcome p (tria2 c)) H2)]; cbn [bind andb];
    repeat split; eauto; congruence.
Qed.

(** X22.  What [levelsetsTria] raises before it cuts anything.  A
    triangle with a vertex index outside [p] makes it raise [IndexError],
    whatever the levels.  When all indices are in range, a first row of
    levels whose length is neither 1 nor 3 makes it raise [ValueError]:
    so does every flat list of two levels, or of four and more, and the
    empty list. *)
Theorem levelsetsTria_refused_input (v : list (@vec3 T)) (t : list tria) (p : list T)
  (levelsets : levels) (rows : list (list T)) :
  array_2d levelsets = Ok rows ->
  (forallb (tria_in_bounds (length p)) t = false ->
   levelsetsTria v t p levelsets = Err IndexError)
  /\ (forallb (tria_in_bounds (length p)) t = true ->
      (length (hd [] rows) <> 1 /\ length (hd [] rows) <> 3)%nat ->
      levelsetsTria v t p levelsets = Err ValueError)
  /\ (forall l, levelsets = Levels1 l -> hd [] rows = l).
Proof.
  intros Hrows.
  assert (Hne : exists lvl rest, rows = lvl :: rest).
  { destruct levelsets as [x|l|[|r rs]]; cbn in Hrows.
    - injection Hrows as <-. eauto.
    - injection Hrows as <-. eauto.
    - injection Hrows as <-. eauto.
    - destruct (forallb _ rs); [injection Hrows as <-; eauto|discriminate]. }
  destruct Hne as (lvl & rest & ->). cbn [hd].
  split; [|split].
  - intros Hb. unfold levelsetsTria. rewrite Hrows. cbn [bind mapM].
    unfold cut_level at 1.
    rewrite (@mapM_first_error _ _ (p_at p) t IndexError); [reflexivity| |].
    + intros c e _. apply p_at_outcome.
    + apply forallb_false_exists in Hb.
      destruct Hb as (c & Hc & Hb). exists c, IndexError. split; [exact Hc|].
      now apply p_at_outcome.
  - intros Hb [H1 H3]. unfold levelsetsTria. rewrite Hrows. cbn [bind mapM].
    unfold cut_level at 1.
    destruct (@mapM_all_ok _ _ (p_at p) t) as (pt & ->).
    { intros c Hc. apply p_at_outcome. rewrite forallb_forall in Hb. now apply Hb. }
    cbn [bind]. unfold broadcasts.
    destruct (Nat.eqb_spec (length lvl) 1); [contradiction|].
    destruct (Nat.eqb_spec (length lvl) 3); [contradiction|]. reflexivity.
  - intros l ->. cbn in Hrows. now injection Hrows.
Qed.
End LevelsetErrors.

Lemma levelsetsTria_refused_input_witness :
  levelsetsTria square_corners_f square_trias [half_f] (Level half_f) = Err IndexError
  /\ levelsetsTria square_corners_f square_trias square_function_f (Levels1 [half_f; half_f])
     = Err ValueError.
Proof.
  split.
  - apply (proj1 (@levelsetsTria_refused_input _ _ square_corners_f square_trias [half_f]
                    (Level half_f) [[half_f]] eq_refl)).
    reflexivity.
  - apply (proj1 (proj2 (@levelsetsTria_refused_input _ _ square_corners_f square_trias
                           square_function_f (Levels1 [half_f; half_f])
                           [[half_f; half_f]] eq_refl)));
      [reflexivity | split; discriminate].
Defined.

Section VertexOrder.
Local Open Scope R_scope.

Lemma perm3 (a b d x y z : nat) :
  Permutation [a; b; d] [x; y; z] ->
  (x, y, z) = (a, b, d) \/ (x, y, z) = (a, d, b) \/ (x, y, z) = (b, a, d)
  \/ (x, y, z) = (b, d, a) \/ (x, y, z) = (d, a, b) \/ (x, y, z) = (d, b, a).
Proof.
  intros H.
  assert (Ha : In a [x; y; z]) by (eapply Permutation_in; [exact H|now left]).
  cbn [In] in Ha. destruct Ha as [->|[->|[->|[]]]].
  - apply Permutation_cons_inv in H. apply Permutation_length_2 in H.
    destruct H as [[<- <-]|[<- <-]]; tauto.
  - assert (H' : Permutation (a :: [b; d]) (a :: [x; z]))
      by (etransitivity; [exact H|apply perm_swap]).
    apply Permutation_cons_inv in H'. apply Permutation_length_2 in H'.
    destruct H' as [[<- <-]|[<- <-]]; tauto.
  - assert (H' : Permutation (a :: [b; d]) (a :: [x; y])).
    { etransitivity; [exact H|]. apply Permutation_sym.
      apply (Permutation_cons_app [x; y] [] a). now rewrite app_nil_r. }
    apply Permutation_cons_inv in H'. apply Permutation_length_2 in H'.
    destruct H' as [[<- <-]|[<- <-]]; tauto.
Qed.

Lemma tria_reordered_swaps (c c' : tria) : tria_reordered c c' -> tria_swaps c c'.
Proof.
  destruct c as [[a b] d], c' as [[x y] z]. unfold tria_reordered. cbn [tria0 tria1 tria2].
  intros H. apply perm3 in H.
  destruct H as [H|[H|[H|[H|[H|H]]]]]; injection H as -> -> ->.
  - apply tria_swaps_refl.
  - apply tria_swap23.
  - apply tria_swap12.
  - eapply tria_swaps_trans; [apply tria_swap12|apply tria_swap23].
  - eapply tria_swaps_trans; [apply tria_swap23|apply tria_swap12].
  - eapply tria_swaps_trans; [apply tria_swap12|].
    eapply tria_swaps_trans; [apply tria_swap23|apply tria_swap12].
Qed.

Ltac split_corners v :=
  repeat match goal with
    | |- context [corner v ?a] =>
        let x := fresh "x" in let y := fresh "y" in let z := fresh "z" in
        destruct (corner v a) as [[x y] z]
    end.

Lemma tria_swaps_bounds (n : nat) (c c' : tria) :
  tria_swaps c c' -> tria_in_bounds n c = tria_in_bounds n c'.
Proof.
  induction 1 as [a b d|a b d|c|c1 c2 c3 _ IH1 _ IH2];
    [| |reflexivity|congruence]; unfold tria_in_bounds; cbn [tria0 tria1 tria2];
    destruct (a <? n)%nat, (b <? n)%nat, (d <? n)%nat; reflexivity.
Qed.

Lemma tria_swaps_max (c c' : tria) :
  tria_swaps c c' ->
  list_max [tria0 c; tria1 c; tria2 c] = list_max [tria0 c'; tria1 c'; tria2 c'].
Proof.
  induction 1 as [a b d|a b d|c|c1 c2 c3 _ IH1 _ IH2];
    [| |reflexivity|congruence]; cbn [tria0 tria1 tria2 list_max fold_right]; lia.
Qed.

Lemma tria_swaps_vol_raw (v : list (@vec3 R)) (c c' : tria) :
  tria_swaps c c' -> tria_vol_raw v c = tria_vol_raw v c'.
Proof.
  induction 1 as [a b d|a b d|c|c1 c2 c3 _ IH1 _ IH2];
    [| |reflexivity|congruence];
    unfold tria_vol_raw, tria_v3mv2, tria_v1mv3; cbn [tria0 tria1 tria2];
    split_corners v; cbn [vsub cross3 vmul sum3]; real_ops;
    do 2 f_equal; ring.
Qed.

Lemma tria_swaps_vol (v : list (@vec3 R)) (vm : R) (c c' : tria) :
  tria_swaps c c' -> tria_vol v vm c = tria_vol v vm c'.
Proof. intros H. unfold tria_vol. now rewrite (tria_swaps_vol_raw v H). Qed.

Ltac position_cases i j a b d :=
  destruct (Nat.eqb a i), (Nat.eqb b i), (Nat.eqb d i),
    (Nat.eqb a j), (Nat.eqb b j), (Nat.eqb d j); cbn [andb]; ring.

Lemma tria_swaps_local (lump : bool) (v : list (@vec3 R)) (vm : R) (c c' : tria) (i j : nat) :
  tria_swaps c c' ->
  total (map (at_pos i j) (tria_localA v vm c)) = total (map (at_pos i j) (tria_localA v vm c'))
  /\ total (map (at_pos i j) (tria_localB lump v vm c))
     = total (map (at_pos i j) (tria_localB lump v vm c')).
Proof.
  induction 1 as [a b d|a b d|c|c1 c2 c3 _ [IH1 IH1'] _ [IH2 IH2']];
    [| |split; reflexivity|split; congruence].
  - pose proof (tria_swaps_vol v vm (tria_swap12 a b d)) as Eq.
    assert (E12 : tria_A12 v vm (b, a, d) = tria_A12 v vm (a, b, d)).
    { unfold tria_A12. rewrite <- Eq. unfold tria_v3mv2, tria_v1mv3. cbn [tria0 tria1 tria2].
      generalize (tria_vol v vm (a, b, d)). intros q.
      split_corners v. cbn [vsub vmul sum3]. real_ops. unfold Rdiv. ring. }
    assert (E23 : tria_A23 v vm (b, a, d) = tria_A31 v vm (a, b, d)).
    { unfold tria_A23, tria_A31. rewrite <- Eq.
      unfold tria_v3mv2, tria_v1mv3, tria_v2mv1. cbn [tria0 tria1 tria2].
      generalize (tria_vol v vm (a, b, d)). intros q.
      split_corners v. cbn [vsub vmul sum3]. real_ops. unfold Rdiv. ring. }
    assert (E31 : tria_A31 v vm (b, a, d) = tria_A23 v vm (a, b, d)).
    { unfold tria_A23, tria_A31. rewrite <- Eq.
      unfold tria_v3mv2, tria_v1mv3, tria_v2mv1. cbn [tria0 tria1 tria2].
      generalize (tria_vol v vm (a, b, d)). intros q.
      split_corners v. cbn [vsub vmul sum3]. real_ops. unfold Rdiv. ring. }
    split.
    + unfold tria_localA, tria_A11, tria_A22, tria_A33. rewrite E12, E23, E31.
      generalize (tria_A12 v vm (a, b, d)) (tria_A23 v vm (a, b, d)) (tria_A31 v vm (a, b, d)).
      intros m12 m23 m31. cbn [map at_pos]. rewrite !total_cons, total_nil. real_ops.
      position_cases i j a b d.
    + unfold tria_localB. rewrite <- Eq. generalize (tria_vol v vm (a, b, d)). intros q.
      destruct lump; cbn [negb map at_pos]; rewrite !total_cons, total_nil; real_ops;
        generalize (q / 48) (q / 24) (q / 12); intros q48 q24 q12;
        position_cases i j a b d.
  - pose proof (tria_swaps_vol v vm (tria_swap23 a b d)) as Eq.
    assert (E12 : tria_A12 v vm (a, d, b) = tria_A31 v vm (a, b, d)).
    { unfold tria_A12, tria_A31. rewrite <- Eq.
      unfold tria_v3mv2, tria_v1mv3, tria_v2mv1. cbn [tria0 tria1 tria2].
      generalize (tria_vol v vm (a, b, d)). intros q.
      split_corners v. cbn [vsub vmul sum3]. real_ops. unfold Rdiv. ring. }
    assert (E23 : tria_A23 v vm (a, d, b) = tria_A23 v vm (a, b, d)).
    { unfold tria_A23. rewrite <- Eq.
      unfold tria_v3mv2, tria_v1mv3, tria_v2mv1. cbn [tria0 tria1 tria2].
      generalize (tria_vol v vm (a, b, d)). intros q.
      split_corners v. cbn [vsub vmul sum3]. real_ops. unfold Rdiv. ring. }
    assert (E31 : tria_A31 v vm (a, d, b) = tria_A12 v vm (a, b, d)).
    { unfold tria_A12, tria_A31. rewrite <- Eq.
      unfold tria_v3mv2, tria_v1mv3, tria_v2mv1. cbn [tria0 tria1 tria2].
      generalize (tria_vol v vm (a, b, d)). intros q.
      split_corners v. cbn [vsub vmul sum3]. real_ops. unfold Rdiv. ring. }
    split.
    + unfold tria_localA, tria_A11, tria_A22, tria_A33. rewrite E12, E23, E31.
      generalize (tria_A12 v vm (a, b, d)) (tria_A23 v vm (a, b, d)) (tria_A31 v vm (a, b, d)).
      intros m12 m23 m31. cbn [map at_pos]. rewrite !total_cons, total_nil. real_ops.
      position_cases i j a b d.
    + unfold tria_localB. rewrite <- Eq. generalize (tria_vol v vm (a, b, d)). intros q.
      destruct lump; cbn [negb map at_pos]; rewrite !total_cons, total_nil; real_ops;
        generalize (q / 48) (q / 24) (q / 12); intros q48 q24 q12;
        position_cases i j a b d.
Qed.
End VertexOrder.
Section VertexOrderTetra.
Local Open Scope R_scope.

Lemma perm4 (a b d e w x y z : nat) :
  Permutation [a; b; d; e] [w; x; y; z] ->
  exists x' y' z',
    Permutation [b; d; e] [x'; y'; z']
    /\ ((w, x, y, z) = (a, x', y', z') \/ (w, x, y, z) = (x', a, y', z')
        \/ (w, x, y, z) = (x', y', a, z') \/ (w, x, y, z) = (x', y', z', a)).
Proof.
  intros H.
  assert (Ha : In a [w; x; y; z]) by (eapply Permutation_in; [exact H|now left]).
  cbn [In] in Ha. destruct Ha as [->|[->|[->|[->|[]]]]].
  - exists x, y, z. split; [now apply Permutation_cons_inv in H|tauto].
  - exists w, y, z. split; [|tauto].
    apply (Permutation_cons_inv (a := a)). etransitivity; [exact H|apply perm_swap].
  - exists w, x, z. split; [|tauto].
    apply (Permutation_cons_inv (a := a)). etransitivity; [exact H|].
    apply Permutation_sym. apply (Permutation_cons_app [w; x] [z] a). reflexivity.
  - exists w, x, y. split; [|tauto].
    apply (Permutation_cons_inv (a := a)). etransitivity; [exact H|].
    apply Permutation_sym. apply (Permutation_cons_app [w; x; y] [] a).
    now rewrite app_nil_r.
Qed.

Ltac by_swaps n :=
  match n with
  | O => apply tetra_swaps_refl
  | S ?n' =>
      first [ apply tetra_swaps_refl
            | eapply tetra_swaps_trans; [apply tetra_swap12|by_swaps n']
            | eapply tetra_swaps_trans; [apply tetra_swap23|by_swaps n']
            | eapply tetra_swaps_trans; [apply tetra_swap34|by_swaps n'] ]
  end.

Lemma tetra_reordered_swaps (c c' : tetra) : tetra_reordered c c' -> tetra_swaps c c'.
Proof.
  destruct c as [[[a b] d] e], c' as [[[w x] y] z]. unfold tetra_reordered.
  cbn [tetra0 tetra1 tetra2 tetra3].
  intros H. apply perm4 in H. destruct H as (x' & y' & z' & H3 & H).
  apply perm3 in H3.
  destruct H3 as [H3|[H3|[H3|[H3|[H3|H3]]]]]; injection H3 as -> -> ->;
    destruct H as [H|[H|[H|H]]]; injection H as -> -> -> ->;
    first [ by_swaps 0%nat | by_swaps 1%nat | by_swaps 2%nat | by_swaps 3%nat
          | by_swaps 4%nat | by_swaps 5%nat | by_swaps 6%nat ].
Qed.
End VertexOrderTetra.
Section VertexOrderTetraEntries.
Local Open Scope R_scope.

Ltac split_corners v :=
  repeat match goal with
    | |- context [corner v ?a] =>
        let x := fresh "x" in let y := fresh "y" in let z := fresh "z" in
        destruct (corner v a) as [[x y] z]
    end.

Lemma tetra_swaps_bounds (n : nat) (c c' : tetra) :
  tetra_swaps c c' -> tetra_in_bounds n c = tetra_in_bounds n c'.
Proof.
  induction 1 as [a b d e|a b d e|a b d e|c|c1 c2 c3 _ IH1 _ IH2];
    [| | |reflexivity|congruence]; unfold tetra_in_bounds;
    cbn [tetra0 tetra1 tetra2 tetra3];
    destruct (a <? n)%nat, (b <? n)%nat, (d <? n)%nat, (e <? n)%nat; reflexivity.
Qed.

Lemma tetra_swaps_max (c c' : tetra) :
  tetra_swaps c c' ->
  list_max [tetra0 c; tetra1 c; tetra2 c; tetra3 c]
  = list_max [tetra0 c'; tetra1 c'; tetra2 c'; tetra3 c'].
Proof.
  induction 1 as [a b d e|a b d e|a b d e|c|c1 c2 c3 _ IH1 _ IH2];
    [| | |reflexivity|congruence];
    cbn [tetra0 tetra1 tetra2 tetra3 list_max fold_right]; lia.
Qed.

Lemma tetra_swaps_vol_raw (v : list (@vec3 R)) (c c' : tetra) :
  tetra_swaps c c' -> tetra_vol_raw v c = tetra_vol_raw v c'.
Proof.
  induction 1 as [a b d e|a b d e|a b d e|c|c1 c2 c3 _ IH1 _ IH2];
    [| | |reflexivity|congruence];
    unfold tetra_vol_raw, tetra_e1, tetra_e3, tetra_e4; cbn [tetra0 tetra1 tetra2 tetra3];
    split_corners v; cbn [vsub cross3 vmul sum3]; real_ops;
    match goal with |- Rabs ?x = Rabs ?y => rewrite <- (Rabs_Ropp y) end;
    f_equal; ring.
Qed.

Lemma tetra_swaps_vol (v : list (@vec3 R)) (vm : R) (c c' : tetra) :
  tetra_swaps c c' -> tetra_vol v vm c = tetra_vol v vm c'.
Proof. intros H. unfold tetra_vol. now rewrite (tetra_swaps_vol_raw v H). Qed.

Ltac entry_moves v vm c Eq :=
  unfold tetra_A12, tetra_A13, tetra_A14, tetra_A23, tetra_A24, tetra_A34, dot3;
  rewrite <- Eq;
  unfold tetra_e1, tetra_e2, tetra_e3, tetra_e4, tetra_e5, tetra_e6;
  cbn [tetra0 tetra1 tetra2 tetra3];
  generalize (tetra_vol v vm c); intros q;
  split_corners v; cbn [vsub vmul sum3]; real_ops; unfold Rdiv; ring.

Lemma indicator_mul (b : bool) (x : R) : (if b then x else 0) = (if b then 1 else 0) * x.
Proof. destruct b; ring. Qed.

Ltac position_cases4 i j a b d e :=
  repeat match goal with
    | |- context [if ?c then ?x else 0] =>
        lazymatch x with
        | 1 => fail
        | _ => rewrite (indicator_mul c x)
        end
    end;
  ring.

Ltac local_sums v vm lump a b d e i j E12 E13 E14 E23 E24 E34 Eq :=
  split;
  [ unfold tetra_localA, tetra_A11, tetra_A22, tetra_A33, tetra_A44;
    rewrite E12, E13, E14, E23, E24, E34;
    generalize (tetra_A12 v vm (a, b, d, e)) (tetra_A13 v vm (a, b, d, e))
      (tetra_A14 v vm (a, b, d, e)) (tetra_A23 v vm (a, b, d, e))
      (tetra_A24 v vm (a, b, d, e)) (tetra_A34 v vm (a, b, d, e));
    intros m12 m13 m14 m23 m24 m34; cbn [map at_pos]; rewrite !total_cons, total_nil;
    real_ops; unfold Rdiv; position_cases4 i j a b d e
  | unfold tetra_localB; rewrite <- Eq; generalize (tetra_vol v vm (a, b, d, e)); intros q;
    destruct lump; cbn [negb map at_pos]; rewrite !total_cons, total_nil; real_ops;
    generalize (q / 120) (q / 60) (q / 24); intros q120 q60 q24;
    position_cases4 i j a b d e ].

Lemma tetra_swaps_local (lump : bool) (v : list (@vec3 R)) (vm : R) (c c' : tetra)
  (i j : nat) :
  tetra_swaps c c' ->
  total (map (at_pos i j) (tetra_localA v vm c))
  = total (map (at_pos i j) (tetra_localA v vm c'))
  /\ total (map (at_pos i j) (tetra_localB lump v vm c))
     = total (map (at_pos i j) (tetra_localB lump v vm c')).
Proof.
  induction 1 as [a b d e|a b d e|a b d e|c|c1 c2 c3 _ [IH1 IH1'] _ [IH2 IH2']];
    [| | |split; reflexivity|split; congruence].
  - pose proof (tetra_swaps_vol v vm (tetra_swap12 a b d e)) as Eq.
    assert (E12 : tetra_A12 v vm (b, a, d, e) = tetra_A12 v vm (a, b, d, e))
      by entry_moves v vm (a, b, d, e) Eq.
    assert (E13 : tetra_A13 v vm (b, a, d, e) = tetra_A23 v vm (a, b, d, e))
      by entry_moves v vm (a, b, d, e) Eq.
    assert (E14 : tetra_A14 v vm (b, a, d, e) = tetra_A24 v vm (a, b, d, e))
      by entry_moves v vm (a, b, d, e) Eq.
    assert (E23 : tetra_A23 v vm (b, a, d, e) = tetra_A13 v vm (a, b, d, e))
      by entry_moves v vm (a, b, d, e) Eq.
    assert (E24 : tetra_A24 v vm (b, a, d, e) = tetra_A14 v vm (a, b, d, e))
      by entry_moves v vm (a, b, d, e) Eq.
    assert (E34 : tetra_A34 v vm (b, a, d, e) = tetra_A34 v vm (a, b, d, e))
      by entry_moves v vm (a, b, d, e) Eq.
    local_sums v vm lump a b d e i j E12 E13 E14 E23 E24 E34 Eq.
  - pose proof (tetra_swaps_vol v vm (tetra_swap23 a b d e)) as Eq.
    assert (E12 : tetra_A12 v vm (a, d, b, e) = tetra_A13 v vm (a, b, d, e))
      by entry_moves v vm (a, b, d, e) Eq.
    assert (E13 : tetra_A13 v vm (a, d, b, e) = tetra_A12 v vm (a, b, d, e))
      by entry_moves v vm (a, b, d, e) Eq.
    assert (E14 : tetra_A14 v vm (a, d, b, e) = tetra_A14 v vm (a, b, d, e))
      by entry_moves v vm (a, b, d, e) Eq.
    assert (E23 : tetra_A23 v vm (a, d, b, e) = tetra_A23 v vm (a, b, d, e))
      by entry_moves v vm (a, b, d, e) Eq.
    assert (E24 : tetra_A24 v vm (a, d, b, e) = tetra_A34 v vm (a, b, d, e))
      by entry_moves v vm (a, b, d, e) Eq.
    assert (E34 : tetra_A34 v vm (a, d, b, e) = tetra_A24 v vm (a, b, d, e))
      by entry_moves v vm (a, b, d, e) Eq.
    local_sums v vm lump a b d e i j E12 E13 E14 E23 E24 E34 Eq.
  - pose proof (tetra_swaps_vol v vm (tetra_swap34 a b d e)) as Eq.
    assert (E12 : tetra_A12 v vm (a, b, e, d) = tetra_A12 v vm (a, b, d, e))
      by entry_moves v vm (a, b, d, e) Eq.
    assert (E13 : tetra_A13 v vm (a, b, e, d) = tetra_A14 v vm (a, b, d, e))
      by entry_moves v vm (a, b, d, e) Eq.
    assert (E14 : tetra_A14 v vm (a, b, e, d) = tetra_A13 v vm (a, b, d, e))
      by entry_moves v vm (a, b, d, e) Eq.
    assert (E23 : tetra_A23 v vm (a, b, e, d) = tetra_A24 v vm (a, b, d, e))
      by entry_moves v vm (a, b, d, e) Eq.
    assert (E24 : tetra_A24 v vm (a, b, e, d) = tetra_A23 v vm (a, b, d, e))
      by entry_moves v vm (a, b, d, e) Eq.
    assert (E34 : tetra_A34 v vm (a, b, e, d) = tetra_A34 v vm (a, b, d, e))
      by entry_moves v vm (a, b, d, e) Eq.
    local_sums v vm lump a b d e i j E12 E13 E14 E23 E24 E34 Eq.
Qed.
End VertexOrderTetraEntries.
Section VertexOrderMeshes.
Local Open Scope R_scope.

Lemma Forall2_forallb {X} (rel : X -> X -> Prop) (f : X -> bool) (l l' : list X) :
  (forall x x', rel x x' -> f x = f x') -> Forall2 rel l l' -> forallb f l = forallb f l'.
Proof.
  intros Hf. induction 1 as [|x x' l l' Hx _ IH]; [reflexivity|].
  cbn [forallb]. now rewrite (Hf _ _ Hx), IH.
Qed.

Lemma Forall2_list_max {X} (rel : X -> X -> Prop) (f : X -> list nat) (l l' : list X) :
  (forall x x', rel x x' -> list_max (f x) = list_max (f x')) -> Forall2 rel l l' ->
  list_max (flat_map f l) = list_max (flat_map f l').
Proof.
  intros Hf. induction 1 as [|x x' l l' Hx _ IH]; [reflexivity|].
  cbn [flat_map]. now rewrite !list_max_app, (Hf _ _ Hx), IH.
Qed.

Lemma Forall2_map {X Y} (rel : X -> X -> Prop) (f : X -> Y) (l l' : list X) :
  (forall x x', rel x x' -> f x = f x') -> Forall2 rel l l' -> map f l = map f l'.
Proof.
  intros Hf. induction 1 as [|x x' l l' Hx _ IH]; [reflexivity|].
  cbn [map]. now rewrite (Hf _ _ Hx), IH.
Qed.

Lemma Forall2_total {X} (rel : X -> X -> Prop) (f g : X -> R) (l l' : list X) :
  (forall x x', rel x x' -> f x = g x') -> Forall2 rel l l' ->
  total (map f l) = total (map g l').
Proof.
  intros Hf. induction 1 as [|x x' l l' Hx _ IH]; [reflexivity|].
  cbn [map]. now rewrite !total_cons, (Hf _ _ Hx), IH.
Qed.

(** X23.  In exact arithmetic the matrices do not depend on the order in
    which a cell lists its vertices: two meshes whose cells agree one by
    one up to a reordering of their vertices give the same result of
    [computeABtria], and of [computeABtetra]: the same error, or matrices
    of one shape with the same entries, lumped or not.  In particular the
    orientation of the cells, which the docstring of [computeABtetra] asks
    for, has no influence. *)
Theorem assembly_vertex_order_irrelevant :
  (forall (v : list (@vec3 R)) (t t' : list tria) (lump : bool),
      Forall2 tria_reordered t t' ->
      same_matrices (computeABtria v t lump) (computeABtria v t' lump))
  /\
  (forall (v : list (@vec3 R)) (t t' : list tetra) (lump : bool),
      Forall2 tetra_reordered t t' ->
      same_matrices (computeABtetra v t lump) (computeABtetra v t' lump)).
Proof.
  split; intros v t t' lump Hre.
  - assert (Hsw : Forall2 tria_swaps t t')
      by (revert Hre; apply Forall2_impl; exact tria_reordered_swaps).
    clear Hre.
    pose proof (Forall2_forallb (tria_in_bounds (length v))
                  (fun c c' H => tria_swaps_bounds (length v) H) Hsw) as Eb.
    destruct t as [|c0 t0].
    { inversion Hsw; subst. cbn. reflexivity. }
    destruct t' as [|c0' t0']; [inversion Hsw|].
    destruct (forallb (tria_in_bounds (length v)) (c0 :: t0)) eqn:Hb.
    + rewrite (computeABtria_cells v lump Hb) by discriminate.
      rewrite (computeABtria_cells v lump (eq_sym Eb)) by discriminate.
      set (t := c0 :: t0) in *. set (t' := c0' :: t0') in *.
      assert (Em : tria_max t = tria_max t')
        by (apply (Forall2_list_max _ tria_swaps_max Hsw)).
      assert (Ev : tria_vol_mean v t = tria_vol_mean v t').
      { unfold tria_vol_mean.
        now rewrite (Forall2_map (tria_vol_raw v)
                       (fun c c' H => tria_swaps_vol_raw v H) Hsw). }
      cbn [same_matrices shape]. rewrite Em, Ev.
      split; [reflexivity|]. split; [reflexivity|].
      intros i j. unfold entry. cbn [triples]. rewrite !total_flat_map.
      split; apply (Forall2_total (rel := tria_swaps)); try exact Hsw;
        intros c c' Hc; now apply (tria_swaps_local lump v (tria_vol_mean v t') i j Hc).
    + rewrite !computeABtria_index_error by (right; congruence). reflexivity.
  - assert (Hsw : Forall2 tetra_swaps t t')
      by (revert Hre; apply Forall2_impl; exact tetra_reordered_swaps).
    clear Hre.
    pose proof (Forall2_forallb (tetra_in_bounds (length v))
                  (fun c c' H => tetra_swaps_bounds (length v) H) Hsw) as Eb.
    destruct t as [|c0 t0].
    { inversion Hsw; subst. cbn. reflexivity. }
    destruct t' as [|c0' t0']; [inversion Hsw|].
    destruct (forallb (tetra_in_bounds (length v)) (c0 :: t0)) eqn:Hb.
    + rewrite (computeABtetra_cells v lump Hb) by discriminate.
      rewrite (computeABtetra_cells v lump (eq_sym Eb)) by discriminate.
      set (t := c0 :: t0) in *. set (t' := c0' :: t0') in *.
      assert (Em : tetra_max t = tetra_max t')
        by (apply (Forall2_list_max _ tetra_swaps_max Hsw)).
      assert (Ev : tetra_vol_mean v t = tetra_vol_mean v t').
      { unfold tetra_vol_mean.
        now rewrite (Forall2_map (tetra_vol_raw v)
                       (fun c c' H => tetra_swaps_vol_raw v H) Hsw). }
      cbn [same_matrices shape]. rewrite Em, Ev.
      split; [reflexivity|]. split; [reflexivity|].
      intros i j. unfold entry. cbn [triples]. rewrite !total_flat_map.
      split; apply (Forall2_total (rel := tetra_swaps)); try exact Hsw;
        intros c c' Hc; now apply (tetra_swaps_local lump v (tetra_vol_mean v t') i j Hc).
    + rewrite !computeABtetra_index_error by (right; congruence). reflexivity.
Qed.
End VertexOrderMeshes.

Lemma assembly_vertex_order_irrelevant_witness :
  same_matrices (computeABtria right_corners [(0, 1, 2)%nat] false)
                (computeABtria right_corners [(2, 0, 1)%nat] false)
  /\ same_matrices (computeABtetra unit_corners [(0, 1, 2, 3)%nat] true)
                   (computeABtetra unit_corners [(1, 0, 2, 3)%nat] true).
Proof.
  split.
  - apply (proj1 assembly_vertex_order_irrelevant).
    constructor; [|constructor]. unfold tria_reordered. cbn [tria0 tria1 tria2].
    apply Permutation_sym. apply (Permutation_cons_app [0; 1]%nat [] 2%nat). reflexivity.
  - apply (proj2 assembly_vertex_order_irrelevant).
    constructor; [|constructor]. unfold tetra_reordered. cbn [tetra0 tetra1 tetra2 tetra3].
    apply perm_swap.
Defined.

Section Scaling.
Local Open Scope R_scope.
Variable s : R.
Hypothesis Hs : 0 < s.

Lemma vscale_zero (k : R) : vscale k zero3 = zero3.
Proof. unfold vscale, zero3. real_ops. now rewrite Rmult_0_r. Qed.

Lemma corner_scaled (v : list (@vec3 R)) (i : nat) :
  corner (scaled s v) i = vscale s (corner v i).
Proof.
  unfold corner, scaled. rewrite <- (vscale_zero s) at 1. apply map_nth.
Qed.

Lemma vsub_vscale (k : R) (a b : @vec3 R) :
  vsub (vscale k a) (vscale k b) = vscale k (vsub a b).
Proof.
  destruct a as [[a0 a1] a2], b as [[b0 b1] b2]. cbn [vscale vsub]. real_ops.
  now rewrite <- !Rmult_minus_distr_l.
Qed.

Lemma edge_scaled (v : list (@vec3 R)) (i j : nat) :
  vsub (corner (scaled s v) i) (corner (scaled s v) j)
  = vscale s (vsub (corner v i) (corner v j)).
Proof. rewrite !corner_scaled. apply vsub_vscale. Qed.

Lemma dot_scaled (k1 k2 : R) (u w : @vec3 R) :
  sum3 (vmul (vscale k1 u) (vscale k2 w)) = k1 * k2 * sum3 (vmul u w).
Proof.
  destruct u as [[u0 u1] u2], w as [[w0 w1] w2]. cbn [vscale vmul sum3]. real_ops. ring.
Qed.

Lemma cross_scaled (k : R) (u w : @vec3 R) :
  cross3 (vscale k u) (vscale k w) = vscale (k * k) (cross3 u w).
Proof.
  destruct u as [[u0 u1] u2], w as [[w0 w1] w2]. cbn [vscale cross3]. real_ops.
  replace (k * u1 * (k * w2) - k * u2 * (k * w1)) with (k * k * (u1 * w2 - u2 * w1)) by ring.
  replace (k * u2 * (k * w0) - k * u0 * (k * w2)) with (k * k * (u2 * w0 - u0 * w2)) by ring.
  replace (k * u0 * (k * w1) - k * u1 * (k * w0)) with (k * k * (u0 * w1 - u1 * w0)) by ring.
  reflexivity.
Qed.

Lemma norm2_nonneg (u : @vec3 R) : 0 <= sum3 (vmul u u).
Proof. destruct u as [[u0 u1] u2]. cbn [vmul sum3]. real_ops. nra. Qed.

Lemma tria_vol_raw_scaled (v : list (@vec3 R)) (c : tria) :
  tria_vol_raw (scaled s v) c = s * s * tria_vol_raw v c.
Proof.
  unfold tria_vol_raw, tria_v3mv2, tria_v1mv3.
  rewrite !edge_scaled, cross_scaled, dot_scaled. real_ops.
  rewrite sqrt_mult; [|nra|apply norm2_nonneg].
  rewrite sqrt_square by nra. ring.
Qed.

Lemma tetra_vol_raw_scaled (v : list (@vec3 R)) (c : tetra) :
  tetra_vol_raw (scaled s v) c = s * s * s * tetra_vol_raw v c.
Proof.
  unfold tetra_vol_raw, tetra_e1, tetra_e3, tetra_e4.
  rewrite !edge_scaled, cross_scaled, dot_scaled. real_ops.
  rewrite Rabs_mult, (Rabs_right (s * (s * s))) by nra. ring.
Qed.

Lemma np_sum_scale {X} (k : R) (f : X -> R) (l : list X) :
  np_sum (map (fun c => k * f c) l) = k * np_sum (map f l).
Proof.
  unfold np_sum. real_ops.
  enough (H : forall acc, fold_left Rplus (map (fun c => k * f c) l) (k * acc)
                          = k * fold_left Rplus (map f l) acc)
    by (rewrite <- H; now rewrite Rmult_0_r).
  induction l as [|x l IH]; intros acc; cbn [map fold_left]; [reflexivity|].
  rewrite <- IH. f_equal. ring.
Qed.

Lemma tetra_vol_mean_scaled (v : list (@vec3 R)) (t : list tetra) :
  tetra_vol_mean (scaled s v) t = s * s * s * tetra_vol_mean v t.
Proof.
  unfold tetra_vol_mean, mean.
  rewrite (map_ext _ (fun c => s * s * s * tetra_vol_raw v c))
    by (intros c; apply tetra_vol_raw_scaled).
  rewrite np_sum_scale, !length_map. real_ops. unfold Rdiv. ring.
Qed.

Lemma tetra_vol_scaled (v : list (@vec3 R)) (vm : R) (c : tetra) :
  tetra_vol (scaled s v) (s * s * s * vm) c = s * s * s * tetra_vol v vm c.
Proof.
  unfold tetra_vol. rewrite tetra_vol_raw_scaled. cbn [eqb R_scalar]. real_ops.
  assert (H3 : 0 < s * s * s) by (apply Rmult_lt_0_compat; nra).
  destruct (Req_dec_T (s * s * s * tetra_vol_raw v c) 0) as [E|E],
    (Req_dec_T (tetra_vol_raw v c) 0) as [E'|E']; try reflexivity.
  - exfalso. apply Rmult_integral in E. destruct E; [lra|contradiction].
  - exfalso. apply E. rewrite E'. ring.
Qed.

Lemma tetra_edges_scaled (v : list (@vec3 R)) (c : tetra) :
  tetra_e1 (scaled s v) c = vscale s (tetra_e1 v c)
  /\ tetra_e2 (scaled s v) c = vscale s (tetra_e2 v c)
  /\ tetra_e3 (scaled s v) c = vscale s (tetra_e3 v c)
  /\ tetra_e4 (scaled s v) c = vscale s (tetra_e4 v c)
  /\ tetra_e5 (scaled s v) c = vscale s (tetra_e5 v c)
  /\ tetra_e6 (scaled s v) c = vscale s (tetra_e6 v c).
Proof.
  unfold tetra_e1, tetra_e2, tetra_e3, tetra_e4, tetra_e5, tetra_e6.
  repeat split; apply edge_scaled.
Qed.

Ltac indicators :=
  repeat match goal with
    | |- context [if ?c then ?x else 0] =>
        lazymatch x with
        | 1 => fail
        | _ => rewrite (indicator_mul c x)
        end
    end.

Ltac scaled_entry v vm c :=
  unfold tetra_A12, tetra_A13, tetra_A14, tetra_A23, tetra_A24, tetra_A34, dot3;
  let E1 := fresh in let E2 := fresh in let E3 := fresh in
  let E4 := fresh in let E5 := fresh in let E6 := fresh in
  destruct (tetra_edges_scaled v c) as (E1 & E2 & E3 & E4 & E5 & E6);
  rewrite ?E1, ?E2, ?E3, ?E4, ?E5, ?E6; clear E1 E2 E3 E4 E5 E6;
  rewrite !dot_scaled, tetra_vol_scaled;
  generalize (sum3 (vmul (tetra_e1 v c) (tetra_e1 v c)))
    (sum3 (vmul (tetra_e1 v c) (tetra_e2 v c))) (sum3 (vmul (tetra_e1 v c) (tetra_e3 v c)))
    (sum3 (vmul (tetra_e1 v c) (tetra_e4 v c))) (sum3 (vmul (tetra_e1 v c) (tetra_e5 v c)))
    (sum3 (vmul (tetra_e2 v c) (tetra_e2 v c))) (sum3 (vmul (tetra_e2 v c) (tetra_e3 v c)))
    (sum3 (vmul (tetra_e2 v c) (tetra_e5 v c))) (sum3 (vmul (tetra_e2 v c) (tetra_e6 v c)))
    (sum3 (vmul (tetra_e3 v c) (tetra_e3 v c))) (sum3 (vmul (tetra_e3 v c) (tetra_e4 v c)))
    (sum3 (vmul (tetra_e3 v c) (tetra_e6 v c))) (sum3 (vmul (tetra_e4 v c) (tetra_e4 v c)))
    (sum3 (vmul (tetra_e5 v c) (tetra_e5 v c))) (sum3 (vmul (tetra_e6 v c) (tetra_e6 v c)));
  intros; real_ops; field; split; [assumption|lra].

Lemma tetra_local_scaled (lump : bool) (v : list (@vec3 R)) (vm : R) (c : tetra) (i j : nat) :
  tetra_vol v vm c <> 0 ->
  total (map (at_pos i j) (tetra_localA (scaled s v) (s * s * s * vm) c))
  = s * total (map (at_pos i j) (tetra_localA v vm c))
  /\ total (map (at_pos i j) (tetra_localB lump (scaled s v) (s * s * s * vm) c))
     = s * s * s * total (map (at_pos i j) (tetra_localB lump v vm c)).
Proof.
  intros Hq.
  assert (E12 : tetra_A12 (scaled s v) (s * s * s * vm) c = s * tetra_A12 v vm c)
    by scaled_entry v vm c.
  assert (E13 : tetra_A13 (scaled s v) (s * s * s * vm) c = s * tetra_A13 v vm c)
    by scaled_entry v vm c.
  assert (E14 : tetra_A14 (scaled s v) (s * s * s * vm) c = s * tetra_A14 v vm c)
    by scaled_entry v vm c.
  assert (E23 : tetra_A23 (scaled s v) (s * s * s * vm) c = s * tetra_A23 v vm c)
    by scaled_entry v vm c.
  assert (E24 : tetra_A24 (scaled s v) (s * s * s * vm) c = s * tetra_A24 v vm c)
    by scaled_entry v vm c.
  assert (E34 : tetra_A34 (scaled s v) (s * s * s * vm) c = s * tetra_A34 v vm c)
    by scaled_entry v vm c.
  destruct c as [[[a b] d] e]. split.
  - unfold tetra_localA, tetra_A11, tetra_A22, tetra_A33, tetra_A44.
    rewrite E12, E13, E14, E23, E24, E34.
    generalize (tetra_A12 v vm (a, b, d, e)) (tetra_A13 v vm (a, b, d, e))
      (tetra_A14 v vm (a, b, d, e)) (tetra_A23 v vm (a, b, d, e))
      (tetra_A24 v vm (a, b, d, e)) (tetra_A34 v vm (a, b, d, e)).
    intros m12 m13 m14 m23 m24 m34. cbn [map at_pos]. rewrite !total_cons, total_nil.
    real_ops. unfold Rdiv. indicators. ring.
  - unfold tetra_localB. rewrite tetra_vol_scaled.
    generalize (tetra_vol v vm (a, b, d, e)). intros q.
    destruct lump; cbn [negb map at_pos]; rewrite !total_cons, total_nil; real_ops;
      unfold Rdiv; indicators; ring.
Qed.

Lemma unguarded (v : list (@vec3 R)) (vm : R) (c : tria) :
  epsilon <= tria_vol_raw v c -> tria_vol v vm c = tria_vol_raw v c.
Proof.
  intros H. unfold tria_vol. cbn [ltb R_scalar].
  destruct (Rlt_dec (tria_vol_raw v c) epsilon); [lra|reflexivity].
Qed.

Lemma tria_local_scaled (lump : bool) (v : list (@vec3 R)) (vm vm' : R) (c : tria)
  (i j : nat) :
  epsilon <= tria_vol_raw v c -> epsilon <= s * s * tria_vol_raw v c ->
  total (map (at_pos i j) (tria_localA (scaled s v) vm' c))
  = total (map (at_pos i j) (tria_localA v vm c))
  /\ total (map (at_pos i j) (tria_localB lump (scaled s v) vm' c))
     = s * s * total (map (at_pos i j) (tria_localB lump v vm c)).
Proof.
  intros H1 H2.
  assert (Eq : tria_vol v vm c = tria_vol_raw v c) by now apply unguarded.
  assert (Eq' : tria_vol (scaled s v) vm' c = s * s * tria_vol_raw v c)
    by (rewrite unguarded; rewrite tria_vol_raw_scaled; [reflexivity|exact H2]).
  pose proof epsilon_positive as He.
  assert (Hq : tria_vol_raw v c <> 0) by lra.
  assert (E12 : tria_A12 (scaled s v) vm' c = tria_A12 v vm c).
  { unfold tria_A12. rewrite Eq, Eq'. unfold tria_v3mv2, tria_v1mv3.
    rewrite !edge_scaled, dot_scaled. real_ops. field. split; [assumption|lra]. }
  assert (E23 : tria_A23 (scaled s v) vm' c = tria_A23 v vm c).
  { unfold tria_A23. rewrite Eq, Eq'. unfold tria_v2mv1, tria_v1mv3.
    rewrite !edge_scaled, dot_scaled. real_ops. field. split; [assumption|lra]. }
  assert (E31 : tria_A31 (scaled s v) vm' c = tria_A31 v vm c).
  { unfold tria_A31. rewrite Eq, Eq'. unfold tria_v2mv1, tria_v3mv2.
    rewrite !edge_scaled, dot_scaled. real_ops. field. split; [assumption|lra]. }
  destruct c as [[a b] d]. split.
  - unfold tria_localA, tria_A11, tria_A22, tria_A33. now rewrite E12, E23, E31.
  - unfold tria_localB. rewrite Eq, Eq'.
    generalize (tria_vol_raw v (a, b, d)). intros q.
    destruct lump; cbn [negb map at_pos]; rewrite !total_cons, total_nil; real_ops;
      unfold Rdiv; indicators; ring.
Qed.

(** X24.  How the matrices follow a change of unit.  Scaling every vertex
    by a factor s > 0 leaves the stiffness matrix of a triangle mesh
    unchanged and multiplies its mass matrix by s^2, as long as no
    triangle is below the zero-area guard before or after; it multiplies
    the stiffness matrix of a tetrahedron mesh by s and its mass matrix
    by s^3 (here the guarded cells scale along, the mean of [vol] being
    positive).  Exact arithmetic; entry by entry, lumped or not. *)
Theorem assembly_scaling :
  (forall (v : list (@vec3 R)) (t : list tria) (lump : bool),
      forallb (tria_in_bounds (length v)) t = true -> t <> [] ->
      (forall c, In c t -> epsilon <= tria_vol_raw v c
                           /\ epsilon <= s * s * tria_vol_raw v c) ->
      exists A B A' B',
        computeABtria v t lump = Ok (A, B)
        /\ computeABtria (scaled s v) t lump = Ok (A', B')
        /\ shape A' = shape A /\ shape B' = shape B
        /\ forall i j, entry A' i j = entry A i j /\ entry B' i j = s * s * entry B i j)
  /\
  (forall (v : list (@vec3 R)) (t : list tetra) (lump : bool),
      forallb (tetra_in_bounds (length v)) t = true -> t <> [] ->
      0 < tetra_vol_mean v t ->
      exists A B A' B',
        computeABtetra v t lump = Ok (A, B)
        /\ computeABtetra (scaled s v) t lump = Ok (A', B')
        /\ shape A' = shape A /\ shape B' = shape B
        /\ forall i j, entry A' i j = s * entry A i j
                       /\ entry B' i j = s * s * s * entry B i j).
Proof.
  split.
  - intros v t lump Hb Ht Hg.
    assert (Hb' : forallb (tria_in_bounds (length (scaled s v))) t = true)
      by (unfold scaled; now rewrite length_map).
    rewrite (computeABtria_cells v lump Hb Ht), (computeABtria_cells (scaled s v) lump Hb' Ht).
    do 4 eexists. split; [reflexivity|]. split; [reflexivity|].
    split; [reflexivity|]. split; [reflexivity|].
    intros i j. unfold entry. cbn [triples]. rewrite !total_flat_map.
    split.
    + apply total_ext. intros c Hc. destruct (Hg c Hc) as [H1 H2].
      destruct (@tria_local_scaled lump v (tria_vol_mean v t)
                  (tria_vol_mean (scaled s v) t) c i j H1 H2) as [EA EB]. exact EA.
    + rewrite <- total_scale. apply total_ext. intros c Hc. destruct (Hg c Hc) as [H1 H2].
      destruct (@tria_local_scaled lump v (tria_vol_mean v t)
                  (tria_vol_mean (scaled s v) t) c i j H1 H2) as [EA EB]. exact EB.
  - intros v t lump Hb Ht Hvm.
    assert (Hb' : forallb (tetra_in_bounds (length (scaled s v))) t = true)
      by (unfold scaled; now rewrite length_map).
    rewrite (computeABtetra_cells v lump Hb Ht),
      (computeABtetra_cells (scaled s v) lump Hb' Ht).
    do 4 eexists. split; [reflexivity|]. split; [reflexivity|].
    split; [reflexivity|]. split; [reflexivity|].
    assert (Hq : forall c, tetra_vol v (tetra_vol_mean v t) c <> 0).
    { intros c. pose proof (@guarded_tetra_vol_positive v (tetra_vol_mean v t) c Hvm). lra. }
    intros i j. unfold entry. cbn [triples]. rewrite !total_flat_map, tetra_vol_mean_scaled.
    split; rewrite <- total_scale; apply total_ext; intros c Hc;
      destruct (@tetra_local_scaled lump v (tetra_vol_mean v t) c i j (Hq c)) as [EA EB];
      assumption.
Qed.
End Scaling.

Lemma assembly_scaling_witness :
  (exists A B A' B',
      computeABtria right_corners one_triangle false = Ok (A, B)
      /\ computeABtria (scaled 2 right_corners) one_triangle false = Ok (A', B')
      /\ shape A' = shape A /\ shape B' = shape B
      /\ forall i j, entry A' i j = entry A i j
                     /\ entry B' i j = (2 * 2 * entry B i j)%R)
  /\ (exists A B A' B',
         computeABtetra unit_corners unit_tetra true = Ok (A, B)
         /\ computeABtetra (scaled 2 unit_corners) unit_tetra true = Ok (A', B')
         /\ shape A' = shape A /\ shape B' = shape B
         /\ forall i j, entry A' i j = (2 * entry A i j)%R
                        /\ entry B' i j = (2 * 2 * 2 * entry B i j)%R).
Proof.
  assert (H2 : (0 < 2)%R) by lra.
  split.
  - apply (proj1 (@assembly_scaling 2%R H2) right_corners one_triangle false);
      [reflexivity | discriminate |].
    intros c [<-|[]]. rewrite right_triangle_vol_raw.
    pose proof epsilon_below_one. lra.
  - apply (proj2 (@assembly_scaling 2%R H2) unit_corners unit_tetra true);
      [reflexivity | discriminate | rewrite unit_tetra_vol_mean; lra].
Defined.

Section Which.
Variable sys : system.
Local Open Scope string_scope.

(** X25.  [which] returns only paths that are executable: the program
    itself, or the program joined to a directory.  A name with a directory
    part is looked up as it stands, without reading the environment.  For
    a bare name [which] returns [None] only if [SHAPEDNA_HOME] is set: a
    bare name found nowhere in [PATH], with [SHAPEDNA_HOME] unset, makes
    it raise [TypeError] instead. *)
Theorem which_returns_executables (program : string) :
  (forall f, which sys program = Done (Some f) ->
             is_exe sys f = true
             /\ (f = program \/ exists dir, f = path_join dir program))
  /\ (has_slash program = true ->
      which sys program = Done (if is_exe sys program then Some program else None))
  /\ (has_slash program = false ->
      which sys program = Done None ->
      exists home, environ sys "SHAPEDNA_HOME" = Some home)
  /\ (has_slash program = false ->
      forall p, environ sys "PATH" = Some p ->
        (forall path, In path (split_on ":" EmptyString p) ->
                      is_exe sys (path_join (strip_quotes path) program) = false) ->
        environ sys "SHAPEDNA_HOME" = None ->
        which sys program = Failed TypeError).
Proof.
  unfold which. split; [|split; [|split]].
  - intros f. destruct (has_slash program).
    + destruct (is_exe sys program) eqn:E; intros H; [|discriminate].
      injection H as <-. auto.
    + destruct (environ sys "PATH") as [p|]; [|discriminate].
      destruct (find _ (split_on ":" EmptyString p)) as [path|] eqn:Ef.
      * intros H. injection H as <-. apply find_some in Ef. split; [apply Ef|eauto].
      * destruct (environ sys "SHAPEDNA_HOME") as [home|]; [|discriminate].
        destruct (is_exe sys (path_join home program)) eqn:E1.
        { intros H. injection H as <-. eauto. }
        destruct (is_exe sys (path_join "." program)) eqn:E2; intros H; [|discriminate].
        injection H as <-. eauto.
  - intros ->. now destruct (is_exe sys program).
  - intros ->. destruct (environ sys "PATH") as [p|]; [|discriminate].
    destruct (find _ (split_on ":" EmptyString p)); [discriminate|].
    destruct (environ sys "SHAPEDNA_HOME") as [home|]; [eauto|discriminate].
  - intros -> p -> Hnone ->.
    destruct (find _ (split_on ":" EmptyString p)) as [path|] eqn:Ef; [|reflexivity].
    apply find_some in Ef. destruct Ef as [Hin He]. rewrite (Hnone _ Hin) in He. discriminate.
Qed.
End Which.

Lemma which_returns_executables_witness :
  which small_system "meshfix" = Failed TypeError
  /\ which small_system "gmsh" = Done (Some "/usr/bin/gmsh"%string).
Proof.
  split.
  - apply (proj2 (proj2 (proj2 (which_returns_executables small_system "meshfix"))) eq_refl
             "/bin:/usr/bin"%string eq_refl); [|reflexivity].
    intros path Hin. cbn in Hin. destruct Hin as [<-|[<-|[]]]; reflexivity.
  - reflexivity.
Defined.
Section Drivers.
Context {T : Type} {num : Scalar T}.
Variable sys : system.
Variable mods : @modules T.
Variable lib : @libraries T.
Local Open Scope string_scope.

Lemma which_found_executable (program f : string) :
  which sys program = Done (Some f) -> is_exe sys f = true.
Proof.
  unfold which. destruct (has_slash program).
  - destruct (is_exe sys program) eqn:E; intros H; [|discriminate].
    now injection H as <-.
  - destruct (environ sys "PATH") as [p|]; [|discriminate].
    destruct (find _ (split_on ":" EmptyString p)) as [path|] eqn:Ef.
    + intros H. injection H as <-. apply find_some in Ef. apply Ef.
    + destruct (environ sys "SHAPEDNA_HOME") as [home|]; [|discriminate].
      destruct (is_exe sys (path_join home program)) eqn:E1.
      { intros H. now injection H as <-. }
      destruct (is_exe sys (path_join "." program)) eqn:E2; intros H; [|discriminate].
      now injection H as <-.
Qed.

Lemma plain_words_split (p : string) (rest args : list string) :
  shlex_split sys (String.concat " " (p :: rest)) = Ok args ->
  splits_plain_words sys -> shell_plain p = true -> forallb shell_plain rest = true ->
  args = p :: rest.
Proof.
  intros Es Hc Hp Hr. specialize (Hc (p :: rest)). cbn [forallb] in Hc.
  rewrite Hp, Hr, Es in Hc. specialize (Hc eq_refl). now injection Hc.
Qed.

(** X26.  [run_cmd] runs at most one command, and only after [which] has
    returned a path that it found executable.  What it hands to
    [subprocess.check_call] is [shlex.split] of the line made of that
    path and the other words of the command, joined by blanks: the path is
    pasted into the line unquoted and the line is split again.  So the
    program run is the path [which] returned, with the other words as its
    arguments, where [shlex.split] gives the words back, as it does for
    words without white space, quote and backslash; nothing is said of
    the first argument otherwise.  A command without any word raises
    [IndexError]; a program that is not found makes it print one message
    and leave with exit status 1, nothing being run; and it returns only
    if a command ran and returned the exit status 0. *)
Theorem run_cmd_runs_what_which_found (cmd err_msg : string) :
  (forall args, In (Exec args) (snd (run_cmd (T:=T) sys cmd err_msg [])) ->
     exists prog rest p,
       py_split cmd = prog :: rest /\ which sys prog = Done (Some p)
       /\ is_exe sys p = true
       /\ shlex_split sys (String.concat " " (p :: rest)) = Ok args
       /\ (splits_plain_words sys ->
           shell_plain p = true -> forallb shell_plain rest = true ->
           args = p :: rest))
  /\ (length (filter (@is_output T) (snd (run_cmd sys cmd err_msg []))) <= 1)%nat
  /\ (py_split cmd = [] -> run_cmd (T:=T) sys cmd err_msg [] = (Failed (Raised IndexError), []))
  /\ (forall prog rest, py_split cmd = prog :: rest -> which sys prog = Done None ->
        run_cmd (T:=T) sys cmd err_msg []
        = (Failed (SystemExit 1), [Say ("ERROR: " ++ prog ++ " not found in path!")]))
  /\ (fst (run_cmd (T:=T) sys cmd err_msg []) = Done tt ->
      exists args, In (Exec args) (snd (run_cmd (T:=T) sys cmd err_msg []))
                   /\ check_call sys args = None).
Proof.
  unfold run_cmd.
  destruct (py_split cmd) as [|prog rest].
  { cbn. split; [tauto|]. split; [lia|]. split; [reflexivity|].
    split; [discriminate|discriminate]. }
  unfold sbind, slift, my_print, semit, sfail.
  destruct (which sys prog) as [[p|]|e] eqn:Ew; cbn [app fst snd].
  - pose proof (which_found_executable _ Ew) as Hexe.
    destruct (shlex_split sys (String.concat " " (p :: rest))) as [args|e] eqn:Es;
      cbn [app fst snd].
    + destruct (check_call sys args) as [[c| | | |m|x]|] eqn:Ec; cbn [app fst snd];
        (split; [intros a Ha;
                 assert (E : Exec (T:=T) args = Exec a)
                   by (cbn [In] in Ha; intuition discriminate);
                 injection E as <-; exists prog, rest, p;
                 repeat (split; [first [reflexivity | exact Hexe | exact Ew | exact Es]|]);
                 exact (@plain_words_split p rest args Es)|]);
        (split; [cbn; lia|]); (split; [discriminate|]);
        (split; [intros ? ? Hp Hn; injection Hp as <- <-; rewrite Ew in Hn; discriminate Hn|]);
        try discriminate.
      intros _. exists args. split; [right; now left|exact Ec].
    + split; [intros a [Ha|[]]; discriminate|]. split; [cbn; lia|].
      split; [discriminate|]. split; [intros ? ? Hp Hn; injection Hp as <- <-; rewrite Ew in Hn; discriminate Hn|discriminate].
  - split; [intros a [Ha|[]]; discriminate|]. split; [cbn; lia|].
    split; [discriminate|]. split; [|discriminate].
    intros prog0 rest0 H _. now injection H as <- <-.
  - split; [intros a []|]. split; [cbn; lia|].
    split; [discriminate|]. split; [intros ? ? Hp Hn; injection Hp as <- <-; rewrite Ew in Hn; discriminate Hn|discriminate].
Qed.
End Drivers.

Section PlainWords.
Local Open Scope string_scope.

Lemma append_empty_r (s : string) : s ++ EmptyString = s.
Proof. induction s as [|a s IH]; cbn; [reflexivity|now rewrite IH]. Qed.

Lemma append_assoc (a b c : string) : (a ++ b) ++ c = a ++ (b ++ c).
Proof. induction a as [|x a IH]; cbn; [reflexivity|now rewrite IH]. Qed.

Lemma words_plain (w cur s : string) :
  forallb (fun a => negb (shell_special a)) (list_ascii_of_string w) = true ->
  words cur (w ++ s) = words (cur ++ w) s.
Proof.
  revert cur. induction w as [|a w IH]; intros cur H.
  - now rewrite append_empty_r.
  - cbn [list_ascii_of_string forallb] in H. apply andb_true_iff in H. destruct H as [Ha Hw].
    cbn [append words].
    assert (Es : is_space a = false).
    { unfold shell_special in Ha. destruct (is_space a); [discriminate Ha|reflexivity]. }
    rewrite Es, (IH _ Hw), append_assoc. reflexivity.
Qed.

Lemma words_blank (cur s : string) :
  cur <> EmptyString -> words cur (String " " s) = cur :: words EmptyString s.
Proof. intros H. destruct cur; [contradiction|reflexivity]. Qed.

Lemma shell_plain_parts (w : string) :
  shell_plain w = true ->
  w <> EmptyString
  /\ forallb (fun a => negb (shell_special a)) (list_ascii_of_string w) = true.
Proof.
  unfold shell_plain. intros H. apply andb_true_iff in H. destruct H as [H1 H2].
  split; [|exact H2]. intros ->. discriminate H1.
Qed.

(** [s.split()] gives back plain words joined by blanks. *)
Lemma py_split_join (ws : list string) :
  forallb shell_plain ws = true -> py_split (String.concat " " ws) = ws.
Proof.
  unfold py_split. induction ws as [|w ws IH]; intros H; [reflexivity|].
  cbn [forallb] in H. apply andb_true_iff in H. destruct H as [Hw Hws].
  destruct (@shell_plain_parts w Hw) as [Hne Hplain].
  destruct ws as [|w' ws].
  - cbn [String.concat]. rewrite <- (append_empty_r w) at 1.
    rewrite (@words_plain w _ _ Hplain). cbn [append words].
    destruct w; [contradiction|reflexivity].
  - change (String.concat " " (w :: w' :: ws))
      with (w ++ String " " (String.concat " " (w' :: ws))).
    rewrite (@words_plain w _ _ Hplain). cbn [append].
    rewrite (@words_blank _ _ Hne), (IH Hws). reflexivity.
Qed.
End PlainWords.

Lemma run_cmd_runs_what_which_found_witness :
  In (Exec ["/usr/bin/gmsh"; "-2"; "brain.geo"]%string)
     (snd (run_cmd (T:=PrimFloat.float) plain_system "gmsh -2 brain.geo" "gmsh failed?" []))
  /\ forall args,
       In (Exec args)
          (snd (run_cmd (T:=PrimFloat.float) plain_system "gmsh -2 brain.geo" "gmsh failed?" [])) ->
       args = ["/usr/bin/gmsh"; "-2"; "brain.geo"]%string.
Proof.
  split; [vm_compute; auto|].
  intros args Hin.
  destruct (proj1 (@run_cmd_runs_what_which_found PrimFloat.float plain_system
                     "gmsh -2 brain.geo" "gmsh failed?") args Hin)
    as (prog & rest & p & Hsplit & Hwhich & _ & _ & Hplain).
  vm_compute in Hsplit. injection Hsplit as <- <-.
  vm_compute in Hwhich. injection Hwhich as <-.
  apply Hplain; [|reflexivity|reflexivity].
  intros ws Hws. cbn [plain_system shlex_split]. f_equal. now apply py_split_join.
Defined.
Section PythonMode.
Context {T : Type} {num : Scalar T}.
Variable sys : system.
Variable mods : @modules T.
Variable lib : @libraries T.
Local Open Scope string_scope.

Lemma solve_events_not_output (events : list (@event T)) (e : @script_event T) :
  In e (map Solve events) -> is_output e = false.
Proof. rewrite in_map_iff. intros (x & <- & _). reflexivity. Qed.

(** X27.  The Python mode of the two drivers.  Both begin with three
    imports of modules that are not part of the repository, and raise
    what the first failing import raises, with nothing printed, run or
    written.  With the imports done, [run_shapeDNAtetra] computes
    nothing: it prints that the option is not supported and leaves with
    exit status 1.  [run_shapeDNAtria] then runs no external program; it
    solves with [k = options.num] and without lumping, and exports only
    after the solver has returned: what it hands to [exportEV] are the
    solver's eigenvalues and eigenvectors, with Refine 0, Degree 1 and
    Dimension 2 whatever the options say, Elements the number of
    triangles and DoF the number of vertices read.  On a mesh without
    triangles or with an index outside the vertices it raises
    [IndexError] after the solver's message and exports nothing. *)
Theorem python_mode_exports_after_solving (opts : options) :
  opt_python opts = true ->
  (forall tetmesh outev,
      run_shapeDNAtetra sys mods tetmesh outev opts []
      = match first_import_error mods ["importVTKtetra"; "exportVTKtetra"; "exportEV"] with
        | Some e => (Failed e, [])
        | None => (Failed (SystemExit 1),
                   [Say "Tet option is currently not supported for python script"])
        end)
  /\ (forall surf outev outsurf e,
         first_import_error mods ["importVTK"; "exportVTK"; "exportEV"] = Some e ->
         run_shapeDNAtria sys mods lib surf outev outsurf opts [] = (Failed e, []))
  /\ (forall surf outev outsurf v t,
         first_import_error mods ["importVTK"; "exportVTK"; "exportEV"] = None ->
         importVTK mods surf = Ok (v, t) ->
         (forall args,
             ~ In (Exec args) (snd (run_shapeDNAtria sys mods lib surf outev outsurf opts [])))
         /\ (forall d f,
                In (ExportEV d f) (snd (run_shapeDNAtria sys mods lib surf outev outsurf opts [])) ->
                f = outev /\ Refine d = 0%Z /\ Degree d = 1%Z /\ Dimension d = 2%Z
                /\ Elements d = length t /\ DoF d = length v /\ NumEW d = opt_num opts
                /\ fst (laplaceTria lib v t (opt_num opts) false [])
                   = Ok (Eigenvalues d, Eigenvectors d))
         /\ (forall v' t' f,
                In (ExportVTK v' t' f)
                   (snd (run_shapeDNAtria sys mods lib surf outev outsurf opts [])) ->
                v' = v /\ t' = t /\ f = outsurf
                /\ exists d, In (ExportEV d outev)
                               (snd (run_shapeDNAtria sys mods lib surf outev outsurf opts []))
                             /\ exportEV mods d outev = None)
         /\ (t = [] \/ forallb (tria_in_bounds (length v)) t = false ->
             run_shapeDNAtria sys mods lib surf outev outsurf opts []
             = (Failed (Raised IndexError), map Solve (solver_messages lib)))).
Proof.
  intros Hpy. split; [|split].
  - intros tetmesh outev. unfold run_shapeDNAtetra, py_import. rewrite Hpy.
    cbn [negb first_import_error].
    destruct (import_from mods "importVTKtetra" "importVTKtetra"); [reflexivity|].
    destruct (import_from mods "exportVTKtetra" "exportVTKtetra"); [reflexivity|].
    destruct (import_from mods "exportEV" "exportEV"); reflexivity.
  - intros surf outev outsurf e. unfold run_shapeDNAtria, py_import. rewrite Hpy.
    cbn [negb first_import_error].
    destruct (import_from mods "importVTK" "importVTK");
      [intros H; injection H as <-; reflexivity|].
    destruct (import_from mods "exportVTK" "exportVTK");
      [intros H; injection H as <-; reflexivity|].
    destruct (import_from mods "exportEV" "exportEV");
      [intros H; injection H as <-; reflexivity|discriminate].
  - intros surf outev outsurf v t Hmods Himp.
    cbn [first_import_error] in Hmods.
    destruct (import_from mods "importVTK" "importVTK") eqn:E1; [discriminate|].
    destruct (import_from mods "exportVTK" "exportVTK") eqn:E2; [discriminate|].
    destruct (import_from mods "exportEV" "exportEV") eqn:E3; [discriminate|].
    unfold run_shapeDNAtria, py_import. rewrite Hpy, E1, E2, E3, Himp. cbn [negb].
    cbv beta iota zeta delta [sbind solve call_export semit sret sfail].
    assert (Hbad : t = [] \/ forallb (tria_in_bounds (length v)) t = false ->
                   laplaceTria lib v t (opt_num opts) false []
                   = (Err IndexError, solver_messages lib)).
    { intros H. apply laplace_assembly_error. now apply computeABtria_index_error. }
    destruct (laplaceTria lib v t (opt_num opts) false []) as [[[ev evec]|e] events] eqn:El;
      cbn [app fst snd].
    + set (d0 := {| Refine := 0; Degree := 1; Dimension := 2; Elements := length t;
                    DoF := length v; NumEW := opt_num opts;
                    Eigenvalues := ev; Eigenvectors := evec |}).
      assert (Hsolve : forall e, In e (map Solve events) -> is_output e = false)
        by apply solve_events_not_output.
      destruct (exportEV mods d0 outev) as [x|] eqn:Ee; cbv beta iota; cbn [app fst snd];
        [|destruct (exportVTK mods v t outsurf) as [y|]; cbv beta iota; cbn [app fst snd]];
        (split; [intros args Hin; rewrite ?in_app_iff in Hin; cbn [In] in Hin;
                 assert (Hs : In (Exec args) (map Solve events)) by (intuition discriminate);
                 apply Hsolve in Hs; discriminate Hs|]);
        (split; [intros d f Hin; rewrite ?in_app_iff in Hin; cbn [In] in Hin;
                 assert (Hd : ExportEV d0 outev = ExportEV d f
                              \/ In (ExportEV d f) (map Solve events))
                   by (intuition discriminate);
                 destruct Hd as [Hd|Hd]; [|apply Hsolve in Hd; discriminate Hd];
                 injection Hd as <- <-; unfold d0; cbn; repeat split; reflexivity|]);
        (split; [|intros H; discriminate (Hbad H)]).
      * intros v' t' f Hin. rewrite ?in_app_iff in Hin. cbn [In] in Hin.
        assert (Hs : In (ExportVTK v' t' f) (map Solve events)) by (intuition discriminate).
        apply Hsolve in Hs. discriminate Hs.
      * intros v' t' f Hin. rewrite ?in_app_iff in Hin. cbn [In] in Hin.
        assert (Hd : ExportVTK v t outsurf = ExportVTK v' t' f
                     \/ In (ExportVTK v' t' f) (map Solve events))
          by (intuition discriminate).
        destruct Hd as [Hd|Hd]; [|apply Hsolve in Hd; discriminate Hd].
        injection Hd as <- <- <-. split; [reflexivity|]. split; [reflexivity|].
        split; [reflexivity|]. exists d0. split; [|exact Ee].
        rewrite !in_app_iff. cbn [In]. auto.
      * intros v' t' f Hin. rewrite ?in_app_iff in Hin. cbn [In] in Hin.
        assert (Hd : ExportVTK v t outsurf = ExportVTK v' t' f
                     \/ In (ExportVTK v' t' f) (map Solve events))
          by (intuition discriminate).
        destruct Hd as [Hd|Hd]; [|apply Hsolve in Hd; discriminate Hd].
        injection Hd as <- <- <-. split; [reflexivity|]. split; [reflexivity|].
        split; [reflexivity|]. exists d0. split; [|exact Ee].
        rewrite !in_app_iff. cbn [In]. auto.
    + assert (Hsolve : forall e, In e (map Solve events) -> is_output e = false)
        by apply solve_events_not_output.
      split; [intros args Hin; apply Hsolve in Hin; discriminate Hin|].
      split; [intros d f Hin; apply Hsolve in Hin; discriminate Hin|].
      split; [intros v' t' f Hin; apply Hsolve in Hin; discriminate Hin|].
      intros H. specialize (Hbad H). now injection Hbad as <- <-.
Qed.
End PythonMode.

Lemma python_mode_exports_after_solving_witness :
  run_shapeDNAtetra small_system absent_modules "brain.vtk" "brain.ev" python_options []
  = (Failed (ModuleNotFoundError "importVTKtetra"), [])
  /\ run_shapeDNAtria small_system absent_modules standin_libraries
       "lh.white.vtk" "lh.white.ev" "out.vtk" python_options []
     = (Failed (ModuleNotFoundError "importVTK"), [])
  /\ run_shapeDNAtria small_system broken_mesh_modules standin_libraries
       "lh.white.vtk" "lh.white.ev" "out.vtk" python_options []
     = (Failed (Raised IndexError), map Solve (solver_messages standin_libraries)).
Proof.
  split; [|split].
  - exact (proj1 (@python_mode_exports_after_solving _ _ small_system absent_modules
                    standin_libraries python_options eq_refl)
             "brain.vtk"%string "brain.ev"%string).
  - exact (proj1 (proj2 (@python_mode_exports_after_solving _ _ small_system absent_modules
                           standin_libraries python_options eq_refl))
             "lh.white.vtk"%string "lh.white.ev"%string "out.vtk"%string _ eq_refl).
  - refine (proj2 (proj2 (proj2 (proj2 (proj2
              (@python_mode_exports_after_solving _ _ small_system
                 broken_mesh_modules standin_libraries python_options eq_refl))
              "lh.white.vtk"%string "lh.white.ev"%string "out.vtk"%string _ _
              eq_refl eq_refl))) _).
    right. reflexivity.
Defined.

Section Lumping.
Local Open Scope R_scope.

Lemma diagonal_triples_entry (l : list (nat * nat * R)) (i j : nat) :
  Forall (fun e => fst (fst e) = snd (fst e)) l -> i <> j ->
  total (map (at_pos i j) l) = 0.
Proof.
  intros H Hij. apply total_zero. intros [[r c] x] Hin.
  rewrite Forall_forall in H. specialize (H _ Hin). cbn [fst snd] in H. subst c.
  unfold at_pos. destruct (Nat.eqb_spec r i), (Nat.eqb_spec r j); cbn [andb]; try reflexivity.
  congruence.
Qed.

(** X28.  Lumping changes the mass matrix only.  On every mesh with at
    least one cell and all indices in bounds, [computeABtria] and
    [computeABtetra] return the same stiffness matrix with [lump] set or
    not, and the lumped mass matrix is diagonal: all its entries off the
    diagonal are zero. *)
Theorem lumping_changes_only_mass :
  (forall (v : list (@vec3 R)) (t : list tria),
      forallb (tria_in_bounds (length v)) t = true -> t <> [] ->
      exists A B B',
        computeABtria v t true = Ok (A, B) /\ computeABtria v t false = Ok (A, B')
        /\ forall i j, i <> j -> entry B i j = 0)
  /\
  (forall (v : list (@vec3 R)) (t : list tetra),
      forallb (tetra_in_bounds (length v)) t = true -> t <> [] ->
      exists A B B',
        computeABtetra v t true = Ok (A, B) /\ computeABtetra v t false = Ok (A, B')
        /\ forall i j, i <> j -> entry B i j = 0).
Proof.
  split; intros v t Hb Ht.
  - rewrite !(computeABtria_cells v _ Hb Ht).
    do 3 eexists. split; [reflexivity|]. split; [reflexivity|].
    intros i j Hij. unfold entry. cbn [triples].
    apply diagonal_triples_entry; [|exact Hij].
    apply Forall_flat_map, Forall_forall. intros [[a b] d] _.
    unfold tria_localB. cbn [negb]. repeat constructor.
  - rewrite !(computeABtetra_cells v _ Hb Ht).
    do 3 eexists. split; [reflexivity|]. split; [reflexivity|].
    intros i j Hij. unfold entry. cbn [triples].
    apply diagonal_triples_entry; [|exact Hij].
    apply Forall_flat_map, Forall_forall. intros [[[a b] d] e] _.
    unfold tetra_localB. cbn [negb]. repeat constructor.
Qed.
End Lumping.

Lemma lumping_changes_only_mass_witness :
  (exists A B B',
      computeABtria right_corners one_triangle true = Ok (A, B)
      /\ computeABtria right_corners one_triangle false = Ok (A, B')
      /\ forall i j, i <> j -> entry B i j = 0%R)
  /\ (exists A B B',
         computeABtetra unit_corners unit_tetra true = Ok (A, B)
         /\ computeABtetra unit_corners unit_tetra false = Ok (A, B')
         /\ forall i j, i <> j -> entry B i j = 0%R).
Proof.
  split.
  - apply (proj1 lumping_changes_only_mass right_corners one_triangle);
      [reflexivity | discriminate].
  - apply (proj2 lumping_changes_only_mass unit_corners unit_tetra);
      [reflexivity | discriminate].
Defined.

Section LevelsetEdges.
Context {T : Type} {num : Scalar T}.

Lemma cut_edge_numbering (v : list (@vec3 T)) (p lvl : list T) (a b : nat)
  (st st' : cut_state) (k : nat) :
  cut_edge v p lvl a b st = Ok (k, st') ->
  edge_numbering (seen st) (length (vi st)) ->
  edge_numbering (seen st') (length (vi st'))
  /\ k = seen st' a b /\ k <> 0%nat
  /\ (forall c d, seen st c d <> 0%nat -> seen st' c d = seen st c d).
Proof.
  unfold cut_edge. destruct (negb _); [discriminate|].
  intros H (Hsym & Hle & Hinj & Hsur).
  destruct (Nat.eqb_spec (seen st a b) 0) as [E|E].
  - apply bind_inv in H. destruct H as (v10 & _ & H). injection H as <- <-.
    cbn [seen vi]. rewrite length_app. cbn [length]. rewrite Nat.add_1_r.
    set (x := S (length (vi st))).
    assert (Hx : forall c d, seen st c d <> x) by (intros c d; specialize (Hle c d); lia).
    assert (Hnew : forall c d,
               set_seen (set_seen (seen st) a b x) b a x c d
               = if (((c =? a) && (d =? b)) || ((c =? b) && (d =? a)))%nat
                 then x else seen st c d).
    { intros c d. unfold set_seen.
      destruct ((c =? b) && (d =? a))%nat, ((c =? a) && (d =? b))%nat; reflexivity. }
    assert (Hedge : forall c d,
               (((c =? a) && (d =? b)) || ((c =? b) && (d =? a)))%nat = true
               <-> (c = a /\ d = b) \/ (c = b /\ d = a)).
    { intros c d. rewrite orb_true_iff, !andb_true_iff, !Nat.eqb_eq. tauto. }
    split; [|split; [|split]].
    + split; [|split; [|split]].
      * intros c d. rewrite !Hnew.
        replace (((d =? a) && (c =? b)) || ((d =? b) && (c =? a)))%nat
          with (((c =? a) && (d =? b)) || ((c =? b) && (d =? a)))%nat
          by (rewrite orb_comm, (andb_comm (d =? b)%nat), (andb_comm (d =? a)%nat);
              reflexivity).
        destruct (_ || _); [reflexivity|apply Hsym].
      * intros c d. rewrite Hnew. destruct (_ || _); [lia|].
        specialize (Hle c d). lia.
      * intros c d c' d'. rewrite !Hnew.
        destruct (((c =? a) && (d =? b)) || ((c =? b) && (d =? a)))%nat eqn:E1;
          destruct (((c' =? a) && (d' =? b)) || ((c' =? b) && (d' =? a)))%nat eqn:E2.
        -- intros _ _. apply Hedge in E1, E2. intuition congruence.
        -- intros _ Heq. symmetry in Heq. now apply Hx in Heq.
        -- intros _ Heq. now apply Hx in Heq.
        -- apply Hinj.
      * intros j Hj. destruct (Nat.eq_dec j x) as [->|Hjx].
        -- exists a, b. rewrite Hnew, !Nat.eqb_refl. reflexivity.
        -- destruct (Hsur j) as (c & d & Hcd); [lia|].
           exists c, d. rewrite Hnew.
           destruct (_ || _) eqn:E1; [|exact Hcd].
           apply Hedge in E1. pose proof E as E'. rewrite Hsym in E'.
           destruct E1 as [[-> ->]|[-> ->]]; lia.
    + rewrite Hnew, !Nat.eqb_refl. reflexivity.
    + discriminate.
    + intros c d Hcd. rewrite Hnew. destruct (_ || _) eqn:E1; [|reflexivity].
      apply Hedge in E1. pose proof E as E'. rewrite Hsym in E'.
      destruct E1 as [[-> ->]|[-> ->]]; congruence.
  - injection H as <- <-. repeat split; auto.
Qed.

Lemma joins_edges_kept (t : list tria) (f g : nat -> nat -> nat) (i : nat)
  (seg : nat * nat) :
  (forall c d, f c d <> 0%nat -> g c d = f c d) ->
  joins_edges t f i seg -> joins_edges t g i seg.
Proof.
  intros H (c & a & b0 & b1 & Hc & Hin & H0 & H1 & ->).
  exists c, a, b0, b1. rewrite !H by assumption. auto.
Qed.

Lemma cut_tria_numbering (v : list (@vec3 T)) (t : list tria) (p lvl : list T)
  (nlvl : list (list bool)) (i : nat) (st st' : cut_state) (ti ti' : list (nat * nat)) :
  cut_tria v t p lvl nlvl i (st, ti) = Ok (st', ti') ->
  edge_numbering (seen st) (length (vi st)) ->
  edge_numbering (seen st') (length (vi st'))
  /\ (forall c d, seen st c d <> 0%nat -> seen st' c d = seen st c d)
  /\ exists seg, ti' = ti ++ [seg] /\ joins_edges t (seen st') i seg.
Proof.
  unfold cut_tria. intros H Hst.
  apply bind_inv in H. destruct H as (row & _ & H).
  apply bind_inv in H. destruct H as (c & Hc & H).
  apply bind_inv in H. destruct H as (o & Ho & H).
  apply bind_inv in H. destruct H as (a & Ha & H).
  apply bind_inv in H. destruct H as (x0 & Hx0 & H).
  apply bind_inv in H. destruct H as (b0 & Hb0 & H).
  apply bind_inv in H. destruct H as ([k1 st1] & H1 & H).
  apply bind_inv in H. destruct H as (x1 & Hx1 & H).
  apply bind_inv in H. destruct H as (b1 & Hb1 & H).
  apply bind_inv in H. destruct H as ([k2 st2] & H2 & H).
  injection H as <- <-.
  destruct (cut_edge_numbering _ _ _ _ _ _ H1 Hst) as (Hst1 & Ek1 & Hk1 & Hkeep1).
  destruct (cut_edge_numbering _ _ _ _ _ _ H2 Hst1) as (Hst2 & Ek2 & Hk2 & Hkeep2).
  split; [exact Hst2|]. split.
  { intros c' d' Hcd. rewrite Hkeep2; rewrite Hkeep1; auto. }
  eexists. split; [reflexivity|].
  exists c, a, b0, b1. split; [now apply item_at_Some|].
  assert (Ek1' : seen st2 a b0 = k1) by (rewrite Hkeep2; congruence).
  split; [|split; [congruence|split; [congruence|congruence]]].
  set (oi := if (length (positions row) =? 2)%nat
             then setdiff012 (positions row) else positions row) in *.
  destruct oi as [|o' [|? ?]]; try discriminate Ho. injection Ho as ->.
  destruct o as [|[|[|o]]]; cbn in Ha, Hx0, Hx1; try discriminate Ha;
    injection Ha as <-; injection Hx0 as <-; injection Hx1 as <-;
    cbn in Hb0, Hb1; injection Hb0 as <-; injection Hb1 as <-;
    cbn [In]; auto.
Qed.

Lemma cut_all_numbering (v : list (@vec3 T)) (t : list tria) (p lvl : list T)
  (nlvl : list (list bool)) (n n0 : list nat) (st st' : cut_state)
  (ti ti' : list (nat * nat)) :
  cut_all v t p lvl nlvl n (st, ti) = Ok (st', ti') ->
  edge_numbering (seen st) (length (vi st)) ->
  Forall2 (joins_edges t (seen st)) n0 ti ->
  edge_numbering (seen st') (length (vi st'))
  /\ Forall2 (joins_edges t (seen st')) (n0 ++ n) ti'.
Proof.
  revert n0 st ti. induction n as [|i n IH]; intros n0 st ti; cbn [cut_all].
  - intros H. injection H as <- <-. rewrite app_nil_r. auto.
  - intros H Hst Hti. apply bind_inv in H. destruct H as ([st1 ti1] & H1 & H).
    destruct (@cut_tria_numbering _ _ _ _ _ _ _ _ _ _ H1 Hst) as (Hst1 & Hkeep & seg & -> & Hseg).
    replace (n0 ++ i :: n) with ((n0 ++ [i]) ++ n) by (rewrite <- app_assoc; reflexivity).
    apply (IH _ _ _ H Hst1).
    apply Forall2_app; [|repeat constructor; exact Hseg].
    eapply Forall2_impl; [|exact Hti].
    intros j s. now apply joins_edges_kept.
Qed.

Lemma cut_level_numbering (v : list (@vec3 T)) (t : list tria) (p lvl : list T)
  (pts : list (@vec3 T)) (ti : list (nat * nat)) (n : list nat) :
  cut_level v t p lvl = Ok (pts, ti, n) ->
  exists number,
    edge_numbering number (length pts) /\ Forall2 (joins_edges t number) n ti.
Proof.
  unfold cut_level. intros H.
  apply bind_inv in H. destruct H as (pt & _ & H).
  destruct (negb _); [discriminate|].
  apply bind_inv in H. destruct H as ([st ti0] & Hall & H). injection H as <- <- <-.
  exists (seen st).
  apply (@cut_all_numbering _ _ _ _ _ _ [] _ _ _ _ Hall); cbn [seen vi length].
  - repeat split; try reflexivity; lia.
  - constructor.
Qed.

(** X29.  [levelsetsTria] gives every cut edge one point.  For each level
    there is a numbering of the mesh edges by the points of that level
    (1-based, 0 for no point) under which both directions of an edge have
    the same number, two edges with the same number are the same edge,
    and every point is the number of an edge; each segment of [lLVL]
    joins the points of two edges of the triangle listed at its place in
    [iLVL], both leaving one vertex of it.  So two triangles that are cut
    along a shared edge meet in one point, and no point is stored twice
    for an edge. *)
Theorem levelsetsTria_one_point_per_edge (v : list (@vec3 T)) (t : list tria)
  (p : list T) (levelsets : levels) (vLVL : list (list (@vec3 T)))
  (lLVL : list (list (nat * nat))) (iLVL : list (list nat)) :
  levelsetsTria v t p levelsets = Ok (vLVL, lLVL, iLVL) ->
  forall k pts ti n,
    nth_error vLVL k = Some pts -> nth_error lLVL k = Some ti ->
    nth_error iLVL k = Some n ->
    exists number,
      edge_numbering number (length pts) /\ Forall2 (joins_edges t number) n ti.
Proof.
  unfold levelsetsTria. intros H.
  apply bind_inv in H. destruct H as (rows & Hrows & H).
  apply bind_inv in H. destruct H as (out & Hout & H). injection H as <- <- <-.
  apply mapM_Forall2 in Hout.
  intros k pts ti n Hv Hl Hi.
  rewrite nth_error_map in Hv, Hl, Hi.
  destruct (nth_error out k) as [[[pts' ti'] n']|] eqn:Ek; [|discriminate].
  cbn in Hv, Hl, Hi. injection Hv as <-. injection Hl as <-. injection Hi as <-.
  assert (Hin : exists lvl, cut_level v t p lvl = Ok (pts', ti', n')).
  { clear -Hout Ek. revert k Ek. induction Hout as [|lvl r rows out Hr _ IH]; intros k Ek.
    - destruct k; discriminate.
    - destruct k as [|k]; [injection Ek as <-; eauto|]. exact (IH k Ek). }
  destruct Hin as (lvl & Hlvl). now apply cut_level_numbering in Hlvl.
Qed.
End LevelsetEdges.

Lemma levelsetsTria_one_point_per_edge_witness :
  exists number,
    edge_numbering number 3
    /\ Forall2 (joins_edges square_trias number) [0; 1]%nat [(1, 2); (2, 3)]%nat.
Proof.
  refine (@levelsetsTria_one_point_per_edge _ _ square_corners_f square_trias
           square_function_f (Level half_f)
           [[(half_f, of_Z 0, of_Z 0); (half_f, half_f, of_Z 0); (half_f, of_Z 1, of_Z 0)]]
           [[(1, 2); (2, 3)]]%nat [[0; 1]]%nat _
           0%nat
           [(half_f, of_Z 0, of_Z 0); (half_f, half_f, of_Z 0); (half_f, of_Z 1, of_Z 0)]
           [(1, 2); (2, 3)]%nat [0; 1]%nat _ _ _);
    vm_compute; reflexivity.
Defined.

Section LevelsetTriangles.
Context {T : Type} {num : Scalar T}.
Local Open Scope num_scope.

Lemma where_cut_from (g : list bool -> bool) (nlvl : list (list bool)) (s i : nat) :
  In i (map fst (filter (fun ir => g (snd ir)) (combine (seq s (length nlvl)) nlvl)))
  <-> (s <= i)%nat /\ exists row, nth_error nlvl (i - s) = Some row /\ g row = true.
Proof.
  revert s. induction nlvl as [|r nlvl IH]; intros s; cbn [length seq combine filter map].
  - split; [intros []|]. intros (_ & row & H & _). destruct (i - s)%nat; discriminate.
  - cbn [snd].
    assert (Hrest : In i (map fst (filter (fun ir => g (snd ir))
                                      (combine (seq (S s) (length nlvl)) nlvl)))
                    <-> (s < i)%nat /\ exists row, nth_error (r :: nlvl) (i - s) = Some row
                                                   /\ g row = true).
    { rewrite IH. split; intros (Hi & row & Hrow & Hg); (split; [lia|]); exists row;
        (split; [|exact Hg]).
      - replace (i - s)%nat with (S (i - S s)) by lia. exact Hrow.
      - replace (i - s)%nat with (S (i - S s)) in Hrow by lia. exact Hrow. }
    destruct (g r) eqn:Er; cbn [map fst In]; rewrite Hrest.
    + split.
      * intros [<-|(Hi & H)]; [|split; [lia|exact H]].
        split; [lia|]. exists r. rewrite Nat.sub_diag. auto.
      * intros (Hi & row & Hrow & Hg).
        destruct (Nat.eq_dec s i) as [E|E]; [now left|right].
        split; [lia|eauto].
    + split.
      * intros (Hi & H). split; [lia|exact H].
      * intros (Hi & row & Hrow & Hg). split; [|eauto].
        destruct (Nat.eq_dec s i) as [<-|E]; [|lia].
        rewrite Nat.sub_diag in Hrow. cbn in Hrow. congruence.
Qed.

Lemma where_cut_sorted_from (g : list bool -> bool) (nlvl : list (list bool)) (s : nat) :
  StronglySorted lt
    (map fst (filter (fun ir => g (snd ir)) (combine (seq s (length nlvl)) nlvl))).
Proof.
  revert s. induction nlvl as [|r nlvl IH]; intros s; cbn [length seq combine filter map].
  - constructor.
  - cbn [snd]. destruct (g r); [|apply IH]. cbn [map fst]. constructor; [apply IH|].
    apply Forall_forall. intros i Hi. apply where_cut_from in Hi. lia.
Qed.

Lemma where_cut_lists (nlvl : list (list bool)) (i : nat) :
  In i (where_cut nlvl)
  <-> exists row, nth_error nlvl i = Some row
                  /\ (count_true row = 1 \/ count_true row = 2)%nat.
Proof.
  unfold where_cut.
  rewrite (where_cut_from (fun r => ((count_true r =? 1) || (count_true r =? 2))%nat)).
  rewrite Nat.sub_0_r. split.
  - intros (_ & row & Hrow & Hg). exists row. split; [exact Hrow|].
    apply orb_true_iff in Hg. rewrite !Nat.eqb_eq in Hg. exact Hg.
  - intros (row & Hrow & Hg). split; [lia|]. exists row. split; [exact Hrow|].
    apply orb_true_iff. rewrite !Nat.eqb_eq. exact Hg.
Qed.

Lemma count_true_mixed (b0 b1 b2 : bool) :
  (count_true [b0; b1; b2] = 1 \/ count_true [b0; b1; b2] = 2)%nat
  <-> (b0 = true \/ b1 = true \/ b2 = true) /\ (b0 = false \/ b1 = false \/ b2 = false).
Proof.
  destruct b0, b1, b2; cbn; split; intros H; try tauto; try lia;
    try (split; auto; fail);
    destruct H as [[H|[H|H]] [H'|[H'|H']]]; discriminate.
Qed.

Lemma Forall2_nth_error_l {A B} (R : A -> B -> Prop) (l : list A) (l' : list B)
  (i : nat) (x : A) :
  Forall2 R l l' -> nth_error l i = Some x -> exists y, nth_error l' i = Some y /\ R x y.
Proof.
  intros H. revert i. induction H as [|a b l l' Hab _ IH]; intros [|i]; cbn; try discriminate.
  - intros E. injection E as <-. eauto.
  - apply IH.
Qed.

Lemma Forall2_nth_error_r {A B} (R : A -> B -> Prop) (l : list A) (l' : list B)
  (i : nat) (y : B) :
  Forall2 R l l' -> nth_error l' i = Some y -> exists x, nth_error l i = Some x /\ R x y.
Proof.
  intros H. revert i. induction H as [|a b l l' Hab _ IH]; intros [|i]; cbn; try discriminate.
  - intros E. injection E as <-. eauto.
  - apply IH.
Qed.

Lemma p_at_values (p : list T) (c : tria) (p0 p1 p2 : T) :
  p_at p c = Ok (p0, p1, p2)
  <-> nth_error p (tria0 c) = Some p0 /\ nth_error p (tria1 c) = Some p1
      /\ nth_error p (tria2 c) = Some p2.
Proof.
  unfold p_at, item_at.
  destruct (nth_error p (tria0 c)), (nth_error p (tria1 c)), (nth_error p (tria2 c));
    cbn [bind]; split; intros H; try discriminate;
    try (destruct H as (H0 & H1 & H2); discriminate).
  - injection H as <- <- <-. auto.
  - destruct H as (H0 & H1 & H2). congruence.
Qed.

(** X30.  Which triangles [levelsetsTria] lists for a level [x] (a single
    number).  When it returns, [iLVL] has one entry, which lists in
    increasing order and without repetition exactly the triangles that
    have a vertex where [p] is greater than [x] and a vertex where it is
    not: a triangle with a vertex value equal to [x] and the two others
    not above [x] is not cut, and neither is one with all values above. *)
Theorem levelsetsTria_lists_crossed_triangles (v : list (@vec3 T)) (t : list tria)
  (p : list T) (x : T) (vLVL : list (list (@vec3 T))) (lLVL : list (list (nat * nat)))
  (iLVL : list (list nat)) :
  levelsetsTria v t p (Level x) = Ok (vLVL, lLVL, iLVL) ->
  exists n,
    iLVL = [n]
    /\ StronglySorted lt n
    /\ forall i,
         In i n <->
         exists c p0 p1 p2,
           nth_error t i = Some c
           /\ nth_error p (tria0 c) = Some p0 /\ nth_error p (tria1 c) = Some p1
           /\ nth_error p (tria2 c) = Some p2
           /\ ((x <? p0) = true \/ (x <? p1) = true \/ (x <? p2) = true)
           /\ ((x <? p0) = false \/ (x <? p1) = false \/ (x <? p2) = false).
Proof.
  unfold levelsetsTria. cbn [array_2d bind mapM]. intros H.
  apply bind_inv in H. destruct H as (out & Hout & H). injection H as <- <- <-.
  apply bind_inv in Hout. destruct Hout as ([[pts ti] n] & Hlvl & Hout).
  injection Hout as <-. exists n. split; [reflexivity|].
  unfold cut_level in Hlvl.
  apply bind_inv in Hlvl. destruct Hlvl as (pt & Hpt & Hlvl).
  cbn [broadcasts length Nat.eqb orb negb] in Hlvl.
  apply bind_inv in Hlvl. destruct Hlvl as ([st ti0] & _ & Hlvl). injection Hlvl as _ _ <-.
  apply mapM_Forall2 in Hpt.
  split.
  { unfold where_cut.
    apply (where_cut_sorted_from
             (fun r => ((count_true r =? 1) || (count_true r =? 2))%nat)). }
  intros i. rewrite where_cut_lists. split.
  - intros (row & Hrow & Hc). rewrite nth_error_map in Hrow.
    destruct (nth_error pt i) as [[[p0 p1] p2]|] eqn:Ei; [|discriminate].
    cbn in Hrow. injection Hrow as <-.
    destruct (Forall2_nth_error_r i Hpt Ei) as (c & Hc' & Hp).
    exists c, p0, p1, p2. apply p_at_values in Hp.
    apply count_true_mixed in Hc. tauto.
  - intros (c & p0 & p1 & p2 & Hc & H0 & H1 & H2 & Hmix).
    destruct (Forall2_nth_error_l i Hpt Hc) as ([[q0 q1] q2] & Hq & Hp).
    apply p_at_values in Hp. destruct Hp as (E0 & E1 & E2).
    assert (q0 = p0) by congruence. assert (q1 = p1) by congruence.
    assert (q2 = p2) by congruence. subst q0 q1 q2.
    exists (above [x] (p0, p1, p2)). rewrite nth_error_map, Hq. split; [reflexivity|].
    apply count_true_mixed. exact Hmix.
Qed.
End LevelsetTriangles.

Lemma levelsetsTria_lists_crossed_triangles_witness :
  exists n,
    [[0; 1]]%nat = [n]
    /\ StronglySorted lt n
    /\ forall i,
         In i n <->
         exists c p0 p1 p2,
           nth_error square_trias i = Some c
           /\ nth_error square_function_f (tria0 c) = Some p0
           /\ nth_error square_function_f (tria1 c) = Some p1
           /\ nth_error square_function_f (tria2 c) = Some p2
           /\ ((half_f <? p0)%num = true \/ (half_f <? p1)%num = true
               \/ (half_f <? p2)%num = true)
           /\ ((half_f <? p0)%num = false \/ (half_f <? p1)%num = false
               \/ (half_f <? p2)%num = false).
Proof.
  refine (@levelsetsTria_lists_crossed_triangles _ _ square_corners_f square_trias
            square_function_f half_f
            [[(half_f, of_Z 0, of_Z 0); (half_f, half_f, of_Z 0); (half_f, of_Z 1, of_Z 0)]]
            [[(1, 2); (2, 3)]]%nat [[0; 1]]%nat _).
  vm_compute. reflexivity.
Defined.
